(** * Stacks Discord scraper: a shallow embedding of the scraper, the store
      and the staged LLM pipeline, with the properties of the specification.

    One module per source file:
    - [Config]      utils/config.js        (the options the code reads)
    - [Tokens]      ai/tokens.js           (token estimate, batch packing)
    - [Retry]       ai/client.js           (processWithRetry)
    - [Validation]  ai/validation.js       (the four response schemas)
    - [Privacy]     utils/privacy.js       (anonymizer)
    - [Store]       storage/repositories   (the SQL statements, as table updates)
    - [Messages]    scraper/messages.js    (the paginated generator)
    - [Scrape]      cli/commands/scrape.js (the scrape pass)
    - [Filter]      ai/stages/filter.js    (the filter stage)
    - [Process]     cli/commands/process.js (the reset command)

    Conventions.  JavaScript strings are [string], holding the UTF-8
    bytes of the text; a value that may be [null]/[undefined] is an
    [option]; truthiness is written out where the source relies on it.
    Numbers that the code only uses as integers are [Z] or [nat]; the
    retry delays and the age limit of [shouldProcess], which are
    fractional, are doubles: rationals, with every operation rounded to
    the nearest double ([Double]).  SQL tables are finite maps keyed by
    their primary or unique key, except [messages], which is kept in row
    order because queries sort it.  What the code takes from its
    surroundings is a parameter: the chat service, the model, [Math.random],
    [JSON.parse], the reading of a date, [toLowerCase]. *)

From Stdlib Require Import ZArith QArith Qround String Ascii List Lia Bool.
From Stdlib Require Import DecimalString DecimalNat DecimalFacts Qpower Lqa.
From Stdlib Require Import Qabs.
From Stdlib Require Import Sorted Permutation.
From stdpp Require Import gmap strings list.

Local Open Scope Z_scope.

(** ** Truthiness of the JavaScript values the code tests *)

Definition truthy_str (s : string) : bool :=
  match s with EmptyString => false | _ => true end.

Definition truthy_ostr (o : option string) : bool :=
  match o with Some s => truthy_str s | None => false end.

Definition truthy_Z (n : Z) : bool := negb (n =? 0).

Definition truthy_oZ (o : option Z) : bool :=
  match o with Some n => truthy_Z n | None => false end.

(** [s.length]: the UTF-16 code units of the text, of which the [string]
    holds the UTF-8 bytes.  A character of one to three bytes is one
    unit, a character of four bytes is two; the bytes that continue a
    character count for nothing. *)
Fixpoint jsLength (s : string) : nat :=
  match s with
  | EmptyString => 0
  | String c rest =>
      let byte := nat_of_ascii c in
      ((if byte <? 128 then 1
        else if byte <? 192 then 0
        else if byte <? 240 then 1
        else 2) + jsLength rest)%nat
  end.

(** ** utils/config.js *)

Module Config.

Record t := {
  ai_model : string;
  ai_batchSize : Z;
  ai_maxTokensPerBatch : Z;
  ai_retryAttempts : Z;
  ai_retryDelayMs : Q;
  scraper_backoffMultiplier : Q;
  privacy_anonymizeInPrompts : bool
}.

End Config.

(** ** ai/tokens.js *)

Module Tokens.

(** [Math.ceil(text.length / 4)], and [0] for a falsy (empty) text. *)
Definition estimateTokens (text : string) : nat :=
  if truthy_str text then (jsLength text + 3) / 4 else 0%nat.

Record BatchOptions := {
  maxTokens : option Z;
  maxMessages : option Z
}.

Section Batching.

Context {Message : Type}.

(** [JSON.stringify] on the items being batched. *)
Variable stringify : Message -> string.

Definition messageTokens (m : Message) : nat :=
  estimateTokens (stringify m).

Definition batchTokens (b : list Message) : nat :=
  list_sum (map messageTokens b).

(** The three loop variables of [createBatches]. *)
Record BatchState := {
  batches : list (list Message);
  currentBatch : list Message;
  currentTokens : nat
}.

Definition limitsExceeded (maxT maxM : Z) (st : BatchState) (mt : nat) : bool :=
  ((Z.of_nat (currentTokens st + mt) >? maxT)
     && (0 <? length (currentBatch st))%nat)
  || (Z.of_nat (length (currentBatch st)) >=? maxM).

(** One iteration of [for (const message of messages)]. *)
Definition batchStep (maxT maxM : Z) (st : BatchState) (message : Message)
  : BatchState :=
  let mt := messageTokens message in
  let st1 :=
    if limitsExceeded maxT maxM st mt
    then {| batches := batches st ++ [currentBatch st];
            currentBatch := [];
            currentTokens := 0 |}
    else st in
  {| batches := batches st1;
     currentBatch := currentBatch st1 ++ [message];
     currentTokens := (currentTokens st1 + mt)%nat |}.

(** The code after the loop: push what remains. *)
Definition batchFinish (st : BatchState) : list (list Message) :=
  if (0 <? length (currentBatch st))%nat
  then batches st ++ [currentBatch st]
  else batches st.

Definition createBatchesWith (maxT maxM : Z) (messages : list Message)
  : list (list Message) :=
  batchFinish
    (fold_left (batchStep maxT maxM) messages
       {| batches := []; currentBatch := []; currentTokens := 0 |}).

Definition createBatches (config : Config.t) (messages : list Message)
    (options : BatchOptions) : list (list Message) :=
  createBatchesWith
    (default (Config.ai_maxTokensPerBatch config) (maxTokens options))
    (default (Config.ai_batchSize config) (maxMessages options))
    messages.

(** What the specification asks of one emitted batch. *)
Definition batch_ok (maxT maxM : Z) (b : list Message) : Prop :=
  b <> [] /\
  Z.of_nat (length b) <= maxM /\
  (Z.of_nat (batchTokens b) <= maxT \/
   exists m, b = [m] /\ maxT < Z.of_nat (messageTokens m)).

(** The loop invariant. *)
Definition batch_inv (maxT maxM : Z) (st : BatchState) : Prop :=
  Forall (batch_ok maxT maxM) (batches st) /\
  currentTokens st = batchTokens (currentBatch st) /\
  (currentBatch st = [] \/ batch_ok maxT maxM (currentBatch st)).

Definition batch_contents (st : BatchState) : list Message :=
  concat (batches st) ++ currentBatch st.

End Batching.

End Tokens.

(** ** JavaScript errors and results *)

(** The fields of a thrown error that the code inspects. *)
Record JsError := {
  err_status : option Z;
  err_code : option string;
  err_message : string
}.

Definition mkError (msg : string) : JsError :=
  {| err_status := None; err_code := None; err_message := msg |}.

(** A call either throws or returns. *)
Inductive Result (A : Type) : Type :=
| Throw (e : JsError)
| Ok (a : A).
Arguments Throw {A} e.
Arguments Ok {A} a.

(** ** JavaScript numbers

    A number is an IEEE 754 double; the finite ones are rationals, and an
    arithmetic operation gives the exact result rounded to the nearest
    double, ties to the even one.  Results too large for a double
    ([Infinity]) and [NaN] have no counterpart here: the statements that
    depend on it say so. *)

Module Double.

Local Open Scope Q_scope.

(** [floor (log2 x)], for a positive [x]. *)
Definition ilog2 (x : Q) : Z :=
  let e := (Z.log2 (Qnum x) - Z.log2 (Zpos (Qden x)))%Z in
  if Qle_bool (2 ^ e) x then e else (e - 1)%Z.

(** The nearest integer, ties to the even one. *)
Definition nearestEven (y : Q) : Z :=
  let n := Qfloor y in
  match Qcompare (y - inject_Z n) (1 # 2) with
  | Lt => n
  | Gt => (n + 1)%Z
  | Eq => if Z.even n then n else (n + 1)%Z
  end.

(** The exponent of the last binary place of the doubles around [x]: 53
    significant bits, and no place below [2^-1074]. *)
Definition quantum (x : Q) : Z := Z.max (ilog2 (Qabs x) - 52) (-1074).

(** The double nearest to [x]. *)
Definition round (x : Q) : Q :=
  if Qeq_bool x 0 then 0
  else
    let q := quantum x in
    Qred (inject_Z (nearestEven (x / 2 ^ q)) * 2 ^ q).

(** Half a unit in the last place of 1: the relative error of one
    operation; and the absolute error of one below the normal range. *)
Definition unitRoundoff : Q := 2 ^ (-53).
Definition tiny : Q := 2 ^ (-1075).

End Double.

(** ** ai/client.js: processWithRetry *)

Module Retry.

Local Open Scope Q_scope.

Record RetryOptions := {
  maxRetries : option Z;
  baseDelay : option Q;
  backoffMultiplier : option Q;
  maxDelay : option Q
}.

Definition noOptions : RetryOptions :=
  {| maxRetries := None; baseDelay := None;
     backoffMultiplier := None; maxDelay := None |}.

(** What the driver does that the outside can observe. *)
Inductive Event :=
| Request
| Sleep (ms : Z).

(** How [processWithRetry] ends: it returns the value of [fn], rethrows
    an error of [fn], or leaves the [for] loop and returns [undefined]. *)
Inductive Outcome (A : Type) : Type :=
| Returned (a : A)
| Thrown (e : JsError)
| FellThrough.
Arguments Returned {A} a.
Arguments Thrown {A} e.
Arguments FellThrough {A}.

Definition isRetryable (error : JsError) : bool :=
  match err_status error with
  | Some s => ((s =? 429) || (s =? 500) || (s =? 503))%Z
  | None => false
  end
  || match err_code error with
     | Some c => String.eqb c "ECONNRESET" || String.eqb c "ETIMEDOUT"
     | None => false
     end.

Definition Qminimum (a b : Q) : Q := if Qle_bool a b then a else b.

(** [Math.round]: the nearest integer, halves upwards. *)
Definition mathRound (x : Q) : Z := Qfloor (x + (1 # 2)).

(** The literal [0.1]. *)
Definition tenth : Q := Double.round (1 # 10).

(** [Math.pow(base, exponent)] for the whole exponents of the loop, taken
    as the power correctly rounded.  That is what an engine returns for
    the exponents 0, 1 and 2; for a larger one its result may differ in
    the last place, which is why no statement below rests on the exact
    value of a later delay. *)
Definition Math_pow (base : Q) (exponent : Z) : Q :=
  Double.round (base ^ exponent).

(** [Math.min(baseDelay * Math.pow(backoffMultiplier, attempt - 1), maxDelay)] *)
Definition backoffDelay (baseD mult maxD : Q) (attempt : Z) : Q :=
  Qminimum (Double.round (baseD * Math_pow mult (attempt - 1))) maxD.

(** [Math.round(delay + delay * 0.1 * Math.random())], the products taken
    from left to right. *)
Definition totalDelay (delay random : Q) : Z :=
  mathRound
    (Double.round
       (delay + Double.round (Double.round (delay * tenth) * random))).

Section Driver.

Context {A : Type}.

(** [fn k] is what the [k]-th call of the wrapped function does, and
    [random k] what the [k]-th call of [Math.random] returns. *)
Variable fn : nat -> Result A.
Variable random : nat -> Q.

Variables (maxR : Z) (baseD mult maxD : Q).

(** The body of [for (attempt = 1; attempt <= maxRetries; attempt++)],
    over the values [attempt] still has to take; [k] counts the calls
    made so far. *)
Fixpoint attemptLoop (attempts : list Z) (k : nat)
  : Outcome A * list Event :=
  match attempts with
  | [] => (FellThrough, [])
  | attempt :: rest =>
      match fn k with
      | Ok a => (Returned a, [Request])
      | Throw error =>
          if negb (isRetryable error) || (attempt =? maxR)%Z
          then (Thrown error, [Request])
          else
            let delay := backoffDelay baseD mult maxD attempt in
            let '(out, evs) := attemptLoop rest (S k) in
            (out, Request :: Sleep (totalDelay delay (random k)) :: evs)
      end
  end.

(** The values of [attempt]: 1, 2, ..., maxRetries. *)
Definition attemptRange : list Z :=
  map (fun i => Z.of_nat i) (seq 1 (Z.to_nat maxR)).

End Driver.

Definition processWithRetry {A} (config : Config.t)
    (fn : nat -> Result A) (random : nat -> Q) (options : RetryOptions)
  : Outcome A * list Event :=
  let maxR := default (Config.ai_retryAttempts config) (maxRetries options) in
  let baseD := default (Config.ai_retryDelayMs config) (baseDelay options) in
  let mult :=
    default (Config.scraper_backoffMultiplier config) (backoffMultiplier options) in
  let maxD := default (30000 # 1) (maxDelay options) in
  attemptLoop fn random maxR baseD mult maxD (attemptRange maxR) 0.

Definition requests (evs : list Event) : nat :=
  length (List.filter (fun e => match e with Request => true | _ => false end) evs).

Definition sleeps (evs : list Event) : list Z :=
  flat_map (fun e => match e with Sleep ms => [ms] | _ => [] end) evs.

End Retry.

(** ** Parsed JSON *)

#[local] Unset Elimination Schemes.

Inductive json :=
| JNull
| JBool (b : bool)
| JNum (q : Q)
| JStr (s : string)
| JArr (items : list json)
| JObj (fields : list (string * json)).

#[local] Set Elimination Schemes.

(** [obj[key]] on a parsed object: the value of an own property. *)
Fixpoint jget (key : string) (fields : list (string * json)) : option json :=
  match fields with
  | [] => None
  | (k, v) :: rest => if String.eqb k key then Some v else jget key rest
  end.

Definition jhas (key : string) (fields : list (string * json)) : bool :=
  match jget key fields with Some _ => true | None => false end.

(** ** ai/validation.js *)

Module Validation.

(** The JSON-schema keywords the four schemas use, grouped by [type]. *)
#[local] Unset Elimination Schemes.

Inductive schema :=
| SString (enum : option (list string))
| SNumber (minimum maximum : option Q)
| SBoolean
| SArray (items : schema)
| SObject (properties : list (string * schema)) (required : list string).

#[local] Set Elimination Schemes.

Definition string_ : schema := SString None.

(** What a compiled validator answers: [type] first, then the keywords of
    that type.  [properties] constrains a property only when the instance
    has it; [required] asks for its presence. *)
Fixpoint valid (s : schema) (v : json) {struct s} : bool :=
  match s, v with
  | SString enum, JStr x =>
      match enum with
      | None => true
      | Some allowed => existsb (String.eqb x) allowed
      end
  | SNumber minimum maximum, JNum q =>
      match minimum with Some lo => Qle_bool lo q | None => true end
      && match maximum with Some hi => Qle_bool q hi | None => true end
  | SBoolean, JBool _ => true
  | SArray items, JArr xs => forallb (valid items) xs
  | SObject properties required, JObj fields =>
      (fix props (ps : list (string * schema)) : bool :=
         match ps with
         | [] => true
         | (name, sub) :: rest =>
             match jget name fields with
             | Some x => valid sub x
             | None => true
             end && props rest
         end) properties
      && forallb (fun name => jhas name fields) required
  | _, _ => false
  end.

(** The check [properties] makes for one listed property. *)
Definition validProperty (fields : list (string * json))
    (p : string * schema) : bool :=
  match jget (fst p) fields with
  | Some x => valid (snd p) x
  | None => true
  end.

Definition filterResponseSchema : schema :=
  SObject
    [("decisions",
      SArray
        (SObject
           [("id", string_);
            ("keep", SBoolean);
            ("reason", string_);
            ("quality_score", SNumber (Some 0%Q) (Some 1%Q))]
           ["id"; "keep"]))]
    ["decisions"].

Definition categorizeResponseSchema : schema :=
  SObject
    [("categorizations",
      SArray
        (SObject
           [("id", string_);
            ("primary_topic", string_);
            ("secondary_topics", SArray string_);
            ("sentiment",
             SString (Some ["positive"; "neutral"; "negative"; "mixed"]));
            ("urgency", SString (Some ["high"; "medium"; "low"]));
            ("marketing_relevance",
             SString (Some ["high"; "medium"; "low"]))]
           ["id"; "primary_topic"]))]
    ["categorizations"].

Definition summarizeResponseSchema : schema :=
  SObject
    [("summary",
      SObject
        [("headline", string_);
         ("key_points", SArray string_);
         ("notable_messages", SArray string_);
         ("themes", SArray string_);
         ("sentiment_overview", string_);
         ("action_items", SArray string_)]
        ["headline"; "key_points"])]
    ["summary"].

Definition extractResponseSchema : schema :=
  SObject
    [("extracts",
      SArray
        (SObject
           [("id", string_);
            ("source_message_id", string_);
            ("type", string_);
            ("content", string_);
            ("context", string_);
            ("relevance_score", SNumber (Some 0%Q) (Some 1%Q));
            ("requires_permission", SBoolean)]
           ["id"; "content"; "type"]))]
    ["extracts"].

(** The own properties of the [validators] object: the compiled
    schemas of the four stages. *)
Definition validators (stage : string) : option schema :=
  if String.eqb stage "filter" then Some filterResponseSchema
  else if String.eqb stage "categorize" then Some categorizeResponseSchema
  else if String.eqb stage "summarize" then Some summarizeResponseSchema
  else if String.eqb stage "extract" then Some extractResponseSchema
  else None.

(** [validators[stage]] also finds what the object inherits from
    [Object.prototype].  Called as [validator(response)], without a
    receiver, [Object] and [toString] return a truthy value; every other
    member throws a [TypeError], as does the call of [__proto__], which
    is no function, and the reading of the [errors] of [isPrototypeOf]
    after it answered false. *)
Inductive Inherited :=
| AnswersTruthy
| ThrowsTypeError.

Definition inherited (stage : string) : option Inherited :=
  if existsb (String.eqb stage) ["constructor"; "toString"]
  then Some AnswersTruthy
  else if existsb (String.eqb stage)
            ["__defineGetter__"; "__defineSetter__"; "hasOwnProperty";
             "__lookupGetter__"; "__lookupSetter__"; "isPrototypeOf";
             "propertyIsEnumerable"; "valueOf"; "__proto__";
             "toLocaleString"]
  then Some ThrowsTypeError
  else None.

(** The messages of the errors are shortened: Ajv's diagnostics and the
    wording of the engine's [TypeError] are left out. *)
Definition validateResponse (stage : string) (response : json) : Result json :=
  match validators stage with
  | Some validator =>
      if negb (valid validator response)
      then Throw (mkError ("Invalid AI response for " +:+ stage +:+ " stage"))
      else Ok response
  | None =>
      match inherited stage with
      | Some AnswersTruthy => Ok response
      | Some ThrowsTypeError => Throw (mkError "TypeError")
      | None => Throw (mkError ("No validator for stage: " +:+ stage))
      end
  end.

Definition validateFilterResponse (response : json) : Result json :=
  validateResponse "filter" response.

Definition validateCategorizeResponse (response : json) : Result json :=
  validateResponse "categorize" response.

(** The shape the specification gives for one categorization item: every
    field but [secondary_topics] present. *)
Definition categorizeRequiredBySpec : list string :=
  ["id"; "primary_topic"; "sentiment"; "urgency"; "marketing_relevance"].

Definition validateSummarizeResponse (response : json) : Result json :=
  validateResponse "summarize" response.

Definition validateExtractResponse (response : json) : Result json :=
  validateResponse "extract" response.

End Validation.

(** ** utils/privacy.js *)

Module Privacy.

(** The closure state of [createAnonymizer]: the [Map], in insertion
    order, and the counter. *)
Record Anonymizer := {
  mapping : list (string * string);
  counter : nat
}.

Definition createAnonymizer : Anonymizer :=
  {| mapping := []; counter := 0 |}.

Fixpoint mapGet (key : string) (m : list (string * string)) : option string :=
  match m with
  | [] => None
  | (k, v) :: rest => if String.eqb k key then Some v else mapGet key rest
  end.

(** A number inside a template literal. *)
Definition decimal (n : nat) : string :=
  NilZero.string_of_uint (Nat.to_uint n).

(** [String.fromCharCode(65 + ((counter - 1) % 26))] *)
Definition letterOf (c : nat) : ascii :=
  ascii_of_nat (65 + (c - 1) mod 26).

(** [counter > 26 ? Math.floor((counter - 1) / 26) : ''] *)
Definition suffixOf (c : nat) : string :=
  if (26 <? c)%nat then decimal ((c - 1) / 26) else "".

Definition aliasFor (c : nat) : string :=
  "User_" +:+ String (letterOf c) (suffixOf c).

Definition anonymize (username : string) (st : Anonymizer)
  : string * Anonymizer :=
  if negb (truthy_str username) then ("User_Unknown", st)
  else
    match mapGet username (mapping st) with
    | Some known => (known, st)
    | None =>
        let c := S (counter st) in
        (aliasFor c,
         {| mapping := mapping st ++ [(username, aliasFor c)];
            counter := c |})
    end.

Definition reset (st : Anonymizer) : Anonymizer :=
  {| mapping := []; counter := 0 |}.

(** [Object.fromEntries(mapping)]: the object whose own properties are
    the entries, defined in order.  As a finite map it says which alias
    a name has, not in which order the object lists its keys. *)
Definition getMapping (st : Anonymizer) : gmap string string :=
  fold_left (fun object entry => <[fst entry := snd entry]> object)
    (mapping st) ∅.

(** [\w] without the unicode flag. *)
Definition isWordChar (c : ascii) : bool :=
  let n := nat_of_ascii c in
  ((65 <=? n) && (n <=? 90) || (97 <=? n) && (n <=? 122)
   || (48 <=? n) && (n <=? 57) || (n =? 95))%nat.

Definition isAt (c : ascii) : bool := (nat_of_ascii c =? 64)%nat.

(** The replacement for one candidate match: an [@] followed by the word
    [w]; with no word there is no match and the [@] stays. *)
Definition replaceMention (w : string) (st : Anonymizer)
  : string * Anonymizer :=
  if truthy_str w
  then let '(a, st1) := anonymize w st in (String "@" a, st1)
  else ("@", st).

(** [content.replace(/@(\w+)/g, ...)], one character at a time, left to
    right; [pending] holds the word read since the last [@]. *)
Fixpoint scanMentions (s : string) (pending : option string)
    (st : Anonymizer) : string * Anonymizer :=
  match s with
  | EmptyString =>
      match pending with
      | Some w => replaceMention w st
      | None => ("", st)
      end
  | String c rest =>
      match pending with
      | Some w =>
          if isWordChar c
          then scanMentions rest (Some (w +:+ String c "")) st
          else
            let '(out, st1) := replaceMention w st in
            let '(tail, st2) :=
              if isAt c then scanMentions rest (Some "") st1
              else
                let '(t, st2) := scanMentions rest None st1 in
                (String c t, st2) in
            (out +:+ tail, st2)
      | None =>
          if isAt c then scanMentions rest (Some "") st
          else
            let '(t, st1) := scanMentions rest None st in
            (String c t, st1)
      end
  end.

Definition anonymizeMentions (content : string) (st : Anonymizer)
  : string * Anonymizer :=
  if negb (truthy_str content) then (content, st)
  else scanMentions content None st.

(** [s.slice(-n)] *)
Definition sliceLast (n : nat) (s : string) : string :=
  substring (String.length s - n) n s.

(** A message as [anonymizeMessages] sees it: the fields it rewrites and,
    in [rest], everything the object spread copies unchanged. *)
Record Author (RA : Type) := {
  username : string;
  global_name : option string;
  author_rest : RA
}.
Arguments username {RA} _.
Arguments global_name {RA} _.
Arguments author_rest {RA} _.

Record Msg (R RA : Type) := {
  author : option (Author RA);
  author_id : option string;
  content : option string;
  clean_content : option string;
  rest : R
}.
Arguments author {R RA} _.
Arguments author_id {R RA} _.
Arguments content {R RA} _.
Arguments clean_content {R RA} _.
Arguments rest {R RA} _.

Section Messages.

Context {R RA : Type}.

Definition anonymizeAuthor (a : Author RA) (st : Anonymizer)
  : Author RA * Anonymizer :=
  let '(u, st1) := anonymize (username a) st in
  let '(g, st2) :=
    match global_name a with
    | Some gn =>
        if truthy_str gn
        then let '(x, s) := anonymize gn st1 in (Some x, s)
        else (None, st1)
    | None => (None, st1)
    end in
  ({| username := u; global_name := g; author_rest := author_rest a |},
   st2).

Definition anonymizeField (anonymizeContent : bool)
    (field : option string) (st : Anonymizer)
  : option string * Anonymizer :=
  match field with
  | Some text =>
      if anonymizeContent && truthy_str text
      then let '(t, st1) := anonymizeMentions text st in (Some t, st1)
      else (Some text, st)
  | None => (None, st)
  end.

(** The callback of [messages.map]. *)
Definition anonymizeMessage (anonymizeContent : bool)
    (msg : Msg R RA) (st : Anonymizer) : Msg R RA * Anonymizer :=
  let '(author1, st1) :=
    match author msg with
    | Some a => let '(a1, s) := anonymizeAuthor a st in (Some a1, s)
    | None => (None, st)
    end in
  let author_id1 :=
    match author_id msg with
    | Some i => if truthy_str i then Some ("anon_" +:+ sliceLast 4 i) else Some i
    | None => None
    end in
  let '(content1, st2) := anonymizeField anonymizeContent (content msg) st1 in
  let '(clean1, st3) :=
    anonymizeField anonymizeContent (clean_content msg) st2 in
  ({| author := author1; author_id := author_id1; content := content1;
      clean_content := clean1; rest := rest msg |},
   st3).

Fixpoint mapMessages (anonymizeContent : bool) (messages : list (Msg R RA))
    (st : Anonymizer) : list (Msg R RA) * Anonymizer :=
  match messages with
  | [] => ([], st)
  | msg :: more =>
      let '(m1, st1) := anonymizeMessage anonymizeContent msg st in
      let '(ms, st2) := mapMessages anonymizeContent more st1 in
      (m1 :: ms, st2)
  end.

(** Returns the anonymized messages and the final mapping. *)
Definition anonymizeMessages (messages : list (Msg R RA))
    (anonymizeContent : bool)
  : list (Msg R RA) * gmap string string :=
  let '(ms, st) := mapMessages anonymizeContent messages createAnonymizer in
  (ms, getMapping st).

End Messages.

(** *** The alias of a name under a finished mapping *)

Definition aliasOf (m : list (string * string)) (name : string) : string :=
  if negb (truthy_str name) then "User_Unknown"
  else default "" (mapGet name m).

(** *** The names handed to the anonymizer, and the table they produce *)

(** The words [/@(\w+)/g] matches in [s], left to right; [pending] as in
    [scanMentions]. *)
Fixpoint mentions (s : string) (pending : option string) : list string :=
  match s with
  | EmptyString =>
      match pending with
      | Some w => if truthy_str w then [w] else []
      | None => []
      end
  | String c rest =>
      match pending with
      | Some w =>
          if isWordChar c then mentions rest (Some (w +:+ String c ""))
          else
            (if truthy_str w then [w] else [])
            ++ (if isAt c then mentions rest (Some "") else mentions rest None)
      | None =>
          if isAt c then mentions rest (Some "") else mentions rest None
      end
  end.

Definition handedAuthor {RA} (a : Author RA) : list string :=
  username a
  :: match global_name a with
     | Some gn => if truthy_str gn then [gn] else []
     | None => []
     end.

Definition handedField (anonymizeContent : bool) (field : option string)
  : list string :=
  match field with
  | Some text =>
      if anonymizeContent && truthy_str text then mentions text None else []
  | None => []
  end.

(** The arguments of the calls of [anonymize] for one message, in call
    order: username, global name, mentions in [content], mentions in
    [clean_content]. *)
Definition handedMessage {R RA} (anonymizeContent : bool) (m : Msg R RA)
  : list string :=
  match author m with Some a => handedAuthor a | None => [] end
  ++ handedField anonymizeContent (content m)
  ++ handedField anonymizeContent (clean_content m).

Definition handed {R RA} (anonymizeContent : bool)
    (messages : list (Msg R RA)) : list string :=
  flat_map (handedMessage anonymizeContent) messages.

(** The non-empty names of [names] that are not in [seen], each once, in
    order of first appearance. *)
Fixpoint firstAppearances (seen names : list string) : list string :=
  match names with
  | [] => []
  | n :: more =>
      if negb (truthy_str n) || existsb (String.eqb n) seen
      then firstAppearances seen more
      else n :: firstAppearances (seen ++ [n]) more
  end.

Definition keysAfter (keys names : list string) : list string :=
  keys ++ firstAppearances keys names.

(** The table that gives the names the aliases number [k], [k+1], ... *)
Fixpoint aliasTableFrom (k : nat) (names : list string)
  : list (string * string) :=
  match names with
  | [] => []
  | n :: more => (n, aliasFor k) :: aliasTableFrom (S k) more
  end.

Definition aliasTable (names : list string) : list (string * string) :=
  aliasTableFrom 1 names.

(** The anonymizer has allocated aliases for exactly [keys], in order. *)
Definition allocated (st : Anonymizer) (keys : list string) : Prop :=
  mapping st = aliasTable keys /\
  counter st = length keys /\
  List.NoDup keys /\
  Forall (fun n => truthy_str n = true) keys.

(** The name has an alias under [m] that later calls cannot change. *)
Definition known (m : list (string * string)) (name : string) : Prop :=
  truthy_str name = false \/ exists a, mapGet name m = Some a.

(** [a1] is [a] with its names replaced by their aliases under [m]. *)
Definition anonymizedAuthor {RA} (m : list (string * string))
    (a a1 : Author RA) : Prop :=
  username a1 = aliasOf m (username a) /\
  global_name a1 =
    match global_name a with
    | Some gn => if truthy_str gn then Some (aliasOf m gn) else None
    | None => None
    end /\
  author_rest a1 = author_rest a.

Definition anonymizedAs {R RA} (m : list (string * string))
    (msg msg1 : Msg R RA) : Prop :=
  match author msg, author msg1 with
  | Some a, Some a1 => anonymizedAuthor m a a1
  | None, None => True
  | _, _ => False
  end /\
  rest msg1 = rest msg.

(** What stands for a candidate match [@w] under [m]: [@] and the alias
    of the word; with no word there is no match and the [@] stays. *)
Definition mentionAs (m : list (string * string)) (w : string) : string :=
  if truthy_str w then String "@" (aliasOf m w) else "@".

(** [s] with every match of [/@(\w+)/g] replaced by [@] and the alias of
    the matched word under [m], the rest of the text as it is; [pending]
    as in [scanMentions]. *)
Fixpoint withAliases (m : list (string * string)) (s : string)
    (pending : option string) : string :=
  match s with
  | EmptyString =>
      match pending with
      | Some w => mentionAs m w
      | None => ""
      end
  | String c rest =>
      match pending with
      | Some w =>
          if isWordChar c then withAliases m rest (Some (w +:+ String c ""))
          else
            mentionAs m w
            +:+ (if isAt c then withAliases m rest (Some "")
                 else String c (withAliases m rest None))
      | None =>
          if isAt c then withAliases m rest (Some "")
          else String c (withAliases m rest None)
      end
  end.

(** The text has no [@]. *)
Definition plain (s : string) : Prop :=
  Forall (fun c => isAt c = false) (list_ascii_of_string s).

(** The text is made of word characters. *)
Definition word (s : string) : Prop :=
  Forall (fun c => isWordChar c = true) (list_ascii_of_string s).

(** The text does not go on with a word character. *)
Definition wordEnds (s : string) : Prop :=
  match s with
  | EmptyString => True
  | String c _ => isWordChar c = false
  end.

(** A text field after the call: with [anonymizeContent] a non-empty
    text has its mentions replaced, anything else is as it was. *)
Definition aliasedField (anonymizeContent : bool)
    (m : list (string * string)) (field : option string) : option string :=
  match field with
  | Some text =>
      if anonymizeContent && truthy_str text
      then Some (withAliases m text None)
      else Some text
  | None => None
  end.

(** [msg1] carries the texts of [msg] with the mentions replaced by
    their aliases under [m]. *)
Definition anonymizedText {R RA} (anonymizeContent : bool)
    (m : list (string * string)) (msg msg1 : Msg R RA) : Prop :=
  content msg1 = aliasedField anonymizeContent m (content msg) /\
  clean_content msg1 =
    aliasedField anonymizeContent m (clean_content msg).

(** The same, with the names known to [m]. *)
Definition settled {R RA} (m : list (string * string))
    (msg msg1 : Msg R RA) : Prop :=
  anonymizedAs m msg msg1 /\
  match author msg with
  | Some a => Forall (known m) (handedAuthor a)
  | None => True
  end.

End Privacy.

(** ** Strings as SQLite and JavaScript order them *)

(** [a > b] on strings, and the [>=] and [<] of SQLite's binary collation:
    lexicographic on the code units. *)
Definition str_gtb (a b : string) : bool :=
  match String.compare a b with Gt => true | _ => false end.

Definition str_geb (a b : string) : bool :=
  match String.compare a b with Lt => false | _ => true end.

Definition str_ltb (a b : string) : bool :=
  match String.compare a b with Lt => true | _ => false end.

Definition str_le (a b : string) : Prop := String.compare a b <> Gt.

(** A stable sort: [ORDER BY] over rows in row order, [Array.prototype.sort]
    with a comparator; [leb x y] says that [x] may stay before [y]. *)
Section Sorting.

Context {A : Type}.
Variable leb : A -> A -> bool.

Fixpoint insertSorted (x : A) (l : list A) : list A :=
  match l with
  | [] => [x]
  | y :: rest => if leb x y then x :: l else y :: insertSorted x rest
  end.

Definition stableSort (l : list A) : list A :=
  fold_right insertSorted [] l.

End Sorting.

(** ** storage/repositories/index.js, over the schema of the first migration *)

Module Store.

(** *** Rows and payloads *)

Module Guild.
Record data := {
  id : string; name : string;
  icon_url : option string; member_count : option Z
}.
Record row := {
  fields : data;
  created_at : string; updated_at : string
}.
End Guild.

Module Channel.
Record data := {
  id : string; guild_id : string; name : string; type : Z;
  parent_id : option string; position : option Z; topic : option string
}.
Record row := {
  fields : data;
  last_scraped_message_id : option string;
  last_scraped_at : option string;
  message_count : Z;
  created_at : string; updated_at : string
}.
End Channel.

Module User.
Record data := {
  id : string; username : string; global_name : option string;
  discriminator : option string; avatar_url : option string; is_bot : Z
}.
Record row := {
  fields : data;
  created_at : string; updated_at : string
}.
End User.

Module Message.
(** The object [formatMessageData] builds; a row adds [created_at]. *)
Record data := {
  id : string;
  channel_id : string;
  author_id : string;
  content : option string;
  clean_content : option string;
  timestamp : string;
  edited_timestamp : option string;
  message_type : Z;
  reference_id : option string;
  thread_id : option string;
  has_embeds : Z;
  has_attachments : Z;
  reaction_count : Z
}.
Record row := {
  fields : data;
  created_at : string
}.
End Message.

Module Embed.
Record data := {
  message_id : string; type : option string; title : option string;
  description : option string; url : option string;
  author_name : option string; author_url : option string;
  footer_text : option string; image_url : option string;
  thumbnail_url : option string; color : option Z; raw_json : string
}.
End Embed.

Module Attachment.
Record data := {
  id : string; message_id : string; filename : string;
  content_type : option string; size : Z; url : string;
  proxy_url : option string; width : option Z; height : option Z
}.
End Attachment.

Module Reaction.
Record data := {
  message_id : string; emoji : string; emoji_name : option string;
  is_custom : Z; count : Z
}.
End Reaction.

Module SyncState.
Inductive status := in_progress | completed | failed.
Record row := {
  sync_type : string;
  guild_id : option string;
  channel_id : option string;
  started_at : string;
  completed_at : option string;
  messages_processed : Z;
  state : status;
  error_message : option string
}.
End SyncState.

Module AIProcessing.
Record data := {
  entity_type : string; entity_id : string; stage : string;
  result_json : string; model_used : option string;
  tokens_in : option Z; tokens_out : option Z
}.
Record row := {
  fields : data;
  processed_at : string
}.
Definition key (d : data) : string * string * string :=
  (entity_type d, entity_id d, stage d).
End AIProcessing.

(** *** The database

    [clock] is what [datetime('now')] returns.  [messages] and [embeds]
    are in row order; the other tables are keyed by their primary or
    unique key.  [sync_seq] is the next [AUTOINCREMENT] id of [sync_state]. *)
Record DB := {
  clock : string;
  guilds : gmap string Guild.row;
  channels : gmap string Channel.row;
  users : gmap string User.row;
  messages : list Message.row;
  embeds : list Embed.data;
  attachments : gmap string Attachment.data;
  reactions : gmap (string * string) Reaction.data;
  sync_state : gmap positive SyncState.row;
  sync_seq : positive;
  ai_processing : gmap (string * string * string) AIProcessing.row
}.

Definition with_guilds (db : DB) v : DB :=
  {| clock := clock db; guilds := v; channels := channels db;
     users := users db; messages := messages db; embeds := embeds db;
     attachments := attachments db; reactions := reactions db;
     sync_state := sync_state db; sync_seq := sync_seq db;
     ai_processing := ai_processing db |}.

Definition with_channels (db : DB) v : DB :=
  {| clock := clock db; guilds := guilds db; channels := v;
     users := users db; messages := messages db; embeds := embeds db;
     attachments := attachments db; reactions := reactions db;
     sync_state := sync_state db; sync_seq := sync_seq db;
     ai_processing := ai_processing db |}.

Definition with_users (db : DB) v : DB :=
  {| clock := clock db; guilds := guilds db; channels := channels db;
     users := v; messages := messages db; embeds := embeds db;
     attachments := attachments db; reactions := reactions db;
     sync_state := sync_state db; sync_seq := sync_seq db;
     ai_processing := ai_processing db |}.

Definition with_messages (db : DB) v : DB :=
  {| clock := clock db; guilds := guilds db; channels := channels db;
     users := users db; messages := v; embeds := embeds db;
     attachments := attachments db; reactions := reactions db;
     sync_state := sync_state db; sync_seq := sync_seq db;
     ai_processing := ai_processing db |}.

Definition with_embeds (db : DB) v : DB :=
  {| clock := clock db; guilds := guilds db; channels := channels db;
     users := users db; messages := messages db; embeds := v;
     attachments := attachments db; reactions := reactions db;
     sync_state := sync_state db; sync_seq := sync_seq db;
     ai_processing := ai_processing db |}.

Definition with_attachments (db : DB) v : DB :=
  {| clock := clock db; guilds := guilds db; channels := channels db;
     users := users db; messages := messages db; embeds := embeds db;
     attachments := v; reactions := reactions db;
     sync_state := sync_state db; sync_seq := sync_seq db;
     ai_processing := ai_processing db |}.

Definition with_reactions (db : DB) v : DB :=
  {| clock := clock db; guilds := guilds db; channels := channels db;
     users := users db; messages := messages db; embeds := embeds db;
     attachments := attachments db; reactions := v;
     sync_state := sync_state db; sync_seq := sync_seq db;
     ai_processing := ai_processing db |}.

Definition with_sync (db : DB) v seq : DB :=
  {| clock := clock db; guilds := guilds db; channels := channels db;
     users := users db; messages := messages db; embeds := embeds db;
     attachments := attachments db; reactions := reactions db;
     sync_state := v; sync_seq := seq;
     ai_processing := ai_processing db |}.

Definition with_ai (db : DB) v : DB :=
  {| clock := clock db; guilds := guilds db; channels := channels db;
     users := users db; messages := messages db; embeds := embeds db;
     attachments := attachments db; reactions := reactions db;
     sync_state := sync_state db; sync_seq := sync_seq db;
     ai_processing := v |}.

Definition fkError : JsError :=
  {| err_status := None;
     err_code := Some "SQLITE_CONSTRAINT_FOREIGNKEY";
     err_message := "FOREIGN KEY constraint failed" |}.

Definition has_key {K V} `{Countable K} (m : gmap K V) (k : K) : bool :=
  match m !! k with Some _ => true | None => false end.

(** *** Guilds, channels, users *)

Definition upsertGuild (db : DB) (guild : Guild.data) : DB :=
  let r :=
    match guilds db !! Guild.id guild with
    | Some old =>
        {| Guild.fields :=
             {| Guild.id := Guild.id (Guild.fields old);
                Guild.name := Guild.name guild;
                Guild.icon_url := Guild.icon_url guild;
                Guild.member_count := Guild.member_count guild |};
           Guild.created_at := Guild.created_at old;
           Guild.updated_at := clock db |}
    | None =>
        {| Guild.fields := guild;
           Guild.created_at := clock db; Guild.updated_at := clock db |}
    end in
  with_guilds db (<[Guild.id guild := r]> (guilds db)).

Definition upsertChannel (db : DB) (channel : Channel.data) : Result DB :=
  match channels db !! Channel.id channel with
  | Some old =>
      let r :=
        {| Channel.fields :=
             {| Channel.id := Channel.id (Channel.fields old);
                Channel.guild_id := Channel.guild_id (Channel.fields old);
                Channel.name := Channel.name channel;
                Channel.type := Channel.type channel;
                Channel.parent_id := Channel.parent_id channel;
                Channel.position := Channel.position channel;
                Channel.topic := Channel.topic channel |};
           Channel.last_scraped_message_id :=
             Channel.last_scraped_message_id old;
           Channel.last_scraped_at := Channel.last_scraped_at old;
           Channel.message_count := Channel.message_count old;
           Channel.created_at := Channel.created_at old;
           Channel.updated_at := clock db |} in
      Ok (with_channels db (<[Channel.id channel := r]> (channels db)))
  | None =>
      if has_key (guilds db) (Channel.guild_id channel)
      then
        let r :=
          {| Channel.fields := channel;
             Channel.last_scraped_message_id := None;
             Channel.last_scraped_at := None;
             Channel.message_count := 0;
             Channel.created_at := clock db;
             Channel.updated_at := clock db |} in
        Ok (with_channels db (<[Channel.id channel := r]> (channels db)))
      else Throw fkError
  end.

(** [row?.last_scraped_message_id || null] *)
Definition getChannelLastScrapedId (db : DB) (channelId : string)
  : option string :=
  match channels db !! channelId with
  | Some row =>
      match Channel.last_scraped_message_id row with
      | Some i => if truthy_str i then Some i else None
      | None => None
      end
  | None => None
  end.

Definition updateChannelLastScraped (db : DB) (channelId messageId : string)
  : DB :=
  match channels db !! channelId with
  | Some old =>
      let r :=
        {| Channel.fields := Channel.fields old;
           Channel.last_scraped_message_id := Some messageId;
           Channel.last_scraped_at := Some (clock db);
           Channel.message_count := Channel.message_count old;
           Channel.created_at := Channel.created_at old;
           Channel.updated_at := clock db |} in
      with_channels db (<[channelId := r]> (channels db))
  | None => db
  end.

Definition upsertUser (db : DB) (user : User.data) : DB :=
  let r :=
    match users db !! User.id user with
    | Some old =>
        {| User.fields :=
             {| User.id := User.id (User.fields old);
                User.username := User.username user;
                User.global_name := User.global_name user;
                User.discriminator := User.discriminator user;
                User.avatar_url := User.avatar_url user;
                User.is_bot := User.is_bot user |};
           User.created_at := User.created_at old;
           User.updated_at := clock db |}
    | None =>
        {| User.fields := user;
           User.created_at := clock db; User.updated_at := clock db |}
    end in
  with_users db (<[User.id user := r]> (users db)).

Definition getUser (db : DB) (userId : string) : option User.row :=
  users db !! userId.

(** *** Messages *)

Definition messageId (r : Message.row) : string :=
  Message.id (Message.fields r).

Definition getMessage (db : DB) (messageId_ : string) : option Message.row :=
  List.find (fun r => String.eqb (messageId r) messageId_) (messages db).

(** [ON CONFLICT(id) DO UPDATE SET ...]: the columns taken from the new
    values ([excluded]); every other column keeps the stored value. *)
Definition conflictUpdate (old : Message.row) (excluded : Message.data)
  : Message.row :=
  let o := Message.fields old in
  {| Message.fields :=
       {| Message.id := Message.id o;
          Message.channel_id := Message.channel_id o;
          Message.author_id := Message.author_id o;
          Message.content := Message.content excluded;
          Message.clean_content := Message.clean_content excluded;
          Message.timestamp := Message.timestamp o;
          Message.edited_timestamp := Message.edited_timestamp excluded;
          Message.message_type := Message.message_type o;
          Message.reference_id := Message.reference_id o;
          Message.thread_id := Message.thread_id o;
          Message.has_embeds := Message.has_embeds excluded;
          Message.has_attachments := Message.has_attachments excluded;
          Message.reaction_count := Message.reaction_count excluded |};
     Message.created_at := Message.created_at old |}.

Definition upsertMessage (db : DB) (message : Message.data) : Result DB :=
  match getMessage db (Message.id message) with
  | Some _ =>
      Ok (with_messages db
            (map (fun r =>
                    if String.eqb (messageId r) (Message.id message)
                    then conflictUpdate r message else r)
               (messages db)))
  | None =>
      if has_key (channels db) (Message.channel_id message)
         && has_key (users db) (Message.author_id message)
      then
        Ok (with_messages db
              (messages db ++
               [{| Message.fields := message;
                   Message.created_at := clock db |}]))
      else Throw fkError
  end.

(** *** Embeds, attachments, reactions *)

Definition hasMessage (db : DB) (i : string) : bool :=
  match getMessage db i with Some _ => true | None => false end.

Definition upsertEmbed (db : DB) (embed : Embed.data) : Result DB :=
  if hasMessage db (Embed.message_id embed)
  then Ok (with_embeds db (embeds db ++ [embed]))
  else Throw fkError.

Definition upsertAttachment (db : DB) (attachment : Attachment.data)
  : Result DB :=
  match attachments db !! Attachment.id attachment with
  | Some old =>
      let r :=
        {| Attachment.id := Attachment.id old;
           Attachment.message_id := Attachment.message_id old;
           Attachment.filename := Attachment.filename attachment;
           Attachment.content_type := Attachment.content_type attachment;
           Attachment.size := Attachment.size attachment;
           Attachment.url := Attachment.url attachment;
           Attachment.proxy_url := Attachment.proxy_url attachment;
           Attachment.width := Attachment.width old;
           Attachment.height := Attachment.height old |} in
      Ok (with_attachments db
            (<[Attachment.id attachment := r]> (attachments db)))
  | None =>
      if hasMessage db (Attachment.message_id attachment)
      then Ok (with_attachments db
                 (<[Attachment.id attachment := attachment]> (attachments db)))
      else Throw fkError
  end.

Definition upsertReaction (db : DB) (reaction : Reaction.data) : Result DB :=
  let k := (Reaction.message_id reaction, Reaction.emoji reaction) in
  match reactions db !! k with
  | Some old =>
      let r :=
        {| Reaction.message_id := Reaction.message_id old;
           Reaction.emoji := Reaction.emoji old;
           Reaction.emoji_name := Reaction.emoji_name old;
           Reaction.is_custom := Reaction.is_custom old;
           Reaction.count := Reaction.count reaction |} in
      Ok (with_reactions db (<[k := r]> (reactions db)))
  | None =>
      if hasMessage db (Reaction.message_id reaction)
      then Ok (with_reactions db (<[k := reaction]> (reactions db)))
      else Throw fkError
  end.

(** *** Sync state *)

(** Returns [lastInsertRowid] with the new database. *)
Definition createSyncState (db : DB) (syncType guildId : string)
    (channelId : option string) : Result (positive * DB) :=
  if has_key (guilds db) guildId
     && match channelId with
        | Some c => has_key (channels db) c
        | None => true
        end
  then
    let i := sync_seq db in
    let r :=
      {| SyncState.sync_type := syncType;
         SyncState.guild_id := Some guildId;
         SyncState.channel_id := channelId;
         SyncState.started_at := clock db;
         SyncState.completed_at := None;
         SyncState.messages_processed := 0;
         SyncState.state := SyncState.in_progress;
         SyncState.error_message := None |} in
    Ok (i, with_sync db (<[i := r]> (sync_state db)) (Pos.succ i))
  else Throw fkError.

Definition completeSyncState (db : DB) (syncId : positive)
    (messagesProcessed : Z) : DB :=
  match sync_state db !! syncId with
  | Some old =>
      let r :=
        {| SyncState.sync_type := SyncState.sync_type old;
           SyncState.guild_id := SyncState.guild_id old;
           SyncState.channel_id := SyncState.channel_id old;
           SyncState.started_at := SyncState.started_at old;
           SyncState.completed_at := Some (clock db);
           SyncState.messages_processed := messagesProcessed;
           SyncState.state := SyncState.completed;
           SyncState.error_message := SyncState.error_message old |} in
      with_sync db (<[syncId := r]> (sync_state db)) (sync_seq db)
  | None => db
  end.

Definition failSyncState (db : DB) (syncId : positive)
    (errorMessage : string) : DB :=
  match sync_state db !! syncId with
  | Some old =>
      let r :=
        {| SyncState.sync_type := SyncState.sync_type old;
           SyncState.guild_id := SyncState.guild_id old;
           SyncState.channel_id := SyncState.channel_id old;
           SyncState.started_at := SyncState.started_at old;
           SyncState.completed_at := Some (clock db);
           SyncState.messages_processed := SyncState.messages_processed old;
           SyncState.state := SyncState.failed;
           SyncState.error_message := Some errorMessage |} in
      with_sync db (<[syncId := r]> (sync_state db)) (sync_seq db)
  | None => db
  end.

(** *** AI processing *)

Definition upsertAIProcessing (db : DB) (data : AIProcessing.data) : DB :=
  with_ai db
    (<[AIProcessing.key data :=
         {| AIProcessing.fields := data;
            AIProcessing.processed_at := clock db |}]> (ai_processing db)).

Record ProcessOptions := {
  force : option bool;
  reprocessAfterDays : option Q
}.

Record QueryOptions := {
  channelId : option string;
  limit : option Z;
  startDate : option string;
  endDate : option string
}.

(** [LIMIT n]: a negative [n] means no limit. *)
Definition sqlLimit {A} (n : Z) (rows : list A) : list A :=
  if n <? 0 then rows else firstn (Z.to_nat n) rows.

(** *** The text of [datetime('now')] *)

Definition digitValue (c : ascii) : option Z :=
  let n := nat_of_ascii c in
  if ((48 <=? n) && (n <=? 57))%nat then Some (Z.of_nat (n - 48)) else None.

Fixpoint digitsFrom (acc : Z) (s : string) : option Z :=
  match s with
  | EmptyString => Some acc
  | String c rest =>
      match digitValue c with
      | Some v => digitsFrom (10 * acc + v) rest
      | None => None
      end
  end.

(** The number that the decimal digits [s] write. *)
Definition decimalNumber (s : string) : option Z :=
  if truthy_str s then digitsFrom 0 s else None.

Definition isLeapYear (y : Z) : bool :=
  ((y mod 4 =? 0) && negb (y mod 100 =? 0)) || (y mod 400 =? 0).

Definition daysInMonth (y m : Z) : Z :=
  if m =? 2 then (if isLeapYear y then 29 else 28)
  else if (m =? 4) || (m =? 6) || (m =? 9) || (m =? 11) then 30
  else 31.

(** The days from 1970-01-01 to a date of the Gregorian calendar. *)
Definition daysFromCivil (y m d : Z) : Z :=
  let y1 := if m <=? 2 then y - 1 else y in
  let era := y1 / 400 in
  let yearOfEra := y1 - era * 400 in
  let monthFromMarch := (m + 9) mod 12 in
  let dayOfYear := (153 * monthFromMarch + 2) / 5 + d - 1 in
  let dayOfEra :=
    yearOfEra * 365 + yearOfEra / 4 - yearOfEra / 100 + dayOfYear in
  era * 146097 + dayOfEra - 719468.

(** The instant, in milliseconds since 1970-01-01T00:00:00Z, that the
    text [YYYY-MM-DD HH:MM:SS] of SQLite's [datetime('now')] names: the
    text is a time in UTC.  Absent for any other text. *)
Definition sqlInstant (text : string) : option Z :=
  if negb (String.length text =? 19)%nat then None
  else if negb (String.eqb (substring 4 1 text) "-"
                && String.eqb (substring 7 1 text) "-"
                && String.eqb (substring 10 1 text) " "
                && String.eqb (substring 13 1 text) ":"
                && String.eqb (substring 16 1 text) ":") then None
  else
    match decimalNumber (substring 0 4 text),
          decimalNumber (substring 5 2 text),
          decimalNumber (substring 8 2 text),
          decimalNumber (substring 11 2 text),
          decimalNumber (substring 14 2 text),
          decimalNumber (substring 17 2 text) with
    | Some y, Some mo, Some d, Some h, Some mi, Some sec =>
        if (1970 <=? y) && (1 <=? mo) && (mo <=? 12)
           && (1 <=? d) && (d <=? daysInMonth y mo)
           && (h <=? 23) && (mi <=? 59) && (sec <=? 59)
        then Some ((((daysFromCivil y mo d * 24 + h) * 60 + mi) * 60 + sec)
                   * 1000)
        else None
    | _, _, _, _, _, _ => None
    end.

(** [new Date(text).getTime()] on such a text, as Node reads it: a date
    and time without a zone is a local time, so the result is the
    wall-clock time [w] less what the local zone is ahead of UTC at that
    time, [zone w] milliseconds. *)
Definition localReading (zone : Z -> Z) (text : string) : option Z :=
  match sqlInstant text with
  | Some w => Some (w - zone w)
  | None => None
  end.

(** [reprocessAfterDays * 24 * 60 * 60 * 1000]: four products, from left
    to right, each a double. *)
Definition maxAge (days : Q) : Q :=
  Double.round
    (Double.round (Double.round (Double.round (days * 24) * 60) * 60)
     * 1000)%Q.

(** [Date.now() - t]: the difference of two times, a double. *)
Definition ageOf (now t : Z) : Q := Double.round (inject_Z (now - t)).

Section Externals.

(** [JSON.parse] (absent when it throws) and [new Date(text).getTime()]
    (absent when the date is invalid); how a text is read as a date is
    left to the engine. *)
Variable JSON_parse : string -> option json.
Variable Date_getTime : string -> option Z.

(** The row, and its [result] property when [result_json] parses. *)
Definition getAIProcessing (db : DB) (entityType entityId stage : string)
  : option (AIProcessing.row * option json) :=
  match ai_processing db !! (entityType, entityId, stage) with
  | Some row =>
      let text := AIProcessing.result_json (AIProcessing.fields row) in
      Some (row, if truthy_str text then JSON_parse text else None)
  | None => None
  end.

(** [now] is [Date.now()].  With an invalid date the age is [NaN] and
    the comparison is false. *)
Definition shouldProcess (now : Z) (db : DB)
    (entityType entityId stage : string) (options : ProcessOptions)
  : bool :=
  let force_ := default false (force options) in
  let days := default (30 # 1)%Q (reprocessAfterDays options) in
  if force_ then true
  else
    match getAIProcessing db entityType entityId stage with
    | None => true
    | Some (existing, _) =>
        if negb (Qeq_bool days 0)
        then
          match Date_getTime (AIProcessing.processed_at existing) with
          | Some t => negb (Qle_bool (ageOf now t) (maxAge days))
          | None => false
          end
        else false
    end.

End Externals.

(** The [WHERE] clause of [getUnprocessedMessages]. *)
Definition unprocessedWhere (db : DB) (stage : string)
    (options : QueryOptions) (r : Message.row) : bool :=
  let m := Message.fields r in
  negb (has_key (ai_processing db) ("message", Message.id m, stage))
  && match channelId options with
     | Some c =>
         if truthy_str c then String.eqb (Message.channel_id m) c else true
     | None => true
     end
  && match startDate options with
     | Some d =>
         if truthy_str d then str_geb (Message.timestamp m) d else true
     | None => true
     end
  && match endDate options with
     | Some d =>
         if truthy_str d then str_ltb (Message.timestamp m) d else true
     | None => true
     end.

Definition byTimestamp (a b : Message.row) : bool :=
  negb (str_gtb (Message.timestamp (Message.fields a))
          (Message.timestamp (Message.fields b))).

Definition getUnprocessedMessages (db : DB) (stage : string)
    (options : QueryOptions) : list Message.row :=
  let rows :=
    stableSort byTimestamp
      (List.filter (unprocessedWhere db stage options) (messages db)) in
  match limit options with
  | Some n => if truthy_Z n then sqlLimit n rows else rows
  | None => rows
  end.

(** *** Counting and export *)

(** [SELECT COUNT] over [messages], of one channel when [channelId] is
    truthy. *)
Definition countMessages (db : DB) (channelId_ : option string) : Z :=
  if truthy_ostr channelId_
  then Z.of_nat
         (length
            (List.filter
               (fun r =>
                  String.eqb (Message.channel_id (Message.fields r))
                    (default "" channelId_))
               (messages db)))
  else Z.of_nat (length (messages db)).

Module ExportQuery.
Record options := {
  channelId : option string;
  startDate : option string;
  endDate : option string;
  limit : option Z;
  offset : option Z
}.
End ExportQuery.

(** The [WHERE] clause of [getAllMessages]. *)
Definition allWhere (options : ExportQuery.options) (r : Message.row) : bool :=
  let m := Message.fields r in
  match ExportQuery.channelId options with
  | Some c =>
      if truthy_str c then String.eqb (Message.channel_id m) c else true
  | None => true
  end
  && match ExportQuery.startDate options with
     | Some d =>
         if truthy_str d then str_geb (Message.timestamp m) d else true
     | None => true
     end
  && match ExportQuery.endDate options with
     | Some d =>
         if truthy_str d then str_ltb (Message.timestamp m) d else true
     | None => true
     end.

(** [OFFSET n]: a negative [n] skips nothing. *)
Definition sqlOffset {A} (n : Z) (rows : list A) : list A :=
  skipn (Z.to_nat n) rows.

Definition getAllMessages (db : DB) (options : ExportQuery.options)
  : list Message.row :=
  let rows :=
    stableSort byTimestamp (List.filter (allWhere options) (messages db)) in
  match ExportQuery.limit options with
  | Some n =>
      if truthy_Z n
      then sqlLimit n (sqlOffset (default 0 (ExportQuery.offset options)) rows)
      else rows
  | None => rows
  end.

End Store.

(** ** The chat service, as the scraper consumes it *)

Module Discord.

Record User := {
  user_id : string; username : string;
  globalName : option string; displayName : option string;
  discriminator : option string; bot : bool;
  avatarURL : option string
}.

(** [data_json] is [JSON.stringify(embed.data)]. *)
Record Embed := {
  data_type : option string; title : option string;
  description : option string; url : option string;
  author_name : option string; author_url : option string;
  footer_text : option string; image_url : option string;
  thumbnail_url : option string; color : option Z;
  data_json : string
}.

Record Attachment := {
  attachment_id : string; name : string; contentType : option string;
  size : Z; attachment_url : string; proxyURL : option string;
  width : option Z; height : option Z
}.

Record Reaction := {
  emoji_id : option string; emoji_name : string; count : Z
}.

Record Message := {
  id : string;
  channel_id : string;
  author : User;
  content : string;
  cleanContent : string;
  createdAt : string;
  createdTimestamp : Z;
  editedAt : option string;
  type : Z;
  reference_messageId : option string;
  thread_id : option string;
  embeds : list Embed;
  attachments : list Attachment;
  reactions : list Reaction
}.

(** The options of [channel.messages.fetch]. *)
Record FetchOptions := {
  limit : Z;
  before : option string;
  after : option string
}.

Record Guild := {
  guild_id : string; guild_name : string;
  memberCount : option Z; iconURL : option string
}.

(** [permissions] is what [permissionsFor(bot)] returns: nothing, or
    whether it has ViewChannel and ReadMessageHistory. *)
Record Channel := {
  chan_id : string; chan_guild : string; chan_name : string;
  chan_type : Z; parentId : option string; position : option Z;
  topic : option string;
  isTextBased : bool; isVoiceBased : bool;
  permissions : option (bool * bool)
}.

End Discord.

(** [x || null] on strings and numbers. *)
Definition orNullStr (o : option string) : option string :=
  if truthy_ostr o then o else None.

Definition orNullZ (o : option Z) : option Z :=
  if truthy_oZ o then o else None.

(** ** scraper/client.js: the formatters *)

Module Client.

Definition formatGuildData (guild : Discord.Guild) : Store.Guild.data :=
  {| Store.Guild.id := Discord.guild_id guild;
     Store.Guild.name := Discord.guild_name guild;
     Store.Guild.icon_url := Discord.iconURL guild;
     Store.Guild.member_count := Discord.memberCount guild |}.

Definition formatChannelData (channel : Discord.Channel)
  : Store.Channel.data :=
  {| Store.Channel.id := Discord.chan_id channel;
     Store.Channel.guild_id := Discord.chan_guild channel;
     Store.Channel.name := Discord.chan_name channel;
     Store.Channel.type := Discord.chan_type channel;
     Store.Channel.parent_id := orNullStr (Discord.parentId channel);
     Store.Channel.position := Discord.position channel;
     Store.Channel.topic := orNullStr (Discord.topic channel) |}.

Definition formatUserData (user : Discord.User) : Store.User.data :=
  {| Store.User.id := Discord.user_id user;
     Store.User.username := Discord.username user;
     Store.User.global_name :=
       if truthy_ostr (Discord.globalName user) then Discord.globalName user
       else orNullStr (Discord.displayName user);
     Store.User.discriminator :=
       if truthy_ostr (Discord.discriminator user)
       then Discord.discriminator user else Some "0";
     Store.User.avatar_url := Discord.avatarURL user;
     Store.User.is_bot := if Discord.bot user then 1 else 0 |}.

(** Voice, category, stage, directory and media channels. *)
Definition defaultExcludeTypes : list Z := [2; 4; 13; 14; 16].

(** The filter of [getTextChannels], with no extra exclusions. *)
Definition isTextChannel (channel : Discord.Channel) : bool :=
  if existsb (Z.eqb (Discord.chan_type channel)) defaultExcludeTypes
  then false
  else Discord.isTextBased channel && negb (Discord.isVoiceBased channel).

Definition canReadChannel (channel : Discord.Channel) : bool :=
  match Discord.permissions channel with
  | Some (view, history) => view && history
  | None => false
  end.

End Client.

(** ** scraper/messages.js *)

Module Messages.

Definition FETCH_LIMIT : Z := 100.
Definition DEFAULT_DELAY : Z := 100.

Definition formatMessageData (message : Discord.Message)
  : Store.Message.data :=
  {| Store.Message.id := Discord.id message;
     Store.Message.channel_id := Discord.channel_id message;
     Store.Message.author_id := Discord.user_id (Discord.author message);
     Store.Message.content := Some (Discord.content message);
     Store.Message.clean_content := Some (Discord.cleanContent message);
     Store.Message.timestamp := Discord.createdAt message;
     Store.Message.edited_timestamp := orNullStr (Discord.editedAt message);
     Store.Message.message_type := Discord.type message;
     Store.Message.reference_id :=
       orNullStr (Discord.reference_messageId message);
     Store.Message.thread_id := orNullStr (Discord.thread_id message);
     Store.Message.has_embeds :=
       if (0 <? length (Discord.embeds message))%nat then 1 else 0;
     Store.Message.has_attachments :=
       if (0 <? length (Discord.attachments message))%nat then 1 else 0;
     Store.Message.reaction_count :=
       fold_left (fun sum r => sum + Discord.count r)
         (Discord.reactions message) 0 |}.

Definition formatEmbedData (embed : Discord.Embed) (messageId : string)
  : Store.Embed.data :=
  {| Store.Embed.message_id := messageId;
     Store.Embed.type :=
       if truthy_ostr (Discord.data_type embed) then Discord.data_type embed
       else Some "rich";
     Store.Embed.title := orNullStr (Discord.title embed);
     Store.Embed.description := orNullStr (Discord.description embed);
     Store.Embed.url := orNullStr (Discord.url embed);
     Store.Embed.author_name := orNullStr (Discord.author_name embed);
     Store.Embed.author_url := orNullStr (Discord.author_url embed);
     Store.Embed.footer_text := orNullStr (Discord.footer_text embed);
     Store.Embed.image_url := orNullStr (Discord.image_url embed);
     Store.Embed.thumbnail_url := orNullStr (Discord.thumbnail_url embed);
     Store.Embed.color := orNullZ (Discord.color embed);
     Store.Embed.raw_json := Discord.data_json embed |}.

(** [formatAttachmentData], with [message_id] as the caller overrides it. *)
Definition formatAttachmentData (attachment : Discord.Attachment)
    (messageId : string) : Store.Attachment.data :=
  {| Store.Attachment.id := Discord.attachment_id attachment;
     Store.Attachment.message_id := messageId;
     Store.Attachment.filename := Discord.name attachment;
     Store.Attachment.content_type :=
       orNullStr (Discord.contentType attachment);
     Store.Attachment.size := Discord.size attachment;
     Store.Attachment.url := Discord.attachment_url attachment;
     Store.Attachment.proxy_url := Discord.proxyURL attachment;
     Store.Attachment.width := orNullZ (Discord.width attachment);
     Store.Attachment.height := orNullZ (Discord.height attachment) |}.

Definition formatReactionData (reaction : Discord.Reaction)
    (messageId : string) : Store.Reaction.data :=
  {| Store.Reaction.message_id := messageId;
     Store.Reaction.emoji :=
       match Discord.emoji_id reaction with
       | Some i => if truthy_str i then i else Discord.emoji_name reaction
       | None => Discord.emoji_name reaction
       end;
     Store.Reaction.emoji_name := Some (Discord.emoji_name reaction);
     Store.Reaction.is_custom :=
       if truthy_ostr (Discord.emoji_id reaction) then 1 else 0;
     Store.Reaction.count := Discord.count reaction |}.

(** What the generator yields for one message. *)
Record Bundle := {
  message : Store.Message.data;
  user : Store.User.data;
  embeds : list Store.Embed.data;
  attachments : list Store.Attachment.data;
  reactions : list Store.Reaction.data
}.

Definition bundleOf (m : Discord.Message) : Bundle :=
  {| message := formatMessageData m;
     user := Client.formatUserData (Discord.author m);
     embeds := map (fun e => formatEmbedData e (Discord.id m)) (Discord.embeds m);
     attachments :=
       map (fun a => formatAttachmentData a (Discord.id m))
         (Discord.attachments m);
     reactions :=
       map (fun r => formatReactionData r (Discord.id m))
         (Discord.reactions m) |}.

Record Options := {
  before : option string;
  after : option string;
  limit : option Z;
  delay : option Z
}.

(** What the generator does, in order. *)
Inductive Event :=
| Fetch (request : Discord.FetchOptions)
| Yield (b : Bundle)
| Sleep (ms : Z).

(** How the generator ends: it returns, it throws, or it is still paging
    when the fuel of the model runs out. *)
Inductive Ending :=
| Done
| Failed (e : JsError)
| Paging.

Definition limitReached (limit_ : option Z) (fetchedCount : Z) : bool :=
  match limit_ with
  | Some l => truthy_Z l && (fetchedCount >=? l)
  | None => false
  end.

(** [(a, b) => b.createdTimestamp - a.createdTimestamp] *)
Definition newestFirst (a b : Discord.Message) : bool :=
  Discord.createdTimestamp b <=? Discord.createdTimestamp a.

(** The inner [for]: the messages yielded, the new count, and whether the
    loop broke on the limit. *)
Fixpoint yieldLoop (limit_ : option Z) (messageArray : list Discord.Message)
    (fetchedCount : Z) : list Bundle * Z * bool :=
  match messageArray with
  | [] => ([], fetchedCount, false)
  | m :: rest =>
      if limitReached limit_ fetchedCount then ([], fetchedCount, true)
      else
        let '(ys, n, broke) := yieldLoop limit_ rest (fetchedCount + 1) in
        (bundleOf m :: ys, n, broke)
  end.

(** [fetchOptions] for the next request. *)
Definition buildFetchOptions (lastId after_ : option string)
  : Discord.FetchOptions :=
  if truthy_ostr lastId
  then {| Discord.limit := FETCH_LIMIT; Discord.before := lastId;
          Discord.after := None |}
  else if truthy_ostr after_
  then {| Discord.limit := FETCH_LIMIT; Discord.before := None;
          Discord.after := after_ |}
  else {| Discord.limit := FETCH_LIMIT; Discord.before := None;
          Discord.after := None |}.

(** [messageArray[messageArray.length - 1].id] *)
Definition lastIdOf (messageArray : list Discord.Message) : option string :=
  last (map Discord.id messageArray).

Section Generator.

(** [fetch k options] is the answer of the service to the [k]-th
    request of this generator. *)
Variable fetch : nat -> Discord.FetchOptions -> Result (list Discord.Message).
Variable options : Options.

Definition delay_ : Z := default DEFAULT_DELAY (delay options).

(** One turn of [while (hasMore)] per unit of fuel. *)
Fixpoint fetchLoop (fuel : nat) (k : nat) (fetchedCount : Z)
    (lastId : option string) : list Event * Ending :=
  match fuel with
  | O => ([], Paging)
  | S fuel' =>
      if limitReached (limit options) fetchedCount then ([], Done)
      else
        let fetchOptions := buildFetchOptions lastId (after options) in
        match fetch k fetchOptions with
        | Throw e => ([Fetch fetchOptions], Failed e)
        | Ok messages =>
            if (length messages =? 0)%nat then ([Fetch fetchOptions], Done)
            else
              let messageArray := stableSort newestFirst messages in
              let '(ys, n, broke) :=
                yieldLoop (limit options) messageArray fetchedCount in
              let hasMore :=
                negb broke
                && negb (Z.of_nat (length messages) <? FETCH_LIMIT) in
              let here := Fetch fetchOptions :: map Yield ys in
              if hasMore
              then
                let pause := if 0 <? delay_ then [Sleep delay_] else [] in
                let '(evs, ending) :=
                  fetchLoop fuel' (S k) n (lastIdOf messageArray) in
                (here ++ pause ++ evs, ending)
              else (here, Done)
        end
  end.

Definition fetchMessages (fuel : nat) : list Event * Ending :=
  fetchLoop fuel 0 0 (before options).

End Generator.

Definition yielded (evs : list Event) : list Bundle :=
  flat_map (fun e => match e with Yield b => [b] | _ => [] end) evs.

Definition requested (evs : list Event) : list Discord.FetchOptions :=
  flat_map (fun e => match e with Fetch r => [r] | _ => [] end) evs.

End Messages.

(** ** cli/commands/scrape.js: the scrape pass *)

Module Scrape.

Record Options := {
  full : bool;
  incremental : bool;
  channel : option (list string);
  limit : option Z;
  delay : option Z;
  dryRun : bool
}.

(** Everything the pass takes as given: the environment variables, the
    answers of the chat service, and [String.prototype.toLowerCase],
    whose Unicode case mapping is not reproduced here. *)
Record World := {
  DISCORD_BOT_TOKEN : option string;
  DISCORD_GUILD_ID : option string;
  createClient : Result unit;
  getGuild : Result Discord.Guild;
  channelsFetch : Result (list Discord.Channel);
  messagesFetch :
    string -> nat -> Discord.FetchOptions -> Result (list Discord.Message);
  toLowerCase : string -> string
}.

(** A [for ... of] over rows with a statement that may throw: stops at the
    first error, keeping what was written before it. *)
Fixpoint forEach {X} (op : Store.DB -> X -> Result Store.DB) (xs : list X)
    (db : Store.DB) : Store.DB * option JsError :=
  match xs with
  | [] => (db, None)
  | x :: rest =>
      match op db x with
      | Throw e => (db, Some e)
      | Ok db1 => forEach op rest db1
      end
  end.

(** The statements run for one yielded bundle. *)
Definition storeBundle (db : Store.DB) (data : Messages.Bundle)
  : Store.DB * option JsError :=
  let db1 := Store.upsertUser db (Messages.user data) in
  match Store.upsertMessage db1 (Messages.message data) with
  | Throw e => (db1, Some e)
  | Ok db2 =>
      match forEach Store.upsertEmbed (Messages.embeds data) db2 with
      | (db3, Some e) => (db3, Some e)
      | (db3, None) =>
          match forEach Store.upsertAttachment (Messages.attachments data) db3 with
          | (db4, Some e) => (db4, Some e)
          | (db4, None) =>
              forEach Store.upsertReaction (Messages.reactions data) db4
          end
      end
  end.

(** [if (!latestMessageId || data.message.id > latestMessageId)] *)
Definition trackLatest (latestMessageId : option string) (i : string)
  : option string :=
  match latestMessageId with
  | Some l =>
      if negb (truthy_str l) || str_gtb i l then Some i
      else latestMessageId
  | None => Some i
  end.

(** The body of [for await], over the bundles the generator yields. *)
Fixpoint consume (bundles : list Messages.Bundle) (db : Store.DB)
    (channelMessages : Z) (latestMessageId : option string)
  : Store.DB * Result (Z * option string) :=
  match bundles with
  | [] => (db, Ok (channelMessages, latestMessageId))
  | data :: rest =>
      match storeBundle db data with
      | (db1, Some e) => (db1, Throw e)
      | (db1, None) =>
          consume rest db1 (channelMessages + 1)
            (trackLatest latestMessageId
               (Store.Message.id (Messages.message data)))
      end
  end.

(** How the work on one channel ends. *)
Inductive ChannelOutcome :=
| Scraped (channelMessages : Z)
| Caught (e : JsError)
| Uncaught (e : JsError)
| StillPaging.

Section Pass.

Variable world : World.
Variable options : Options.
Variable fuel : nat.

Definition isIncremental : bool :=
  incremental options
  || (negb (full options)
      && match channel options with Some _ => false | None => true end).

Definition mode : string :=
  if full options then "full"
  else if isIncremental then "incremental" else "channel".

(** The resume point read for a channel. *)
Definition afterIdFor (db1 : Store.DB) (channel : Discord.Channel)
  : option string :=
  if isIncremental && negb (full options)
  then Store.getChannelLastScrapedId db1 (Discord.chan_id channel)
  else None.

(** The run of the generator on a channel. *)
Definition channelFeed (db1 : Store.DB) (channel : Discord.Channel)
  : list Messages.Event * Messages.Ending :=
  Messages.fetchMessages
    (messagesFetch world (Discord.chan_id channel))
    {| Messages.before := None;
       Messages.after := afterIdFor db1 channel;
       Messages.limit := limit options;
       Messages.delay := delay options |}
    fuel.

(** One turn of [for (const channel of channelsToScrape)]. *)
Definition scrapeChannel (db : Store.DB) (channel : Discord.Channel)
  : Store.DB * ChannelOutcome :=
  match Store.upsertChannel db (Client.formatChannelData channel) with
  | Throw e => (db, Uncaught e)
  | Ok db1 =>
      let '(evs, ending) := channelFeed db1 channel in
      match consume (Messages.yielded evs) db1 0 None with
      | (db2, Throw e) => (db2, Caught e)
      | (db2, Ok (channelMessages, latestMessageId)) =>
          match ending with
          | Messages.Failed e => (db2, Caught e)
          | Messages.Paging => (db2, StillPaging)
          | Messages.Done =>
              let db3 :=
                match latestMessageId with
                | Some l =>
                    if truthy_str l
                    then Store.updateChannelLastScraped db2
                           (Discord.chan_id channel) l
                    else db2
                | None => db2
                end in
              (db3, Scraped channelMessages)
          end
      end
  end.

(** How the loop over the channels ends. *)
Inductive LoopOutcome :=
| LoopDone (totalMessages totalChannels : Z)
| LoopThrew (e : JsError)
| LoopPaging.

Fixpoint channelLoop (channels : list Discord.Channel) (db : Store.DB)
    (totalMessages totalChannels : Z) : Store.DB * LoopOutcome :=
  match channels with
  | [] => (db, LoopDone totalMessages totalChannels)
  | ch :: rest =>
      match scrapeChannel db ch with
      | (db1, Scraped n) =>
          channelLoop rest db1 (totalMessages + n) (totalChannels + 1)
      | (db1, Caught _) => channelLoop rest db1 totalMessages totalChannels
      | (db1, Uncaught e) => (db1, LoopThrew e)
      | (db1, StillPaging) => (db1, LoopPaging)
      end
  end.

(** [requestedNames.has(ch.name.toLowerCase())], where [requestedNames]
    is the set of the lower-cased [options.channel]; every channel when
    no name was given. *)
Definition requested (ch : Discord.Channel) : bool :=
  match channel options with
  | Some names =>
      existsb (String.eqb (toLowerCase world (Discord.chan_name ch)))
        (map (toLowerCase world) names)
  | None => true
  end.

(** How the command ends: it returns, it calls [process.exit(1)] (from
    the environment checks or from the [catch] block, with the error it
    caught), or a generator is still paging. *)
Inductive PassOutcome :=
| Returned (totalMessages totalChannels : Z)
| DryRun
| Exit1 (e : JsError)
| Running.

(** The action of the command, from the environment checks on.  [db0]
    is the database [initDatabase] opens.  The result carries the sync
    row the pass opened, if it got that far. *)
Definition scrapeCommand (db0 : Store.DB)
  : Store.DB * option positive * PassOutcome :=
  if negb (truthy_ostr (DISCORD_BOT_TOKEN world))
  then (db0, None, Exit1 (mkError "DISCORD_BOT_TOKEN is required"))
  else
  match DISCORD_GUILD_ID world with
  | None => (db0, None, Exit1 (mkError "DISCORD_GUILD_ID is required"))
  | Some guildId =>
  if negb (truthy_str guildId)
  then (db0, None, Exit1 (mkError "DISCORD_GUILD_ID is required"))
  else
  match createClient world with
  | Throw e => (db0, None, Exit1 e)
  | Ok _ =>
  match getGuild world with
  | Throw e => (db0, None, Exit1 e)
  | Ok guild =>
  let db1 :=
    if negb (dryRun options)
    then Store.upsertGuild db0 (Client.formatGuildData guild) else db0 in
  match
    (if negb (dryRun options)
     then match Store.createSyncState db1 mode guildId None with
          | Throw e => Throw e
          | Ok (i, db) => Ok (Some i, db)
          end
     else Ok (None, db1))
  with
  | Throw e => (db1, None, Exit1 e)
  | Ok (syncId, db2) =>
  match channelsFetch world with
  | Throw e => (db2, syncId, Exit1 e)
  | Ok fetched =>
  let allChannels := List.filter Client.isTextChannel fetched in
  let channelsToScrape :=
    List.filter Client.canReadChannel
      (List.filter requested allChannels) in
  if dryRun options then (db2, syncId, DryRun)
  else
  match channelLoop channelsToScrape db2 0 0 with
  | (db3, LoopThrew e) => (db3, syncId, Exit1 e)
  | (db3, LoopPaging) => (db3, syncId, Running)
  | (db3, LoopDone totalMessages totalChannels) =>
      let db4 :=
        match syncId with
        | Some i => Store.completeSyncState db3 i totalMessages
        | None => db3
        end in
      (db4, syncId, Returned totalMessages totalChannels)
  end end end end end end.

End Pass.

(** The state of the sync row a pass opened. *)
Definition syncStatus (db : Store.DB) (syncId : positive)
  : option Store.SyncState.status :=
  Store.SyncState.state <$> Store.sync_state db !! syncId.

End Scrape.

(** ** ai/stages/filter.js *)

Module Filter.

(** The columns of a user row other than the two names. *)
Record AuthorRest := {
  user_id : string; discriminator : option string;
  avatar_url : option string; is_bot : Z;
  created_at : string; updated_at : string
}.

(** The properties of an enriched message that anonymization copies. *)
Record Rest := {
  id : string; timestamp : string;
  has_embeds : Z; has_attachments : Z; reaction_count : Z
}.

Abbreviation Enriched := (Privacy.Msg Rest AuthorRest).

Definition idOf (m : Enriched) : string := id (Privacy.rest m).

Definition authorOf (row : Store.User.row) : Privacy.Author AuthorRest :=
  let u := Store.User.fields row in
  {| Privacy.username := Store.User.username u;
     Privacy.global_name := Store.User.global_name u;
     Privacy.author_rest :=
       {| user_id := Store.User.id u;
          discriminator := Store.User.discriminator u;
          avatar_url := Store.User.avatar_url u;
          is_bot := Store.User.is_bot u;
          created_at := Store.User.created_at row;
          updated_at := Store.User.updated_at row |} |}.

(** [msg.content || msg.clean_content || ''] *)
Definition contentOf (m : Store.Message.data) : string :=
  if truthy_ostr (Store.Message.content m)
  then default "" (Store.Message.content m)
  else if truthy_ostr (Store.Message.clean_content m)
  then default "" (Store.Message.clean_content m)
  else "".

Definition enrich (db : Store.DB) (msg : Store.Message.row) : Enriched :=
  let m := Store.Message.fields msg in
  {| Privacy.author := authorOf <$> Store.getUser db (Store.Message.author_id m);
     Privacy.author_id := None;
     Privacy.content := Some (contentOf m);
     Privacy.clean_content := None;
     Privacy.rest :=
       {| id := Store.Message.id m;
          timestamp := Store.Message.timestamp m;
          has_embeds := Store.Message.has_embeds m;
          has_attachments := Store.Message.has_attachments m;
          reaction_count := Store.Message.reaction_count m |} |}.

Record Options := {
  channelId : option string;
  startDate : option string;
  endDate : option string;
  limit : option Z;
  force : option bool;
  dryRun : option bool
}.

Definition queryOptions (o : Options) : Store.QueryOptions :=
  {| Store.channelId := channelId o; Store.limit := limit o;
     Store.startDate := startDate o; Store.endDate := endDate o |}.

(** The chat-completion response, as far as the driver reads it. *)
Record LlmResponse := {
  text : string;
  prompt_tokens : option Z;
  completion_tokens : option Z;
  model : string
}.

Record Usage := { calls : Z; inputTokens : Z; outputTokens : Z }.

(** [x || 0] *)
Definition orZero (o : option Z) : Z := default 0 o.

Definition track (stats : Usage) (r : LlmResponse) : Usage :=
  {| calls := calls stats + 1;
     inputTokens := inputTokens stats + orZero (prompt_tokens r);
     outputTokens := outputTokens stats + orZero (completion_tokens r) |}.

Record BatchError := {
  batch : Z; error : string; messageIds : list string
}.

Record Results := {
  processed : Z; kept : Z; discarded : Z; errors : list BatchError
}.

(** One batch handed to the driver: what was sent and how many requests
    carried it. *)
Record Prompted := {
  sent : list Enriched; prompt : string; requestCount : nat
}.

Inductive StageResult :=
| NothingToDo (usage : Usage)
| DryRunEstimate (messageCount batchCount estimatedTokens : Z)
| Ran (results : Results) (usage : Usage).

Section Stage.

Variable config : Config.t.

(** The outside: the [k]-th chat-completion request, [Math.random],
    [JSON.parse], [JSON.stringify] on the values the stage serializes,
    and [buildPrompt('filter', {MESSAGES_JSON})]. *)
Variable llm : nat -> string -> Result LlmResponse.
Variable random : nat -> Q.
Variable JSON_parse : string -> option json.
Variable stringifyMessage : Enriched -> string.
Variable stringifyBatch : list Enriched -> string.
Variable stringifyPretty : list Enriched -> string.
Variable stringifyJson : json -> string.
Variable buildPrompt : string -> string.

(** The function [processWithAI] wraps in [processWithRetry]; [base]
    requests were made before. *)
Definition request (base : nat) (prompt_ : string) (k : nat)
  : Result json :=
  match llm (base + k) prompt_ with
  | Throw e => Throw e
  | Ok response =>
      match JSON_parse (text response) with
      | Some value => Ok value
      | None => Throw (mkError "Invalid JSON response from AI")
      end
  end.

Definition processWithAI (base : nat) (prompt_ : string)
  : Retry.Outcome json * list Retry.Event :=
  Retry.processWithRetry config (request base prompt_)
    (fun k => random (base + k)%nat) Retry.noOptions.

(** The usage callback runs when the last request got a response. *)
Definition trackLast (base n : nat) (prompt_ : string) (stats : Usage)
  : Usage :=
  match n with
  | O => stats
  | S n' =>
      match llm (base + n') prompt_ with
      | Ok response => track stats response
      | Throw _ => stats
      end
  end.

Definition results0 : Results :=
  {| processed := 0; kept := 0; discarded := 0; errors := [] |}.

(** The body of [for (const decision of validated.decisions)]. *)
Definition storeDecision (batch_ : list Enriched)
    (st : Store.DB * Results) (decision : json) : Store.DB * Results :=
  let '(db, res) := st in
  match decision with
  | JObj fields =>
      match jget "id" fields with
      | Some (JStr decisionId) =>
          match List.find (fun m => String.eqb (idOf m) decisionId) batch_ with
          | None => st
          | Some originalMsg =>
              let db1 :=
                Store.upsertAIProcessing db
                  {| Store.AIProcessing.entity_type := "message";
                     Store.AIProcessing.entity_id := idOf originalMsg;
                     Store.AIProcessing.stage := "filter";
                     Store.AIProcessing.result_json := stringifyJson decision;
                     Store.AIProcessing.model_used :=
                       Some (Config.ai_model config);
                     Store.AIProcessing.tokens_in := None;
                     Store.AIProcessing.tokens_out := None |} in
              let keep :=
                match jget "keep" fields with
                | Some (JBool true) => true
                | _ => false
                end in
              (db1,
               {| processed := processed res + 1;
                  kept := if keep then kept res + 1 else kept res;
                  discarded :=
                    if keep then discarded res else discarded res + 1;
                  errors := errors res |})
          end
      | _ => st
      end
  | _ => st
  end.

Definition decisionsOf (validated : json) : list json :=
  match validated with
  | JObj fields =>
      match jget "decisions" fields with
      | Some (JArr ds) => ds
      | _ => []
      end
  | _ => []
  end.

Definition pushError (res : Results) (i : Z) (e : JsError)
    (batch_ : list Enriched) : Results :=
  {| processed := processed res; kept := kept res;
     discarded := discarded res;
     errors := errors res ++
               [{| batch := i + 1; error := err_message e;
                   messageIds := map idOf batch_ |}] |}.

(** The loop variables of the batch loop, with the requests made so far
    and the batches handed to the driver. *)
Record State := {
  db : Store.DB;
  results : Results;
  usage : Usage;
  requestsMade : nat;
  prompted : list Prompted
}.

(** One turn of [for (let i = 0; i < batches.length; i++)]. *)
Definition processBatch (st : State) (i : Z) (batch_ : list Enriched)
  : State :=
  let processedBatch :=
    if Config.privacy_anonymizeInPrompts config
    then fst (Privacy.anonymizeMessages batch_ false)
    else batch_ in
  let prompt_ := buildPrompt (stringifyPretty processedBatch) in
  let '(out, evs) := processWithAI (requestsMade st) prompt_ in
  let n := Retry.requests evs in
  let usage1 := trackLast (requestsMade st) n prompt_ (usage st) in
  let response :=
    match out with
    | Retry.Returned value => Validation.validateFilterResponse value
    | Retry.Thrown e => Throw e
    | Retry.FellThrough =>
        Throw (mkError "Invalid AI response for filter stage")
    end in
  let '(db1, res1) :=
    match response with
    | Ok validated =>
        fold_left (storeDecision batch_) (decisionsOf validated)
          (db st, results st)
    | Throw e => (db st, pushError (results st) i e batch_)
    end in
  {| db := db1; results := res1; usage := usage1;
     requestsMade := (requestsMade st + n)%nat;
     prompted := prompted st ++
                 [{| sent := processedBatch; prompt := prompt_;
                     requestCount := n |}] |}.

Fixpoint batchLoop (st : State) (i : Z) (batches_ : list (list Enriched))
  : State :=
  match batches_ with
  | [] => st
  | b :: rest => batchLoop (processBatch st i b) (i + 1) rest
  end.

Definition usage0 : Usage :=
  {| calls := 0; inputTokens := 0; outputTokens := 0 |}.

(** The messages the stage selects. *)
Definition candidates (db_ : Store.DB) (options : Options)
  : list Store.Message.row :=
  Store.getUnprocessedMessages db_ "filter" (queryOptions options).

Definition batchesFor (db_ : Store.DB) (options : Options)
  : list (list Enriched) :=
  Tokens.createBatches stringifyMessage config
    (map (enrich db_) (candidates db_ options))
    {| Tokens.maxTokens := Some (Config.ai_maxTokensPerBatch config);
       Tokens.maxMessages := Some (Config.ai_batchSize config) |}.

(** Returns the result, the database and the batches handed to the
    driver. *)
Definition runFilterStage (db_ : Store.DB) (options : Options)
  : StageResult * Store.DB * list Prompted :=
  let messages := candidates db_ options in
  if (length messages =? 0)%nat then (NothingToDo usage0, db_, [])
  else
    let batches_ := batchesFor db_ options in
    if default false (dryRun options)
    then
      (DryRunEstimate (Z.of_nat (length messages))
         (Z.of_nat (length batches_))
         (Z.of_nat
            (list_sum
               (map (fun b => Tokens.estimateTokens (stringifyBatch b))
                  batches_))),
       db_, [])
    else
      let st :=
        batchLoop
          {| db := db_; results := results0; usage := usage0;
             requestsMade := 0; prompted := [] |}
          0 batches_ in
      (Ran (results st) (usage st), db st, prompted st).

End Stage.

Definition withForce (o : Options) (f : option bool) : Options :=
  {| channelId := channelId o; startDate := startDate o;
     endDate := endDate o; limit := limit o; force := f;
     dryRun := dryRun o |}.

(** A message has a filter row. *)
Definition filtered (db_ : Store.DB) (messageId : string) : Prop :=
  is_Some (Store.ai_processing db_ !! ("message", messageId, "filter")).

End Filter.

(** ** cli/commands/process.js: the reset command *)

Module Process.

(** [stageOrder] of ai/stages/index.js. *)
Definition stageOrder : list string :=
  ["filter"; "categorize"; "summarize"; "extract"; "format"].

(** [SELECT COUNT ... FROM ai_processing WHERE stage = ?]; the stage of
    a row is the third part of its key. *)
Definition countStage (db : Store.DB) (stage : string) : Z :=
  Z.of_nat
    (size (filter (fun kv => snd (fst kv) = stage) (Store.ai_processing db))).

(** How the command ends: [process.exit(1)] on an unknown stage, or one
    of its three messages. *)
Inductive ResetOutcome :=
| UnknownStage
| NothingToClear
| ConfirmNeeded (count : Z)
| Cleared (count : Z).

(** The action of [process reset <stage>], with the [--confirm] flag. *)
Definition reset (db : Store.DB) (stage : string) (confirm : bool)
  : Store.DB * ResetOutcome :=
  if negb (existsb (String.eqb stage) stageOrder) then (db, UnknownStage)
  else
    let count := countStage db stage in
    if count =? 0 then (db, NothingToClear)
    else if negb confirm then (db, ConfirmNeeded count)
    else
      (Store.with_ai db
         (filter (fun kv => snd (fst kv) <> stage) (Store.ai_processing db)),
       Cleared count).

End Process.

(** ** Concrete configurations and inputs used in the examples *)

Module Fixtures.

(** The defaults of a typical config/default.json. *)
Definition config : Config.t :=
  {| Config.ai_model := "moonshotai/kimi-k2";
     Config.ai_batchSize := 50;
     Config.ai_maxTokensPerBatch := 1000;
     Config.ai_retryAttempts := 3;
     Config.ai_retryDelayMs := 1000 # 1;
     Config.scraper_backoffMultiplier := 2 # 1;
     Config.privacy_anonymizeInPrompts := true |}.

(** Two attempts, 7 ms base delay. *)
Definition shortDelays : Config.t :=
  {| Config.ai_model := "moonshotai/kimi-k2";
     Config.ai_batchSize := 50;
     Config.ai_maxTokensPerBatch := 1000;
     Config.ai_retryAttempts := 2;
     Config.ai_retryDelayMs := 7 # 1;
     Config.scraper_backoffMultiplier := 2 # 1;
     Config.privacy_anonymizeInPrompts := true |}.

Definition tooManyRequests : JsError :=
  {| err_status := Some 429; err_code := None;
     err_message := "429 Too Many Requests" |}.

(** An endpoint that answers every request with HTTP 429. *)
Definition always429 {A : Type} : nat -> Result A :=
  fun _ => Throw tooManyRequests.

End Fixtures.

(** The capped backoff before attempt [attempt + 1], in exact
    arithmetic: [min(B * M^(attempt-1), maxDelay)]. *)
Definition exactDelay (baseD mult maxD : Q) (attempt : Z) : Q :=
  Retry.Qminimum (baseD * mult ^ (attempt - 1))%Q maxD.

(** What the rounding of the double operations can add to or take from a
    delay of [d] ms: less than [(d + 1) / 2^48]. *)
Definition roundingSlack (d : Q) : Q := ((d + 1) * 2 ^ (-48))%Q.

(** The range the specification states for the [i]-th inter-attempt delay
    ([i] from 1): between the capped backoff and 1.1 times it. *)
Definition claimedDelayRange (baseD mult : Q) (i : nat) (t : Z) : Prop :=
  let d := Retry.Qminimum (baseD * Qpower mult (Z.of_nat i - 1)) (30000 # 1) in
  (d <= inject_Z t /\ inject_Z t <= (11 # 10) * d)%Q.

(** ** What the specification says of [shouldProcess] *)

(** True when no row exists, or the existing row is older than
    [reprocessAfterDays] days, or [force] is set. *)
Definition shouldProcessBySpec (Date_getTime : string -> option Z) (now : Z)
    (db : Store.DB) (entityType entityId stage : string)
    (options : Store.ProcessOptions) : Prop :=
  let days := default (30 # 1)%Q (Store.reprocessAfterDays options) in
  Store.ai_processing db !! (entityType, entityId, stage) = None \/
  (exists row t,
      Store.ai_processing db !! (entityType, entityId, stage) = Some row /\
      Date_getTime (Store.AIProcessing.processed_at row) = Some t /\
      (days * 24 * 60 * 60 * 1000 < inject_Z (now - t))%Q) \/
  default false (Store.force options) = true.

Module StoreFixtures.

Definition emptyDB : Store.DB :=
  {| Store.clock := "2024-06-15 00:00:00";
     Store.guilds := ∅; Store.channels := ∅; Store.users := ∅;
     Store.messages := []; Store.embeds := []; Store.attachments := ∅;
     Store.reactions := ∅; Store.sync_state := ∅; Store.sync_seq := 1%positive;
     Store.ai_processing := ∅ |}.

(** A store whose only row is the filter decision for message 42, written
    at the store's clock. *)
Definition oneDecision : Store.DB :=
  Store.upsertAIProcessing emptyDB
    {| Store.AIProcessing.entity_type := "message";
       Store.AIProcessing.entity_id := "42";
       Store.AIProcessing.stage := "filter";
       Store.AIProcessing.result_json := "{}";
       Store.AIProcessing.model_used := None;
       Store.AIProcessing.tokens_in := None;
       Store.AIProcessing.tokens_out := None |}.

(** 2024-06-15T00:00:00Z in milliseconds, and one day. *)
Definition midnight : Z := 1718409600000.
Definition oneDay : Z := 86400000.

Definition parseClock (text : string) : option Z :=
  if String.eqb text "2024-06-15 00:00:00" then Some midnight else None.

Definition neverParses (text : string) : option json := None.

Definition zeroDays : Store.ProcessOptions :=
  {| Store.force := Some false; Store.reprocessAfterDays := Some 0%Q |}.

(** No option given: no [force], thirty days. *)
Definition defaults : Store.ProcessOptions :=
  {| Store.force := None; Store.reprocessAfterDays := None |}.

(** A thousandth of a day, as a double. *)
Definition shortMemory : Store.ProcessOptions :=
  {| Store.force := None;
     Store.reprocessAfterDays := Some (Double.round (1 # 1000)) |}.

(** A zone two hours ahead of UTC all year. *)
Definition utcPlus2 (wallClock : Z) : Z := 7200000.

Definition oneHour : Z := 3600000.

End StoreFixtures.

(** ** The categorize responses the validator lets through *)

Module CategorizeShape.

Definition sentiments : list string :=
  ["positive"; "neutral"; "negative"; "mixed"].

Definition levels : list string := ["high"; "medium"; "low"].

(** The property is a string. *)
Definition stringAt (key : string) (fields : list (string * json)) : Prop :=
  exists s, jget key fields = Some (JStr s).

(** The property is absent, or a string among [allowed]. *)
Definition optionalEnum (key : string) (allowed : list string)
    (fields : list (string * json)) : Prop :=
  jget key fields = None \/
  exists s, jget key fields = Some (JStr s) /\ In s allowed.

(** The property is absent, or an array of strings. *)
Definition optionalStrings (key : string) (fields : list (string * json))
  : Prop :=
  jget key fields = None \/
  exists xs, jget key fields = Some (JArr (map JStr xs)).

Definition item (x : json) : Prop :=
  exists fields,
    x = JObj fields /\
    stringAt "id" fields /\
    stringAt "primary_topic" fields /\
    optionalStrings "secondary_topics" fields /\
    optionalEnum "sentiment" sentiments fields /\
    optionalEnum "urgency" levels fields /\
    optionalEnum "marketing_relevance" levels fields.

Definition response (r : json) : Prop :=
  exists fields items,
    r = JObj fields /\
    jget "categorizations" fields = Some (JArr items) /\
    Forall item items.

(** A response whose only item has an id and a topic and nothing else. *)
Definition bareResponse : json :=
  JObj [("categorizations",
         JArr [JObj [("id", JStr "1"); ("primary_topic", JStr "governance")]])].

End CategorizeShape.

(** ** A small seeded store *)

Module Seeded.

Definition orKeep (db : Store.DB) (r : Result Store.DB) : Store.DB :=
  match r with Ok db1 => db1 | Throw _ => db end.

Definition guild : Store.Guild.data :=
  {| Store.Guild.id := "g1"; Store.Guild.name := "Stacks";
     Store.Guild.icon_url := None; Store.Guild.member_count := Some 10 |}.

Definition general : Store.Channel.data :=
  {| Store.Channel.id := "c1"; Store.Channel.guild_id := "g1";
     Store.Channel.name := "general"; Store.Channel.type := 0;
     Store.Channel.parent_id := None; Store.Channel.position := Some 0;
     Store.Channel.topic := None |}.

Definition alice : Store.User.data :=
  {| Store.User.id := "u1"; Store.User.username := "alice";
     Store.User.global_name := Some "Alice"; Store.User.discriminator := Some "0";
     Store.User.avatar_url := None; Store.User.is_bot := 0 |}.

Definition hello : Store.Message.data :=
  {| Store.Message.id := "100";
     Store.Message.channel_id := "c1";
     Store.Message.author_id := "u1";
     Store.Message.content := Some "hello";
     Store.Message.clean_content := Some "hello";
     Store.Message.timestamp := "2024-06-15T10:00:00.000Z";
     Store.Message.edited_timestamp := None;
     Store.Message.message_type := 0;
     Store.Message.reference_id := None;
     Store.Message.thread_id := None;
     Store.Message.has_embeds := 0;
     Store.Message.has_attachments := 0;
     Store.Message.reaction_count := 0 |}.

(** The same id seen again: edited, with reactions, and with every other
    field different as well. *)
Definition helloEdited : Store.Message.data :=
  {| Store.Message.id := "100";
     Store.Message.channel_id := "c2";
     Store.Message.author_id := "u2";
     Store.Message.content := Some "hello, world";
     Store.Message.clean_content := Some "hello, world";
     Store.Message.timestamp := "2024-06-16T00:00:00.000Z";
     Store.Message.edited_timestamp := Some "2024-06-15T10:05:00.000Z";
     Store.Message.message_type := 19;
     Store.Message.reference_id := Some "99";
     Store.Message.thread_id := Some "t1";
     Store.Message.has_embeds := 1;
     Store.Message.has_attachments := 1;
     Store.Message.reaction_count := 3 |}.

Definition db : Store.DB :=
  let db1 := Store.upsertGuild StoreFixtures.emptyDB guild in
  let db2 := orKeep db1 (Store.upsertChannel db1 general) in
  let db3 := Store.upsertUser db2 alice in
  orKeep db3 (Store.upsertMessage db3 hello).

End Seeded.

(** ** A chat service with a fixed history *)

Module Service.

Definition bot : Discord.User :=
  {| Discord.user_id := "u1"; Discord.username := "alice";
     Discord.globalName := Some "Alice"; Discord.displayName := None;
     Discord.discriminator := Some "0"; Discord.bot := false;
     Discord.avatarURL := None |}.

(** The message with snowflake [n], posted at time [n]. *)
Definition messageAt (channelId : string) (n : nat) : Discord.Message :=
  {| Discord.id := Privacy.decimal n;
     Discord.channel_id := channelId;
     Discord.author := bot;
     Discord.content := "gm";
     Discord.cleanContent := "gm";
     Discord.createdAt := "2024-06-15T10:00:00.000Z";
     Discord.createdTimestamp := Z.of_nat n;
     Discord.editedAt := None;
     Discord.type := 0;
     Discord.reference_messageId := None;
     Discord.thread_id := None;
     Discord.embeds := [];
     Discord.attachments := [];
     Discord.reactions := [] |}.

Definition numberOf (history : list nat) (i : string) : option nat :=
  List.find (fun n => String.eqb (Privacy.decimal n) i) history.

(** The newest [k] of an ascending list, newest first. *)
Definition newest (k : nat) (l : list nat) : list nat := firstn k (rev l).

(** The paging of the chat service over an ascending [history]: [before]
    gives the newest messages older than the id, [after] the oldest
    messages newer than it, neither the newest ones; at most [limit]. *)
Definition page (history : list nat) (o : Discord.FetchOptions) : list nat :=
  let k := Z.to_nat (Discord.limit o) in
  match Discord.before o, Discord.after o with
  | Some b, _ =>
      match numberOf history b with
      | Some bn => newest k (List.filter (fun n => n <? bn)%nat history)
      | None => []
      end
  | None, Some a =>
      match numberOf history a with
      | Some an => rev (firstn k (List.filter (fun n => an <? n)%nat history))
      | None => []
      end
  | None, None => newest k history
  end.

Definition fetch (channelId : string) (history : list nat) (k : nat)
    (o : Discord.FetchOptions) : Result (list Discord.Message) :=
  Ok (map (messageAt channelId) (page history o)).

(** A channel holding messages 1000 to 1249; the scraper last stopped at
    1099, so 150 messages are new. *)
Definition history : list nat := seq 1000 250.
Definition cursor : string := "1099".

Definition incremental : Messages.Options :=
  {| Messages.before := None; Messages.after := Some cursor;
     Messages.limit := None; Messages.delay := Some 0 |}.

Definition guild : Discord.Guild :=
  {| Discord.guild_id := "g1"; Discord.guild_name := "Stacks";
     Discord.memberCount := Some 10; Discord.iconURL := None |}.

Definition general : Discord.Channel :=
  {| Discord.chan_id := "c1"; Discord.chan_guild := "g1";
     Discord.chan_name := "general"; Discord.chan_type := 0;
     Discord.parentId := None; Discord.position := Some 0;
     Discord.topic := None;
     Discord.isTextBased := true; Discord.isVoiceBased := false;
     Discord.permissions := Some (true, true) |}.

Definition networkError : JsError :=
  {| err_status := None; err_code := Some "ECONNRESET";
     err_message := "socket hang up" |}.

(** [toLowerCase] on text whose only letters are ASCII, as the names
    below are. *)
Definition lowerChar (c : ascii) : ascii :=
  let n := nat_of_ascii c in
  if ((65 <=? n) && (n <=? 90))%nat then ascii_of_nat (n + 32) else c.

Fixpoint lowerAscii (s : string) : string :=
  match s with
  | EmptyString => EmptyString
  | String c rest => String (lowerChar c) (lowerAscii rest)
  end.

(** A guild with one channel holding messages 100, 200 and 300. *)
Definition small : Scrape.World :=
  {| Scrape.DISCORD_BOT_TOKEN := Some "token";
     Scrape.DISCORD_GUILD_ID := Some "g1";
     Scrape.createClient := Ok tt;
     Scrape.getGuild := Ok guild;
     Scrape.channelsFetch := Ok [general];
     Scrape.messagesFetch := fun c => fetch c [100; 200; 300]%nat;
     Scrape.toLowerCase := lowerAscii |}.

(** The same guild when listing its channels fails. *)
Definition channelsUnavailable : Scrape.World :=
  {| Scrape.DISCORD_BOT_TOKEN := Some "token";
     Scrape.DISCORD_GUILD_ID := Some "g1";
     Scrape.createClient := Ok tt;
     Scrape.getGuild := Ok guild;
     Scrape.channelsFetch := Throw networkError;
     Scrape.messagesFetch := fun c => fetch c [100; 200; 300]%nat;
     Scrape.toLowerCase := lowerAscii |}.

Definition incrementalRun : Scrape.Options :=
  {| Scrape.full := false; Scrape.incremental := true;
     Scrape.channel := None; Scrape.limit := None;
     Scrape.delay := Some 100; Scrape.dryRun := false |}.

(** [--channel GENERAL Announcements] *)
Definition namedRun : Scrape.Options :=
  {| Scrape.full := false; Scrape.incremental := false;
     Scrape.channel := Some ["GENERAL"; "Announcements"];
     Scrape.limit := None;
     Scrape.delay := Some 100; Scrape.dryRun := false |}.

End Service.

(** ** The greatest id seen *)

(** [latest] is one of the ids seen so far and bounds them all; with
    nothing seen there is none. *)
Definition latest_of (seen : list string) (latest : option string) : Prop :=
  match latest with
  | None => seen = []
  | Some l => In l seen /\ forall i, In i seen -> str_le i l
  end.

(** Every message stored before is still stored after. *)
Definition keeps_messages (a b : Store.DB) : Prop :=
  forall i, Store.hasMessage a i = true -> Store.hasMessage b i = true.

(** The ids of the messages a generator run yielded. *)
Definition yieldedIds (evs : list Messages.Event) : list string :=
  map (fun b => Store.Message.id (Messages.message b)) (Messages.yielded evs).

(** The cursor column of a channel row, when the row exists. *)
Definition cursorOf (db : Store.DB) (channelId : string)
  : option (option string) :=
  Store.Channel.last_scraped_message_id <$> Store.channels db !! channelId.

(** ** A store holding only the guild *)

Module Fresh.

Definition db : Store.DB :=
  Store.upsertGuild StoreFixtures.emptyDB
    (Client.formatGuildData Service.guild).

(** The store after the channel upsert of the first pass. *)
Definition withChannel : Store.DB :=
  Seeded.orKeep db
    (Store.upsertChannel db (Client.formatChannelData Service.general)).

Definition feed : list Messages.Event * Messages.Ending :=
  Scrape.channelFeed Service.small Service.incrementalRun 10 withChannel
    Service.general.

Definition scraped : Store.DB * Scrape.ChannelOutcome :=
  Scrape.scrapeChannel Service.small Service.incrementalRun 10 db
    Service.general.

End Fresh.

(** ** The incremental fetch of the 150 new messages *)

Module Resume.

Definition run : list Messages.Event * Messages.Ending :=
  Messages.fetchMessages (Service.fetch "c1" Service.history)
    Service.incremental 10.

Definition ids : list string := yieldedIds (fst run).

(** The id is lexicographically after the cursor. *)
Definition afterCursor (i : string) : bool := str_gtb i Service.cursor.

End Resume.

(** ** A seeded pipeline: three messages and a stub model *)

Module Pipeline.

Definition messageFrom (i text : string) : Store.Message.data :=
  {| Store.Message.id := i;
     Store.Message.channel_id := "c1";
     Store.Message.author_id := "u1";
     Store.Message.content := Some text;
     Store.Message.clean_content := Some text;
     Store.Message.timestamp := "2024-06-15T10:00:0" +:+ i +:+ ".000Z";
     Store.Message.edited_timestamp := None;
     Store.Message.message_type := 0;
     Store.Message.reference_id := None;
     Store.Message.thread_id := None;
     Store.Message.has_embeds := 0;
     Store.Message.has_attachments := 0;
     Store.Message.reaction_count := 0 |}.

Definition db : Store.DB :=
  let db1 := Store.upsertGuild StoreFixtures.emptyDB Seeded.guild in
  let db2 := Seeded.orKeep db1 (Store.upsertChannel db1 Seeded.general) in
  let db3 := Store.upsertUser db2 Seeded.alice in
  let db4 := Seeded.orKeep db3 (Store.upsertMessage db3 (messageFrom "1" "gm")) in
  let db5 := Seeded.orKeep db4 (Store.upsertMessage db4 (messageFrom "2" "spam")) in
  Seeded.orKeep db5 (Store.upsertMessage db5 (messageFrom "3" "sBTC is live")).

Definition decision (i : string) (keep : bool) : json :=
  JObj [("id", JStr i); ("keep", JBool keep)].

(** The stub answers every request with keep for 1 and 3, discard for 2. *)
Definition answer : Filter.LlmResponse :=
  {| Filter.text := "decisions";
     Filter.prompt_tokens := Some 120; Filter.completion_tokens := Some 30;
     Filter.model := "moonshotai/kimi-k2" |}.

Definition stub (k : nat) (prompt : string) : Result Filter.LlmResponse :=
  Ok answer.

Definition parse (text : string) : option json :=
  if String.eqb text "decisions"
  then Some (JObj [("decisions",
                    JArr [decision "1" true; decision "2" false;
                          decision "3" true])])
  else None.

(** Stand-ins for [JSON.stringify]: only the length matters to the stage. *)
Definition showMessage (m : Filter.Enriched) : string :=
  Filter.idOf m +:+ default "" (Privacy.content m).

Definition showBatch (b : list Filter.Enriched) : string :=
  String.concat "," (map showMessage b).

Definition showJson (j : json) : string := "{}".

Definition options : Filter.Options :=
  {| Filter.channelId := None; Filter.startDate := None;
     Filter.endDate := None; Filter.limit := None;
     Filter.force := None; Filter.dryRun := None |}.

Definition runWith (llm : nat -> string -> Result Filter.LlmResponse)
    (store : Store.DB) (o : Filter.Options)
  : Filter.StageResult * Store.DB * list Filter.Prompted :=
  Filter.runFilterStage Fixtures.config llm (fun _ => 1 # 2) parse
    showMessage showBatch showBatch showJson (fun text => text) store o.

Definition firstRun := runWith stub db options.

(** The second run, forced, on the store the first run left. *)
Definition forcedRerun :=
  runWith stub (snd (fst firstRun)) (Filter.withForce options (Some true)).

Definition throttled :=
  runWith (fun k _ => Fixtures.always429 k) db options.

End Pipeline.

(** ** The second pass, after message 400 was posted *)

Module Later.

Definition grown : Scrape.World :=
  {| Scrape.DISCORD_BOT_TOKEN := Some "token";
     Scrape.DISCORD_GUILD_ID := Some "g1";
     Scrape.createClient := Ok tt;
     Scrape.getGuild := Ok Service.guild;
     Scrape.channelsFetch := Ok [Service.general];
     Scrape.messagesFetch :=
       fun c => Service.fetch c [100; 200; 300; 400]%nat;
     Scrape.toLowerCase := Service.lowerAscii |}.

Definition scraped : Store.DB * Scrape.ChannelOutcome :=
  Scrape.scrapeChannel grown Service.incrementalRun 10 (fst Fresh.scraped)
    Service.general.

End Later.

(** ** Inputs of the further examples *)

Module Edge.

(** A wrapped call that is throttled twice and then answers. *)
Definition thirdTimeLucky : nat -> Result string :=
  fun k => if (k <? 2)%nat then Throw Fixtures.tooManyRequests else Ok "done".

Definition noAttempts : Retry.RetryOptions :=
  {| Retry.maxRetries := Some 0; Retry.baseDelay := None;
     Retry.backoffMultiplier := None; Retry.maxDelay := None |}.

Definition noMessages : Tokens.BatchOptions :=
  {| Tokens.maxTokens := None; Tokens.maxMessages := Some 0 |}.

End Edge.

(** ** Rows used in the further examples on the store *)

Module Rows.

Definition reply : Store.Message.data := Pipeline.messageFrom "4" "thanks".

Definition verdict : Store.AIProcessing.data :=
  {| Store.AIProcessing.entity_type := "message";
     Store.AIProcessing.entity_id := "2";
     Store.AIProcessing.stage := "filter";
     Store.AIProcessing.result_json := "{}";
     Store.AIProcessing.model_used := None;
     Store.AIProcessing.tokens_in := None;
     Store.AIProcessing.tokens_out := None |}.

Definition everything : Store.ExportQuery.options :=
  {| Store.ExportQuery.channelId := None;
     Store.ExportQuery.startDate := None;
     Store.ExportQuery.endDate := None;
     Store.ExportQuery.limit := None;
     Store.ExportQuery.offset := None |}.

Definition noFilter : Store.QueryOptions :=
  {| Store.channelId := None; Store.limit := None;
     Store.startDate := None; Store.endDate := None |}.

End Rows.

(** The rows of a query are in ascending order of timestamp. *)
Definition byTimestampAscending (rows : list Store.Message.row) : Prop :=
  StronglySorted
    (fun a b =>
       str_le (Store.Message.timestamp (Store.Message.fields a))
         (Store.Message.timestamp (Store.Message.fields b)))
    rows.

(** The messages of a page, newest first. *)
Definition newestFirstSorted (page : list Discord.Message) : Prop :=
  StronglySorted
    (fun a b => Discord.createdTimestamp b <= Discord.createdTimestamp a)
    page.

Module Cold.

(** A first scrape of a channel, and one that stops after two messages. *)
Definition whole : Messages.Options :=
  {| Messages.before := None; Messages.after := None;
     Messages.limit := None; Messages.delay := Some 0 |}.

Definition firstTwo : Messages.Options :=
  {| Messages.before := None; Messages.after := None;
     Messages.limit := Some 2; Messages.delay := Some 0 |}.

Definition dryRun : Scrape.Options :=
  {| Scrape.full := false; Scrape.incremental := true;
     Scrape.channel := None; Scrape.limit := None;
     Scrape.delay := Some 100; Scrape.dryRun := true |}.

End Cold.

Module Stored.

(** The store the first filter run left. *)
Definition filtered : Store.DB := snd (fst Pipeline.firstRun).

Definition page : list Discord.Message :=
  map (Service.messageAt "c1") [100; 200]%nat.

End Stored.

(* ===================================================================== *)
(** * Properties *)
(* ===================================================================== *)

(** ** Batch packing (ai/tokens.js) *)

Section BatchingFacts.

Context {Message : Type}.
Variable stringify : Message -> string.
Variables maxT maxM : Z.

Let step := Tokens.batchStep stringify maxT maxM.
Let ok := Tokens.batch_ok stringify maxT maxM.
Let inv := Tokens.batch_inv stringify maxT maxM.

Lemma batchTokens_app (a b : list Message) :
  Tokens.batchTokens stringify (a ++ b) =
  (Tokens.batchTokens stringify a + Tokens.batchTokens stringify b)%nat.
Proof.
  unfold Tokens.batchTokens. rewrite map_app.
  induction (map (Tokens.messageTokens stringify) a) as [|x xs IH]; simpl; lia.
Qed.

Lemma batchTokens_single (m : Message) :
  Tokens.batchTokens stringify [m] = Tokens.messageTokens stringify m.
Proof. unfold Tokens.batchTokens. simpl. lia. Qed.

Lemma batch_ok_single (m : Message) : 0 < maxM -> ok [m].
Proof.
  intros HM. unfold ok, Tokens.batch_ok. split; [discriminate|].
  split; [simpl; lia|].
  destruct (Z_le_gt_dec (Z.of_nat (Tokens.messageTokens stringify m)) maxT) as [Hle|Hgt].
  - left. unfold Tokens.batchTokens. simpl. lia.
  - right. exists m. split; [reflexivity | lia].
Qed.

Lemma batchStep_contents (st : Tokens.BatchState) (m : Message) :
  Tokens.batch_contents (step st m) = Tokens.batch_contents st ++ [m].
Proof.
  unfold step, Tokens.batchStep, Tokens.batch_contents.
  destruct (Tokens.limitsExceeded maxT maxM st _); simpl.
  - rewrite concat_app. simpl. rewrite app_nil_r. reflexivity.
  - rewrite app_assoc. reflexivity.
Qed.

Lemma batchStep_inv (st : Tokens.BatchState) (m : Message) :
  0 < maxM -> inv st -> inv (step st m).
Proof.
  intros HM (Hbs & Htok & Hcur).
  unfold inv, step, Tokens.batch_inv, Tokens.batchStep.
  destruct (Tokens.limitsExceeded maxT maxM st _) eqn:Hex; simpl.
  - (* the current batch is emitted and [m] starts a new one *)
    assert (Hne : Tokens.currentBatch st <> []).
    { unfold Tokens.limitsExceeded in Hex.
      destruct (Tokens.currentBatch st); [|discriminate].
      simpl in Hex. rewrite andb_false_r in Hex. simpl in Hex.
      apply Z.geb_le in Hex. lia. }
    split; [|split].
    + apply Forall_app. split; [exact Hbs|].
      constructor; [|constructor]. destruct Hcur as [Hcur|Hcur]; [contradiction|exact Hcur].
    + unfold Tokens.batchTokens. simpl. lia.
    + right. apply batch_ok_single. exact HM.
  - (* [m] joins the current batch *)
    unfold Tokens.limitsExceeded in Hex.
    apply orb_false_iff in Hex. destruct Hex as [Hex1 Hex2].
    split; [exact Hbs|]. split.
    + rewrite batchTokens_app, batchTokens_single, Htok. reflexivity.
    + right. destruct (Tokens.currentBatch st) as [|x xs] eqn:Hcb.
      * simpl. apply batch_ok_single. exact HM.
      * destruct Hcur as [Hcur|(_ & Hlen & _)]; [discriminate|].
        simpl in Hex1. rewrite andb_true_r in Hex1.
        assert (Hlt : Z.of_nat (length (x :: xs)) < maxM).
        { destruct (Z.of_nat (length (x :: xs)) >=? maxM) eqn:E; [discriminate|].
          rewrite Z.geb_leb in E. apply Z.leb_gt in E. exact E. }
        split; [destruct xs; discriminate|].
        split; [rewrite length_app; simpl in *; lia|].
        left. rewrite batchTokens_app, batchTokens_single, <- Htok.
        rewrite Z.gtb_ltb in Hex1. apply Z.ltb_ge in Hex1. lia.
Qed.

Lemma fold_batchStep (messages : list Message) (st : Tokens.BatchState) :
  0 < maxM -> inv st ->
  inv (fold_left step messages st) /\
  Tokens.batch_contents (fold_left step messages st) =
  Tokens.batch_contents st ++ messages.
Proof.
  intros HM. revert st.
  induction messages as [|m ms IH]; intros st Hinv; simpl.
  - split; [exact Hinv | now rewrite app_nil_r].
  - destruct (IH (step st m) (batchStep_inv st m HM Hinv)) as [H1 H2].
    split; [exact H1|].
    rewrite H2, batchStep_contents, <- app_assoc. reflexivity.
Qed.

Lemma batchFinish_ok (st : Tokens.BatchState) :
  inv st ->
  Forall ok (Tokens.batchFinish st) /\
  concat (Tokens.batchFinish st) = Tokens.batch_contents st.
Proof.
  intros (Hbs & _ & Hcur). unfold Tokens.batchFinish, Tokens.batch_contents.
  destruct (Tokens.currentBatch st) as [|x xs] eqn:Hcb; simpl.
  - split; [exact Hbs | now rewrite app_nil_r].
  - split.
    + apply Forall_app. split; [exact Hbs|].
      constructor; [|constructor].
      destruct Hcur as [Hcur|Hcur]; [discriminate | exact Hcur].
    + rewrite concat_app. simpl. now rewrite app_nil_r.
Qed.

(** Every emitted batch is within the caps (or a single oversized item),
    and the batches laid end to end are the input. *)
Lemma createBatchesWith_ok (messages : list Message) :
  0 < maxM ->
  Forall ok (Tokens.createBatchesWith stringify maxT maxM messages) /\
  concat (Tokens.createBatchesWith stringify maxT maxM messages) = messages.
Proof.
  intros HM. unfold Tokens.createBatchesWith.
  set (st0 := {| Tokens.batches := []; Tokens.currentBatch := [];
                 Tokens.currentTokens := 0 |}).
  assert (Hinv0 : inv st0).
  { split; [constructor|]. split; [reflexivity | now left]. }
  destruct (fold_batchStep messages st0 HM Hinv0) as [H1 H2].
  destruct (batchFinish_ok _ H1) as [H3 H4].
  split; [exact H3|]. fold step. rewrite H4, H2. reflexivity.
Qed.

End BatchingFacts.

(** C1.  For positive caps, [createBatches] returns batches whose
    concatenation is the input in order; no batch has more than
    [maxMessages] items; and the summed token estimates of a batch exceed
    [maxTokens] only when the batch is a single item whose own estimate
    already exceeds it. *)
Theorem createBatches_packing :
  forall (Message : Type) (stringify : Message -> string) (config : Config.t)
         (messages : list Message) (maxTokens maxMessages : Z),
    0 < maxTokens -> 0 < maxMessages ->
    let batches :=
      Tokens.createBatches stringify config messages
        {| Tokens.maxTokens := Some maxTokens;
           Tokens.maxMessages := Some maxMessages |} in
    concat batches = messages /\
    Forall (fun b => Z.of_nat (length b) <= maxMessages) batches /\
    Forall (fun b =>
              Z.of_nat (Tokens.batchTokens stringify b) <= maxTokens \/
              exists m, b = [m] /\
                        maxTokens < Z.of_nat (Tokens.messageTokens stringify m))
           batches.
Proof.
  intros Message stringify config messages maxT maxM _ HM batches.
  destruct (createBatchesWith_ok stringify maxT maxM messages HM) as [Hok Hcat].
  split; [exact Hcat|].
  split; (eapply List.Forall_impl; [|exact Hok]); intros b (_ & Hl & Ht); assumption.
Qed.

(** ** Rounding to a double *)

Section DoubleFacts.
Local Open Scope Q_scope.

Lemma two_power_pos (e : Z) : 0 < 2 ^ e.
Proof. apply Qpower_0_lt. reflexivity. Qed.

Lemma two_power_succ (e : Z) : 2 ^ (e + 1) == 2 * 2 ^ e.
Proof. rewrite Qpower_plus by discriminate. rewrite Qpower_1_r. ring. Qed.

Lemma two_power_Z (a : Z) : (0 <= a)%Z -> inject_Z (2 ^ a) == 2 ^ a.
Proof. intros Ha. now rewrite Zpower_Qpower. Qed.

Lemma ilog2_spec (x : Q) :
  0 < x -> 2 ^ Double.ilog2 x <= x /\ x < 2 ^ (Double.ilog2 x + 1).
Proof.
  intros Hx. destruct x as [n d]. 
  assert (Hn : (0 < n)%Z).
  { unfold Qlt in Hx. simpl in Hx. lia. }
  unfold Double.ilog2. cbn [Qnum Qden].
  set (a := Z.log2 n). set (b := Z.log2 (Z.pos d)).
  pose proof (Z.log2_spec n Hn) as [Ha1 Ha2]. fold a in Ha1, Ha2.
  pose proof (Z.log2_spec (Z.pos d) eq_refl) as [Hb1 Hb2]. fold b in Hb1, Hb2.
  assert (Ha0 : (0 <= a)%Z) by apply Z.log2_nonneg.
  assert (Hb0 : (0 <= b)%Z) by apply Z.log2_nonneg.
  rewrite Zle_Qle in Ha1, Hb1. rewrite Zlt_Qlt in Ha2, Hb2.
  replace (Z.succ a) with (a + 1)%Z in Ha2 by lia.
  replace (Z.succ b) with (b + 1)%Z in Hb2 by lia.
  rewrite two_power_Z in Ha1, Hb1, Ha2, Hb2 by lia.
  rewrite two_power_succ in Ha2, Hb2.
  assert (Hx' : (n # d) * inject_Z (Z.pos d) == inject_Z n).
  { rewrite (Qmake_Qdiv n d). field. discriminate. }
  assert (He : 2 ^ (a - b) * 2 ^ b == 2 ^ a).
  { rewrite Qpower_minus by discriminate. field.
    apply Qpower_not_0. discriminate. }
  pose proof (two_power_pos a) as Pa. pose proof (two_power_pos b) as Pb.
  pose proof (two_power_pos (a - b)) as Pe.
  set (x := n # d) in *. set (N := inject_Z n) in *.
  set (D := inject_Z (Z.pos d)) in *.
  set (PA := 2 ^ a) in *. set (PB := 2 ^ b) in *.
  destruct (Qle_bool (2 ^ (a - b)) x) eqn:E.
  - apply Qle_bool_iff in E. split; [exact E|].
    rewrite two_power_succ. set (PE := 2 ^ (a - b)) in *.
    apply Qnot_le_lt. intros Hc. nra.
  - assert (Hlt : x < 2 ^ (a - b)).
    { apply Qnot_le_lt. intros Hc. apply Qle_bool_iff in Hc. congruence. }
    replace (a - b - 1 + 1)%Z with (a - b)%Z by lia.
    split; [|exact Hlt].
    assert (H2 : 2 * 2 ^ (a - b - 1) == 2 ^ (a - b)).
    { rewrite <- two_power_succ. now replace (a - b - 1 + 1)%Z with (a - b)%Z by lia. }
    pose proof (two_power_pos (a - b - 1)) as Pe1.
    set (PE := 2 ^ (a - b)) in *. set (PE1 := 2 ^ (a - b - 1)) in *.
    apply Qnot_lt_le. intros Hc. nra.
Qed.

Lemma ilog2_unique (x : Q) (e : Z) :
  2 ^ e <= x -> x < 2 ^ (e + 1) -> Double.ilog2 x = e.
Proof.
  intros H1 H2.
  assert (Hx : 0 < x) by (eapply Qlt_le_trans; [apply (two_power_pos e)|exact H1]).
  destruct (ilog2_spec x Hx) as [H3 H4].
  set (f := Double.ilog2 x) in *.
  assert (f < e + 1)%Z.
  { apply (Qpower_lt_compat_l_inv 2); [|reflexivity].
    eapply Qle_lt_trans; eassumption. }
  assert (e < f + 1)%Z.
  { apply (Qpower_lt_compat_l_inv 2); [|reflexivity].
    eapply Qle_lt_trans; eassumption. }
  lia.
Qed.

Lemma ilog2_comp (x y : Q) : 0 < x -> x == y -> Double.ilog2 x = Double.ilog2 y.
Proof.
  intros Hx Hxy. symmetry. destruct (ilog2_spec x Hx) as [H1 H2].
  apply ilog2_unique; rewrite <- Hxy; assumption.
Qed.

Lemma nearestEven_near (y : Q) :
  y - (1 # 2) <= inject_Z (Double.nearestEven y) <= y + (1 # 2).
Proof.
  unfold Double.nearestEven.
  pose proof (Qfloor_le y) as Hle. pose proof (Qlt_floor y) as Hlt.
  rewrite inject_Z_plus in Hlt. change (inject_Z 1) with 1 in Hlt.
  destruct (Qcompare_spec (y - inject_Z (Qfloor y)) (1 # 2)) as [E|E|E].
  - destruct (Z.even (Qfloor y)); [|rewrite inject_Z_plus; change (inject_Z 1) with 1];
      split; lra.
  - split; lra.
  - rewrite inject_Z_plus. change (inject_Z 1) with 1. split; lra.
Qed.

Lemma nearestEven_comp (x y : Q) :
  x == y -> Double.nearestEven x = Double.nearestEven y.
Proof.
  intros H. unfold Double.nearestEven. rewrite (Qfloor_comp x y H).
  assert (E : x - inject_Z (Qfloor y) == y - inject_Z (Qfloor y)) by now rewrite H.
  now rewrite (Qcompare_comp _ _ E _ _ (Qeq_refl (1 # 2))).
Qed.

Lemma nearestEven_Z (n : Z) : Double.nearestEven (inject_Z n) = n.
Proof.
  unfold Double.nearestEven. rewrite Qfloor_Z.
  destruct (Qcompare_spec (inject_Z n - inject_Z n) (1 # 2)) as [E|E|E].
  - exfalso. lra.
  - reflexivity.
  - exfalso. lra.
Qed.

Lemma nearestEven_nonneg (y : Q) : 0 <= y -> (0 <= Double.nearestEven y)%Z.
Proof.
  intros Hy. unfold Double.nearestEven.
  assert (H0 : (0 <= Qfloor y)%Z).
  { change 0%Z with (Qfloor 0). now apply Qfloor_resp_le. }
  destruct (Qcompare _ _); [destruct (Z.even _)|..]; lia.
Qed.

Lemma round_0 : Double.round 0 = 0.
Proof. reflexivity. Qed.

Lemma Qabs_pos_nonzero (x : Q) : ~ x == 0 -> 0 < Qabs x.
Proof.
  intros Hx. destruct (Q_dec x 0) as [[H|H]|H]; [| |contradiction].
  - rewrite Qabs_neg by lra. lra.
  - rewrite Qabs_pos by lra. exact H.
Qed.

Lemma round_comp (x y : Q) : x == y -> Double.round x = Double.round y.
Proof.
  intros H. unfold Double.round.
  assert (Hb : Qeq_bool x 0 = Qeq_bool y 0).
  { destruct (Qeq_bool x 0) eqn:E1, (Qeq_bool y 0) eqn:E2; try reflexivity.
    - apply Qeq_bool_iff in E1. rewrite H in E1. apply Qeq_bool_iff in E1. congruence.
    - apply Qeq_bool_iff in E2. rewrite <- H in E2. apply Qeq_bool_iff in E2. congruence. }
  rewrite <- Hb. destruct (Qeq_bool x 0) eqn:E; [reflexivity|].
  assert (Hx : ~ x == 0) by (intros Hc; apply Qeq_bool_iff in Hc; congruence).
  assert (Hq : Double.quantum x = Double.quantum y).
  { unfold Double.quantum. f_equal. f_equal. apply ilog2_comp.
    - now apply Qabs_pos_nonzero.
    - now apply Qabs_wd. }
  cbv zeta. rewrite <- Hq. apply Qred_complete.
  rewrite (nearestEven_comp (x / 2 ^ Double.quantum x) (y / 2 ^ Double.quantum x)).
  - reflexivity.
  - unfold Qdiv. apply Qmult_comp; [exact H|reflexivity].
Qed.

Lemma round_nonneg (x : Q) : 0 <= x -> 0 <= Double.round x.
Proof.
  intros Hx. unfold Double.round. destruct (Qeq_bool x 0); [lra|].
  cbv zeta. rewrite Qred_correct.
  apply Qmult_le_0_compat; [|apply Qlt_le_weak, two_power_pos].
  change 0 with (inject_Z 0). rewrite <- Zle_Qle. apply nearestEven_nonneg.
  apply Qle_shift_div_l; [apply two_power_pos|]. lra.
Qed.

Lemma quantum_spec (x : Q) :
  ~ x == 0 ->
  2 ^ Double.quantum x <= 2 * (Qabs x * Double.unitRoundoff + Double.tiny).
Proof.
  intros Hx. unfold Double.quantum.
  destruct (ilog2_spec (Qabs x) (Qabs_pos_nonzero x Hx)) as [H1 _].
  set (e := Double.ilog2 (Qabs x)) in *.
  pose proof (Qabs_nonneg x) as Ha.
  destruct (Z.max_spec (e - 52) (-1074)) as [[_ ->]|[_ ->]].
  - assert (E : 2 ^ (-1074) == 2 * Double.tiny) by (vm_compute; reflexivity).
    rewrite E.
    assert (0 <= Qabs x * Double.unitRoundoff) by (apply Qmult_le_0_compat; [exact Ha|discriminate]).
    lra.
  - assert (E : 2 ^ (e - 52) == 2 ^ e * (2 * Double.unitRoundoff)).
    { rewrite Qpower_minus by discriminate. unfold Qdiv.
      apply Qmult_comp; [reflexivity|]. vm_compute; reflexivity. }
    rewrite E. assert (0 <= Double.tiny) by discriminate.
    assert (0 < Double.unitRoundoff) by reflexivity. nra.
Qed.

(** One operation is off by at most half a unit in the last place. *)
Lemma round_error (x : Q) :
  x - (Qabs x * Double.unitRoundoff + Double.tiny) <= Double.round x <=
  x + (Qabs x * Double.unitRoundoff + Double.tiny).
Proof.
  unfold Double.round. destruct (Qeq_bool x 0) eqn:E.
  - apply Qeq_bool_iff in E.
    assert (0 <= Qabs x * Double.unitRoundoff + Double.tiny).
    { pose proof (Qabs_nonneg x).
      assert (0 <= Qabs x * Double.unitRoundoff) by (apply Qmult_le_0_compat; [assumption|discriminate]).
      assert (0 <= Double.tiny) by discriminate. lra. }
    split; lra.
  - assert (Hx : ~ x == 0) by (intros Hc; apply Qeq_bool_iff in Hc; congruence).
    cbv zeta. rewrite Qred_correct.
    pose proof (quantum_spec x Hx) as Hq.
    set (q := Double.quantum x) in *.
    pose proof (two_power_pos q) as Hp.
    pose proof (nearestEven_near (x / 2 ^ q)) as [H1 H2].
    set (n := inject_Z (Double.nearestEven (x / 2 ^ q))) in *.
    assert (Hy : x / 2 ^ q * 2 ^ q == x) by (field; lra).
    set (y := x / 2 ^ q) in *. set (p := 2 ^ q) in *.
    set (s := Qabs x * Double.unitRoundoff + Double.tiny) in *.
    split; nra.
Qed.

Lemma round_error_nonneg (x : Q) :
  0 <= x ->
  x * (1 - Double.unitRoundoff) - Double.tiny <= Double.round x <=
  x * (1 + Double.unitRoundoff) + Double.tiny.
Proof.
  intros Hx. pose proof (round_error x) as [H1 H2].
  rewrite Qabs_pos in H1, H2 by exact Hx. split; lra.
Qed.

(** Integers below [2^53] are doubles. *)
Lemma round_Z (x : Q) (n : Z) :
  x == inject_Z n -> (Z.abs n < 2 ^ 53)%Z -> Double.round x == inject_Z n.
Proof.
  intros Hx Hn. rewrite (round_comp x (inject_Z n) Hx). clear x Hx.
  unfold Double.round. destruct (Qeq_bool (inject_Z n) 0) eqn:E.
  - apply Qeq_bool_iff in E. unfold Qeq in E. cbn in E.
    assert (n = 0%Z) as -> by lia. reflexivity.
  - assert (Hx : ~ inject_Z n == 0) by (intros Hc; apply Qeq_bool_iff in Hc; congruence).
    cbv zeta.
    assert (Hq : (-1074 <= Double.quantum (inject_Z n) <= 0)%Z).
    { unfold Double.quantum.
      destruct (ilog2_spec _ (Qabs_pos_nonzero _ Hx)) as [H1 _].
      set (e := Double.ilog2 (Qabs (inject_Z n))) in *.
      assert (e < 53)%Z.
      { apply (Qpower_lt_compat_l_inv 2); [|reflexivity].
        eapply Qle_lt_trans; [exact H1|].
        change (Qabs (inject_Z n)) with (inject_Z (Z.abs n)).
        rewrite <- two_power_Z by lia. now rewrite <- Zlt_Qlt. }
      lia. }
    set (q := Double.quantum (inject_Z n)) in *.
    assert (Hm : inject_Z n / 2 ^ q == inject_Z (n * 2 ^ (- q))).
    { rewrite inject_Z_mult, two_power_Z by lia. rewrite Qpower_opp. reflexivity. }
    rewrite (nearestEven_comp _ _ Hm), nearestEven_Z.
    rewrite Qred_correct.
    rewrite inject_Z_mult, two_power_Z by lia. rewrite Qpower_opp. field.
    pose proof (two_power_pos q). lra.
Qed.

End DoubleFacts.

(** ** Retry and backoff (ai/client.js) *)

Section DelayConstants.

Local Open Scope Q_scope.

Lemma mathRound_near (x : Q) :
  x - (1 # 2) <= inject_Z (Retry.mathRound x) <= x + (1 # 2).
Proof.
  unfold Retry.mathRound.
  pose proof (Qfloor_le (x + (1 # 2))) as Hle.
  pose proof (Qlt_floor (x + (1 # 2))) as Hlt.
  rewrite inject_Z_plus in Hlt. change (inject_Z 1) with 1 in Hlt.
  split; lra.
Qed.

Lemma jitter_range (d r : Q) :
  0 <= d -> 0 <= r -> r <= 1 ->
  d <= d + d * (1 # 10) * r <= (11 # 10) * d.
Proof. intros Hd Hr0 Hr1. split; nra. Qed.

Lemma unitRoundoff_small :
  0 < Double.unitRoundoff /\ Double.unitRoundoff <= 1 # 1000 /\
  32 * Double.unitRoundoff == 2 ^ (-48).
Proof. vm_compute. repeat split; discriminate. Qed.

Lemma unitRoundoff_millionth : Double.unitRoundoff <= 1 # 1000000.
Proof. vm_compute. discriminate. Qed.

Lemma tiny_small :
  0 <= Double.tiny /\ Double.tiny <= Double.unitRoundoff /\
  2 ^ 1024 * Double.tiny <= 4 * Double.unitRoundoff.
Proof. vm_compute. repeat split; discriminate. Qed.

(** The double written [0.1] is a little above a tenth. *)
Lemma tenth_near :
  1 # 10 <= Retry.tenth /\
  Retry.tenth <= (1 # 10) + Double.unitRoundoff * (1 # 10).
Proof. vm_compute. split; discriminate. Qed.

End DelayConstants.

(** *** How far the rounded operations carry a delay *)

Section ErrorBounds.

Local Open Scope Q_scope.

Variables u eta : Q.
Hypothesis Hu0 : 0 < u.
Hypothesis Hu1 : u <= 1 # 1000.
Hypothesis He0 : 0 <= eta.
Hypothesis He1 : eta <= u.

(** [s] is [d + (d * c) * r] with each of the three operations off by a
    relative [u] or an absolute [eta], and [c] a tenth up to [u]. *)
Lemma jitter_error (d r c a b s : Q) :
  0 <= d -> 0 <= r -> r <= 1 ->
  1 # 10 <= c -> c <= (1 # 10) + u * (1 # 10) ->
  0 <= a -> (d * c) * (1 - u) - eta <= a -> a <= (d * c) * (1 + u) + eta ->
  0 <= b -> (a * r) * (1 - u) - eta <= b -> b <= (a * r) * (1 + u) + eta ->
  (d + b) * (1 - u) - eta <= s -> s <= (d + b) * (1 + u) + eta ->
  d + d * (1 # 10) * r - (d * (2 * u) + 4 * eta) <= s /\
  s <= d + d * (1 # 10) * r + (d * (2 * u) + 4 * eta).
Proof.
  intros Hd Hr0 Hr1 Hc0 Hc1 Ha0 Ha1 Ha2 Hb0 Hb1 Hb2 Hs1 Hs2.
  assert (Hdu : 0 <= d * u) by nra.
  assert (Hdc1 : d * (1 # 10) <= d * c) by nra.
  assert (Hdc2 : d * c <= d * (1 # 10) + d * u * (1 # 10)) by nra.
  assert (Hduu : d * u * u <= d * u * (1 # 1000)) by nra.
  assert (A1 : d * (1 # 10) - d * u * (1 # 10) - eta <= a) by nra.
  assert (A2 : a <= d * (1 # 10) + d * u * (3 # 10) + eta) by nra.
  assert (Har1 : a * r <= a) by nra.
  assert (Har0 : 0 <= a * r) by nra.
  assert (Hau : 0 <= a * u) by nra.
  assert (Haru : a * r * u <= a * u) by nra.
  assert (Haru0 : 0 <= a * r * u) by nra.
  assert (Hau2 : a * u <= d * u * (2 # 10) + eta) by nra.
  assert (Hdr : d * (1 # 10) * r - d * u * (1 # 10) - eta <= a * r) by nra.
  assert (Hdr2 : a * r <= d * (1 # 10) * r + d * u * (3 # 10) + eta) by nra.
  assert (B1 : d * (1 # 10) * r - d * u * (3 # 10) - 3 * eta <= b) by nra.
  assert (B2 : b <= d * (1 # 10) * r + d * u * (5 # 10) + 3 * eta) by nra.
  assert (Hbu0 : 0 <= b * u) by nra.
  assert (Hdr3 : d * (1 # 10) * r <= d * (1 # 10)) by nra.
  assert (Hbu : b * u <= d * u * (2 # 10) + eta * (1 # 100)) by nra.
  split; nra.
Qed.

(** [p] is [B * Mk] with the power and the product each off by a
    relative [u] or an absolute [eta]. *)
Lemma product_error (B Mk pw p : Q) :
  0 <= B -> B * eta <= 4 * u -> 0 <= Mk ->
  0 <= pw -> Mk * (1 - u) - eta <= pw -> pw <= Mk * (1 + u) + eta ->
  (B * pw) * (1 - u) - eta <= p -> p <= (B * pw) * (1 + u) + eta ->
  B * Mk - ((B * Mk) * (3 * u) + 6 * u) <= p /\
  p <= B * Mk + ((B * Mk) * (3 * u) + 6 * u).
Proof.
  intros HB HBe HM Hp0 Hp1 Hp2 H1 H2.
  assert (HX : 0 <= B * Mk) by nra.
  assert (HXu : 0 <= B * Mk * u) by nra.
  assert (HXuu : B * Mk * u * u <= B * Mk * u * (1 # 1000)) by nra.
  assert (P1 : B * Mk - B * Mk * u - 4 * u <= B * pw) by nra.
  assert (P2 : B * pw <= B * Mk + B * Mk * u + 4 * u) by nra.
  assert (P0 : 0 <= B * pw) by nra.
  assert (Pu : B * pw * u <= B * Mk * u + B * Mk * u * u + 4 * u * u) by nra.
  assert (Puu : u * u <= u * (1 # 1000)) by nra.
  split; nra.
Qed.

(** The cap keeps the error. *)
Lemma minimum_error (X p D k c : Q) :
  0 <= D -> 0 <= k -> k <= 1 # 2 -> 0 <= c ->
  X - (X * k + c) <= p -> p <= X + (X * k + c) ->
  Retry.Qminimum X D - (Retry.Qminimum X D * k + c) <= Retry.Qminimum p D /\
  Retry.Qminimum p D <= Retry.Qminimum X D + (Retry.Qminimum X D * k + c).
Proof.
  intros HD Hk0 Hk1 Hc H1 H2. unfold Retry.Qminimum.
  destruct (Qle_bool X D) eqn:EX, (Qle_bool p D) eqn:Ep.
  - split; assumption.
  - apply Qle_bool_iff in EX.
    assert (D < p) by (apply Qnot_le_lt; intros Hc'; apply Qle_bool_iff in Hc'; congruence).
    split; nra.
  - apply Qle_bool_iff in Ep.
    assert (D < X) by (apply Qnot_le_lt; intros Hc'; apply Qle_bool_iff in Hc'; congruence).
    split; nra.
  - split; nra.
Qed.

(** A delay within [3u] of [d], jittered and rounded within [2u], is
    within [32 u (d + 1)] of the exact jittered delay: from below, and
    from above. *)
Lemma delay_error_low (d d' r s : Q) :
  0 <= d -> 0 <= d' -> 0 <= r -> r <= 1 ->
  d - (d * (3 * u) + 6 * u) <= d' -> d' <= d + (d * (3 * u) + 6 * u) ->
  d' + d' * (1 # 10) * r - (d' * (2 * u) + 4 * eta) <= s ->
  d + d * (1 # 10) * r - (d + 1) * (32 * u) <= s.
Proof.
  intros Hd Hd' Hr0 Hr1 H1 H2 H3.
  assert (Hdu : 0 <= d * u) by nra.
  assert (Hd'r1 : d' * r <= d') by nra.
  assert (Huu : u * u <= u * (1 # 1000)) by nra.
  assert (Hduu : d * u * u <= d * u * (1 # 1000)) by nra.
  assert (Hd'u2 : d' * u <= d * u + d * u * (3 # 1000) + u * (6 # 1000)) by nra.
  assert (Hdur : 0 <= d * u * r) by nra.
  assert (Hdur1 : d * u * r <= d * u) by nra.
  assert (Hur : 0 <= u * r) by nra.
  assert (Hur1 : u * r <= u) by nra.
  assert (R1 : d * r - (d * u * 3 + 6 * u) <= d' * r) by nra.
  nra.
Qed.

Lemma delay_error_high (d d' r s : Q) :
  0 <= d -> 0 <= d' -> 0 <= r -> r <= 1 ->
  d - (d * (3 * u) + 6 * u) <= d' -> d' <= d + (d * (3 * u) + 6 * u) ->
  s <= d' + d' * (1 # 10) * r + (d' * (2 * u) + 4 * eta) ->
  s <= d + d * (1 # 10) * r + (d + 1) * (32 * u).
Proof.
  intros Hd Hd' Hr0 Hr1 H1 H2 H4.
  assert (Hdu : 0 <= d * u) by nra.
  assert (Hd'r1 : d' * r <= d') by nra.
  assert (Huu : u * u <= u * (1 # 1000)) by nra.
  assert (Hduu : d * u * u <= d * u * (1 # 1000)) by nra.
  assert (Hd'u2 : d' * u <= d * u + d * u * (3 # 1000) + u * (6 # 1000)) by nra.
  assert (Hdur : 0 <= d * u * r) by nra.
  assert (Hdur1 : d * u * r <= d * u) by nra.
  assert (Hur : 0 <= u * r) by nra.
  assert (Hur1 : u * r <= u) by nra.
  assert (R2 : d' * r <= d * r + (d * u * 3 + 6 * u)) by nra.
  nra.
Qed.

End ErrorBounds.

Section RetryFacts.

Local Open Scope Q_scope.

Lemma Qminimum_nonneg (a b : Q) : 0 <= a -> 0 <= b -> 0 <= Retry.Qminimum a b.
Proof. intros Ha Hb. unfold Retry.Qminimum. destruct (Qle_bool a b); assumption. Qed.

Lemma Math_pow_nonneg (mult : Q) (k : Z) : 0 <= mult -> 0 <= Retry.Math_pow mult k.
Proof. intros HM. apply round_nonneg. now apply Qpower_0_le. Qed.

Lemma backoffDelay_nonneg (baseD mult maxD : Q) (attempt : Z) :
  0 <= baseD -> 0 <= mult -> 0 <= maxD ->
  0 <= Retry.backoffDelay baseD mult maxD attempt.
Proof.
  intros HB HM HD. unfold Retry.backoffDelay. apply Qminimum_nonneg; [|exact HD].
  apply round_nonneg. apply Qmult_le_0_compat; [exact HB|].
  now apply Math_pow_nonneg.
Qed.

(** The slept delay is the jittered delay, up to the rounding of the
    three operations, rounded to a whole number. *)
Lemma totalDelay_error (d r : Q) :
  0 <= d -> 0 <= r -> r <= 1 ->
  d + d * (1 # 10) * r - (1 # 2)
    - (d * (2 * Double.unitRoundoff) + 4 * Double.tiny)
    <= inject_Z (Retry.totalDelay d r) /\
  inject_Z (Retry.totalDelay d r)
    <= d + d * (1 # 10) * r + (1 # 2)
       + (d * (2 * Double.unitRoundoff) + 4 * Double.tiny).
Proof.
  intros Hd Hr0 Hr1. unfold Retry.totalDelay.
  destruct unitRoundoff_small as (Hu0 & Hu1 & _).
  destruct tiny_small as (He0 & He1 & _).
  destruct tenth_near as [Hc0 Hc1].
  set (c := Retry.tenth) in *.
  assert (Hdc : 0 <= d * c) by nra.
  pose proof (round_nonneg (d * c) Hdc) as Ha0.
  pose proof (round_error_nonneg (d * c) Hdc) as [Ha1 Ha2].
  set (a := Double.round (d * c)) in *.
  assert (Har : 0 <= a * r) by nra.
  pose proof (round_nonneg (a * r) Har) as Hb0.
  pose proof (round_error_nonneg (a * r) Har) as [Hb1 Hb2].
  set (b := Double.round (a * r)) in *.
  assert (Hdb : 0 <= d + b) by lra.
  pose proof (round_error_nonneg (d + b) Hdb) as [Hs1 Hs2].
  set (s := Double.round (d + b)) in *.
  destruct (jitter_error Double.unitRoundoff Double.tiny Hu0 Hu1 He0 He1
              d r c a b s) as [J1 J2]; try assumption.
  pose proof (mathRound_near s) as [M1 M2].
  split; lra.
Qed.

(** Hence it is within half a millisecond, and that rounding, of the
    interval from the delay to 1.1 times it. *)
Lemma totalDelay_near (d r : Q) :
  0 <= d -> 0 <= r -> r <= 1 ->
  d - (1 # 2) - (d * (2 * Double.unitRoundoff) + 4 * Double.tiny)
    <= inject_Z (Retry.totalDelay d r) /\
  inject_Z (Retry.totalDelay d r)
    <= (11 # 10) * d + (1 # 2)
       + (d * (2 * Double.unitRoundoff) + 4 * Double.tiny).
Proof.
  intros Hd Hr0 Hr1.
  destruct (totalDelay_error d r Hd Hr0 Hr1) as [H1 H2].
  destruct (jitter_range d r Hd Hr0 Hr1) as [H3 H4].
  split; lra.
Qed.

(** The delay the code computes is the exact capped backoff, up to the
    rounding of the power and of the product. *)
Lemma backoffDelay_error (baseD mult maxD : Q) (attempt : Z) :
  0 <= baseD -> baseD <= 2 ^ 1024 -> 0 <= mult -> 0 <= maxD ->
  let d := exactDelay baseD mult maxD attempt in
  let d' := Retry.backoffDelay baseD mult maxD attempt in
  d - (d * (3 * Double.unitRoundoff) + 6 * Double.unitRoundoff) <= d' /\
  d' <= d + (d * (3 * Double.unitRoundoff) + 6 * Double.unitRoundoff).
Proof.
  intros HB HB1 HM HD d d'. subst d d'.
  unfold exactDelay, Retry.backoffDelay, Retry.Math_pow.
  destruct unitRoundoff_small as (Hu0 & Hu1 & _).
  destruct tiny_small as (He0 & He1 & He2).
  set (Mk := mult ^ (attempt - 1)).
  assert (HMk : 0 <= Mk) by now apply Qpower_0_le.
  pose proof (round_nonneg Mk HMk) as Hp0.
  pose proof (round_error_nonneg Mk HMk) as [Hp1 Hp2].
  set (pw := Double.round Mk) in *.
  assert (HBp : 0 <= baseD * pw) by nra.
  pose proof (round_error_nonneg (baseD * pw) HBp) as [H1 H2].
  set (p := Double.round (baseD * pw)) in *.
  assert (HBe : baseD * Double.tiny <= 4 * Double.unitRoundoff) by nra.
  destruct (product_error Double.unitRoundoff Double.tiny Hu0 Hu1 He0 He1
              baseD Mk pw p) as [E1 E2]; try assumption.
  apply (minimum_error (baseD * Mk) p maxD (3 * Double.unitRoundoff)
           (6 * Double.unitRoundoff)); try assumption; lra.
Qed.

Lemma status_429_retryable (e : JsError) :
  err_status e = Some 429%Z -> Retry.isRetryable e = true.
Proof. intros H. unfold Retry.isRetryable. rewrite H. reflexivity. Qed.

Context {A : Type}.
Variable fn : nat -> Result A.
Variable random : nat -> Q.
Variables (maxR : Z) (baseD mult maxD : Q).

Hypothesis always_retryable :
  forall k, exists e, fn k = Throw e /\ Retry.isRetryable e = true.

(** With a function that always fails retryably, the loop makes one request
    per remaining value of [attempt], sleeps between them, and ends by
    rethrowing the error of the last request. *)
Lemma attemptLoop_exhausts (n a k : nat) :
  Z.of_nat (a + n) = maxR ->
  let '(out, evs) :=
    Retry.attemptLoop fn random maxR baseD mult maxD
      (map (fun i => Z.of_nat i) (seq a (S n))) k in
  (exists e, fn (k + n)%nat = Throw e /\ out = Retry.Thrown e) /\
  Retry.requests evs = S n /\
  Retry.sleeps evs =
    map (fun i => Retry.totalDelay
                    (Retry.backoffDelay baseD mult maxD (Z.of_nat (a + i)))
                    (random (k + i)%nat))
        (seq 0 n).
Proof.
  revert a k. induction n as [|n IH]; intros a k Ha.
  - simpl. destruct (always_retryable k) as (e & He & Hr). rewrite He, Hr.
    replace (Z.of_nat a =? maxR)%Z with true by (symmetry; apply Z.eqb_eq; lia).
    simpl. split; [|split; reflexivity].
    exists e. rewrite Nat.add_0_r. split; [exact He | reflexivity].
  - change (seq a (S (S n))) with (a :: seq (S a) (S n)). rewrite map_cons.
    set (rest := map (fun i => Z.of_nat i) (seq (S a) (S n))).
    cbn [Retry.attemptLoop].
    destruct (always_retryable k) as (e & He & Hr). rewrite He, Hr.
    replace (Z.of_nat a =? maxR)%Z with false by (symmetry; apply Z.eqb_neq; lia).
    cbn [negb orb].
    specialize (IH (S a) (S k)). fold rest in IH.
    destruct (Retry.attemptLoop fn random maxR baseD mult maxD rest (S k))
      as [out evs].
    destruct IH as ((e' & He' & Hout) & Hreq & Hsl); [lia|].
    split; [|split].
    + exists e'. replace (k + S n)%nat with (S k + n)%nat by lia. auto.
    + unfold Retry.requests in *. simpl. rewrite Hreq. reflexivity.
    + unfold Retry.sleeps in *. cbn [flat_map app]. rewrite Hsl.
      cbn [seq map]. rewrite !Nat.add_0_r. f_equal.
      rewrite <- seq_shift, map_map.
      apply map_ext. intros i.
      replace (S a + i)%nat with (a + S i)%nat by lia.
      replace (S k + i)%nat with (k + S i)%nat by lia. reflexivity.
Qed.

End RetryFacts.

Section DelayBounds.

Local Open Scope Q_scope.

Lemma exactDelay_nonneg (baseD mult maxD : Q) (attempt : Z) :
  0 <= baseD -> 0 <= mult -> 0 <= maxD ->
  0 <= exactDelay baseD mult maxD attempt.
Proof.
  intros HB HM HD. unfold exactDelay. apply Qminimum_nonneg; [|exact HD].
  apply Qmult_le_0_compat; [exact HB|]. now apply Qpower_0_le.
Qed.

(** The pause before a retry against the exact backoff and jitter. *)
Lemma pause_bounds (baseD mult maxD r : Q) (attempt : Z) :
  0 <= baseD -> baseD <= 2 ^ 1024 -> 0 <= mult -> 0 <= maxD ->
  0 <= r -> r < 1 ->
  let d := exactDelay baseD mult maxD attempt in
  let t :=
    inject_Z
      (Retry.totalDelay (Retry.backoffDelay baseD mult maxD attempt) r) in
  (d + d * (1 # 10) * r - (1 # 2) - roundingSlack d <= t /\
   t <= d + d * (1 # 10) * r + (1 # 2) + roundingSlack d) /\
  (d - (1 # 2) - roundingSlack d <= t /\
   t <= (11 # 10) * d + (1 # 2) + roundingSlack d).
Proof.
  intros HB HB1 HM HD Hr0 Hr1 d t.
  assert (Hr1' : r <= 1) by now apply Qlt_le_weak.
  pose proof (exactDelay_nonneg baseD mult maxD attempt HB HM HD) as Hd.
  fold d in Hd.
  pose proof (backoffDelay_nonneg baseD mult maxD attempt HB HM HD) as Hd'.
  destruct (backoffDelay_error baseD mult maxD attempt HB HB1 HM HD)
    as [E1 E2].
  fold d in E1, E2.
  destruct (totalDelay_error _ r Hd' Hr0 Hr1') as [T1 T2]. fold t in T1, T2.
  set (d' := Retry.backoffDelay baseD mult maxD attempt) in *.
  destruct unitRoundoff_small as (Hu0 & Hu1 & Hu32).
  destruct tiny_small as (He0 & He1 & _).
  assert (S1 : d' + d' * (1 # 10) * r
               - (d' * (2 * Double.unitRoundoff) + 4 * Double.tiny)
               <= t + (1 # 2)) by lra.
  assert (S2 : t - (1 # 2)
               <= d' + d' * (1 # 10) * r
                  + (d' * (2 * Double.unitRoundoff) + 4 * Double.tiny))
    by lra.
  destruct (jitter_range d r Hd Hr0 Hr1') as [J1 J2].
  assert (Hslack : roundingSlack d == (d + 1) * (32 * Double.unitRoundoff)).
  { unfold roundingSlack. now rewrite Hu32. }
  rewrite Hslack.
  set (u := Double.unitRoundoff) in *. set (eta := Double.tiny) in *.
  pose proof (delay_error_low u eta Hu0 Hu1 He0 He1 d d' r (t + (1 # 2))
                Hd Hd' Hr0 Hr1' E1 E2 S1) as L.
  pose proof (delay_error_high u eta Hu0 Hu1 He0 He1 d d' r (t - (1 # 2))
                Hd Hd' Hr0 Hr1' E1 E2 S2) as U.
  repeat split; lra.
Qed.

End DelayBounds.

(** C3 (as amended).  When every call fails with HTTP 429 (the base
    delay, the multiplier and the cap being non-negative doubles, the
    powers of the multiplier staying finite and the cap within the
    [10^9] ms that a timer can wait), the driver issues exactly
    [maxRetries] requests and, when there is an attempt at all
    ([maxRetries >= 1]), rethrows the error of the last one.  It pauses
    once between two consecutive requests.  Let [d] be the capped backoff
    [min(B * M^(i-1), maxDelay)] before request [i+1]: the pause is
    [d + 0.1 * d * Math.random()] rounded to a whole number of
    milliseconds, so it lies within half a millisecond of the interval
    [d, 1.1 d], not inside it; the double arithmetic of the code moves it
    by less than [(d + 1) / 2^48] more.  (The index [i] below counts
    from 0.) *)
Theorem processWithRetry_always_429 :
  forall (A : Type) (config : Config.t) (fn : nat -> Result A)
         (random : nat -> Q) (options : Retry.RetryOptions),
    let maxR :=
      default (Config.ai_retryAttempts config) (Retry.maxRetries options) in
    let B := default (Config.ai_retryDelayMs config) (Retry.baseDelay options) in
    let M :=
      default (Config.scraper_backoffMultiplier config)
        (Retry.backoffMultiplier options) in
    let D := default (30000 # 1) (Retry.maxDelay options) in
    let run := Retry.processWithRetry config fn random options in
    (0 <= B)%Q -> (B <= 2 ^ 1024)%Q ->
    (0 <= M)%Q ->
    (forall k : Z, 0 <= k < maxR - 1 -> (M ^ k <= 2 ^ 1023)%Q) ->
    (0 <= D)%Q -> (D <= 1000000000)%Q ->
    (forall k, exists e, fn k = Throw e /\ err_status e = Some 429) ->
    (forall k, (0 <= random k)%Q /\ (random k < 1)%Q) ->
    Retry.requests (snd run) = Z.to_nat maxR /\
    (1 <= maxR ->
     exists e, fn (Z.to_nat maxR - 1)%nat = Throw e /\
               fst run = Retry.Thrown e) /\
    length (Retry.sleeps (snd run)) = (Z.to_nat maxR - 1)%nat /\
    forall (i : nat) (t : Z),
      nth_error (Retry.sleeps (snd run)) i = Some t ->
      let d := exactDelay B M D (Z.of_nat (S i)) in
      let jittered := (d + d * (1 # 10) * random i)%Q in
      (jittered - (1 # 2) - roundingSlack d <= inject_Z t)%Q /\
      (inject_Z t <= jittered + (1 # 2) + roundingSlack d)%Q /\
      (d - (1 # 2) - roundingSlack d <= inject_Z t)%Q /\
      (inject_Z t <= (11 # 10) * d + (1 # 2) + roundingSlack d)%Q.
Proof.
  intros A config fn random options maxR B M D run
    HB HB1 HM Hpow HD HD1 H429 Hrnd.
  assert (Hretry : forall k, exists e, fn k = Throw e /\ Retry.isRetryable e = true).
  { intros k. destruct (H429 k) as (e & He & Hs). exists e.
    split; [exact He | now apply status_429_retryable]. }
  assert (Hrun : run =
                 Retry.attemptLoop fn random maxR B M D
                   (map (fun i => Z.of_nat i) (seq 1 (Z.to_nat maxR))) 0).
  { reflexivity. }
  destruct (Z.to_nat maxR) as [|n] eqn:Hn.
  - (* no attempt: the loop body never runs *)
    rewrite Hrun. cbn.
    split; [reflexivity|]. split; [lia|]. split; [reflexivity|].
    intros [|i] t Ht; discriminate.
  - pose proof (attemptLoop_exhausts fn random maxR B M D Hretry n 1 0) as Hloop.
    rewrite <- Hrun in Hloop. destruct run as [out evs].
    destruct Hloop as (Hout & Hreq & Hsl); [lia|].
    cbn [fst snd]. replace (S n - 1)%nat with n by lia.
    split; [exact Hreq|]. split; [intros _; exact Hout|].
    rewrite Hsl. split; [now rewrite length_map, length_seq|].
    intros i t Ht. cbv zeta.
    rewrite nth_error_map in Ht.
    destruct (nth_error (seq 0 n) i) as [j|] eqn:Ej; [|discriminate].
    apply nth_error_In in Ej as Hin. apply in_seq in Hin.
    assert (j = i) as ->.
    { assert (i < n)%nat as Hi.
      { assert (i < length (seq 0 n))%nat as Hl
          by (apply nth_error_Some; congruence).
        now rewrite length_seq in Hl. }
      pose proof (nth_error_nth _ _ 0%nat Ej) as Hj.
      rewrite seq_nth in Hj by exact Hi. lia. }
    cbn [option_map] in Ht. injection Ht as <-.
    destruct (Hrnd i) as [Hr0 Hr1].
    replace (1 + i)%nat with (S i) by lia.
    pose proof (pause_bounds B M D (random i) (Z.of_nat (S i))
                  HB HB1 HM HD Hr0 Hr1) as P.
    cbv zeta in P. destruct P as [[P1 P2] [P3 P4]].
    repeat split; assumption.
Qed.

Lemma processWithRetry_always_429_witness :
  Retry.requests
    (snd (Retry.processWithRetry Fixtures.config
            (Fixtures.always429 (A := json)) (fun _ => 1 # 2)
            Retry.noOptions)) = 3%nat.
Proof.
  refine (proj1 (processWithRetry_always_429 json Fixtures.config
                   Fixtures.always429 (fun _ => 1 # 2) Retry.noOptions
                   _ _ _ _ _ _ _ _)).
  - vm_compute. discriminate.
  - vm_compute. discriminate.
  - vm_compute. discriminate.
  - intros k Hk. change (0 <= k < 2) in Hk.
    assert (k = 0 \/ k = 1) as [-> | ->] by lia; vm_compute; discriminate.
  - vm_compute. discriminate.
  - vm_compute. discriminate.
  - intros k. exists Fixtures.tooManyRequests. split; reflexivity.
  - intros k. split; vm_compute; [discriminate | reflexivity].
Defined.

(** With a 7 ms base delay and [Math.random() = 0.9] the first sleep is
    [Math.round(7.63) = 8] ms, above [1.1 * 7]. *)
Lemma retry_delay_outside_claimed_range :
  let run :=
    Retry.processWithRetry Fixtures.shortDelays
      (Fixtures.always429 (A := json)) (fun _ => Double.round (9 # 10))
      Retry.noOptions in
  Retry.sleeps (snd run) = [8] /\
  ~ (forall i t, nth_error (Retry.sleeps (snd run)) i = Some t ->
                 claimedDelayRange (7 # 1) (2 # 1) (S i) t).
Proof.
  split; [reflexivity|].
  intros H. specialize (H 0%nat 8 eq_refl).
  destruct H as [_ H]. vm_compute in H. apply H. reflexivity.
Qed.

(** The arithmetic on some doubles: the literal [0.1]; [0.1 + 0.2]; a
    50 ms delay with [Math.random() = 0.3], slept 52 ms because
    [50 * 0.1 * 0.3] is the double 1.5; and a delay of [5/11] ms with the
    largest random number, slept 1 ms because the sum is the double
    0.5. *)
Example double_arithmetic :
  Retry.tenth = 3602879701896397 # 36028797018963968 /\
  Double.round (Retry.tenth + Double.round (2 # 10)) =
    1351079888211149 # 4503599627370496 /\
  Double.round (3 # 10) = 5404319552844595 # 18014398509481984 /\
  Retry.totalDelay 50 (Double.round (3 # 10)) = 52 /\
  Double.round (5 # 11) = 8188362958855447 # 18014398509481984 /\
  Retry.totalDelay (Double.round (5 # 11)) (1 - 2 ^ (-52)) = 1.
Proof. vm_compute. repeat split. Qed.

Lemma createBatches_packing_witness :
  concat
    (Tokens.createBatches (fun s : string => s) Fixtures.config
       ["aaaa"; "bbbbbbbb"; "c"]
       {| Tokens.maxTokens := Some 3; Tokens.maxMessages := Some 2 |}) =
  ["aaaa"; "bbbbbbbb"; "c"].
Proof.
  refine (proj1 (createBatches_packing string (fun s => s) Fixtures.config
                   ["aaaa"; "bbbbbbbb"; "c"] 3 2 _ _)); lia.
Defined.

(** Scenario S4: 250 items of 40 tokens each under caps of 1000 tokens and
    50 items go into 10 batches of 25. *)
Example createBatches_boundary :
  map length
    (Tokens.createBatches
       (fun _ : nat => string_of_list_ascii (repeat "x"%char 160))
       Fixtures.config (seq 0 250)
       {| Tokens.maxTokens := Some 1000; Tokens.maxMessages := Some 50 |}) =
  repeat 25%nat 10.
Proof. vm_compute. reflexivity. Qed.

(** ** Memoization (storage/repositories: shouldProcess) *)

Section ShouldProcessFacts.

Variable JSON_parse : string -> option json.
Variable Date_getTime : string -> option Z.

Lemma shouldProcess_cases (now : Z) (db : Store.DB)
    (entityType entityId stage : string) (options : Store.ProcessOptions) :
  let days := default (30 # 1)%Q (Store.reprocessAfterDays options) in
  Store.shouldProcess JSON_parse Date_getTime now db entityType entityId
    stage options = true <->
  default false (Store.force options) = true \/
  Store.ai_processing db !! (entityType, entityId, stage) = None \/
  (exists row t,
      Store.ai_processing db !! (entityType, entityId, stage) = Some row /\
      ~ (days == 0)%Q /\
      Date_getTime (Store.AIProcessing.processed_at row) = Some t /\
      (Store.maxAge days < Store.ageOf now t)%Q).
Proof.
  intros days. unfold Store.shouldProcess, Store.getAIProcessing.
  fold days.
  destruct (default false (Store.force options)) eqn:Hf.
  { split; [now left | reflexivity]. }
  destruct (Store.ai_processing db !! (entityType, entityId, stage))
    as [row|] eqn:Hrow.
  2:{ split; [right; now left | reflexivity]. }
  destruct (Qeq_bool days 0) eqn:Hz; cbn [negb].
  - apply Qeq_bool_iff in Hz. split; [discriminate|].
    intros [H|[H|(r & t & _ & Hnz & _)]]; try discriminate. contradiction.
  - assert (Hnz : ~ (days == 0)%Q).
    { intros H. apply Qeq_bool_iff in H. congruence. }
    destruct (Date_getTime (Store.AIProcessing.processed_at row)) as [t|] eqn:Ht.
    + rewrite negb_true_iff. split.
      * intros Hle. right. right. exists row, t.
        split; [reflexivity|]. split; [exact Hnz|]. split; [exact Ht|].
        apply Qnot_le_lt. intros Hc. apply Qle_bool_iff in Hc. congruence.
      * intros [H|[H|(r & t' & Hr & _ & Ht' & Hlt)]]; try discriminate.
        injection Hr as <-. rewrite Ht in Ht'. injection Ht' as <-.
        destruct (Qle_bool _ _) eqn:E; [|reflexivity].
        apply Qle_bool_iff in E. exfalso. eapply Qlt_not_le; eassumption.
    + split; [discriminate|].
      intros [H|[H|(r & t' & Hr & _ & Ht' & _)]]; try discriminate.
      injection Hr as <-. congruence.
Qed.

(** Times less than [2^53] ms apart, as all times of a [Date] within
    285 000 years are, have their exact difference for age. *)
Lemma ageOf_exact (now t : Z) :
  Z.abs (now - t) < 2 ^ 53 -> (Store.ageOf now t == inject_Z (now - t))%Q.
Proof. intros H. unfold Store.ageOf. now apply round_Z. Qed.

(** For a whole number of days the four products are exact. *)
Lemma maxAge_whole_days (days : Q) (n : Z) :
  Z.abs n <= 100000000 -> (days == inject_Z n)%Q ->
  (Store.maxAge days == inject_Z (n * 86400000))%Q.
Proof.
  intros Hn Hd. unfold Store.maxAge.
  assert (H1 : (Double.round (days * 24) == inject_Z (n * 24))%Q).
  { apply round_Z; [|lia]. rewrite Hd, inject_Z_mult. reflexivity. }
  assert (H2 : (Double.round (Double.round (days * 24) * 60)
                == inject_Z (n * 24 * 60))%Q).
  { apply round_Z; [|lia]. rewrite H1, (inject_Z_mult (n * 24)). reflexivity. }
  assert (H3 : (Double.round (Double.round (Double.round (days * 24) * 60) * 60)
                == inject_Z (n * 24 * 60 * 60))%Q).
  { apply round_Z; [|lia].
    rewrite H2, (inject_Z_mult (n * 24 * 60)). reflexivity. }
  replace (n * 86400000) with (n * 24 * 60 * 60 * 1000) by lia.
  apply round_Z; [|lia].
  rewrite H3, (inject_Z_mult (n * 24 * 60 * 60)). reflexivity.
Qed.

(** C7 (as amended).  [shouldProcess] returns true exactly when [force]
    is set, or no row exists for the triple, or [reprocessAfterDays] is
    not zero and the age the code computes for the row exceeds
    [reprocessAfterDays * 24 * 60 * 60 * 1000] ms, a product of doubles
    that is [N * 86400000] for a whole number [N] of days.  With
    [reprocessAfterDays = 0] an existing row is never reprocessed for its
    age.  The age is [Date.now()] less the stored time read back by
    [new Date]: the store writes the time in UTC, and an engine that
    reads it as local time, as Node does, finds the row older than it is
    by what the local zone is ahead of UTC: the age compared is the time
    since the row was written plus that offset. *)
Theorem shouldProcess_iff (zone : Z -> Z) (now : Z) (db : Store.DB)
    (entityType entityId stage : string) (options : Store.ProcessOptions) :
  let days := default (30 # 1)%Q (Store.reprocessAfterDays options) in
  let answer :=
    Store.shouldProcess JSON_parse Date_getTime now db entityType entityId
      stage options in
  (forall text w,
      Store.sqlInstant text = Some w ->
      Date_getTime text = Some (w - zone w)) ->
  (answer = true <->
   default false (Store.force options) = true \/
   Store.ai_processing db !! (entityType, entityId, stage) = None \/
   (exists row t,
       Store.ai_processing db !! (entityType, entityId, stage) = Some row /\
       ~ (days == 0)%Q /\
       Date_getTime (Store.AIProcessing.processed_at row) = Some t /\
       (Store.maxAge days < Store.ageOf now t)%Q)) /\
  (forall row written,
      Store.ai_processing db !! (entityType, entityId, stage) = Some row ->
      Store.sqlInstant (Store.AIProcessing.processed_at row) = Some written ->
      default false (Store.force options) = false ->
      (answer = true <->
       ~ (days == 0)%Q /\
       (Store.maxAge days < Store.ageOf now (written - zone written))%Q)) /\
  (forall n : Z,
      Z.abs n <= 100000000 -> (days == inject_Z n)%Q ->
      (Store.maxAge days == inject_Z (n * 86400000))%Q) /\
  (forall written : Z,
      Z.abs (now - written + zone written) < 2 ^ 53 ->
      (Store.ageOf now (written - zone written) ==
       inject_Z (now - written) + inject_Z (zone written))%Q).
Proof.
  intros days answer Hlocal.
  pose proof (shouldProcess_cases now db entityType entityId stage options)
    as Hcases.
  fold days answer in Hcases.
  split; [exact Hcases|].
  split; [|split; [intros n; apply maxAge_whole_days|]].
  2:{ intros written Hsmall. rewrite ageOf_exact by lia.
      rewrite <- inject_Z_plus. f_equiv. lia. }
  intros row written Hrow Hw Hforce. rewrite Hcases.
  pose proof (Hlocal _ _ Hw) as Ht.
  split.
  - intros [H|[H|(r & t & Hr & Hnz & Hget & Hlt)]]; try congruence.
    rewrite Hrow in Hr. injection Hr as <-.
    rewrite Ht in Hget. injection Hget as <-. now split.
  - intros [Hnz Hlt]. right. right. exists row, (written - zone written).
    now repeat split.
Qed.

End ShouldProcessFacts.

(** Two hours ahead of UTC, a row written 29 days and 23 hours ago is
    reprocessed under the default of thirty days. *)
Lemma shouldProcess_iff_witness :
  Store.shouldProcess StoreFixtures.neverParses
    (Store.localReading StoreFixtures.utcPlus2)
    (StoreFixtures.midnight + 29 * StoreFixtures.oneDay
       + 23 * StoreFixtures.oneHour)
    StoreFixtures.oneDecision "message" "42" "filter"
    StoreFixtures.defaults = true.
Proof.
  destruct (shouldProcess_iff StoreFixtures.neverParses
              (Store.localReading StoreFixtures.utcPlus2)
              StoreFixtures.utcPlus2
              (StoreFixtures.midnight + 29 * StoreFixtures.oneDay
                 + 23 * StoreFixtures.oneHour)
              StoreFixtures.oneDecision "message" "42" "filter"
              StoreFixtures.defaults) as (_ & Hzone & _).
  - intros text w Hw. unfold Store.localReading. now rewrite Hw.
  - eapply Hzone.
    + vm_compute. reflexivity.
    + vm_compute. reflexivity.
    + reflexivity.
    + split; vm_compute; [discriminate|reflexivity].
Defined.

(** The instants some texts name. *)
Example sqlInstant_values :
  map Store.sqlInstant
    ["2024-06-15 00:00:00"; "1970-01-01 00:00:00"; "2024-02-29 23:59:59";
     "2100-03-01 00:00:00"; "2023-02-29 00:00:00"; "2024-06-15T00:00:00Z";
     "2024-6-15 00:00:00"] =
  [Some StoreFixtures.midnight; Some 0; Some 1709251199000;
   Some 4107542400000; None; None; None].
Proof. vm_compute. reflexivity. Qed.

(** With [reprocessAfterDays] the double 0.001 the product is the double
    below 86400, so a row 86400 ms old is reprocessed. *)
Example shouldProcess_thousandth_of_a_day :
  Store.maxAge (Double.round (1 # 1000)) = 5937362789990399 # 68719476736 /\
  Store.shouldProcess StoreFixtures.neverParses StoreFixtures.parseClock
    (StoreFixtures.midnight + 86400) StoreFixtures.oneDecision
    "message" "42" "filter" StoreFixtures.shortMemory = true.
Proof. vm_compute. split; reflexivity. Qed.

(** With [reprocessAfterDays = 0] a row written a day ago is older than
    zero days, yet [shouldProcess] answers false. *)
Lemma shouldProcess_zero_days :
  let now := (StoreFixtures.midnight + StoreFixtures.oneDay)%Z in
  Store.shouldProcess StoreFixtures.neverParses StoreFixtures.parseClock now
    StoreFixtures.oneDecision "message" "42" "filter"
    StoreFixtures.zeroDays = false /\
  shouldProcessBySpec StoreFixtures.parseClock now StoreFixtures.oneDecision
    "message" "42" "filter" StoreFixtures.zeroDays.
Proof.
  split; [vm_compute; reflexivity|].
  right. left.
  eexists. exists StoreFixtures.midnight.
  split; [vm_compute; reflexivity|].
  split; [reflexivity|]. vm_compute. reflexivity.
Qed.

(** ** Schema enforcement (ai/validation.js) *)

Section ValidationFacts.

Lemma valid_string (x : json) :
  Validation.valid Validation.string_ x = true <-> exists s, x = JStr s.
Proof.
  destruct x; simpl; split; try discriminate; try (intros [? ?]; discriminate).
  - intros _. eauto.
  - reflexivity.
Qed.

Lemma existsb_eqb_In (s : string) (allowed : list string) :
  existsb (String.eqb s) allowed = true <-> In s allowed.
Proof.
  rewrite existsb_exists. split.
  - intros (y & Hy & He). apply String.eqb_eq in He. now subst.
  - intros H. exists s. split; [exact H | apply String.eqb_refl].
Qed.

Lemma valid_enum (allowed : list string) (x : json) :
  Validation.valid (Validation.SString (Some allowed)) x = true <->
  exists s, x = JStr s /\ In s allowed.
Proof.
  destruct x; simpl; split; try discriminate;
    try (intros (? & ? & ?); discriminate).
  - intros H. apply existsb_eqb_In in H. eauto.
  - intros (s' & [= <-] & Hin). now apply existsb_eqb_In.
Qed.

Lemma valid_strings (x : json) :
  Validation.valid (Validation.SArray Validation.string_) x = true <->
  exists xs, x = JArr (map JStr xs).
Proof.
  destruct x as [| | | |items|]; simpl; split; try discriminate;
    try (intros [? ?]; discriminate).
  - induction items as [|y ys IH]; simpl.
    + intros _. exists []. reflexivity.
    + intros H. apply andb_true_iff in H. destruct H as [Hy Hys].
      destruct (IH Hys) as (xs & [= ->]).
      destruct y; try discriminate. exists (s :: xs). reflexivity.
  - intros (xs & [= ->]). induction xs as [|s xs IH]; simpl; auto.
Qed.

(** A constrained property that need not be there. *)
Lemma optional_property (sub : Validation.schema) (key : string)
    (fields : list (string * json)) :
  match jget key fields with
  | Some x => Validation.valid sub x
  | None => true
  end = true <->
  jget key fields = None \/
  exists x, jget key fields = Some x /\ Validation.valid sub x = true.
Proof.
  destruct (jget key fields) as [x|]; split.
  - intros H. right. eauto.
  - intros [H|(y & [= <-] & H)]; [discriminate | exact H].
  - intros _. now left.
  - reflexivity.
Qed.

Lemma jhas_true (key : string) (fields : list (string * json)) :
  jhas key fields = true <-> exists x, jget key fields = Some x.
Proof.
  unfold jhas. destruct (jget key fields); split; eauto; try discriminate.
  intros [? ?]; discriminate.
Qed.

Lemma valid_object (properties : list (string * Validation.schema))
    (required : list string) (fields : list (string * json)) :
  Validation.valid (Validation.SObject properties required) (JObj fields) =
  forallb (Validation.validProperty fields) properties
  && forallb (fun name => jhas name fields) required.
Proof.
  cbn [Validation.valid]. f_equal.
  induction properties as [|[name sub] rest IH]; [reflexivity|].
  cbn [forallb]. rewrite <- IH. reflexivity.
Qed.

Lemma valid_array (items : Validation.schema) (xs : list json) :
  Validation.valid (Validation.SArray items) (JArr xs) =
  forallb (Validation.valid items) xs.
Proof. destruct items; reflexivity. Qed.

Lemma validProperty_spec (fields : list (string * json)) (key : string)
    (sub : Validation.schema) :
  Validation.validProperty fields (key, sub) = true <->
  jget key fields = None \/
  exists x, jget key fields = Some x /\ Validation.valid sub x = true.
Proof. apply optional_property. Qed.

(** The compiled item schema of the categorize stage, spelled out. *)
Lemma valid_categorize_item (x : json) :
  Validation.valid
    (Validation.SObject
       [("id", Validation.string_);
        ("primary_topic", Validation.string_);
        ("secondary_topics", Validation.SArray Validation.string_);
        ("sentiment", Validation.SString (Some CategorizeShape.sentiments));
        ("urgency", Validation.SString (Some CategorizeShape.levels));
        ("marketing_relevance",
         Validation.SString (Some CategorizeShape.levels))]
       ["id"; "primary_topic"]) x = true <->
  CategorizeShape.item x.
Proof.
  destruct x as [| | | | |fields];
    try (split; [discriminate | intros (? & ? & _); discriminate]).
  rewrite valid_object. cbn [forallb].
  rewrite !andb_true_iff, !validProperty_spec, !jhas_true.
  unfold CategorizeShape.item, CategorizeShape.stringAt,
    CategorizeShape.optionalEnum, CategorizeShape.optionalStrings.
  split.
  - intros ((Hid & Hpt & Hst & Hse & Hur & Hmr & _) & (xi & Hxi) & (xp & Hxp) & _).
    exists fields. split; [reflexivity|].
    repeat split.
    + destruct Hid as [Hid|(y & Hy & Hv)]; [congruence|].
      apply valid_string in Hv. destruct Hv as [s ->]. eauto.
    + destruct Hpt as [Hpt|(y & Hy & Hv)]; [congruence|].
      apply valid_string in Hv. destruct Hv as [s ->]. eauto.
    + destruct Hst as [H|(y & Hy & Hv)]; [now left|].
      apply valid_strings in Hv. destruct Hv as [xs ->]. right. eauto.
    + destruct Hse as [H|(y & Hy & Hv)]; [now left|].
      apply valid_enum in Hv. destruct Hv as (s & -> & Hin). right. eauto.
    + destruct Hur as [H|(y & Hy & Hv)]; [now left|].
      apply valid_enum in Hv. destruct Hv as (s & -> & Hin). right. eauto.
    + destruct Hmr as [H|(y & Hy & Hv)]; [now left|].
      apply valid_enum in Hv. destruct Hv as (s & -> & Hin). right. eauto.
  - intros (fs & [= <-] & (si & Hid) & (sp & Hpt) & Hst & Hse & Hur & Hmr).
    split; [|repeat split; eauto].
    repeat split.
    + right. exists (JStr si). split; [exact Hid | apply valid_string; eauto].
    + right. exists (JStr sp). split; [exact Hpt | apply valid_string; eauto].
    + destruct Hst as [H|(xs & H)]; [now left|]. right.
      eexists. split; [exact H | apply valid_strings; eauto].
    + destruct Hse as [H|(s & H & Hin)]; [now left|]. right.
      eexists. split; [exact H | apply valid_enum; eauto].
    + destruct Hur as [H|(s & H & Hin)]; [now left|]. right.
      eexists. split; [exact H | apply valid_enum; eauto].
    + destruct Hmr as [H|(s & H & Hin)]; [now left|]. right.
      eexists. split; [exact H | apply valid_enum; eauto].
Qed.

Lemma valid_categorize_response (r : json) :
  Validation.valid Validation.categorizeResponseSchema r = true <->
  CategorizeShape.response r.
Proof.
  unfold CategorizeShape.response.
  destruct r as [| | | | |fields];
    try (split; [discriminate | intros (? & ? & ? & _); discriminate]).
  unfold Validation.categorizeResponseSchema.
  rewrite valid_object. cbn [forallb].
  rewrite !andb_true_iff, validProperty_spec, jhas_true.
  split.
  - intros (([Hc|(x' & Hx' & Hc)] & _) & (x & Hx) & _); [congruence|].
    rewrite Hx in Hx'. injection Hx' as <-.
    destruct x as [| | | |items|]; try discriminate.
    exists fields, items. split; [reflexivity|]. split; [exact Hx|].
    apply List.Forall_forall. intros y Hy.
    apply valid_categorize_item.
    rewrite valid_array, forallb_forall in Hc. apply (Hc y). exact Hy.
  - intros (fs & items & [= <-] & Hget & Hall).
    split; [|split; eauto].
    split; [|reflexivity]. right. exists (JArr items). split; [exact Hget|].
    rewrite valid_array. apply forallb_forall. intros y Hy.
    apply valid_categorize_item.
    rewrite List.Forall_forall in Hall. apply Hall. exact Hy.
Qed.

End ValidationFacts.

(** C9 (as amended).  The categorize validator accepts exactly the responses
    that are an object with an array [categorizations] whose items are
    objects with string [id] and [primary_topic]; [secondary_topics],
    [sentiment], [urgency] and [marketing_relevance] may be missing and are
    checked (type and enum) only when present.  Every other response raises
    an error, in particular one with an item lacking [id] or
    [primary_topic]. *)
Theorem validateCategorize_accepts :
  forall response : json,
    (Validation.validateCategorizeResponse response = Ok response <->
     CategorizeShape.response response) /\
    (~ CategorizeShape.response response <->
     exists e, Validation.validateCategorizeResponse response = Throw e) /\
    (forall fields items itemFields,
        response = JObj fields ->
        jget "categorizations" fields = Some (JArr items) ->
        In (JObj itemFields) items ->
        jget "id" itemFields = None \/ jget "primary_topic" itemFields = None ->
        exists e, Validation.validateCategorizeResponse response = Throw e).
Proof.
  intros response.
  assert (Hshape := valid_categorize_response response).
  assert (Hrun :
            Validation.validateCategorizeResponse response =
            if Validation.valid Validation.categorizeResponseSchema response
            then Ok response
            else Throw (mkError "Invalid AI response for categorize stage")).
  { unfold Validation.validateCategorizeResponse, Validation.validateResponse.
    cbn [Validation.validators String.eqb Ascii.eqb Bool.eqb].
    destruct (Validation.valid _ response); reflexivity. }
  assert (Hrej : ~ CategorizeShape.response response <->
                 exists e, Validation.validateCategorizeResponse response = Throw e).
  { rewrite Hrun.
    destruct (Validation.valid Validation.categorizeResponseSchema response).
    - split.
      + intros Hn. exfalso. apply Hn. now apply Hshape.
      + intros [e He]. discriminate.
    - split.
      + intros _. eauto.
      + intros _ Hr. apply Hshape in Hr. discriminate. }
  split; [|split; [exact Hrej|]].
  - rewrite Hrun.
    destruct (Validation.valid Validation.categorizeResponseSchema response).
    + split; [intros _; now apply Hshape | reflexivity].
    + split; [discriminate | intros Hr; apply Hshape in Hr; discriminate].
  - intros fields items itemFields -> Hget Hin Hmissing.
    apply Hrej. intros (fs & its & [= <-] & Hget' & Hall).
    rewrite Hget in Hget'. injection Hget' as <-.
    rewrite List.Forall_forall in Hall.
    destruct (Hall _ Hin) as (f & [= <-] & (si & Hid) & (sp & Hpt) & _).
    destruct Hmissing; congruence.
Qed.

Lemma validateCategorize_accepts_witness :
  exists e,
    Validation.validateCategorizeResponse
      (JObj [("categorizations", JArr [JObj [("id", JStr "1")]])]) = Throw e.
Proof.
  refine (proj2 (proj2 (validateCategorize_accepts
                          (JObj [("categorizations", JArr [JObj [("id", JStr "1")]])])))
            _ _ [("id", JStr "1")] eq_refl eq_refl _ _).
  - left. reflexivity.
  - right. reflexivity.
Defined.

(** An item with only [id] and [primary_topic] lacks three of the fields
    the specification's shape requires, and is accepted. *)
Lemma categorize_accepts_item_without_sentiment :
  Validation.validateCategorizeResponse CategorizeShape.bareResponse =
    Ok CategorizeShape.bareResponse /\
  exists fields items itemFields,
    CategorizeShape.bareResponse = JObj fields /\
    jget "categorizations" fields = Some (JArr items) /\
    In (JObj itemFields) items /\
    In "sentiment" Validation.categorizeRequiredBySpec /\
    jget "sentiment" itemFields = None.
Proof.
  split; [reflexivity|].
  eexists. eexists. eexists.
  split; [reflexivity|]. split; [reflexivity|].
  split; [left; reflexivity|].
  split; [|reflexivity]. simpl. tauto.
Qed.

(** ** Upserts (storage/repositories: upsertMessage) *)

Section UpsertFacts.

Lemma find_map_same {A} (p : A -> bool) (f : A -> A) (l : list A) :
  (forall x, p (f x) = p x) ->
  List.find p (map f l) = option_map f (List.find p l).
Proof.
  intros Hp. induction l as [|x xs IH]; [reflexivity|].
  cbn [map List.find]. rewrite Hp. destruct (p x); [reflexivity | exact IH].
Qed.

Lemma find_map_other {A} (p q : A -> bool) (f : A -> A) (l : list A) :
  (forall x, p (f x) = p x) ->
  (forall x, p x = true -> q x = false) ->
  List.find p (map (fun x => if q x then f x else x) l) = List.find p l.
Proof.
  intros Hp Hq. induction l as [|x xs IH]; [reflexivity|].
  cbn [map List.find]. destruct (q x) eqn:Eq.
  - rewrite Hp. destruct (p x) eqn:Ep; [|exact IH].
    rewrite (Hq x Ep) in Eq. discriminate.
  - destruct (p x); [reflexivity | exact IH].
Qed.

Lemma find_some_holds {A} (p : A -> bool) (l : list A) (x : A) :
  List.find p l = Some x -> p x = true.
Proof.
  induction l as [|y ys IH]; [discriminate|].
  cbn [List.find]. destruct (p y) eqn:E; [intros [= <-]; exact E | exact IH].
Qed.

Lemma conflictUpdate_id (old : Store.Message.row) (m : Store.Message.data) :
  Store.messageId (Store.conflictUpdate old m) = Store.messageId old.
Proof. reflexivity. Qed.

End UpsertFacts.

(** C6.  Upserting a message whose id is already stored succeeds, and the
    stored row takes [content], [clean_content], [edited_timestamp],
    [has_embeds], [has_attachments] and [reaction_count] from the new
    values while [id], [channel_id], [author_id], [timestamp],
    [message_type], [reference_id], [thread_id] (and [created_at]) stay as
    they were; the rows of other messages are untouched. *)
Theorem upsertMessage_existing :
  forall (db : Store.DB) (message : Store.Message.data) (old : Store.Message.row),
    Store.getMessage db (Store.Message.id message) = Some old ->
    exists db' new,
      Store.upsertMessage db message = Ok db' /\
      Store.getMessage db' (Store.Message.id message) = Some new /\
      let o := Store.Message.fields old in
      let n := Store.Message.fields new in
      (Store.Message.content n = Store.Message.content message /\
       Store.Message.clean_content n = Store.Message.clean_content message /\
       Store.Message.edited_timestamp n = Store.Message.edited_timestamp message /\
       Store.Message.has_embeds n = Store.Message.has_embeds message /\
       Store.Message.has_attachments n = Store.Message.has_attachments message /\
       Store.Message.reaction_count n = Store.Message.reaction_count message) /\
      (Store.Message.timestamp n = Store.Message.timestamp o /\
       Store.Message.id n = Store.Message.id o /\
       Store.Message.channel_id n = Store.Message.channel_id o /\
       Store.Message.author_id n = Store.Message.author_id o /\
       Store.Message.message_type n = Store.Message.message_type o /\
       Store.Message.reference_id n = Store.Message.reference_id o /\
       Store.Message.thread_id n = Store.Message.thread_id o /\
       Store.Message.created_at new = Store.Message.created_at old) /\
      length (Store.messages db') = length (Store.messages db) /\
      forall other, other <> Store.Message.id message ->
                    Store.getMessage db' other = Store.getMessage db other.
Proof.
  intros db message old Hold.
  unfold Store.upsertMessage. rewrite Hold.
  eexists. exists (Store.conflictUpdate old message).
  split; [reflexivity|].
  assert (Hid : Store.messageId old = Store.Message.id message).
  { apply find_some_holds in Hold. now apply String.eqb_eq in Hold. }
  split.
  - unfold Store.getMessage in *. cbn [Store.messages Store.with_messages].
    rewrite find_map_same.
    + rewrite Hold. cbn [option_map]. rewrite Hid, String.eqb_refl. reflexivity.
    + intros r. destruct (String.eqb (Store.messageId r) _) eqn:E; exact E.
  - cbn zeta. split; [repeat split|]. split; [repeat split|].
    cbn [Store.messages Store.with_messages]. split; [apply length_map|].
    intros other Hne. unfold Store.getMessage.
    cbn [Store.messages Store.with_messages].
    apply (find_map_other
             (fun r => String.eqb (Store.messageId r) other)
             (fun r => String.eqb (Store.messageId r) (Store.Message.id message))
             (fun r => Store.conflictUpdate r message)).
    + intros r. reflexivity.
    + intros r Hr. apply String.eqb_eq in Hr. apply String.eqb_neq. congruence.
Qed.

Lemma upsertMessage_existing_witness :
  exists db' new,
    Store.upsertMessage Seeded.db Seeded.helloEdited = Ok db' /\
    Store.getMessage db' "100" = Some new /\
    Store.Message.timestamp (Store.Message.fields new) =
      "2024-06-15T10:00:00.000Z" /\
    Store.Message.content (Store.Message.fields new) = Some "hello, world".
Proof.
  destruct (upsertMessage_existing Seeded.db Seeded.helloEdited
              {| Store.Message.fields := Seeded.hello;
                 Store.Message.created_at := "2024-06-15 00:00:00" |}
              eq_refl)
    as (db' & new & Hup & Hget & Hmut & Himm & _).
  exists db', new. split; [exact Hup|]. split; [exact Hget|].
  split; [exact (proj1 Himm) | exact (proj1 Hmut)].
Defined.

(** ** The order on ids *)

Section StringOrder.

Lemma ascii_compare_refl (a : ascii) : Ascii.compare a a = Eq.
Proof. unfold Ascii.compare. apply N.compare_refl. Qed.

Lemma ascii_compare_gt_trans (a b c : ascii) :
  Ascii.compare a b = Gt -> Ascii.compare b c = Gt -> Ascii.compare a c = Gt.
Proof.
  unfold Ascii.compare. rewrite !N.compare_gt_iff. intros H1 H2.
  eapply N.lt_trans; eassumption.
Qed.

Lemma string_compare_refl (s : string) : String.compare s s = Eq.
Proof.
  induction s as [|a s IH]; [reflexivity|].
  cbn [String.compare]. rewrite ascii_compare_refl. exact IH.
Qed.

Lemma string_compare_gt_trans (s t u : string) :
  String.compare s t = Gt -> String.compare t u = Gt -> String.compare s u = Gt.
Proof.
  revert t u. induction s as [|a s IH]; intros [|b t] [|c u];
    cbn [String.compare]; try discriminate; try reflexivity.
  destruct (Ascii.compare a b) eqn:Eab; try discriminate;
    destruct (Ascii.compare b c) eqn:Ebc; try discriminate; intros H1 H2.
  - apply Ascii.compare_eq_iff in Eab, Ebc. subst.
    rewrite ascii_compare_refl. eapply IH; eassumption.
  - apply Ascii.compare_eq_iff in Eab. subst. rewrite Ebc. reflexivity.
  - apply Ascii.compare_eq_iff in Ebc. subst. rewrite Eab. reflexivity.
  - rewrite (ascii_compare_gt_trans a b c Eab Ebc). reflexivity.
Qed.

Lemma str_le_refl (s : string) : str_le s s.
Proof. unfold str_le. rewrite string_compare_refl. discriminate. Qed.

Lemma str_gtb_false_le (a b : string) : str_gtb a b = false -> str_le a b.
Proof.
  unfold str_gtb, str_le. destruct (String.compare a b); congruence.
Qed.

(** Anything below [b] is below a string greater than [b]. *)
Lemma str_le_below_greater (x a b : string) :
  str_le x b -> str_gtb a b = true -> str_le x a.
Proof.
  unfold str_le, str_gtb. intros Hxb Hab Hxa.
  destruct (String.compare a b) eqn:E; try discriminate.
  apply Hxb. eapply string_compare_gt_trans; eassumption.
Qed.

Lemma str_le_empty (s : string) : str_le "" s.
Proof. unfold str_le. destruct s; discriminate. Qed.

End StringOrder.

(** ** The resume cursor (cli/commands/scrape.js) *)

Section LatestFacts.

Lemma trackLatest_latest_of (seen : list string) (latest : option string)
    (i : string) :
  latest_of seen latest ->
  latest_of (seen ++ [i]) (Scrape.trackLatest latest i).
Proof.
  unfold latest_of, Scrape.trackLatest.
  destruct latest as [l|].
  - intros [Hin Hmax].
    destruct (negb (truthy_str l) || str_gtb i l) eqn:E.
    + split; [apply in_or_app; right; now left|].
      intros x Hx. apply in_app_or in Hx. destruct Hx as [Hx|[<-|[]]].
      * apply orb_true_iff in E. destruct E as [E|E].
        -- destruct l; [|discriminate].
           (* the stored id is empty: everything seen is empty *)
           specialize (Hmax x Hx). unfold str_le in Hmax.
           destruct x; [apply str_le_empty|].
           exfalso. apply Hmax. reflexivity.
        -- eapply str_le_below_greater; eauto.
      * apply str_le_refl.
    + apply orb_false_iff in E. destruct E as [_ E].
      split; [apply in_or_app; now left|].
      intros x Hx. apply in_app_or in Hx. destruct Hx as [Hx|[<-|[]]].
      * now apply Hmax.
      * now apply str_gtb_false_le.
  - intros ->. split; [now left|].
    intros x [<-|[]]. apply str_le_refl.
Qed.

Lemma fold_trackLatest (ids seen : list string) (latest : option string) :
  latest_of seen latest ->
  latest_of (seen ++ ids) (fold_left Scrape.trackLatest ids latest).
Proof.
  revert seen latest. induction ids as [|i ids IH]; intros seen latest H.
  - rewrite app_nil_r. exact H.
  - cbn [fold_left].
    replace (seen ++ i :: ids) with ((seen ++ [i]) ++ ids)
      by (rewrite <- app_assoc; reflexivity).
    apply IH. now apply trackLatest_latest_of.
Qed.

End LatestFacts.

(** *** What the statements of the channel loop leave alone *)

Section Frames.

(** [R db db'] relates the database before and after a statement. *)
Variable R : Store.DB -> Store.DB -> Prop.
Hypothesis R_refl : forall db, R db db.
Hypothesis R_trans : forall a b c, R a b -> R b c -> R a c.
Hypothesis R_user : forall db u, R db (Store.upsertUser db u).
Hypothesis R_message :
  forall db m db', Store.upsertMessage db m = Ok db' -> R db db'.
Hypothesis R_embed :
  forall db e db', Store.upsertEmbed db e = Ok db' -> R db db'.
Hypothesis R_attachment :
  forall db a db', Store.upsertAttachment db a = Ok db' -> R db db'.
Hypothesis R_reaction :
  forall db r db', Store.upsertReaction db r = Ok db' -> R db db'.

Lemma forEach_frame {X} (op : Store.DB -> X -> Result Store.DB) :
  (forall db x db', op db x = Ok db' -> R db db') ->
  forall xs db db' r, Scrape.forEach op xs db = (db', r) -> R db db'.
Proof.
  intros Hop. induction xs as [|x xs IH]; intros db db' r; cbn [Scrape.forEach].
  - intros [= <- _]. apply R_refl.
  - destruct (op db x) as [e|db1] eqn:E.
    + intros [= <- _]. apply R_refl.
    + intros H. eapply R_trans; [eapply Hop; exact E | eapply IH; exact H].
Qed.

Lemma storeBundle_frame (db db' : Store.DB) (data : Messages.Bundle)
    (r : option JsError) :
  Scrape.storeBundle db data = (db', r) -> R db db'.
Proof.
  unfold Scrape.storeBundle.
  pose proof (R_user db (Messages.user data)) as Hu.
  destruct (Store.upsertMessage _ _) as [e|db2] eqn:Em.
  { intros [= <- _]. exact Hu. }
  pose proof (R_message _ _ _ Em) as Hm.
  destruct (Scrape.forEach Store.upsertEmbed _ db2) as [db3 [e|]] eqn:Ee;
    pose proof (forEach_frame _ R_embed _ _ _ _ Ee) as He.
  { intros [= <- _]. eauto. }
  destruct (Scrape.forEach Store.upsertAttachment _ db3) as [db4 [e|]] eqn:Ea;
    pose proof (forEach_frame _ R_attachment _ _ _ _ Ea) as Ha.
  { intros [= <- _]. eauto. }
  intros Hr. pose proof (forEach_frame _ R_reaction _ _ _ _ Hr). eauto.
Qed.

Lemma consume_frame (bundles : list Messages.Bundle) :
  forall db n latest db' r,
    Scrape.consume bundles db n latest = (db', r) -> R db db'.
Proof.
  induction bundles as [|b bs IH]; intros db n latest db' r;
    cbn [Scrape.consume].
  - intros [= <- _]. apply R_refl.
  - destruct (Scrape.storeBundle db b) as [db1 [e|]] eqn:E;
      pose proof (storeBundle_frame _ _ _ _ E) as H1.
    + intros [= <- _]. exact H1.
    + intros H. eapply R_trans; [exact H1 | eapply IH; exact H].
Qed.

End Frames.

Section StoreFrames.

Ltac statement op :=
  intros; unfold op in *;
  repeat match goal with
         | H : context [match ?x with _ => _ end] |- _ => destruct x eqn:?
         end;
  try discriminate;
  repeat match goal with H : Ok _ = Ok _ |- _ => injection H as <- end;
  reflexivity.

Lemma upsertMessage_channels db m db' :
  Store.upsertMessage db m = Ok db' -> Store.channels db' = Store.channels db.
Proof. statement Store.upsertMessage. Qed.

Lemma upsertEmbed_channels db e db' :
  Store.upsertEmbed db e = Ok db' -> Store.channels db' = Store.channels db.
Proof. statement Store.upsertEmbed. Qed.

Lemma upsertAttachment_channels db a db' :
  Store.upsertAttachment db a = Ok db' -> Store.channels db' = Store.channels db.
Proof. statement Store.upsertAttachment. Qed.

Lemma upsertReaction_channels db r db' :
  Store.upsertReaction db r = Ok db' -> Store.channels db' = Store.channels db.
Proof. statement Store.upsertReaction. Qed.

Lemma upsertMessage_sync db m db' :
  Store.upsertMessage db m = Ok db' ->
  Store.sync_state db' = Store.sync_state db.
Proof. statement Store.upsertMessage. Qed.

Lemma upsertEmbed_sync db e db' :
  Store.upsertEmbed db e = Ok db' -> Store.sync_state db' = Store.sync_state db.
Proof. statement Store.upsertEmbed. Qed.

Lemma upsertAttachment_sync db a db' :
  Store.upsertAttachment db a = Ok db' ->
  Store.sync_state db' = Store.sync_state db.
Proof. statement Store.upsertAttachment. Qed.

Lemma upsertReaction_sync db r db' :
  Store.upsertReaction db r = Ok db' ->
  Store.sync_state db' = Store.sync_state db.
Proof. statement Store.upsertReaction. Qed.

Lemma upsertChannel_sync db c db' :
  Store.upsertChannel db c = Ok db' ->
  Store.sync_state db' = Store.sync_state db.
Proof. statement Store.upsertChannel. Qed.

Lemma updateChannelLastScraped_sync db c i :
  Store.sync_state (Store.updateChannelLastScraped db c i) =
  Store.sync_state db.
Proof.
  unfold Store.updateChannelLastScraped.
  destruct (Store.channels db !! c); reflexivity.
Qed.

Lemma upsertEmbed_messages db e db' :
  Store.upsertEmbed db e = Ok db' -> Store.messages db' = Store.messages db.
Proof. statement Store.upsertEmbed. Qed.

Lemma upsertAttachment_messages db a db' :
  Store.upsertAttachment db a = Ok db' ->
  Store.messages db' = Store.messages db.
Proof. statement Store.upsertAttachment. Qed.

Lemma upsertReaction_messages db r db' :
  Store.upsertReaction db r = Ok db' -> Store.messages db' = Store.messages db.
Proof. statement Store.upsertReaction. Qed.

End StoreFrames.

Section MessagePresence.

Lemma find_app_l {A} (p : A -> bool) (l l' : list A) :
  List.find p (l ++ l') =
  match List.find p l with Some x => Some x | None => List.find p l' end.
Proof.
  induction l as [|x xs IH]; [reflexivity|].
  cbn [app List.find]. destruct (p x); [reflexivity | exact IH].
Qed.

Lemma hasMessage_messages (a b : Store.DB) (i : string) :
  Store.messages b = Store.messages a ->
  Store.hasMessage b i = Store.hasMessage a i.
Proof. unfold Store.hasMessage, Store.getMessage. now intros ->. Qed.

Lemma upsertMessage_keeps db m db' :
  Store.upsertMessage db m = Ok db' ->
  forall i, Store.hasMessage db i = true -> Store.hasMessage db' i = true.
Proof.
  unfold Store.upsertMessage. intros H i Hi.
  unfold Store.hasMessage, Store.getMessage in *.
  destruct (List.find
              (fun r => String.eqb (Store.messageId r) (Store.Message.id m))
              (Store.messages db)) as [old|] eqn:Hold.
  - injection H as <-. cbn [Store.messages Store.with_messages].
    rewrite find_map_same.
    + destruct (List.find (fun r => String.eqb (Store.messageId r) i)
                  (Store.messages db)); [reflexivity | discriminate].
    + intros r. destruct (String.eqb (Store.messageId r) (Store.Message.id m));
        reflexivity.
  - destruct (_ && _); [|discriminate]. injection H as <-.
    cbn [Store.messages Store.with_messages]. rewrite find_app_l.
    destruct (List.find (fun r => String.eqb (Store.messageId r) i)
                (Store.messages db)); [reflexivity | discriminate].
Qed.

Lemma upsertMessage_stores db m db' :
  Store.upsertMessage db m = Ok db' ->
  Store.hasMessage db' (Store.Message.id m) = true.
Proof.
  unfold Store.upsertMessage. intros H.
  unfold Store.hasMessage, Store.getMessage in *.
  destruct (List.find _ (Store.messages db)) as [old|] eqn:Hold.
  - injection H as <-. cbn [Store.messages Store.with_messages].
    rewrite find_map_same.
    + rewrite Hold. reflexivity.
    + intros r. destruct (String.eqb (Store.messageId r) (Store.Message.id m)) eqn:E;
        exact E.
  - destruct (_ && _); [|discriminate]. injection H as <-.
    cbn [Store.messages Store.with_messages]. rewrite find_app_l, Hold.
    cbn [List.find]. unfold Store.messageId at 1. cbn [Store.Message.fields].
    rewrite String.eqb_refl. reflexivity.
Qed.

Lemma consume_keeps_messages bundles db n latest db' r :
  Scrape.consume bundles db n latest = (db', r) -> keeps_messages db db'.
Proof.
  apply (consume_frame keeps_messages); unfold keeps_messages.
  - auto.
  - auto.
  - intros d u i H. exact H.
  - apply upsertMessage_keeps.
  - intros d e d' H i. now rewrite (hasMessage_messages d d' i (upsertEmbed_messages _ _ _ H)).
  - intros d e d' H i. now rewrite (hasMessage_messages d d' i (upsertAttachment_messages _ _ _ H)).
  - intros d e d' H i. now rewrite (hasMessage_messages d d' i (upsertReaction_messages _ _ _ H)).
Qed.

Lemma storeBundle_stores db data db' :
  Scrape.storeBundle db data = (db', None) ->
  Store.hasMessage db' (Store.Message.id (Messages.message data)) = true.
Proof.
  unfold Scrape.storeBundle.
  destruct (Store.upsertMessage _ _) as [e|db2] eqn:Em; [discriminate|].
  pose proof (upsertMessage_stores _ _ _ Em) as Hin.
  destruct (Scrape.forEach Store.upsertEmbed _ db2) as [db3 [e|]] eqn:Ee;
    [discriminate|].
  destruct (Scrape.forEach Store.upsertAttachment _ db3) as [db4 [e|]] eqn:Ea;
    [discriminate|].
  intros Er.
  rewrite (hasMessage_messages db4).
  2:{ eapply (forEach_frame (fun a b => Store.messages b = Store.messages a));
      [reflexivity | congruence | apply upsertReaction_messages | exact Er]. }
  rewrite (hasMessage_messages db3).
  2:{ eapply (forEach_frame (fun a b => Store.messages b = Store.messages a));
      [reflexivity | congruence | apply upsertAttachment_messages | exact Ea]. }
  rewrite (hasMessage_messages db2).
  2:{ eapply (forEach_frame (fun a b => Store.messages b = Store.messages a));
      [reflexivity | congruence | apply upsertEmbed_messages | exact Ee]. }
  exact Hin.
Qed.

(** A loop that ran to its end counted every bundle, tracked every id and
    stored every message. *)
Lemma consume_ok (bundles : list Messages.Bundle) :
  forall db n latest db' n' latest',
    Scrape.consume bundles db n latest = (db', Ok (n', latest')) ->
    n' = n + Z.of_nat (length bundles) /\
    latest' =
      fold_left Scrape.trackLatest
        (map (fun b => Store.Message.id (Messages.message b)) bundles) latest /\
    forall b, In b bundles ->
              Store.hasMessage db' (Store.Message.id (Messages.message b)) = true.
Proof.
  induction bundles as [|b bs IH]; intros db n latest db' n' latest';
    cbn [Scrape.consume].
  - intros [= <- <- <-]. cbn [length map fold_left].
    split; [lia|]. split; [reflexivity|]. intros b [].
  - destruct (Scrape.storeBundle db b) as [db1 [e|]] eqn:E; [discriminate|].
    intros H. pose proof (consume_keeps_messages _ _ _ _ _ _ H) as Hkeep.
    destruct (IH _ _ _ _ _ _ H) as (Hn & Hl & Hall).
    split; [cbn [length]; lia|]. split; [exact Hl|].
    intros x [<-|Hx]; [|now apply Hall].
    apply Hkeep. eapply storeBundle_stores. exact E.
Qed.

Lemma consume_channels bundles db n latest db' r :
  Scrape.consume bundles db n latest = (db', r) ->
  Store.channels db' = Store.channels db.
Proof.
  apply (consume_frame (fun a b => Store.channels b = Store.channels a)).
  - reflexivity.
  - congruence.
  - reflexivity.
  - apply upsertMessage_channels.
  - apply upsertEmbed_channels.
  - apply upsertAttachment_channels.
  - apply upsertReaction_channels.
Qed.

Lemma consume_sync bundles db n latest db' r :
  Scrape.consume bundles db n latest = (db', r) ->
  Store.sync_state db' = Store.sync_state db.
Proof.
  apply (consume_frame (fun a b => Store.sync_state b = Store.sync_state a)).
  - reflexivity.
  - congruence.
  - reflexivity.
  - apply upsertMessage_sync.
  - apply upsertEmbed_sync.
  - apply upsertAttachment_sync.
  - apply upsertReaction_sync.
Qed.

End MessagePresence.

Section CursorFacts.

Lemma upsertChannel_row db c db1 :
  Store.upsertChannel db c = Ok db1 ->
  is_Some (Store.channels db1 !! Store.Channel.id c).
Proof.
  unfold Store.upsertChannel.
  destruct (Store.channels db !! Store.Channel.id c) as [old|].
  - intros [= <-]. cbn [Store.channels Store.with_channels].
    rewrite lookup_insert_eq. eauto.
  - destruct (Store.has_key _ _); [|discriminate].
    intros [= <-]. cbn [Store.channels Store.with_channels].
    rewrite lookup_insert_eq. eauto.
Qed.

(** Upserting a channel leaves its resume cursor as it was. *)
Lemma upsertChannel_cursor db c db1 :
  Store.upsertChannel db c = Ok db1 ->
  Store.getChannelLastScrapedId db1 (Store.Channel.id c) =
  Store.getChannelLastScrapedId db (Store.Channel.id c).
Proof.
  unfold Store.upsertChannel, Store.getChannelLastScrapedId.
  destruct (Store.channels db !! Store.Channel.id c) as [old|] eqn:Hold.
  - intros [= <-]. cbn [Store.channels Store.with_channels].
    rewrite lookup_insert_eq. reflexivity.
  - destruct (Store.has_key _ _); [|discriminate].
    intros [= <-]. cbn [Store.channels Store.with_channels].
    rewrite lookup_insert_eq. reflexivity.
Qed.

Lemma updateChannelLastScraped_cursor db c i :
  is_Some (Store.channels db !! c) ->
  cursorOf (Store.updateChannelLastScraped db c i) c = Some (Some i).
Proof.
  intros [row Hrow]. unfold cursorOf, Store.updateChannelLastScraped.
  rewrite Hrow. cbn [Store.channels Store.with_channels].
  rewrite lookup_insert_eq. reflexivity.
Qed.

End CursorFacts.

(** C2.  When the work on a channel runs to completion, every yielded
    message is stored and counted.  If at least one message was yielded
    (ids being non-empty strings), the channel's
    [last_scraped_message_id] afterwards is one of the yielded ids and no
    yielded id is lexicographically greater.  If none was yielded, the
    channel table is not written after the channel upsert and the cursor
    reads as before the pass. *)
Theorem cursor_after_channel_scrape :
  forall (world : Scrape.World) (options : Scrape.Options) (fuel : nat)
         (db db1 db' : Store.DB) (channel : Discord.Channel)
         (evs : list Messages.Event) (ending : Messages.Ending) (n : Z),
    Store.upsertChannel db (Client.formatChannelData channel) = Ok db1 ->
    Scrape.channelFeed world options fuel db1 channel = (evs, ending) ->
    Scrape.scrapeChannel world options fuel db channel =
      (db', Scrape.Scraped n) ->
    let ids := yieldedIds evs in
    let cid := Discord.chan_id channel in
    ending = Messages.Done /\
    n = Z.of_nat (length ids) /\
    (forall i, In i ids -> Store.hasMessage db' i = true) /\
    (ids = [] ->
     Store.channels db' = Store.channels db1 /\
     Store.getChannelLastScrapedId db' cid =
       Store.getChannelLastScrapedId db cid) /\
    (ids <> [] -> Forall (fun i => i <> "") ids ->
     exists m, cursorOf db' cid = Some (Some m) /\ latest_of ids (Some m)).
Proof.
  intros world options fuel db db1 db' channel evs ending n Hup Hfeed Hrun
         ids cid.
  unfold Scrape.scrapeChannel in Hrun. rewrite Hup, Hfeed in Hrun.
  destruct (Scrape.consume (Messages.yielded evs) db1 0 None)
    as [db2 [e|[count latest]]] eqn:Hc; [discriminate|].
  destruct ending; try discriminate.
  destruct (consume_ok _ _ _ _ _ _ _ Hc) as (Hn & Hl & Hall).
  pose proof (consume_channels _ _ _ _ _ _ Hc) as Hch.
  fold (yieldedIds evs) in Hl. fold ids in Hl.
  pose proof (fold_trackLatest ids [] None eq_refl) as Hmax.
  rewrite <- Hl in Hmax. cbn [app] in Hmax.
  assert (Hstored : forall d, Store.messages d = Store.messages db2 ->
                              forall i, In i ids -> Store.hasMessage d i = true).
  { intros d Hd i Hi. rewrite (hasMessage_messages db2 d i Hd).
    unfold ids, yieldedIds in Hi. apply in_map_iff in Hi.
    destruct Hi as (b & <- & Hb). now apply Hall. }
  assert (Hlen : count = Z.of_nat (length ids)).
  { unfold ids, yieldedIds. rewrite length_map. lia. }
  assert (Hrow : is_Some (Store.channels db2 !! cid)).
  { rewrite Hch. exact (upsertChannel_row _ _ _ Hup). }
  split; [reflexivity|].
  destruct latest as [l|].
  - (* something was yielded *)
    destruct Hmax as [Hin Hbound].
    destruct (truthy_str l) eqn:Ht; injection Hrun as <- <-.
    + split; [exact Hlen|]. split.
      { apply Hstored. unfold Store.updateChannelLastScraped.
        destruct (Store.channels db2 !! _); reflexivity. }
      split.
      { intros Hnil. rewrite Hnil in Hin. destruct Hin. }
      intros _ _. exists l. split; [|split; assumption].
      now apply updateChannelLastScraped_cursor.
    + split; [exact Hlen|]. split; [now apply Hstored|]. split.
      { intros Hnil. rewrite Hnil in Hin. destruct Hin. }
      intros _ Hne. exfalso.
      rewrite List.Forall_forall in Hne. apply (Hne l Hin).
      destruct l; [reflexivity | discriminate].
  - (* nothing was yielded *)
    injection Hrun as <- <-. simpl in Hmax.
    split; [exact Hlen|]. split; [now apply Hstored|]. split.
    + intros _. split; [exact Hch|].
      unfold Store.getChannelLastScrapedId. rewrite Hch.
      exact (upsertChannel_cursor _ _ _ Hup).
    + intros Hne. contradiction.
Qed.

(** Scenario S1, first half: messages 100, 200 and 300 leave the cursor at
    300. *)
Lemma cursor_after_channel_scrape_witness :
  exists m,
    cursorOf (fst Fresh.scraped) "c1" = Some (Some m) /\
    latest_of (yieldedIds (fst Fresh.feed)) (Some m).
Proof.
  refine (proj2 (proj2 (proj2 (proj2
            (cursor_after_channel_scrape Service.small Service.incrementalRun
               10 Fresh.db Fresh.withChannel (fst Fresh.scraped)
               Service.general (fst Fresh.feed) (snd Fresh.feed) 3
               _ _ _)))) _ _).
  - vm_compute. reflexivity.
  - vm_compute. reflexivity.
  - vm_compute. reflexivity.
  - vm_compute. discriminate.
  - vm_compute. repeat constructor; discriminate.
Defined.

Example first_pass_cursor :
  cursorOf (fst Fresh.scraped) "c1" = Some (Some "300").
Proof. vm_compute. reflexivity. Qed.

(** ** Sync bookkeeping (cli/commands/scrape.js) *)

Section SyncFacts.

Variable world : Scrape.World.
Variable options : Scrape.Options.
Variable fuel : nat.

Lemma scrapeChannel_sync db channel db' out :
  Scrape.scrapeChannel world options fuel db channel = (db', out) ->
  Store.sync_state db' = Store.sync_state db.
Proof.
  unfold Scrape.scrapeChannel.
  destruct (Store.upsertChannel db _) as [e|db1] eqn:Hup.
  { now intros [= <- _]. }
  pose proof (upsertChannel_sync _ _ _ Hup) as H1.
  destruct (Scrape.channelFeed world options fuel db1 channel) as [evs ending].
  destruct (Scrape.consume _ db1 0 None) as [db2 [e|[count latest]]] eqn:Hc;
    pose proof (consume_sync _ _ _ _ _ _ Hc) as H2.
  { intros [= <- _]. congruence. }
  destruct ending.
  - intros [= <- _].
    destruct latest as [l|]; [destruct (truthy_str l)|];
      rewrite ?updateChannelLastScraped_sync; congruence.
  - intros [= <- _]. congruence.
  - intros [= <- _]. congruence.
Qed.

Lemma channelLoop_sync channels :
  forall db tm tc db' out,
    Scrape.channelLoop world options fuel channels db tm tc = (db', out) ->
    Store.sync_state db' = Store.sync_state db.
Proof.
  induction channels as [|ch rest IH]; intros db tm tc db' out;
    cbn [Scrape.channelLoop].
  - now intros [= <- _].
  - destruct (Scrape.scrapeChannel world options fuel db ch) as [db1 o] eqn:E.
    pose proof (scrapeChannel_sync _ _ _ _ E) as H1.
    destruct o; intros H.
    + rewrite (IH _ _ _ _ _ H). exact H1.
    + rewrite (IH _ _ _ _ _ H). exact H1.
    + injection H as <- _. exact H1.
    + injection H as <- _. exact H1.
Qed.

Lemma createSyncState_opens db syncType guildId channelId i db' :
  Store.createSyncState db syncType guildId channelId = Ok (i, db') ->
  Scrape.syncStatus db' i = Some Store.SyncState.in_progress.
Proof.
  unfold Store.createSyncState, Scrape.syncStatus.
  destruct (_ && _); [|discriminate]. intros [= <- <-].
  cbn [Store.sync_state Store.with_sync]. rewrite lookup_insert_eq. reflexivity.
Qed.

Lemma completeSyncState_completes db i total :
  is_Some (Store.sync_state db !! i) ->
  exists row,
    Store.sync_state (Store.completeSyncState db i total) !! i = Some row /\
    Store.SyncState.state row = Store.SyncState.completed /\
    Store.SyncState.messages_processed row = total.
Proof.
  intros [old Hold]. unfold Store.completeSyncState. rewrite Hold.
  cbn [Store.sync_state Store.with_sync]. rewrite lookup_insert_eq.
  eexists. split; [reflexivity|]. split; reflexivity.
Qed.

(** What a pass that opened a sync row leaves in it: [completed] with the
    total when the command returns, and [in_progress] on every other way
    out, the [catch] block included. *)
Lemma scrapeCommand_sync_row db0 db i out :
  Scrape.scrapeCommand world options fuel db0 = (db, Some i, out) ->
  match out with
  | Scrape.Returned total _ =>
      exists row,
        Store.sync_state db !! i = Some row /\
        Store.SyncState.state row = Store.SyncState.completed /\
        Store.SyncState.messages_processed row = total
  | _ => Scrape.syncStatus db i = Some Store.SyncState.in_progress
  end.
Proof.
  unfold Scrape.scrapeCommand.
  destruct (negb (truthy_ostr _)); [discriminate|].
  destruct (Scrape.DISCORD_GUILD_ID world) as [guildId|]; [|discriminate].
  destruct (negb (truthy_str guildId)); [discriminate|].
  destruct (Scrape.createClient world); [discriminate|].
  destruct (Scrape.getGuild world) as [e|guild]; [discriminate|].
  destruct (Scrape.dryRun options) eqn:Hdry; cbn [negb].
  { destruct (Scrape.channelsFetch world); discriminate. }
  destruct (Store.createSyncState _ _ _ _) as [e|[j db2]] eqn:Hopen;
    [discriminate|].
  pose proof (createSyncState_opens _ _ _ _ _ _ Hopen) as Hrow.
  destruct (Scrape.channelsFetch world) as [e|fetched].
  { intros [= <- <- <-]. exact Hrow. }
  destruct (Scrape.channelLoop _ _ _ _ db2 0 0) as [db3 lo] eqn:Hloop.
  pose proof (channelLoop_sync _ _ _ _ _ _ Hloop) as Hsame.
  assert (Hrow3 : Scrape.syncStatus db3 j = Some Store.SyncState.in_progress).
  { unfold Scrape.syncStatus in *. rewrite Hsame. exact Hrow. }
  destruct lo as [totalMessages totalChannels|e|].
  - intros [= <- <- <-].
    apply completeSyncState_completes.
    unfold Scrape.syncStatus in Hrow3.
    destruct (Store.sync_state db3 !! j); [eauto | discriminate].
  - intros [= <- <- <-]. exact Hrow3.
  - intros [= <- <- <-]. exact Hrow3.
Qed.

End SyncFacts.

(** C5 at the failing input: listing the channels fails after the sync row
    was opened; the command leaves through [catch] with exit code 1 and the
    row is still [in_progress], with no error message. *)
Theorem scrape_error_leaves_row_in_progress :
  let '(db, syncId, out) :=
    Scrape.scrapeCommand Service.channelsUnavailable Service.incrementalRun
      10 StoreFixtures.emptyDB in
  syncId = Some 1%positive /\
  out = Scrape.Exit1 Service.networkError /\
  Scrape.syncStatus db 1 = Some Store.SyncState.in_progress /\
  (Store.SyncState.error_message <$> Store.sync_state db !! 1%positive) =
    Some None.
Proof. vm_compute. repeat split; reflexivity. Qed.

(** ** Paging (scraper/messages.js) *)

Section PagingFacts.

Lemma yieldLoop_no_limit (messageArray : list Discord.Message) (count : Z) :
  Messages.yieldLoop None messageArray count =
  (map Messages.bundleOf messageArray,
   count + Z.of_nat (length messageArray), false).
Proof.
  revert count. induction messageArray as [|m ms IH]; intros count.
  - cbn. f_equal. f_equal. lia.
  - cbn [Messages.yieldLoop Messages.limitReached]. rewrite IH.
    cbn [map length]. f_equal. f_equal. lia.
Qed.

Lemma requested_app (a b : list Messages.Event) :
  Messages.requested (a ++ b) = Messages.requested a ++ Messages.requested b.
Proof. unfold Messages.requested. apply flat_map_app. Qed.

Lemma requested_yields (bs : list Messages.Bundle) :
  Messages.requested (map Messages.Yield bs) = [].
Proof. induction bs as [|b bs IH]; [reflexivity | exact IH]. Qed.

Variable fetch : nat -> Discord.FetchOptions -> Result (list Discord.Message).
Variable options : Messages.Options.

(** In incremental mode, after a full first page the generator asks for
    the messages before the oldest id of that page, with no [after]
    bound: it pages backwards from the resume point. *)
Lemma second_request_pages_backwards (page : list Discord.Message)
    (oldest : string) (fuel : nat) :
  truthy_ostr (Messages.before options) = false ->
  truthy_ostr (Messages.after options) = true ->
  Messages.limit options = None ->
  fetch 0%nat
    {| Discord.limit := 100; Discord.before := None;
       Discord.after := Messages.after options |} = Ok page ->
  length page = 100%nat ->
  Messages.lastIdOf (stableSort Messages.newestFirst page) = Some oldest ->
  truthy_str oldest = true ->
  exists more,
    Messages.requested (fst (Messages.fetchMessages fetch options (S (S fuel)))) =
    {| Discord.limit := 100; Discord.before := None;
       Discord.after := Messages.after options |}
    :: {| Discord.limit := 100; Discord.before := Some oldest;
          Discord.after := None |}
    :: more.
Proof.
  intros Hb Ha Hl Hpage Hlen Hlast Holdest.
  unfold Messages.fetchMessages.
  cbn [Messages.fetchLoop]. rewrite Hl. cbn [Messages.limitReached].
  unfold Messages.buildFetchOptions at 1. rewrite Hb, Ha.
  change Messages.FETCH_LIMIT with 100. rewrite Hpage, Hlen.
  cbn [Nat.eqb]. rewrite yieldLoop_no_limit. cbn [negb andb].
  replace (Z.of_nat 100 <? 100) with false by reflexivity. cbn [negb].
  rewrite Hlast.
  unfold Messages.buildFetchOptions. cbn [truthy_ostr]. rewrite Holdest.
  fold (truthy_ostr (Messages.before options)).
  fold (truthy_ostr (Messages.after options)). rewrite ?Hb, ?Ha.
  change Messages.FETCH_LIMIT with 100.
  set (second := {| Discord.limit := 100; Discord.before := Some oldest;
                    Discord.after := None |}).
  set (pause := if 0 <? _ then _ else _).
  assert (Hpause : Messages.requested pause = []).
  { unfold pause. destruct (0 <? _); reflexivity. }
  destruct (fetch 1%nat second) as [e|messages].
  - exists []. cbn [fst]. cbn [Messages.requested flat_map app].
    fold (Messages.requested (map Messages.Yield
            (map Messages.bundleOf (stableSort Messages.newestFirst page))
          ++ pause ++ [Messages.Fetch second])).
    rewrite !requested_app, requested_yields, Hpause. reflexivity.
  - destruct (length messages =? 0)%nat.
    + exists []. cbn [fst]. cbn [Messages.requested flat_map app].
      fold (Messages.requested (map Messages.Yield
              (map Messages.bundleOf (stableSort Messages.newestFirst page))
            ++ pause ++ [Messages.Fetch second])).
      rewrite !requested_app, requested_yields, Hpause. reflexivity.
    + destruct (Messages.yieldLoop None _ _) as [[ys n] broke].
      destruct (negb broke && _).
      * destruct (Messages.fetchLoop fetch options fuel _ _ _) as [evs ending].
        eexists. cbn [fst]. cbn [Messages.requested flat_map app].
        match goal with
        | |- _ :: flat_map ?f ?l = _ => change (flat_map f l) with (Messages.requested l)
        end.
        rewrite !requested_app, requested_yields, Hpause.
        cbn [app Messages.requested flat_map]. reflexivity.
      * eexists. cbn [fst]. cbn [Messages.requested flat_map app].
        match goal with
        | |- _ :: flat_map ?f ?l = _ => change (flat_map f l) with (Messages.requested l)
        end.
        rewrite !requested_app, requested_yields, Hpause.
        cbn [app Messages.requested flat_map]. reflexivity.
Qed.

End PagingFacts.

(** C4 at the failing input: the channel holds messages 1000 to 1249 and
    the cursor is 1099.  The first request asks for what follows the
    cursor and gets 1100 to 1199; the next two ask for what precedes 1100
    and 1000.  The generator yields 1199 down to 1000, so half of what it
    yields is at or before the cursor, and 1200 to 1249 are never
    fetched. *)
Theorem incremental_fetch_pages_backwards :
  snd Resume.run = Messages.Done /\
  Messages.requested (fst Resume.run) =
    [ {| Discord.limit := 100; Discord.before := None;
         Discord.after := Some "1099" |};
      {| Discord.limit := 100; Discord.before := Some "1100";
         Discord.after := None |};
      {| Discord.limit := 100; Discord.before := Some "1000";
         Discord.after := None |} ] /\
  Resume.ids = map Privacy.decimal (rev (seq 1000 200)) /\
  length (List.filter (fun i => negb (Resume.afterCursor i)) Resume.ids) = 100%nat /\
  existsb (String.eqb "1099") Resume.ids = true /\
  existsb (String.eqb "1200") Resume.ids = false.
Proof. vm_compute. repeat split; reflexivity. Qed.

(** ** Anonymization (utils/privacy.js) *)

Section AliasFacts.

Lemma to_uint_nonnil (n : nat) : Nat.to_uint n <> Decimal.Nil.
Proof.
  pose proof (Unsigned.to_of (Nat.to_uint n)) as H.
  rewrite Unsigned.of_to in H. rewrite H. apply unorm_nonnil.
Qed.

Lemma decimal_inj (n n' : nat) : Privacy.decimal n = Privacy.decimal n' -> n = n'.
Proof.
  unfold Privacy.decimal. intros H.
  apply Unsigned.to_uint_inj.
  pose proof (NilZero.usu _ (to_uint_nonnil n)) as H1.
  pose proof (NilZero.usu _ (to_uint_nonnil n')) as H2.
  rewrite H in H1. congruence.
Qed.

(** A decimal numeral starts with a digit. *)
Lemma decimal_head (n : nat) :
  exists c rest, Privacy.decimal n = String c rest /\
                 (48 <= nat_of_ascii c <= 57)%nat.
Proof.
  unfold Privacy.decimal. pose proof (to_uint_nonnil n) as Hn.
  destruct (Nat.to_uint n); [contradiction| | | | | | | | | |];
    cbn; eexists; eexists; (split; [reflexivity | vm_compute; lia]).
Qed.

Lemma suffixOf_inj (c c' : nat) :
  (1 <= c)%nat -> (1 <= c')%nat ->
  Privacy.suffixOf c = Privacy.suffixOf c' -> ((c - 1) / 26 = (c' - 1) / 26)%nat.
Proof.
  unfold Privacy.suffixOf. intros Hc Hc'.
  destruct (Nat.ltb_spec 26 c) as [H|H], (Nat.ltb_spec 26 c') as [H'|H'].
  - apply decimal_inj.
  - intros E. destruct (decimal_head ((c - 1) / 26)) as (x & r & Hx & _).
    congruence.
  - intros E. destruct (decimal_head ((c' - 1) / 26)) as (x & r & Hx & _).
    congruence.
  - intros _. rewrite !Nat.div_small by lia. reflexivity.
Qed.

Lemma letterOf_inj (c c' : nat) :
  Privacy.letterOf c = Privacy.letterOf c' ->
  ((c - 1) mod 26 = (c' - 1) mod 26)%nat.
Proof.
  unfold Privacy.letterOf. intros H. apply (f_equal nat_of_ascii) in H.
  pose proof (Nat.mod_upper_bound (c - 1) 26) as B.
  pose proof (Nat.mod_upper_bound (c' - 1) 26) as B'.
  rewrite !nat_ascii_embedding in H by lia. lia.
Qed.

(** Different counters give different aliases. *)
Lemma aliasFor_inj (c c' : nat) :
  (1 <= c)%nat -> (1 <= c')%nat ->
  Privacy.aliasFor c = Privacy.aliasFor c' -> c = c'.
Proof.
  intros Hc Hc'. unfold Privacy.aliasFor. cbn [String.append].
  intros [= Hl Hs].
  apply letterOf_inj in Hl. apply suffixOf_inj in Hs; [|assumption..].
  pose proof (Nat.div_mod_eq (c - 1) 26). pose proof (Nat.div_mod_eq (c' - 1) 26).
  lia.
Qed.

(** No counter gives the alias of the missing username. *)
Lemma aliasFor_not_unknown (c : nat) : Privacy.aliasFor c <> "User_Unknown".
Proof.
  unfold Privacy.aliasFor. cbn [String.append]. intros [= _ Hs].
  unfold Privacy.suffixOf in Hs. destruct (26 <? c)%nat; [|discriminate].
  destruct (decimal_head ((c - 1) / 26)) as (x & r & Hx & Hd).
  rewrite Hx in Hs. injection Hs as Hc _. subst x. vm_compute in Hd. lia.
Qed.

Example alias_sequence :
  map Privacy.aliasFor [1; 2; 26; 27; 28; 52; 53]%nat =
  ["User_A"; "User_B"; "User_Z"; "User_A1"; "User_B1"; "User_Z1"; "User_A2"].
Proof. reflexivity. Qed.

End AliasFacts.

Section TableFacts.

Lemma mapGet_app (k : string) (m m' : list (string * string)) :
  Privacy.mapGet k (m ++ m') =
  match Privacy.mapGet k m with
  | Some a => Some a
  | None => Privacy.mapGet k m'
  end.
Proof.
  induction m as [|[k0 v] m IH]; [reflexivity|].
  cbn [app Privacy.mapGet]. destruct (String.eqb k0 k); [reflexivity | exact IH].
Qed.

Lemma aliasTableFrom_app (k : nat) (a b : list string) :
  Privacy.aliasTableFrom k (a ++ b) =
  Privacy.aliasTableFrom k a ++ Privacy.aliasTableFrom (k + length a) b.
Proof.
  revert k. induction a as [|x a IH]; intros k.
  - cbn. rewrite Nat.add_0_r. reflexivity.
  - cbn [app Privacy.aliasTableFrom length]. rewrite IH. do 3 f_equal. lia.
Qed.

Lemma existsb_eqb_iff (n : string) (l : list string) :
  existsb (String.eqb n) l = true <-> In n l.
Proof.
  rewrite existsb_exists. split.
  - intros (y & Hy & E). apply String.eqb_eq in E. now subst.
  - intros H. exists n. split; [exact H | apply String.eqb_refl].
Qed.

Lemma mapGet_table_None (u : string) (k : nat) (names : list string) :
  ~ In u names -> Privacy.mapGet u (Privacy.aliasTableFrom k names) = None.
Proof.
  revert k. induction names as [|n names IH]; intros k Hn; [reflexivity|].
  cbn [Privacy.aliasTableFrom Privacy.mapGet].
  destruct (String.eqb_spec n u) as [->|_].
  - exfalso. apply Hn. now left.
  - apply IH. intros H. apply Hn. now right.
Qed.

Lemma mapGet_table_Some (u a : string) (k : nat) (names : list string) :
  Privacy.mapGet u (Privacy.aliasTableFrom k names) = Some a -> In u names.
Proof.
  revert k. induction names as [|n names IH]; intros k; [discriminate|].
  cbn [Privacy.aliasTableFrom Privacy.mapGet].
  destruct (String.eqb_spec n u) as [->|_]; [now left|].
  intros H. right. eapply IH. exact H.
Qed.

(** In a table without repeated names, the [i]-th name has the [i]-th
    alias. *)
Lemma mapGet_table_nth (names : list string) :
  forall (k i : nat) (u : string),
    List.NoDup names -> nth_error names i = Some u ->
    Privacy.mapGet u (Privacy.aliasTableFrom k names) =
      Some (Privacy.aliasFor (k + i)).
Proof.
  induction names as [|n names IH]; intros k i u Hnd Hi.
  - destruct i; discriminate.
  - apply NoDup_cons_iff in Hnd. destruct Hnd as [Hnin Hnd].
    cbn [Privacy.aliasTableFrom Privacy.mapGet]. destruct i as [|i].
    + injection Hi as ->. rewrite String.eqb_refl, Nat.add_0_r. reflexivity.
    + cbn [nth_error] in Hi.
      destruct (String.eqb_spec n u) as [->|_].
      * exfalso. apply Hnin. eapply nth_error_In. exact Hi.
      * rewrite (IH (S k) i u Hnd Hi). do 2 f_equal. lia.
Qed.

Lemma firstAppearances_app (seen a b : list string) :
  Privacy.firstAppearances seen (a ++ b) =
  Privacy.firstAppearances seen a ++
  Privacy.firstAppearances (Privacy.keysAfter seen a) b.
Proof.
  unfold Privacy.keysAfter. revert seen.
  induction a as [|n a IH]; intros seen.
  - cbn. rewrite app_nil_r. reflexivity.
  - cbn [app Privacy.firstAppearances].
    destruct (negb (truthy_str n) || existsb (String.eqb n) seen).
    + apply IH.
    + cbn [app]. rewrite IH. f_equal. rewrite <- app_assoc. reflexivity.
Qed.

Lemma keysAfter_app (keys a b : list string) :
  Privacy.keysAfter keys (a ++ b) =
  Privacy.keysAfter (Privacy.keysAfter keys a) b.
Proof.
  unfold Privacy.keysAfter at 1 2. rewrite firstAppearances_app, app_assoc.
  reflexivity.
Qed.

Lemma keysAfter_nil (keys : list string) : Privacy.keysAfter keys [] = keys.
Proof. unfold Privacy.keysAfter. cbn. apply app_nil_r. Qed.

(** Aliases, once given, stay. *)
Lemma known_later (keys more : list string) (u : string) :
  Privacy.known (Privacy.aliasTable keys) u ->
  Privacy.known (Privacy.aliasTable (keys ++ more)) u /\
  Privacy.aliasOf (Privacy.aliasTable (keys ++ more)) u =
  Privacy.aliasOf (Privacy.aliasTable keys) u.
Proof.
  unfold Privacy.known, Privacy.aliasOf, Privacy.aliasTable.
  rewrite aliasTableFrom_app, mapGet_app.
  intros [Hf|(a & Ha)].
  - rewrite Hf. split; [now left | reflexivity].
  - rewrite Ha. split; [right; eauto | reflexivity].
Qed.

End TableFacts.

Section AnonymizerRuns.

Lemma truthy_false_empty (s : string) : truthy_str s = false -> s = "".
Proof. destruct s; [reflexivity | discriminate]. Qed.

Lemma mapGet_table_In (u : string) (k : nat) (names : list string) :
  In u names ->
  exists a, Privacy.mapGet u (Privacy.aliasTableFrom k names) = Some a.
Proof.
  revert k. induction names as [|n names IH]; intros k; [intros []|].
  cbn [Privacy.aliasTableFrom Privacy.mapGet].
  destruct (String.eqb_spec n u) as [->|Hne]; [eauto|].
  intros [H|H]; [contradiction | now apply IH].
Qed.

Lemma NoDup_snoc (keys : list string) (u : string) :
  List.NoDup keys -> ~ In u keys -> List.NoDup (keys ++ [u]).
Proof.
  induction keys as [|k keys IH]; intros Hnd Hnin.
  - constructor; [intros [] | constructor].
  - apply NoDup_cons_iff in Hnd. destruct Hnd as [Hk Hnd].
    cbn [app]. constructor.
    + intros H. apply in_app_or in H. destruct H as [H|[<-|[]]].
      * contradiction.
      * apply Hnin. now left.
    + apply IH; [exact Hnd|]. intros H. apply Hnin. now right.
Qed.

Lemma keysAfter_prefix (keys names : list string) :
  exists more, Privacy.keysAfter keys names = keys ++ more.
Proof. unfold Privacy.keysAfter. eauto. Qed.

(** One call of [anonymize]: the table grows by the name when it is new,
    and the result is the alias of the name under the table. *)
Lemma anonymize_run (u : string) (st st' : Privacy.Anonymizer)
    (keys : list string) (a : string) :
  Privacy.allocated st keys ->
  Privacy.anonymize u st = (a, st') ->
  Privacy.allocated st' (Privacy.keysAfter keys [u]) /\
  a = Privacy.aliasOf (Privacy.mapping st') u /\
  Privacy.known (Privacy.mapping st') u.
Proof.
  intros (Hmap & Hcount & Hnd & Htr).
  unfold Privacy.anonymize, Privacy.keysAfter, Privacy.aliasOf, Privacy.known.
  cbn [Privacy.firstAppearances].
  destruct (truthy_str u) eqn:Hu; cbn [negb orb].
  - rewrite Hmap.
    destruct (Privacy.mapGet u (Privacy.aliasTable keys)) as [alias|] eqn:Hget.
    + intros [= <- <-].
      apply mapGet_table_Some in Hget as Hin.
      apply existsb_eqb_iff in Hin. rewrite Hin, app_nil_r.
      split; [repeat split; assumption|].
      rewrite Hmap, Hget. split; [reflexivity | right; eauto].
    + intros [= <- <-].
      assert (Hnin : ~ In u keys).
      { intros Hin. destruct (mapGet_table_In u 1 keys Hin) as [x Hx].
        unfold Privacy.aliasTable in Hget. congruence. }
      destruct (existsb (String.eqb u) keys) eqn:Hex.
      { apply existsb_eqb_iff in Hex. contradiction. }
      cbn [Privacy.mapping Privacy.counter].
      assert (Htable : Privacy.aliasTable keys ++
                       [(u, Privacy.aliasFor (S (Privacy.counter st)))] =
                       Privacy.aliasTable (keys ++ [u])).
      { unfold Privacy.aliasTable. rewrite aliasTableFrom_app, Hcount.
        reflexivity. }
      split.
      * split; [exact Htable|]. split; [rewrite length_app; cbn; lia|].
        split; [now apply NoDup_snoc|].
        apply Forall_app. split; [exact Htr | constructor; [exact Hu | constructor]].
      * rewrite mapGet_app, Hget. cbn [Privacy.mapGet].
        rewrite String.eqb_refl. split; [reflexivity | right; eauto].
  - intros [= <- <-]. rewrite app_nil_r.
    split; [repeat split; assumption|]. split; [reflexivity | now left].
Qed.

Lemma replaceMention_run (w : string) (st st' : Privacy.Anonymizer)
    (keys : list string) (out : string) :
  Privacy.allocated st keys ->
  Privacy.replaceMention w st = (out, st') ->
  Privacy.allocated st'
    (Privacy.keysAfter keys (if truthy_str w then [w] else [])).
Proof.
  intros Hall. unfold Privacy.replaceMention.
  destruct (truthy_str w).
  - destruct (Privacy.anonymize w st) as [a st1] eqn:E. intros [= _ <-].
    exact (proj1 (anonymize_run _ _ _ _ _ Hall E)).
  - intros [= _ <-]. rewrite keysAfter_nil. exact Hall.
Qed.

Lemma scanMentions_run (s : string) :
  forall (pending : option string) (st st' : Privacy.Anonymizer)
         (keys : list string) (out : string),
    Privacy.allocated st keys ->
    Privacy.scanMentions s pending st = (out, st') ->
    Privacy.allocated st' (Privacy.keysAfter keys (Privacy.mentions s pending)).
Proof.
  induction s as [|c rest IH]; intros pending st st' keys out Hall;
    cbn [Privacy.scanMentions Privacy.mentions].
  - destruct pending as [w|].
    + apply replaceMention_run. exact Hall.
    + intros [= _ <-]. rewrite keysAfter_nil. exact Hall.
  - destruct pending as [w|].
    + destruct (Privacy.isWordChar c).
      * apply IH. exact Hall.
      * destruct (Privacy.replaceMention w st) as [o st1] eqn:Er.
        pose proof (replaceMention_run _ _ _ _ _ Hall Er) as H1.
        rewrite keysAfter_app.
        destruct (Privacy.isAt c).
        -- destruct (Privacy.scanMentions rest (Some "") st1) as [t st2] eqn:Es.
           intros [= _ <-]. eapply IH; eassumption.
        -- destruct (Privacy.scanMentions rest None st1) as [t st2] eqn:Es.
           intros [= _ <-]. eapply IH; eassumption.
    + destruct (Privacy.isAt c).
      * apply IH. exact Hall.
      * destruct (Privacy.scanMentions rest None st) as [t st1] eqn:Es.
        intros [= _ <-]. eapply IH; eassumption.
Qed.

(** *** What [withAliases] does to a text *)

Lemma append_assoc (a b c : string) : (a +:+ b) +:+ c = a +:+ (b +:+ c).
Proof.
  induction a as [|x a IH]; [reflexivity|].
  change (String x ((a +:+ b) +:+ c) = String x (a +:+ (b +:+ c))).
  now f_equal.
Qed.

Lemma append_empty (a : string) : a +:+ "" = a.
Proof.
  induction a as [|x a IH]; [reflexivity|].
  change (String x (a +:+ "") = String x a). now f_equal.
Qed.

(** A text without [@] is kept. *)
Lemma withAliases_plain (m : list (string * string)) (s : string) :
  Privacy.plain s -> Privacy.withAliases m s None = s.
Proof.
  unfold Privacy.plain. induction s as [|c rest IH]; [reflexivity|].
  cbn [list_ascii_of_string Privacy.withAliases]. intros H.
  apply Forall_cons_iff in H. destruct H as [Hc Hrest].
  rewrite Hc. now rewrite IH.
Qed.

(** The word after an [@] up to the first other character is replaced as
    a whole; the scan goes on after it. *)
Lemma withAliases_word (m : list (string * string)) (w : string) :
  forall (read post : string),
    Privacy.word w -> Privacy.wordEnds post ->
    Privacy.withAliases m (w +:+ post) (Some read) =
    Privacy.mentionAs m (read +:+ w) +:+ Privacy.withAliases m post None.
Proof.
  unfold Privacy.word. induction w as [|c w IH]; intros read post Hw Hpost.
  - change ("" +:+ post) with post. rewrite append_empty.
    destruct post as [|c rest]; cbn [Privacy.withAliases].
    + now rewrite append_empty.
    + cbn [Privacy.wordEnds] in Hpost. now rewrite Hpost.
  - cbn [list_ascii_of_string] in Hw. apply Forall_cons_iff in Hw.
    destruct Hw as [Hc Hw].
    change (String c w +:+ post) with (String c (w +:+ post)).
    cbn [Privacy.withAliases]. rewrite Hc.
    rewrite (IH _ _ Hw Hpost). do 2 f_equal.
    rewrite append_assoc. reflexivity.
Qed.

(** Text without [@], then an [@] and a name: the text is kept and the
    name replaced by its alias. *)
Lemma withAliases_mention (m : list (string * string))
    (before name post : string) :
  Privacy.plain before -> Privacy.word name -> truthy_str name = true ->
  Privacy.wordEnds post ->
  Privacy.withAliases m (before +:+ String "@" (name +:+ post)) None =
  before +:+ String "@" (Privacy.aliasOf m name)
  +:+ Privacy.withAliases m post None.
Proof.
  unfold Privacy.plain. intros Hb Hn Ht Hp.
  induction before as [|c rest IH].
  - change ("" +:+ String "@" (name +:+ post))
      with (String "@" (name +:+ post)).
    cbn [Privacy.withAliases]. change (Privacy.isAt "@") with true. cbn iota.
    rewrite (withAliases_word m name "" post Hn Hp).
    change ("" +:+ name) with name.
    unfold Privacy.mentionAs. rewrite Ht. reflexivity.
  - cbn [list_ascii_of_string] in Hb. apply Forall_cons_iff in Hb.
    destruct Hb as [Hc Hb].
    change (String c rest +:+ String "@" (name +:+ post))
      with (String c (rest +:+ String "@" (name +:+ post))).
    cbn [Privacy.withAliases]. rewrite Hc.
    rewrite (IH Hb). reflexivity.
Qed.

(** The replacement carries the alias the word has under the table of
    the call, and under every longer table. *)
Lemma replaceMention_out (w : string) (st st' : Privacy.Anonymizer)
    (keys : list string) (out : string) :
  Privacy.allocated st keys ->
  Privacy.replaceMention w st = (out, st') ->
  forall more,
    out =
    Privacy.mentionAs
      (Privacy.aliasTable
         (Privacy.keysAfter keys (if truthy_str w then [w] else []) ++ more))
      w.
Proof.
  intros Hall. unfold Privacy.replaceMention, Privacy.mentionAs.
  destruct (truthy_str w) eqn:Hw.
  - destruct (Privacy.anonymize w st) as [a st1] eqn:E. intros [= <- <-] more.
    destruct (anonymize_run _ _ _ _ _ Hall E) as ((Hmap & _) & Ha & Hk).
    rewrite Hmap in Ha, Hk.
    destruct (known_later _ more _ Hk) as [_ Heq]. now rewrite Heq, <- Ha.
  - now intros [= <- <-] more.
Qed.

(** The text [scanMentions] returns is the scanned text with its
    mentions replaced by their aliases under the table the scan leaves,
    and under every longer table. *)
Lemma scanMentions_out (s : string) :
  forall (pending : option string) (st st' : Privacy.Anonymizer)
         (keys : list string) (out : string),
    Privacy.allocated st keys ->
    Privacy.scanMentions s pending st = (out, st') ->
    forall more,
      out =
      Privacy.withAliases
        (Privacy.aliasTable
           (Privacy.keysAfter keys (Privacy.mentions s pending) ++ more))
        s pending.
Proof.
  induction s as [|c rest IH]; intros pending st st' keys out Hall;
    cbn [Privacy.scanMentions Privacy.mentions Privacy.withAliases].
  - destruct pending as [w|].
    + apply replaceMention_out. exact Hall.
    + now intros [= <- <-] more.
  - destruct pending as [w|].
    + destruct (Privacy.isWordChar c).
      * apply IH. exact Hall.
      * destruct (Privacy.replaceMention w st) as [o st1] eqn:Er.
        pose proof (replaceMention_run _ _ _ _ _ Hall Er) as Hall1.
        pose proof (replaceMention_out _ _ _ _ _ Hall Er) as Ho.
        set (ws := if truthy_str w then [w] else []) in *.
        set (K1 := Privacy.keysAfter keys ws) in *.
        destruct (Privacy.isAt c).
        -- destruct (Privacy.scanMentions rest (Some "") st1) as [t st2] eqn:Es.
           intros [= <- <-] more. rewrite keysAfter_app. fold K1.
           destruct (keysAfter_prefix K1 (Privacy.mentions rest (Some "")))
             as [more1 Hm1].
           rewrite (IH _ _ _ _ _ Hall1 Es more).
           rewrite (Ho (more1 ++ more)). rewrite Hm1, <- app_assoc.
           reflexivity.
        -- destruct (Privacy.scanMentions rest None st1) as [t st2] eqn:Es.
           intros [= <- <-] more. rewrite keysAfter_app. fold K1.
           destruct (keysAfter_prefix K1 (Privacy.mentions rest None))
             as [more1 Hm1].
           rewrite (IH _ _ _ _ _ Hall1 Es more).
           rewrite (Ho (more1 ++ more)). rewrite Hm1, <- app_assoc.
           reflexivity.
    + destruct (Privacy.isAt c).
      * apply IH. exact Hall.
      * destruct (Privacy.scanMentions rest None st) as [t st1] eqn:Es.
        intros [= <- <-] more. now rewrite (IH _ _ _ _ _ Hall Es more).
Qed.

Context {R RA : Type}.

Lemma anonymizeField_out (c : bool) (field out : option string)
    (st st' : Privacy.Anonymizer) (keys : list string) :
  Privacy.allocated st keys ->
  Privacy.anonymizeField c field st = (out, st') ->
  forall more,
    out =
    Privacy.aliasedField c
      (Privacy.aliasTable
         (Privacy.keysAfter keys (Privacy.handedField c field) ++ more))
      field.
Proof.
  intros Hall.
  unfold Privacy.anonymizeField, Privacy.handedField, Privacy.aliasedField.
  destruct field as [text|]; [|now intros [= <- <-] more].
  destruct (c && truthy_str text) eqn:E; [|now intros [= <- <-] more].
  apply andb_true_iff in E. destruct E as [_ Ht].
  unfold Privacy.anonymizeMentions. rewrite Ht. cbn [negb].
  destruct (Privacy.scanMentions text None st) as [t st1] eqn:Es.
  intros [= <- <-] more. f_equal.
  exact (scanMentions_out _ _ _ _ _ _ Hall Es more).
Qed.

Lemma anonymizeField_run (c : bool) (field out : option string)
    (st st' : Privacy.Anonymizer) (keys : list string) :
  Privacy.allocated st keys ->
  Privacy.anonymizeField c field st = (out, st') ->
  Privacy.allocated st' (Privacy.keysAfter keys (Privacy.handedField c field)).
Proof.
  intros Hall. unfold Privacy.anonymizeField, Privacy.handedField.
  destruct field as [text|].
  - destruct (c && truthy_str text) eqn:E.
    + apply andb_true_iff in E. destruct E as [_ Ht].
      unfold Privacy.anonymizeMentions. rewrite Ht. cbn [negb].
      destruct (Privacy.scanMentions text None st) as [t st1] eqn:Es.
      intros [= _ <-]. eapply scanMentions_run; eassumption.
    + intros [= _ <-]. rewrite keysAfter_nil. exact Hall.
  - intros [= _ <-]. rewrite keysAfter_nil. exact Hall.
Qed.

(** What is settled under a table stays settled when the table grows. *)
Lemma author_later (keys more : list string) (a a1 : Privacy.Author RA) :
  Privacy.anonymizedAuthor (Privacy.aliasTable keys) a a1 ->
  Forall (Privacy.known (Privacy.aliasTable keys)) (Privacy.handedAuthor a) ->
  Privacy.anonymizedAuthor (Privacy.aliasTable (keys ++ more)) a a1 /\
  Forall (Privacy.known (Privacy.aliasTable (keys ++ more)))
    (Privacy.handedAuthor a).
Proof.
  unfold Privacy.anonymizedAuthor, Privacy.handedAuthor.
  intros (Hu & Hg & Hr) Hk.
  apply Forall_cons_iff in Hk. destruct Hk as [Hku Hkg].
  destruct (known_later keys more _ Hku) as [Hku' Heq].
  split.
  - split; [congruence|]. split; [|exact Hr]. rewrite Hg.
    destruct (Privacy.global_name a) as [gn|]; [|reflexivity].
    destruct (truthy_str gn); [|reflexivity].
    apply Forall_cons_iff in Hkg. destruct Hkg as [Hkg _].
    destruct (known_later keys more _ Hkg) as [_ Heq']. congruence.
  - constructor; [exact Hku'|].
    destruct (Privacy.global_name a) as [gn|]; [|constructor].
    destruct (truthy_str gn); [|constructor].
    apply Forall_cons_iff in Hkg. destruct Hkg as [Hkg _].
    constructor; [|constructor]. exact (proj1 (known_later keys more _ Hkg)).
Qed.

Lemma settled_later (keys more : list string) (m m1 : Privacy.Msg R RA) :
  Privacy.settled (Privacy.aliasTable keys) m m1 ->
  Privacy.settled (Privacy.aliasTable (keys ++ more)) m m1.
Proof.
  unfold Privacy.settled, Privacy.anonymizedAs.
  intros ((Ha & Hr) & Hk).
  destruct (Privacy.author m) as [a|], (Privacy.author m1) as [a1|];
    try contradiction.
  - destruct (author_later keys more a a1 Ha Hk) as [H1 H2]. auto.
  - auto.
Qed.

Lemma anonymizeAuthor_run (a a1 : Privacy.Author RA)
    (st st' : Privacy.Anonymizer) (keys : list string) :
  Privacy.allocated st keys ->
  Privacy.anonymizeAuthor a st = (a1, st') ->
  Privacy.allocated st' (Privacy.keysAfter keys (Privacy.handedAuthor a)) /\
  Privacy.anonymizedAuthor (Privacy.mapping st') a a1 /\
  Forall (Privacy.known (Privacy.mapping st')) (Privacy.handedAuthor a).
Proof.
  intros Hall. unfold Privacy.anonymizeAuthor, Privacy.handedAuthor.
  destruct (Privacy.anonymize (Privacy.username a) st) as [u st1] eqn:Eu.
  destruct (anonymize_run _ _ _ _ _ Hall Eu) as (Hall1 & Hu & Hku).
  destruct (Privacy.global_name a) as [gn|] eqn:Eg.
  2:{ intros [= <- <-]. split; [exact Hall1|].
      unfold Privacy.anonymizedAuthor. cbn. rewrite Eg.
      split; [auto|]. constructor; [exact Hku | constructor]. }
  destruct (truthy_str gn) eqn:Et.
  2:{ intros [= <- <-]. split; [exact Hall1|].
      unfold Privacy.anonymizedAuthor. cbn. rewrite Eg, Et.
      split; [auto|]. constructor; [exact Hku | constructor]. }
  destruct (Privacy.anonymize gn st1) as [x st2] eqn:Ex.
  destruct (anonymize_run _ _ _ _ _ Hall1 Ex) as (Hall2 & Hx & Hkx).
  intros [= <- <-].
  change (Privacy.username a :: [gn]) with ([Privacy.username a] ++ [gn]).
  rewrite keysAfter_app. split; [exact Hall2|].
  destruct (keysAfter_prefix (Privacy.keysAfter keys [Privacy.username a]) [gn])
    as [more Hmore].
  destruct Hall1 as (Hm1 & _). destruct Hall2 as (Hm2 & _).
  rewrite Hmore in Hm2. rewrite Hm1 in Hku, Hu.
  destruct (known_later _ more _ Hku) as [Hku' Heq].
  rewrite <- Hm2 in Hku', Heq.
  unfold Privacy.anonymizedAuthor. cbn. rewrite Eg, Et.
  split.
  - split; [congruence|]. split; [congruence | reflexivity].
  - constructor; [exact Hku'|]. constructor; [exact Hkx | constructor].
Qed.

End AnonymizerRuns.

Section AnonymizeMessagesFacts.

Context {R RA : Type}.

Lemma anonymizeMessage_run (c : bool) (m m1 : Privacy.Msg R RA)
    (st st' : Privacy.Anonymizer) (keys : list string) :
  Privacy.allocated st keys ->
  Privacy.anonymizeMessage c m st = (m1, st') ->
  Privacy.allocated st' (Privacy.keysAfter keys (Privacy.handedMessage c m)) /\
  Privacy.settled (Privacy.mapping st') m m1.
Proof.
  intros Hall. unfold Privacy.anonymizeMessage, Privacy.handedMessage.
  set (hs := match Privacy.author m with
             | Some a => Privacy.handedAuthor a
             | None => []
             end).
  (* the author step *)
  assert (Hauthor :
            forall author1 st1,
              match Privacy.author m with
              | Some a =>
                  let '(a1, s) := Privacy.anonymizeAuthor a st in (Some a1, s)
              | None => (None, st)
              end = (author1, st1) ->
              Privacy.allocated st1 (Privacy.keysAfter keys hs) /\
              match Privacy.author m, author1 with
              | Some a, Some a1 =>
                  Privacy.anonymizedAuthor (Privacy.mapping st1) a a1 /\
                  Forall (Privacy.known (Privacy.mapping st1))
                    (Privacy.handedAuthor a)
              | None, None => True
              | _, _ => False
              end).
  { intros author1 st1. unfold hs.
    destruct (Privacy.author m) as [a|].
    - destruct (Privacy.anonymizeAuthor a st) as [a1 s] eqn:Ea.
      intros [= <- <-].
      destruct (anonymizeAuthor_run _ _ _ _ _ Hall Ea) as (H1 & H2 & H3). auto.
    - intros [= <- <-]. rewrite keysAfter_nil. auto. }
  destruct (match Privacy.author m with
            | Some a =>
                let '(a1, s) := Privacy.anonymizeAuthor a st in (Some a1, s)
            | None => (None, st)
            end) as [author1 st1] eqn:E1.
  destruct (Hauthor _ _ eq_refl) as [Hall1 Hrel]. clear Hauthor.
  destruct (Privacy.anonymizeField c (Privacy.content m) st1)
    as [content1 st2] eqn:E2.
  pose proof (anonymizeField_run _ _ _ _ _ _ Hall1 E2) as Hall2.
  destruct (Privacy.anonymizeField c (Privacy.clean_content m) st2)
    as [clean1 st3] eqn:E3.
  pose proof (anonymizeField_run _ _ _ _ _ _ Hall2 E3) as Hall3.
  intros [= <- <-].
  rewrite !keysAfter_app. split; [exact Hall3|].
  (* the table of the author step is a prefix of the final one *)
  destruct (keysAfter_prefix (Privacy.keysAfter keys hs)
              (Privacy.handedField c (Privacy.content m))) as [more1 Hm1].
  destruct (keysAfter_prefix
              (Privacy.keysAfter (Privacy.keysAfter keys hs)
                 (Privacy.handedField c (Privacy.content m)))
              (Privacy.handedField c (Privacy.clean_content m)))
    as [more2 Hm2].
  destruct Hall1 as (Hmap1 & _). destruct Hall3 as (Hmap3 & _).
  rewrite Hm2, Hm1, <- app_assoc in Hmap3.
  rewrite Hmap3. apply settled_later.
  rewrite <- Hmap1. unfold Privacy.settled, Privacy.anonymizedAs.
  cbn [Privacy.author Privacy.rest].
  destruct (Privacy.author m) as [a|], author1 as [a1|]; try contradiction.
  - destruct Hrel as [H1 H2]. auto.
  - auto.
Qed.

Lemma mapMessages_run (c : bool) (messages : list (Privacy.Msg R RA)) :
  forall (st st' : Privacy.Anonymizer) (keys : list string)
         (out : list (Privacy.Msg R RA)),
    Privacy.allocated st keys ->
    Privacy.mapMessages c messages st = (out, st') ->
    Privacy.allocated st' (Privacy.keysAfter keys (Privacy.handed c messages)) /\
    Forall2 (Privacy.settled (Privacy.mapping st')) messages out.
Proof.
  induction messages as [|m ms IH]; intros st st' keys out Hall;
    cbn [Privacy.mapMessages].
  - intros [= <- <-]. cbn. rewrite keysAfter_nil. split; [exact Hall | constructor].
  - destruct (Privacy.anonymizeMessage c m st) as [m1 st1] eqn:Em.
    destruct (anonymizeMessage_run _ _ _ _ _ _ Hall Em) as [Hall1 Hset].
    destruct (Privacy.mapMessages c ms st1) as [outs st2] eqn:Er.
    destruct (IH _ _ _ _ Hall1 Er) as [Hall2 Hrest].
    intros [= <- <-].
    unfold Privacy.handed in *. cbn [flat_map]. rewrite keysAfter_app.
    split; [exact Hall2|]. constructor; [|exact Hrest].
    destruct (keysAfter_prefix
                (Privacy.keysAfter keys (Privacy.handedMessage c m))
                (flat_map (Privacy.handedMessage c) ms)) as [more Hmore].
    destruct Hall1 as (Hm1 & _). destruct Hall2 as (Hm2 & _).
    rewrite Hmore in Hm2. rewrite Hm2. apply settled_later.
    rewrite <- Hm1. exact Hset.
Qed.

(** The texts of the message a call returns carry the aliases of the
    table the call leaves, and of every longer table. *)
Lemma anonymizeMessage_text (c : bool) (m m1 : Privacy.Msg R RA)
    (st st' : Privacy.Anonymizer) (keys : list string) :
  Privacy.allocated st keys ->
  Privacy.anonymizeMessage c m st = (m1, st') ->
  forall more,
    Privacy.anonymizedText c
      (Privacy.aliasTable
         (Privacy.keysAfter keys (Privacy.handedMessage c m) ++ more))
      m m1.
Proof.
  intros Hall. unfold Privacy.anonymizeMessage, Privacy.handedMessage.
  set (hs := match Privacy.author m with
             | Some a => Privacy.handedAuthor a
             | None => []
             end).
  assert (Hauthor :
            forall author1 st1,
              match Privacy.author m with
              | Some a =>
                  let '(a1, s) := Privacy.anonymizeAuthor a st in (Some a1, s)
              | None => (None, st)
              end = (author1, st1) ->
              Privacy.allocated st1 (Privacy.keysAfter keys hs)).
  { intros author1 st1. unfold hs.
    destruct (Privacy.author m) as [a|].
    - destruct (Privacy.anonymizeAuthor a st) as [a1 s] eqn:Ea.
      intros [= <- <-].
      exact (proj1 (anonymizeAuthor_run _ _ _ _ _ Hall Ea)).
    - intros [= <- <-]. now rewrite keysAfter_nil. }
  destruct (match Privacy.author m with
            | Some a =>
                let '(a1, s) := Privacy.anonymizeAuthor a st in (Some a1, s)
            | None => (None, st)
            end) as [author1 st1] eqn:E1.
  pose proof (Hauthor _ _ eq_refl) as Hall1. clear Hauthor.
  destruct (Privacy.anonymizeField c (Privacy.content m) st1)
    as [content1 st2] eqn:E2.
  pose proof (anonymizeField_run _ _ _ _ _ _ Hall1 E2) as Hall2.
  pose proof (anonymizeField_out _ _ _ _ _ _ Hall1 E2) as Hc.
  destruct (Privacy.anonymizeField c (Privacy.clean_content m) st2)
    as [clean1 st3] eqn:E3.
  pose proof (anonymizeField_out _ _ _ _ _ _ Hall2 E3) as Hcc.
  intros [= <- <-] more. rewrite !keysAfter_app.
  set (K1 := Privacy.keysAfter keys hs) in *.
  set (K2 := Privacy.keysAfter K1 (Privacy.handedField c (Privacy.content m)))
    in *.
  destruct (keysAfter_prefix K2
              (Privacy.handedField c (Privacy.clean_content m)))
    as [more2 Hm2].
  unfold Privacy.anonymizedText.
  cbn [Privacy.content Privacy.clean_content].
  split.
  - rewrite (Hc (more2 ++ more)), Hm2, <- app_assoc. reflexivity.
  - exact (Hcc more).
Qed.

Lemma mapMessages_text (c : bool) (messages : list (Privacy.Msg R RA)) :
  forall (st st' : Privacy.Anonymizer) (keys : list string)
         (out : list (Privacy.Msg R RA)),
    Privacy.allocated st keys ->
    Privacy.mapMessages c messages st = (out, st') ->
    forall more,
      Forall2
        (Privacy.anonymizedText c
           (Privacy.aliasTable
              (Privacy.keysAfter keys (Privacy.handed c messages) ++ more)))
        messages out.
Proof.
  induction messages as [|m ms IH]; intros st st' keys out Hall;
    cbn [Privacy.mapMessages].
  - intros [= <- <-] more. constructor.
  - destruct (Privacy.anonymizeMessage c m st) as [m1 st1] eqn:Em.
    destruct (anonymizeMessage_run _ _ _ _ _ _ Hall Em) as [Hall1 _].
    pose proof (anonymizeMessage_text _ _ _ _ _ _ Hall Em) as Htext.
    destruct (Privacy.mapMessages c ms st1) as [outs st2] eqn:Er.
    intros [= <- <-] more.
    unfold Privacy.handed in *. cbn [flat_map]. rewrite keysAfter_app.
    constructor; [|exact (IH _ _ _ _ Hall1 Er more)].
    destruct (keysAfter_prefix
                (Privacy.keysAfter keys (Privacy.handedMessage c m))
                (flat_map (Privacy.handedMessage c) ms)) as [more1 Hmore].
    rewrite Hmore, <- app_assoc. apply Htext.
Qed.

(** The object built from a table without repeated names holds, for
    each name, the alias the table gives it. *)
Lemma fromEntries_lookup (entries : list (string * string)) :
  forall (object : gmap string string) (name : string),
    List.NoDup (map fst entries) ->
    fold_left (fun o entry => <[fst entry := snd entry]> o) entries object
      !! name =
    match Privacy.mapGet name entries with
    | Some a => Some a
    | None => object !! name
    end.
Proof.
  induction entries as [|[k v] rest IH]; intros object name Hnd;
    [reflexivity|].
  cbn [map fst] in Hnd. apply NoDup_cons_iff in Hnd. destruct Hnd as [Hk Hnd].
  cbn [fold_left Privacy.mapGet fst snd]. rewrite (IH _ _ Hnd).
  destruct (String.eqb_spec k name) as [->|Hne].
  - destruct (Privacy.mapGet name rest) as [a|] eqn:E.
    + exfalso. apply Hk. clear -E.
      induction rest as [|[k' v'] rest IH]; [discriminate|].
      cbn [Privacy.mapGet] in E. cbn [map fst].
      destruct (String.eqb_spec k' name) as [->|_]; [now left|].
      right. now apply IH.
    + apply lookup_insert_eq.
  - destruct (Privacy.mapGet name rest); [reflexivity|].
    now apply lookup_insert_ne.
Qed.

Lemma aliasTableFrom_names (k : nat) (names : list string) :
  map fst (Privacy.aliasTableFrom k names) = names.
Proof.
  revert k. induction names as [|n names IH]; intros k; [reflexivity|].
  cbn [Privacy.aliasTableFrom map fst]. now rewrite IH.
Qed.

Lemma in_keysAfter (names : list string) :
  forall (seen : list string) (v : string),
    In v names -> truthy_str v = true ->
    In v (Privacy.keysAfter seen names).
Proof.
  unfold Privacy.keysAfter.
  induction names as [|n names IH]; intros seen v Hin Hv; [destruct Hin|].
  cbn [Privacy.firstAppearances].
  destruct (negb (truthy_str n) || existsb (String.eqb n) seen) eqn:E.
  - destruct Hin as [->|Hin]; [|now apply IH].
    rewrite Hv in E. cbn in E. apply existsb_eqb_iff in E.
    apply in_or_app. now left.
  - destruct Hin as [->|Hin].
    + apply in_or_app. right. now left.
    + specialize (IH (seen ++ [n]) v Hin Hv).
      rewrite <- app_assoc in IH. exact IH.
Qed.

End AnonymizeMessagesFacts.

(** C8.  In one [anonymizeMessages] call, let the names handed to the
    anonymizer be the usernames and global names of the authors and, with
    [anonymizeContent], the words mentioned after an [@] in the contents,
    in call order.  The returned mapping has exactly the non-empty ones
    for own properties and gives them, in order of first appearance, the
    aliases number 1, 2, 3, ..., that is [User_A], [User_B], ...,
    [User_Z], [User_A1], [User_B1], ....  In the output every name is
    replaced by the alias that one mapping gives it: the username and
    global name of every author and, with [anonymizeContent], every
    [@name] in [content] and [clean_content], the rest of the text being
    kept; so equal names get equal aliases.  Different names get
    different aliases. *)
Theorem anonymizeMessages_aliases :
  forall (R RA : Type) (messages : list (Privacy.Msg R RA))
         (anonymizeContent : bool),
    let out := fst (Privacy.anonymizeMessages messages anonymizeContent) in
    let M := snd (Privacy.anonymizeMessages messages anonymizeContent) in
    let calls := Privacy.handed anonymizeContent messages in
    let names := Privacy.firstAppearances [] calls in
    let table := Privacy.aliasTable names in
    (forall u, M !! u = Privacy.mapGet u table) /\
    (forall u, is_Some (M !! u) <-> In u names) /\
    (forall i u, nth_error names i = Some u ->
                 M !! u = Some (Privacy.aliasFor (S i)) /\
                 Privacy.aliasOf table u = Privacy.aliasFor (S i)) /\
    Forall2 (Privacy.anonymizedAs table) messages out /\
    Forall2 (Privacy.anonymizedText anonymizeContent table) messages out /\
    (forall u v, In u calls -> In v calls -> u <> v ->
                 Privacy.aliasOf table u <> Privacy.aliasOf table v).
Proof.
  intros R RA messages c out M calls names table.
  unfold Privacy.anonymizeMessages in out, M.
  destruct (Privacy.mapMessages c messages Privacy.createAnonymizer)
    as [outs st] eqn:Erun.
  assert (Hall0 : Privacy.allocated Privacy.createAnonymizer []).
  { repeat split; constructor. }
  destruct (mapMessages_run c messages _ _ _ _ Hall0 Erun) as [Hall Hset].
  pose proof (mapMessages_text c messages _ _ _ _ Hall0 Erun []) as Htext.
  rewrite app_nil_r in Htext.
  cbn [fst snd] in out, M. subst out M.
  change (Privacy.keysAfter [] (Privacy.handed c messages)) with names
    in Hall, Htext.
  fold table in Htext.
  destruct Hall as (Hmap & _ & Hnd & Htr). fold table in Hmap.
  assert (Hobject : forall u,
             Privacy.getMapping st !! u = Privacy.mapGet u table).
  { intros u. unfold Privacy.getMapping. rewrite Hmap.
    rewrite fromEntries_lookup.
    - destruct (Privacy.mapGet u table); [reflexivity|apply lookup_empty].
    - unfold table, Privacy.aliasTable. now rewrite aliasTableFrom_names. }
  assert (Hnth : forall i u, nth_error names i = Some u ->
                             Privacy.mapGet u table =
                             Some (Privacy.aliasFor (S i))).
  { intros i u Hi. unfold table, Privacy.aliasTable.
    now rewrite (mapGet_table_nth names 1 i u Hnd Hi). }
  assert (Halias : forall i u, nth_error names i = Some u ->
                               Privacy.aliasOf table u =
                               Privacy.aliasFor (S i)).
  { intros i u Hi. unfold Privacy.aliasOf.
    rewrite List.Forall_forall in Htr.
    rewrite (Htr u (nth_error_In _ _ Hi)). cbn [negb].
    now rewrite (Hnth i u Hi). }
  assert (Hfalsy : forall u, truthy_str u = false ->
                             Privacy.aliasOf table u = "User_Unknown").
  { intros u Hu. unfold Privacy.aliasOf. rewrite Hu. reflexivity. }
  assert (Hidx : forall u, In u calls -> truthy_str u = true ->
                           exists i, nth_error names i = Some u).
  { intros u Hin Hu. apply In_nth_error.
    exact (in_keysAfter calls [] u Hin Hu). }
  split; [exact Hobject|]. split; [|split; [|split; [|split]]].
  - intros u. rewrite Hobject. split.
    + intros [a Ha]. unfold table, Privacy.aliasTable in Ha.
      eapply mapGet_table_Some. exact Ha.
    + intros Hin. destruct (mapGet_table_In u 1 names Hin) as [a Ha].
      exists a. exact Ha.
  - intros i u Hi. rewrite Hobject. split; [now apply Hnth|now apply Halias].
  - rewrite <- Hmap. eapply Forall2_impl; [exact Hset|].
    intros m m1 [H _]. exact H.
  - exact Htext.
  - intros u v Hu Hv Hne Heq.
    destruct (truthy_str u) eqn:Tu, (truthy_str v) eqn:Tv.
    + destruct (Hidx u Hu Tu) as [i Hi]. destruct (Hidx v Hv Tv) as [j Hj].
      rewrite (Halias i u Hi), (Halias j v Hj) in Heq.
      apply aliasFor_inj in Heq; [|lia..].
      injection Heq as ->. congruence.
    + destruct (Hidx u Hu Tu) as [i Hi].
      rewrite (Halias i u Hi), (Hfalsy v Tv) in Heq.
      exact (aliasFor_not_unknown _ Heq).
    + destruct (Hidx v Hv Tv) as [j Hj].
      rewrite (Halias j v Hj), (Hfalsy u Tu) in Heq.
      exact (aliasFor_not_unknown _ (eq_sym Heq)).
    + apply truthy_false_empty in Tu, Tv. congruence.
Qed.

(** A message of alice that mentions bob, alice and, inside a mail
    address, [b]: the three names get the first three aliases, wherever
    they occur; an [@] without a word stays. *)
Example anonymizeMessages_mentions :
  let message : Privacy.Msg unit unit :=
    {| Privacy.author :=
         Some {| Privacy.username := "alice"; Privacy.global_name := None;
                 Privacy.author_rest := tt |};
       Privacy.author_id := Some "1234567";
       Privacy.content := Some "hi @bob and @alice, mail a@b.c @";
       Privacy.clean_content := Some "@bob";
       Privacy.rest := tt |} in
  let run := Privacy.anonymizeMessages [message] true in
  map Privacy.content (fst run) =
    [Some "hi @User_B and @User_A, mail a@User_C.c @"] /\
  map Privacy.clean_content (fst run) = [Some "@User_B"] /\
  map Privacy.author_id (fst run) = [Some "anon_4567"] /\
  map (fun name => snd run !! name) ["alice"; "bob"; "b"; "carol"] =
    [Some "User_A"; Some "User_B"; Some "User_C"; None].
Proof. vm_compute. repeat split. Qed.

(** ** The filter stage (ai/stages/filter.js) *)

Section BatchContents.

Context {Message : Type}.
Variable stringify : Message -> string.

(** Whatever the caps, the batches laid end to end are the input. *)
Lemma createBatchesWith_concat (maxT maxM : Z) (messages : list Message) :
  concat (Tokens.createBatchesWith stringify maxT maxM messages) = messages.
Proof.
  unfold Tokens.createBatchesWith.
  set (st0 := {| Tokens.batches := []; Tokens.currentBatch := [];
                 Tokens.currentTokens := 0 |}).
  assert (Hfold : forall ms st,
             Tokens.batch_contents
               (fold_left (Tokens.batchStep stringify maxT maxM) ms st) =
             Tokens.batch_contents st ++ ms).
  { induction ms as [|m ms IH]; intros st; cbn [fold_left].
    - now rewrite app_nil_r.
    - rewrite IH, batchStep_contents, <- app_assoc. reflexivity. }
  assert (Hfin : forall st : @Tokens.BatchState Message,
             concat (Tokens.batchFinish st) = Tokens.batch_contents st).
  { intros st. unfold Tokens.batchFinish, Tokens.batch_contents.
    destruct (Tokens.currentBatch st) as [|x xs]; cbn [length Nat.ltb Nat.leb].
    - now rewrite app_nil_r.
    - rewrite concat_app. cbn. now rewrite app_nil_r. }
  rewrite Hfin, Hfold. reflexivity.
Qed.

End BatchContents.

Section SelectionFacts.

Lemma insertSorted_In {A} (leb : A -> A -> bool) (x y : A) (l : list A) :
  In y (insertSorted leb x l) -> y = x \/ In y l.
Proof.
  induction l as [|z l IH]; cbn [insertSorted].
  - intros [<-|[]]. now left.
  - destruct (leb x z).
    + intros [<-|H]; [now left | now right].
    + intros [<-|H]; [right; now left|].
      destruct (IH H) as [->|H']; [now left | right; now right].
Qed.

Lemma stableSort_In {A} (leb : A -> A -> bool) (y : A) (l : list A) :
  In y (stableSort leb l) -> In y l.
Proof.
  unfold stableSort. induction l as [|x l IH]; cbn [fold_right]; [auto|].
  intros H. apply insertSorted_In in H. destruct H as [->|H]; [now left|].
  right. now apply IH.
Qed.

Lemma firstn_In {A} (n : nat) (y : A) (l : list A) :
  In y (firstn n l) -> In y l.
Proof.
  revert l. induction n as [|n IH]; intros l; [intros []|].
  destruct l as [|x l]; cbn [firstn]; [intros []|].
  intros [<-|H]; [now left | right; now apply IH].
Qed.

Lemma sqlLimit_In {A} (n : Z) (y : A) (l : list A) :
  In y (Store.sqlLimit n l) -> In y l.
Proof.
  unfold Store.sqlLimit. destruct (n <? 0); [auto | apply firstn_In].
Qed.

(** The query returns only messages without a row for the stage. *)
Lemma getUnprocessedMessages_unprocessed (db : Store.DB) (stage : string)
    (options : Store.QueryOptions) (r : Store.Message.row) :
  In r (Store.getUnprocessedMessages db stage options) ->
  In r (Store.messages db) /\
  Store.ai_processing db !! ("message", Store.messageId r, stage) = None.
Proof.
  unfold Store.getUnprocessedMessages. intros H.
  assert (Hf : In r (List.filter (Store.unprocessedWhere db stage options)
                       (Store.messages db))).
  { apply (stableSort_In Store.byTimestamp).
    destruct (Store.limit options) as [n|]; [|exact H].
    destruct (truthy_Z n); [|exact H]. eapply sqlLimit_In. exact H. }
  apply filter_In in Hf. destruct Hf as [Hin Hw]. split; [exact Hin|].
  unfold Store.unprocessedWhere in Hw.
  rewrite !andb_true_iff in Hw. destruct Hw as [[[Hw _] _] _].
  unfold Store.has_key, Store.messageId in *.
  destruct (Store.ai_processing db !! _); [discriminate | reflexivity].
Qed.

End SelectionFacts.

Section StageFacts.

Variable config : Config.t.
Variable llm : nat -> string -> Result Filter.LlmResponse.
Variable random : nat -> Q.
Variable JSON_parse : string -> option json.
Variable stringifyMessage : Filter.Enriched -> string.
Variable stringifyBatch : list Filter.Enriched -> string.
Variable stringifyPretty : list Filter.Enriched -> string.
Variable stringifyJson : json -> string.
Variable buildPrompt : string -> string.

Let processBatch :=
  Filter.processBatch config llm random JSON_parse stringifyPretty
    stringifyJson buildPrompt.
Let batchLoop :=
  Filter.batchLoop config llm random JSON_parse stringifyPretty
    stringifyJson buildPrompt.

(** Anonymization keeps the id of every message. *)
Lemma mapMessages_ids (c : bool) (messages : list Filter.Enriched) :
  forall st out st',
    Privacy.mapMessages c messages st = (out, st') ->
    map Filter.idOf out = map Filter.idOf messages.
Proof.
  induction messages as [|m ms IH]; intros st out st';
    cbn [Privacy.mapMessages].
  - now intros [= <- _].
  - destruct (Privacy.anonymizeMessage c m st) as [m1 st1] eqn:Em.
    destruct (Privacy.mapMessages c ms st1) as [outs st2] eqn:Er.
    intros [= <- _]. cbn [map]. rewrite (IH _ _ _ Er). f_equal.
    unfold Privacy.anonymizeMessage in Em.
    destruct (match Privacy.author m with Some _ => _ | None => _ end).
    destruct (Privacy.anonymizeField c (Privacy.content m) _).
    destruct (Privacy.anonymizeField c (Privacy.clean_content m) _).
    injection Em as <- _. reflexivity.
Qed.

Lemma processBatch_prompted (st : Filter.State) (i : Z)
    (b : list Filter.Enriched) :
  exists p,
    Filter.prompted (processBatch st i b) =
      Filter.prompted st ++ [p] /\
    map Filter.idOf (Filter.sent p) = map Filter.idOf b.
Proof.
  unfold processBatch, Filter.processBatch.
  destruct (Filter.processWithAI _ _ _ _ _ _) as [out evs].
  destruct (match match out with
                  | Retry.Returned _ => _
                  | Retry.Thrown _ => _
                  | Retry.FellThrough => _
                  end with Ok _ => _ | Throw _ => _ end) as [db1 res1].
  eexists. cbn [Filter.prompted]. split; [reflexivity|].
  cbn [Filter.sent].
  destruct (Config.privacy_anonymizeInPrompts config); [|reflexivity].
  unfold Privacy.anonymizeMessages.
  destruct (Privacy.mapMessages false b Privacy.createAnonymizer)
    as [ms st1] eqn:E.
  cbn [fst]. eapply mapMessages_ids. exact E.
Qed.

(** The batches handed to the driver carry the ids of the batches, in
    order. *)
Lemma batchLoop_prompted (bs : list (list Filter.Enriched)) :
  forall (st : Filter.State) (i : Z),
    map (fun p => map Filter.idOf (Filter.sent p))
      (Filter.prompted (batchLoop st i bs)) =
    map (fun p => map Filter.idOf (Filter.sent p)) (Filter.prompted st)
    ++ map (map Filter.idOf) bs.
Proof.
  induction bs as [|b bs IH]; intros st i; cbn [Filter.batchLoop map].
  - now rewrite app_nil_r.
  - unfold batchLoop. cbn [Filter.batchLoop]. fold batchLoop. fold processBatch.
    rewrite IH.
    destruct (processBatch_prompted st i b) as (p & Hp & Hids).
    rewrite Hp, map_app. cbn [map]. rewrite Hids, <- app_assoc. reflexivity.
Qed.

End StageFacts.

(** C10.  [runFilterStage] never reads [force]: with the same store and the
    same outside world, any two values of [force] give the same candidates,
    the same result, the same final store and the same batches handed to
    the driver.  The candidates are messages with no filter row, and every
    message in a batch handed to the driver is one of them: a message that
    already has a filter row is not sent again. *)
Theorem runFilterStage_force_no_effect :
  forall (config : Config.t)
         (llm : nat -> string -> Result Filter.LlmResponse)
         (random : nat -> Q) (JSON_parse : string -> option json)
         (stringifyMessage : Filter.Enriched -> string)
         (stringifyBatch stringifyPretty : list Filter.Enriched -> string)
         (stringifyJson : json -> string) (buildPrompt : string -> string)
         (db : Store.DB) (options : Filter.Options) (f1 f2 : option bool),
    let run f :=
      Filter.runFilterStage config llm random JSON_parse stringifyMessage
        stringifyBatch stringifyPretty stringifyJson buildPrompt db
        (Filter.withForce options f) in
    run f1 = run f2 /\
    Filter.candidates db (Filter.withForce options f1) =
      Filter.candidates db (Filter.withForce options f2) /\
    (forall r, In r (Filter.candidates db (Filter.withForce options f1)) ->
               ~ Filter.filtered db (Store.messageId r)) /\
    (forall p m, In p (snd (run f1)) -> In m (Filter.sent p) ->
                 ~ Filter.filtered db (Filter.idOf m)).
Proof.
  intros config llm random JSON_parse stringifyMessage stringifyBatch
         stringifyPretty stringifyJson buildPrompt db options f1 f2 run.
  assert (Hcand : forall r,
             In r (Filter.candidates db (Filter.withForce options f1)) ->
             ~ Filter.filtered db (Store.messageId r)).
  { intros r Hr [row Hrow]. unfold Filter.candidates in Hr.
    apply getUnprocessedMessages_unprocessed in Hr. destruct Hr as [_ Hnone].
    congruence. }
  split; [reflexivity|]. split; [reflexivity|]. split; [exact Hcand|].
  intros p m Hp Hm.
  unfold run, Filter.runFilterStage in Hp.
  destruct (length (Filter.candidates db (Filter.withForce options f1)) =? 0)%nat;
    [destruct Hp|].
  destruct (default false (Filter.dryRun (Filter.withForce options f1)));
    [destruct Hp|].
  cbn [snd] in Hp.
  set (bs := Filter.batchesFor config stringifyMessage db
               (Filter.withForce options f1)) in Hp.
  pose proof (batchLoop_prompted config llm random JSON_parse stringifyPretty
                stringifyJson buildPrompt bs
                {| Filter.db := db; Filter.results := Filter.results0;
                   Filter.usage := Filter.usage0; Filter.requestsMade := 0;
                   Filter.prompted := [] |} 0) as Hids.
  cbn [Filter.prompted map app] in Hids.
  assert (Hin : In (map Filter.idOf (Filter.sent p)) (map (map Filter.idOf) bs)).
  { rewrite <- Hids. apply in_map_iff. exists p. split; [reflexivity | exact Hp]. }
  apply in_map_iff in Hin. destruct Hin as (b & Hb & Hbin).
  assert (Hid : In (Filter.idOf m) (map Filter.idOf b)).
  { rewrite Hb. apply in_map. exact Hm. }
  apply in_map_iff in Hid. destruct Hid as (m' & Hm' & Hm'in).
  assert (Hsrc : In m' (map (Filter.enrich db)
                          (Filter.candidates db (Filter.withForce options f1)))).
  { rewrite <- (createBatchesWith_concat stringifyMessage
                  (Config.ai_maxTokensPerBatch config)
                  (Config.ai_batchSize config)).
    apply in_concat. exists b. split; [exact Hbin | exact Hm'in]. }
  apply in_map_iff in Hsrc. destruct Hsrc as (r & Hr & Hrin).
  rewrite <- Hm', <- Hr. exact (Hcand r Hrin).
Qed.

(** ** The scenarios of the specification, run on the model *)

(** S2, filter half: three messages, the stub keeps 1 and 3. *)
Example filter_three_messages :
  fst (fst Pipeline.firstRun) =
    Filter.Ran
      {| Filter.processed := 3; Filter.kept := 2; Filter.discarded := 1;
         Filter.errors := [] |}
      {| Filter.calls := 1; Filter.inputTokens := 120;
         Filter.outputTokens := 30 |} /\
  map (fun i => Store.has_key (Store.ai_processing (snd (fst Pipeline.firstRun)))
                  ("message", i, "filter")) ["1"; "2"; "3"] =
    [true; true; true].
Proof. vm_compute. split; reflexivity. Qed.

(** A forced second run finds nothing to do: the filtered messages are not
    candidates again. *)
Example forced_rerun_sends_nothing :
  fst (fst Pipeline.forcedRerun) = Filter.NothingToDo Filter.usage0 /\
  snd Pipeline.forcedRerun = [].
Proof. vm_compute. split; reflexivity. Qed.

(** S5: with an endpoint that always answers 429 the one batch is sent
    [retryAttempts] times and ends in the error list. *)
Example filter_retry_exhaustion :
  map Filter.requestCount (snd Pipeline.throttled) = [3%nat] /\
  fst (fst Pipeline.throttled) =
    Filter.Ran
      {| Filter.processed := 0; Filter.kept := 0; Filter.discarded := 0;
         Filter.errors :=
           [{| Filter.batch := 1; Filter.error := "429 Too Many Requests";
               Filter.messageIds := ["1"; "2"; "3"] |}] |}
      Filter.usage0.
Proof. vm_compute. split; reflexivity. Qed.

(** S6: with anonymization on, the batch sent carries [User_A] for alice
    and the original message ids. *)
Example filter_prompt_is_anonymized :
  map (fun p => map (fun m => (Filter.idOf m,
                               Privacy.username <$> Privacy.author m))
                 (Filter.sent p))
      (snd Pipeline.firstRun) =
  [[("1", Some "User_A"); ("2", Some "User_A"); ("3", Some "User_A")]].
Proof. vm_compute. reflexivity. Qed.

(** S1, second half: the next incremental pass fetches only message 400 and
    moves the cursor to it. *)
Example second_pass_cursor :
  snd Later.scraped = Scrape.Scraped 1 /\
  cursorOf (fst Later.scraped) "c1" = Some (Some "400") /\
  map Store.messageId (Store.messages (fst Later.scraped)) =
    ["300"; "200"; "100"; "400"].
Proof. vm_compute. repeat split; reflexivity. Qed.

(* ===================================================================== *)
(** * Further properties of the code *)
(* ===================================================================== *)

(** ** Token estimates and batch counts *)

Section TokenFacts.

Context {Message : Type}.
Variable stringify : Message -> string.

Lemma batchStep_nonpositive (maxT maxM : Z) (st : Tokens.BatchState)
    (m : Message) :
  maxM <= 0 ->
  Tokens.batchStep stringify maxT maxM st m =
  {| Tokens.batches := Tokens.batches st ++ [Tokens.currentBatch st];
     Tokens.currentBatch := [m];
     Tokens.currentTokens := Tokens.messageTokens stringify m |}.
Proof.
  intros H. unfold Tokens.batchStep, Tokens.limitsExceeded.
  replace (Z.of_nat (length (Tokens.currentBatch st)) >=? maxM) with true
    by (symmetry; apply Z.geb_le; lia).
  rewrite orb_true_r. reflexivity.
Qed.

Lemma fold_batchStep_nonpositive (maxT maxM : Z) (messages : list Message) :
  maxM <= 0 ->
  forall (m : Message) (st : Tokens.BatchState),
    Tokens.batchFinish
      (fold_left (Tokens.batchStep stringify maxT maxM) (m :: messages) st) =
    Tokens.batches st ++ [Tokens.currentBatch st]
    ++ map (fun x => [x]) (m :: messages).
Proof.
  intros H. induction messages as [|m' more IH]; intros m st.
  - cbn [fold_left]. rewrite batchStep_nonpositive by exact H.
    unfold Tokens.batchFinish. cbn. now rewrite <- app_assoc.
  - change (fold_left (Tokens.batchStep stringify maxT maxM) (m :: m' :: more) st)
      with (fold_left (Tokens.batchStep stringify maxT maxM) (m' :: more)
              (Tokens.batchStep stringify maxT maxM st m)).
    rewrite IH, batchStep_nonpositive by exact H.
    cbn [Tokens.batches Tokens.currentBatch map].
    rewrite <- !app_assoc. reflexivity.
Qed.

Lemma batches_count (maxT maxM : Z) (bs : list (list Message)) :
  Forall (Tokens.batch_ok stringify maxT maxM) bs ->
  (length bs <= length (concat bs))%nat /\
  Z.of_nat (length (concat bs)) <= maxM * Z.of_nat (length bs).
Proof.
  induction 1 as [|b bs [Hne [Hlen _]] _ [IH1 IH2]]; cbn [concat length].
  - lia.
  - rewrite length_app. destruct b as [|x b]; [congruence|].
    cbn [length] in *. lia.
Qed.

End TokenFacts.

(** [estimateTokens] is the ceiling of a quarter of the length in UTF-16
    units, and zero for the empty text. *)
Lemma estimateTokens_ceiling :
  forall text : string,
    let t := Tokens.estimateTokens text in
    (jsLength text <= 4 * t)%nat /\ (4 * t < jsLength text + 4)%nat.
Proof.
  intros text. unfold Tokens.estimateTokens.
  destruct text as [|c rest]; [cbn; lia|]. cbn [truthy_str].
  set (n := jsLength (String c rest)).
  pose proof (Nat.div_mod_eq (n + 3) 4) as E.
  pose proof (Nat.mod_upper_bound (n + 3) 4 ltac:(lia)) as U.
  lia.
Qed.

(** X1.  With a message cap of zero or less, [createBatches] on a
    non-empty input first emits an empty batch and then puts every
    message in a batch of its own. *)
Theorem createBatches_nonpositive_cap :
  forall (Message : Type) (stringify : Message -> string) (config : Config.t)
         (messages : list Message) (options : Tokens.BatchOptions),
    default (Config.ai_batchSize config) (Tokens.maxMessages options) <= 0 ->
    messages <> [] ->
    Tokens.createBatches stringify config messages options =
    [] :: map (fun m => [m]) messages.
Proof.
  intros Message stringify config messages options H Hne.
  destruct messages as [|m more]; [congruence|].
  unfold Tokens.createBatches, Tokens.createBatchesWith.
  rewrite fold_batchStep_nonpositive by exact H. reflexivity.
Qed.

Lemma createBatches_nonpositive_cap_witness :
  Tokens.createBatches (fun s : string => s) Fixtures.config
    ["aaaa"; "bbbbbbbb"] Edge.noMessages =
  [[]; ["aaaa"]; ["bbbbbbbb"]].
Proof.
  apply (createBatches_nonpositive_cap string (fun s => s) Fixtures.config
           ["aaaa"; "bbbbbbbb"] Edge.noMessages).
  - vm_compute. discriminate.
  - discriminate.
Defined.

(** X2.  With a positive message cap, [createBatches] emits no more
    batches than there are messages, and enough of them to hold every
    message under the cap. *)
Theorem createBatches_count :
  forall (Message : Type) (stringify : Message -> string) (config : Config.t)
         (messages : list Message) (options : Tokens.BatchOptions),
    let maxM :=
      default (Config.ai_batchSize config) (Tokens.maxMessages options) in
    let batches := Tokens.createBatches stringify config messages options in
    0 < maxM ->
    (length batches <= length messages)%nat /\
    Z.of_nat (length messages) <= maxM * Z.of_nat (length batches) /\
    Forall (fun b => b <> []) batches.
Proof.
  intros Message stringify config messages options maxM batches H.
  subst batches. unfold Tokens.createBatches. fold maxM.
  set (maxT := default (Config.ai_maxTokensPerBatch config)
                 (Tokens.maxTokens options)).
  destruct (createBatchesWith_ok stringify maxT maxM messages H) as [Hok Hcat].
  pose proof (batches_count stringify maxT maxM _ Hok) as [H1 H2].
  rewrite Hcat in H1, H2. repeat split; try assumption.
  eapply List.Forall_impl; [|exact Hok]. now intros b [Hb _].
Qed.

Lemma createBatches_count_witness :
  (length (Tokens.createBatches (fun s : string => s) Fixtures.config
             ["aaaa"; "bbbbbbbb"; "c"]
             {| Tokens.maxTokens := Some 3%Z;
                Tokens.maxMessages := Some 2%Z |})
   <= 3)%nat.
Proof.
  apply (createBatches_count string (fun s => s) Fixtures.config
           ["aaaa"; "bbbbbbbb"; "c"]
           {| Tokens.maxTokens := Some 3; Tokens.maxMessages := Some 2 |}).
  vm_compute. reflexivity.
Defined.

(** ** The retry driver on arbitrary endpoints *)

Section RetryRuns.

Local Open Scope Q_scope.

Lemma Qminimum_le_r (a b : Q) : Retry.Qminimum a b <= b.
Proof.
  unfold Retry.Qminimum. destruct (Qle_bool a b) eqn:E.
  - now apply Qle_bool_iff.
  - apply Qle_refl.
Qed.

Lemma requests_retry (ms : Z) (evs : list Retry.Event) :
  Retry.requests (Retry.Request :: Retry.Sleep ms :: evs) =
  S (Retry.requests evs).
Proof. reflexivity. Qed.

Lemma sleeps_retry (ms : Z) (evs : list Retry.Event) :
  Retry.sleeps (Retry.Request :: Retry.Sleep ms :: evs) =
  ms :: Retry.sleeps evs.
Proof. reflexivity. Qed.

Context {A : Type}.
Variable fn : nat -> Result A.
Variable random : nat -> Q.
Variables (maxR : Z) (baseD mult maxD : Q).

Let loop := Retry.attemptLoop fn random maxR baseD mult maxD.

(** The call at which the loop stops: the first one that returns, that
    throws an error not worth retrying, or that is the last attempt. *)
Lemma attemptLoop_settles (n : nat) :
  forall (a k base : nat),
    (Z.of_nat (a + k) <= maxR)%Z -> (k < n)%nat ->
    (forall j, (j < k)%nat ->
               exists e, fn (base + j)%nat = Throw e /\
                         Retry.isRetryable e = true) ->
    (Z.of_nat (a + k) = maxR \/
     match fn (base + k)%nat with
     | Ok _ => True
     | Throw e => Retry.isRetryable e = false
     end) ->
    let '(out, evs) := loop (map (fun i => Z.of_nat i) (seq a n)) base in
    out = match fn (base + k)%nat with
          | Ok v => Retry.Returned v
          | Throw e => Retry.Thrown e
          end /\
    Retry.requests evs = S k /\
    length (Retry.sleeps evs) = k.
Proof.
  induction n as [|n IH]; intros a k base Hle Hk Hbefore Hstop; [lia|].
  cbn [seq map]. unfold loop. cbn [Retry.attemptLoop]. fold loop.
  destruct k as [|k].
  - replace (base + 0)%nat with base in * by lia.
    replace (a + 0)%nat with a in * by lia.
    destruct (fn base) as [e|v] eqn:E; [|now repeat split].
    destruct Hstop as [Hlast|Hno].
    + replace (Z.of_nat a =? maxR)%Z with true
        by (symmetry; now apply Z.eqb_eq).
      rewrite orb_true_r. now repeat split.
    + rewrite Hno. now repeat split.
  - destruct (Hbefore 0%nat ltac:(lia)) as (e & E & He).
    rewrite Nat.add_0_r in E. rewrite E, He.
    replace (Z.of_nat a =? maxR)%Z with false
      by (symmetry; apply Z.eqb_neq; lia).
    cbn [negb orb].
    specialize (IH (S a) k (S base)).
    destruct (loop (map (fun i => Z.of_nat i) (seq (S a) n)) (S base))
      as [out evs].
    replace (S base + k)%nat with (base + S k)%nat in IH by lia.
    destruct IH as (Hout & Hreq & Hsl).
    + lia.
    + lia.
    + intros j Hj. replace (S base + j)%nat with (base + S j)%nat by lia.
      apply Hbefore. lia.
    + replace (S a + k)%nat with (a + S k)%nat by lia. exact Hstop.
    + rewrite requests_retry, sleeps_retry. cbn [length].
      repeat split; [exact Hout|congruence..].
Qed.

(** Whatever the wrapped function does, a loop with attempts left makes a
    request, pauses between requests only, and stops by the last
    attempt. *)
Lemma attemptLoop_budget (n : nat) :
  forall (a k : nat),
    Z.of_nat (a + n) = maxR ->
    let '(out, evs) := loop (map (fun i => Z.of_nat i) (seq a (S n))) k in
    out <> Retry.FellThrough /\
    (1 <= Retry.requests evs <= S n)%nat /\
    S (length (Retry.sleeps evs)) = Retry.requests evs.
Proof.
  induction n as [|n IH]; intros a k Ha.
  - cbn [seq map]. unfold loop. cbn [Retry.attemptLoop].
    rewrite Nat.add_0_r in Ha.
    destruct (fn k) as [e|v]; [|repeat split; [discriminate|cbn; lia..]].
    replace (Z.of_nat a =? maxR)%Z with true by (symmetry; now apply Z.eqb_eq).
    rewrite orb_true_r. repeat split; [discriminate|cbn; lia..].
  - change (seq a (S (S n))) with (a :: seq (S a) (S n)).
    cbn [map]. unfold loop. cbn [Retry.attemptLoop]. fold loop.
    destruct (fn k) as [e|v]; [|repeat split; [discriminate|cbn; lia..]].
    destruct (negb (Retry.isRetryable e) || (Z.of_nat a =? maxR)%Z);
      [repeat split; [discriminate|cbn; lia..]|].
    specialize (IH (S a) (S k) ltac:(lia)).
    destruct (loop (map (fun i => Z.of_nat i) (seq (S a) (S n))) (S k))
      as [out evs].
    destruct IH as (Hout & Hreq & Hsl).
    rewrite requests_retry, sleeps_retry. cbn [length].
    repeat split; [exact Hout|lia..].
Qed.

(** Every pause is one of the delays the loop computes. *)
Lemma attemptLoop_sleeps (P : Z -> Prop) :
  (forall attempt k,
      P (Retry.totalDelay (Retry.backoffDelay baseD mult maxD attempt)
           (random k))) ->
  forall attempts k, Forall P (Retry.sleeps (snd (loop attempts k))).
Proof.
  intros HP. induction attempts as [|attempt rest IH]; intros k.
  - constructor.
  - unfold loop. cbn [Retry.attemptLoop]. fold loop.
    destruct (fn k) as [e|v]; [|constructor].
    destruct (negb (Retry.isRetryable e) || (attempt =? maxR)%Z);
      [constructor|].
    specialize (IH (S k)). destruct (loop rest (S k)) as [out evs].
    cbn [snd] in *. rewrite sleeps_retry. constructor; [apply HP|exact IH].
Qed.

End RetryRuns.

(** X3.  [processWithRetry] ends at the first call that returns, that
    throws an error that is not retryable, or that is the
    [maxRetries]-th: its outcome is the outcome of that call, after one
    request per call and one pause before each retry. *)
Theorem processWithRetry_settles :
  forall (A : Type) (config : Config.t) (fn : nat -> Result A)
         (random : nat -> Q) (options : Retry.RetryOptions) (k : nat),
    let maxR :=
      default (Config.ai_retryAttempts config) (Retry.maxRetries options) in
    let run := Retry.processWithRetry config fn random options in
    Z.of_nat (S k) <= maxR ->
    (forall j, (j < k)%nat ->
               exists e, fn j = Throw e /\ Retry.isRetryable e = true) ->
    (Z.of_nat (S k) = maxR \/
     match fn k with
     | Ok _ => True
     | Throw e => Retry.isRetryable e = false
     end) ->
    fst run = match fn k with
              | Ok v => Retry.Returned v
              | Throw e => Retry.Thrown e
              end /\
    Retry.requests (snd run) = S k /\
    length (Retry.sleeps (snd run)) = k.
Proof.
  intros A config fn random options k maxR run Hle Hbefore Hstop.
  subst run. unfold Retry.processWithRetry. fold maxR.
  unfold Retry.attemptRange.
  match goal with
  | |- context [Retry.attemptLoop fn random maxR ?b ?m ?d _ _] =>
      pose proof (attemptLoop_settles fn random maxR b m d
                    (Z.to_nat maxR) 1 k 0) as H
  end.
  cbn [Nat.add] in H.
  destruct (Retry.attemptLoop _ _ _ _ _ _ _ _) as [out evs].
  apply H; try assumption; lia.
Qed.

Lemma processWithRetry_settles_witness :
  fst (Retry.processWithRetry Fixtures.config Edge.thirdTimeLucky
         (fun _ => 1 # 2) Retry.noOptions) = Retry.Returned "done" /\
  Retry.requests
    (snd (Retry.processWithRetry Fixtures.config Edge.thirdTimeLucky
            (fun _ => 1 # 2) Retry.noOptions)) = 3%nat /\
  length
    (Retry.sleeps
       (snd (Retry.processWithRetry Fixtures.config Edge.thirdTimeLucky
               (fun _ => 1 # 2) Retry.noOptions))) = 2%nat.
Proof.
  apply (processWithRetry_settles string Fixtures.config Edge.thirdTimeLucky
           (fun _ => 1 # 2) Retry.noOptions 2).
  - vm_compute. discriminate.
  - intros j Hj. exists Fixtures.tooManyRequests.
    destruct j as [|[|j]]; [split; reflexivity..|lia].
  - left. reflexivity.
Defined.

(** X4.  Whatever the wrapped function does, [processWithRetry] makes at
    most [maxRetries] requests.  With [maxRetries] zero or less it never
    calls the wrapped function: the loop body does not run and the
    result is [undefined].  With at least one attempt allowed it returns
    or rethrows, makes at least one request, and pauses exactly once
    between two consecutive requests. *)
Theorem processWithRetry_budget :
  forall (A : Type) (config : Config.t) (fn : nat -> Result A)
         (random : nat -> Q) (options : Retry.RetryOptions),
    let maxR :=
      default (Config.ai_retryAttempts config) (Retry.maxRetries options) in
    let run := Retry.processWithRetry config fn random options in
    (Retry.requests (snd run) <= Z.to_nat maxR)%nat /\
    (maxR <= 0 -> run = (Retry.FellThrough, [])) /\
    (1 <= maxR ->
     (exists v, fst run = Retry.Returned v) \/
     (exists e, fst run = Retry.Thrown e)) /\
    (1 <= maxR ->
     (1 <= Retry.requests (snd run))%nat /\
     S (length (Retry.sleeps (snd run))) = Retry.requests (snd run)).
Proof.
  intros A config fn random options maxR run.
  subst run. unfold Retry.processWithRetry. fold maxR.
  unfold Retry.attemptRange.
  destruct (Z.to_nat maxR) as [|n] eqn:En.
  - cbn [seq map Retry.attemptLoop snd fst Retry.requests List.filter length].
    split; [lia|]. split; [reflexivity|]. split; intros H; lia.
  - match goal with
    | |- context [Retry.attemptLoop fn random maxR ?b ?m ?d _ _] =>
        pose proof (attemptLoop_budget fn random maxR b m d n 1 0
                      ltac:(lia)) as Hb
    end.
    destruct (Retry.attemptLoop _ _ _ _ _ _ _ _) as [out evs].
    cbn [fst snd]. destruct Hb as (Hout & Hreq & Hsl).
    split; [lia|]. split; [intros H; lia|]. split; intros _.
    + destruct out; [left|right|congruence]; eauto.
    + split; [lia|exact Hsl].
Qed.

(** X5.  With a non-negative base delay and multiplier and no [maxDelay]
    option, no pause of [processWithRetry] is negative or longer than
    33 seconds (the 30-second cap plus a tenth of jitter), whatever the
    wrapped function does. *)
Theorem processWithRetry_pause_cap :
  forall (A : Type) (config : Config.t) (fn : nat -> Result A)
         (random : nat -> Q) (options : Retry.RetryOptions),
    let B := default (Config.ai_retryDelayMs config) (Retry.baseDelay options) in
    let M :=
      default (Config.scraper_backoffMultiplier config)
        (Retry.backoffMultiplier options) in
    (0 <= B)%Q -> (0 <= M)%Q ->
    Retry.maxDelay options = None ->
    (forall k, (0 <= random k)%Q /\ (random k < 1)%Q) ->
    Forall (fun ms => 0 <= ms <= 33000)
      (Retry.sleeps (snd (Retry.processWithRetry config fn random options))).
Proof.
  intros A config fn random options B M HB HM Hcap Hrand.
  unfold Retry.processWithRetry. rewrite Hcap. cbn [default]. fold B M.
  apply attemptLoop_sleeps. intros attempt k.
  set (d := Retry.backoffDelay B M (30000 # 1) attempt).
  assert (0 <= d)%Q as Hd0 by (apply backoffDelay_nonneg; [assumption..|easy]).
  assert (d <= 30000 # 1)%Q as Hd1 by apply Qminimum_le_r.
  destruct (Hrand k) as [Hr0 Hr1].
  destruct (totalDelay_near d (random k) Hd0 Hr0 (Qlt_le_weak _ _ Hr1))
    as [Hlo Hhi].
  set (t := Retry.totalDelay d (random k)) in *.
  destruct unitRoundoff_small as (Hu0 & _ & _).
  pose proof unitRoundoff_millionth as Hu1.
  destruct tiny_small as (He0 & He1 & _).
  set (u := Double.unitRoundoff) in *. set (eta := Double.tiny) in *.
  assert (0 <= d * u)%Q as Hdu0 by nra.
  assert (d * u <= 3 # 100)%Q as Hdu1 by nra.
  split.
  - assert (inject_Z (-1) < inject_Z t)%Q as Hlt.
    { change (inject_Z (-1)) with (- (1))%Q. lra. }
    rewrite <- Zlt_Qlt in Hlt. lia.
  - assert (inject_Z t < inject_Z 33001)%Q as Hlt.
    { change (inject_Z 33001) with (33001 # 1)%Q. lra. }
    rewrite <- Zlt_Qlt in Hlt. lia.
Qed.

Lemma processWithRetry_pause_cap_witness :
  Forall (fun ms => 0 <= ms <= 33000)
    (Retry.sleeps
       (snd (Retry.processWithRetry Fixtures.config Edge.thirdTimeLucky
               (fun _ => 1 # 2) Retry.noOptions))).
Proof.
  apply (processWithRetry_pause_cap string Fixtures.config
           Edge.thirdTimeLucky (fun _ => 1 # 2) Retry.noOptions).
  - vm_compute. discriminate.
  - vm_compute. discriminate.
  - reflexivity.
  - intros k. split; vm_compute; [discriminate|reflexivity].
Defined.

(** ** The filter, summarize and extract validators *)

Section ValidatorShapes.

Local Open Scope Q_scope.

Lemma valid_boolean (x : json) :
  Validation.valid Validation.SBoolean x = true <-> exists b, x = JBool b.
Proof.
  destruct x; simpl; split; try discriminate; try (intros [? ?]; discriminate).
  - intros _. eauto.
  - reflexivity.
Qed.

Lemma valid_unit_interval (x : json) :
  Validation.valid (Validation.SNumber (Some 0) (Some 1)) x = true <->
  exists q, x = JNum q /\ 0 <= q /\ q <= 1.
Proof.
  destruct x; simpl; split; try discriminate;
    try (intros (? & ? & _); discriminate).
  - intros H. apply andb_true_iff in H. destruct H as [H0 H1].
    apply Qle_bool_iff in H0, H1. eauto.
  - intros (q' & [= <-] & H0 & H1).
    apply andb_true_iff. split; now apply Qle_bool_iff.
Qed.

(** A listed property that must be there, with the check its schema
    makes. *)
Lemma required_property (sub : Validation.schema) (key : string)
    (fields : list (string * json)) :
  Validation.validProperty fields (key, sub) = true /\
  jhas key fields = true <->
  exists x, jget key fields = Some x /\ Validation.valid sub x = true.
Proof.
  rewrite validProperty_spec, jhas_true. split.
  - intros [[Hn|H] [x Hx]]; [congruence|exact H].
  - intros (x & Hx & Hv). split; [right|]; eauto.
Qed.

Lemma required_string (key : string) (fields : list (string * json)) :
  Validation.validProperty fields (key, Validation.string_) = true /\
  jhas key fields = true <->
  exists s, jget key fields = Some (JStr s).
Proof.
  rewrite required_property. split.
  - intros (x & Hx & Hv). apply valid_string in Hv. destruct Hv as [s ->]. eauto.
  - intros [s Hs]. exists (JStr s). split; [exact Hs|]. apply valid_string. eauto.
Qed.

Lemma optional_string (key : string) (fields : list (string * json)) :
  Validation.validProperty fields (key, Validation.string_) = true <->
  jget key fields = None \/ exists s, jget key fields = Some (JStr s).
Proof.
  rewrite validProperty_spec. split.
  - intros [H|(x & Hx & Hv)]; [now left|]. right.
    apply valid_string in Hv. destruct Hv as [s ->]. eauto.
  - intros [H|[s Hs]]; [now left|]. right. exists (JStr s).
    split; [exact Hs|]. apply valid_string. eauto.
Qed.

Lemma optional_strings (key : string) (fields : list (string * json)) :
  Validation.validProperty fields
    (key, Validation.SArray Validation.string_) = true <->
  jget key fields = None \/
  exists xs, jget key fields = Some (JArr (map JStr xs)).
Proof.
  rewrite validProperty_spec. split.
  - intros [H|(x & Hx & Hv)]; [now left|]. right.
    apply valid_strings in Hv. destruct Hv as [xs ->]. eauto.
  - intros [H|[xs Hs]]; [now left|]. right. eexists.
    split; [exact Hs|]. apply valid_strings. eauto.
Qed.

Lemma optional_boolean (key : string) (fields : list (string * json)) :
  Validation.validProperty fields (key, Validation.SBoolean) = true <->
  jget key fields = None \/ exists b, jget key fields = Some (JBool b).
Proof.
  rewrite validProperty_spec. split.
  - intros [H|(x & Hx & Hv)]; [now left|]. right.
    apply valid_boolean in Hv. destruct Hv as [b ->]. eauto.
  - intros [H|[b Hb]]; [now left|]. right. exists (JBool b).
    split; [exact Hb|]. apply valid_boolean. eauto.
Qed.

Lemma optional_unit_interval (key : string) (fields : list (string * json)) :
  Validation.validProperty fields
    (key, Validation.SNumber (Some 0) (Some 1)) = true <->
  jget key fields = None \/
  exists q, jget key fields = Some (JNum q) /\ 0 <= q /\ q <= 1.
Proof.
  rewrite validProperty_spec. split.
  - intros [H|(x & Hx & Hv)]; [now left|]. right.
    apply valid_unit_interval in Hv. destruct Hv as (q & -> & H). eauto.
  - intros [H|(q & Hq & H)]; [now left|]. right. exists (JNum q).
    split; [exact Hq|]. apply valid_unit_interval. eauto.
Qed.

(** A response with one required array property, and the check on its
    items. *)
Lemma valid_wrapped_array (key : string) (item : Validation.schema)
    (r : json) :
  Validation.valid
    (Validation.SObject [(key, Validation.SArray item)] [key]) r = true <->
  exists fields items,
    r = JObj fields /\ jget key fields = Some (JArr items) /\
    Forall (fun x => Validation.valid item x = true) items.
Proof.
  destruct r as [| | | | |fields];
    try (split; [discriminate | intros (? & ? & ? & _); discriminate]).
  rewrite valid_object. cbn [forallb]. rewrite !andb_true_r, andb_true_iff.
  rewrite required_property. split.
  - intros (x & Hx & Hv). destruct x as [| | | |items|]; try discriminate.
    exists fields, items. repeat split; [exact Hx|].
    rewrite valid_array, forallb_forall in Hv.
    apply List.Forall_forall. intros y Hy. now apply Hv.
  - intros (fs & items & [= <-] & Hget & Hall).
    exists (JArr items). split; [exact Hget|].
    rewrite valid_array. apply forallb_forall. intros y Hy.
    rewrite List.Forall_forall in Hall. now apply Hall.
Qed.

(** What [validateResponse] answers for a stage that has a validator. *)
Lemma validateResponse_accepts (stage : string) (validator : Validation.schema)
    (response : json) :
  Validation.validators stage = Some validator ->
  (Validation.validateResponse stage response = Ok response <->
   Validation.valid validator response = true) /\
  (forall v, Validation.validateResponse stage response = Ok v ->
             v = response) /\
  (Validation.valid validator response = false ->
   exists e, Validation.validateResponse stage response = Throw e).
Proof.
  intros Hv. unfold Validation.validateResponse. rewrite Hv.
  destruct (Validation.valid validator response); cbn [negb];
    repeat split; try congruence; try discriminate; eauto.
Qed.

End ValidatorShapes.

(** X6.  [validateFilterResponse] returns the response itself, and does
    so exactly for an object whose [decisions] is an array of objects,
    each with a string [id] and a boolean [keep], with [reason], when
    present, a string and [quality_score], when present, a number
    between 0 and 1; every other response makes it throw. *)
Theorem validateFilterResponse_accepts :
  forall response : json,
    (Validation.validateFilterResponse response = Ok response <->
     exists fields decisions,
       response = JObj fields /\
       jget "decisions" fields = Some (JArr decisions) /\
       Forall
         (fun d =>
            exists f,
              d = JObj f /\
              (exists i, jget "id" f = Some (JStr i)) /\
              (exists keep, jget "keep" f = Some (JBool keep)) /\
              (jget "reason" f = None \/
               exists s, jget "reason" f = Some (JStr s)) /\
              (jget "quality_score" f = None \/
               exists q, jget "quality_score" f = Some (JNum q) /\
                         (0 <= q)%Q /\ (q <= 1)%Q))
         decisions) /\
    (forall v, Validation.validateFilterResponse response = Ok v ->
               v = response) /\
    (Validation.validateFilterResponse response <> Ok response ->
     exists e, Validation.validateFilterResponse response = Throw e).
Proof.
  intros response. unfold Validation.validateFilterResponse.
  destruct (validateResponse_accepts "filter" Validation.filterResponseSchema
              response eq_refl) as (Hiff & Hsame & Hthrow).
  split; [|split; [exact Hsame|]].
  - rewrite Hiff. unfold Validation.filterResponseSchema.
    rewrite valid_wrapped_array.
    assert (forall d,
               Validation.valid
                 (Validation.SObject
                    [("id", Validation.string_);
                     ("keep", Validation.SBoolean);
                     ("reason", Validation.string_);
                     ("quality_score",
                      Validation.SNumber (Some 0%Q) (Some 1%Q))]
                    ["id"; "keep"]) d = true <->
               exists f,
                 d = JObj f /\
                 (exists i, jget "id" f = Some (JStr i)) /\
                 (exists keep, jget "keep" f = Some (JBool keep)) /\
                 (jget "reason" f = None \/
                  exists s, jget "reason" f = Some (JStr s)) /\
                 (jget "quality_score" f = None \/
                  exists q, jget "quality_score" f = Some (JNum q) /\
                            (0 <= q)%Q /\ (q <= 1)%Q)) as Hitem.
    { intros d. destruct d as [| | | | |f];
        try (split; [discriminate | intros (? & ? & _); discriminate]).
      rewrite valid_object. cbn [forallb].
      rewrite !andb_true_iff.
      split.
      - intros ((Hid & Hkeep & Hreason & Hq & _) & Hhid & Hhkeep & _).
        exists f. split; [reflexivity|].
        split; [apply required_string; now split|].
        split; [|split; [now apply optional_string
                        |now apply optional_unit_interval]].
        assert (Validation.validProperty f ("keep", Validation.SBoolean) = true
                /\ jhas "keep" f = true) as Hk by now split.
        apply required_property in Hk. destruct Hk as (x & Hx & Hv).
        apply valid_boolean in Hv. destruct Hv as [b ->]. eauto.
      - intros (f' & [= <-] & Hid & [keep Hkeep] & Hreason & Hq).
        apply required_string in Hid. destruct Hid as [Hid Hhid].
        apply optional_string in Hreason.
        apply optional_unit_interval in Hq.
        assert (Validation.validProperty f ("keep", Validation.SBoolean) = true
                /\ jhas "keep" f = true) as [Hk Hhk].
        { apply required_property. exists (JBool keep).
          split; [exact Hkeep|reflexivity]. }
        repeat split; assumption. }
    split; intros (fields & ds & Hr & Hget & Hall); exists fields, ds;
      repeat split; try assumption;
      (eapply List.Forall_impl; [|exact Hall]); intros d; apply Hitem.
  - intros Hno. apply Hthrow.
    destruct (Validation.valid Validation.filterResponseSchema response) eqn:E;
      [|reflexivity].
    exfalso. apply Hno. now apply Hiff.
Qed.

(** X7.  [validateExtractResponse] accepts exactly an object whose
    [extracts] is an array of objects, each with string [id], [content]
    and [type], with [source_message_id] and [context], when present,
    strings, [relevance_score], when present, a number between 0 and 1,
    and [requires_permission], when present, a boolean; every other
    response makes it throw. *)
Theorem validateExtractResponse_accepts :
  forall response : json,
    (Validation.validateExtractResponse response = Ok response <->
     exists fields extracts,
       response = JObj fields /\
       jget "extracts" fields = Some (JArr extracts) /\
       Forall
         (fun x =>
            exists f,
              x = JObj f /\
              (exists i, jget "id" f = Some (JStr i)) /\
              (exists c, jget "content" f = Some (JStr c)) /\
              (exists t, jget "type" f = Some (JStr t)) /\
              (jget "source_message_id" f = None \/
               exists s, jget "source_message_id" f = Some (JStr s)) /\
              (jget "context" f = None \/
               exists s, jget "context" f = Some (JStr s)) /\
              (jget "relevance_score" f = None \/
               exists q, jget "relevance_score" f = Some (JNum q) /\
                         (0 <= q)%Q /\ (q <= 1)%Q) /\
              (jget "requires_permission" f = None \/
               exists b, jget "requires_permission" f = Some (JBool b)))
         extracts) /\
    (Validation.validateExtractResponse response <> Ok response ->
     exists e, Validation.validateExtractResponse response = Throw e).
Proof.
  intros response. unfold Validation.validateExtractResponse.
  destruct (validateResponse_accepts "extract" Validation.extractResponseSchema
              response eq_refl) as (Hiff & _ & Hthrow).
  split.
  - rewrite Hiff. unfold Validation.extractResponseSchema.
    rewrite valid_wrapped_array.
    assert (forall x,
               Validation.valid
                 (Validation.SObject
                    [("id", Validation.string_);
                     ("source_message_id", Validation.string_);
                     ("type", Validation.string_);
                     ("content", Validation.string_);
                     ("context", Validation.string_);
                     ("relevance_score",
                      Validation.SNumber (Some 0%Q) (Some 1%Q));
                     ("requires_permission", Validation.SBoolean)]
                    ["id"; "content"; "type"]) x = true <->
               exists f,
                 x = JObj f /\
                 (exists i, jget "id" f = Some (JStr i)) /\
                 (exists c, jget "content" f = Some (JStr c)) /\
                 (exists t, jget "type" f = Some (JStr t)) /\
                 (jget "source_message_id" f = None \/
                  exists s, jget "source_message_id" f = Some (JStr s)) /\
                 (jget "context" f = None \/
                  exists s, jget "context" f = Some (JStr s)) /\
                 (jget "relevance_score" f = None \/
                  exists q, jget "relevance_score" f = Some (JNum q) /\
                            (0 <= q)%Q /\ (q <= 1)%Q) /\
                 (jget "requires_permission" f = None \/
                  exists b, jget "requires_permission" f = Some (JBool b)))
      as Hitem.
    { intros x. destruct x as [| | | | |f];
        try (split; [discriminate | intros (? & ? & _); discriminate]).
      rewrite valid_object. cbn [forallb].
      rewrite !andb_true_iff.
      split.
      - intros ((Hid & Hsrc & Hty & Hco & Hctx & Hrel & Hperm & _)
                & Hhid & Hhco & Hhty & _).
        exists f. split; [reflexivity|].
        split; [apply required_string; now split|].
        split; [apply required_string; now split|].
        split; [apply required_string; now split|].
        split; [now apply optional_string|].
        split; [now apply optional_string|].
        split; [now apply optional_unit_interval|now apply optional_boolean].
      - intros (f' & [= <-] & Hid & Hco & Hty & Hsrc & Hctx & Hrel & Hperm).
        apply required_string in Hid, Hco, Hty.
        destruct Hid as [Hid Hhid], Hco as [Hco Hhco], Hty as [Hty Hhty].
        apply optional_string in Hsrc, Hctx.
        apply optional_unit_interval in Hrel.
        apply optional_boolean in Hperm.
        repeat split; assumption. }
    split; intros (fields & xs & Hr & Hget & Hall); exists fields, xs;
      repeat split; try assumption;
      (eapply List.Forall_impl; [|exact Hall]); intros x; apply Hitem.
  - intros Hno. apply Hthrow.
    destruct (Validation.valid Validation.extractResponseSchema response) eqn:E;
      [|reflexivity].
    exfalso. apply Hno. now apply Hiff.
Qed.

(** [validateSummarizeResponse] accepts exactly an object whose
    [summary] is an object with a string [headline] and an array of
    strings [key_points], with [notable_messages], [themes] and
    [action_items], when present, arrays of strings and
    [sentiment_overview], when present, a string; every other response
    makes it throw. *)
Lemma validateSummarizeResponse_accepts :
  forall response : json,
    (Validation.validateSummarizeResponse response = Ok response <->
     exists fields s,
       response = JObj fields /\
       jget "summary" fields = Some (JObj s) /\
       (exists h, jget "headline" s = Some (JStr h)) /\
       (exists points, jget "key_points" s = Some (JArr (map JStr points))) /\
       (jget "notable_messages" s = None \/
        exists xs, jget "notable_messages" s = Some (JArr (map JStr xs))) /\
       (jget "themes" s = None \/
        exists xs, jget "themes" s = Some (JArr (map JStr xs))) /\
       (jget "sentiment_overview" s = None \/
        exists o, jget "sentiment_overview" s = Some (JStr o)) /\
       (jget "action_items" s = None \/
        exists xs, jget "action_items" s = Some (JArr (map JStr xs)))) /\
    (Validation.validateSummarizeResponse response <> Ok response ->
     exists e, Validation.validateSummarizeResponse response = Throw e).
Proof.
  intros response. unfold Validation.validateSummarizeResponse.
  destruct (validateResponse_accepts "summarize"
              Validation.summarizeResponseSchema response eq_refl)
    as (Hiff & _ & Hthrow).
  split.
  - rewrite Hiff. unfold Validation.summarizeResponseSchema.
    destruct response as [| | | | |fields];
      try (split; [discriminate | intros (? & ? & ? & _); discriminate]).
    rewrite valid_object. cbn [forallb]. rewrite !andb_true_r, andb_true_iff.
    rewrite required_property. split.
    + intros (x & Hx & Hv). destruct x as [| | | | |s]; try discriminate.
      exists fields, s. split; [reflexivity|]. split; [exact Hx|].
      rewrite valid_object in Hv. cbn [forallb] in Hv.
      rewrite !andb_true_iff in Hv.
      destruct Hv as ((Hh & Hk & Hn & Ht & Hs & Ha & _) & Hhh & Hhk & _).
      repeat split.
      * now apply required_string.
      * assert (Validation.validProperty s
                  ("key_points", Validation.SArray Validation.string_) = true
                /\ jhas "key_points" s = true) as Hp by now split.
        apply required_property in Hp. destruct Hp as (y & Hy & Hvy).
        apply valid_strings in Hvy. destruct Hvy as [xs ->]. eauto.
      * now apply optional_strings.
      * now apply optional_strings.
      * now apply optional_string.
      * now apply optional_strings.
    + intros (fs & s & [= <-] & Hget & Hh & [points Hk] & Hn & Ht & Hs & Ha).
      exists (JObj s). split; [exact Hget|].
      rewrite valid_object. cbn [forallb]. rewrite !andb_true_iff.
      apply required_string in Hh. destruct Hh as [Hh Hhh].
      assert (Validation.validProperty s
                ("key_points", Validation.SArray Validation.string_) = true
              /\ jhas "key_points" s = true) as [Hkp Hhk].
      { apply required_property. eexists. split; [exact Hk|].
        apply valid_strings. eauto. }
      repeat split; try assumption;
        first [now apply optional_strings | now apply optional_string].
  - intros Hno. apply Hthrow.
    destruct (Validation.valid Validation.summarizeResponseSchema response)
      eqn:E; [|reflexivity].
    exfalso. apply Hno. now apply Hiff.
Qed.

(** ** The anonymizer as an object *)

Section AnonymizerObject.

(** The calls of [anonymize] on [names], in order, from state [st]. *)
Let after (names : list string) (st : Privacy.Anonymizer) :=
  fold_left (fun s n => snd (Privacy.anonymize n s)) names st.

Lemma anonymize_keeps (n u a : string) (st : Privacy.Anonymizer) :
  Privacy.mapGet u (Privacy.mapping st) = Some a ->
  Privacy.mapGet u (Privacy.mapping (snd (Privacy.anonymize n st))) = Some a.
Proof.
  intros H. unfold Privacy.anonymize.
  destruct (negb (truthy_str n)); [exact H|].
  destruct (Privacy.mapGet n (Privacy.mapping st)); [exact H|].
  cbn [snd Privacy.mapping]. rewrite mapGet_app, H. reflexivity.
Qed.

Lemma after_keeps (names : list string) :
  forall (u a : string) (st : Privacy.Anonymizer),
    Privacy.mapGet u (Privacy.mapping st) = Some a ->
    Privacy.mapGet u (Privacy.mapping (after names st)) = Some a.
Proof.
  induction names as [|n more IH]; intros u a st H; [exact H|].
  cbn [after fold_left]. apply IH. now apply anonymize_keeps.
Qed.

Lemma anonymize_records (u a : string) (st st1 : Privacy.Anonymizer) :
  Privacy.anonymize u st = (a, st1) ->
  truthy_str u = true ->
  Privacy.mapGet u (Privacy.mapping st1) = Some a.
Proof.
  unfold Privacy.anonymize. intros H Hu. rewrite Hu in H. cbn [negb] in H.
  destruct (Privacy.mapGet u (Privacy.mapping st)) as [known|] eqn:E.
  - injection H as <- <-. exact E.
  - injection H as <- <-. cbn [Privacy.mapping].
    rewrite mapGet_app, E. cbn [Privacy.mapGet]. now rewrite String.eqb_refl.
Qed.

Lemma anonymize_known (u a : string) (st : Privacy.Anonymizer) :
  truthy_str u = true ->
  Privacy.mapGet u (Privacy.mapping st) = Some a ->
  Privacy.anonymize u st = (a, st).
Proof.
  intros Hu H. unfold Privacy.anonymize. now rewrite Hu, H.
Qed.

Lemma after_stable (u a : string) (st st1 : Privacy.Anonymizer)
    (others : list string) :
  Privacy.anonymize u st = (a, st1) ->
  Privacy.anonymize u (after others st1) = (a, after others st1).
Proof.
  intros H. destruct (truthy_str u) eqn:Hu.
  - apply anonymize_known; [exact Hu|].
    apply after_keeps. now apply (anonymize_records u a st).
  - unfold Privacy.anonymize in *. rewrite Hu in *. cbn [negb] in *.
    injection H as <- _. reflexivity.
Qed.

End AnonymizerObject.

(** X8.  Once [anonymize] has answered for a name, every later call on
    the same anonymizer gives that name the same alias and leaves the
    state as it is, whatever other names were anonymized in between. *)
Theorem anonymize_stable :
  forall (username : string) (st : Privacy.Anonymizer) (others : list string),
    let '(a, st1) := Privacy.anonymize username st in
    let st2 :=
      fold_left (fun s n => snd (Privacy.anonymize n s)) others st1 in
    Privacy.anonymize username st2 = (a, st2).
Proof.
  intros username st others.
  destruct (Privacy.anonymize username st) as [a st1] eqn:E.
  exact (after_stable username a st st1 others E).
Qed.

Section MentionFacts.

Lemma scanMentions_without_at (s : string) (st : Privacy.Anonymizer) :
  (forall c, In c (list_ascii_of_string s) -> Privacy.isAt c = false) ->
  Privacy.scanMentions s None st = (s, st).
Proof.
  induction s as [|c rest IH]; intros H; [reflexivity|].
  cbn [Privacy.scanMentions].
  rewrite (H c) by (cbn; now left).
  rewrite IH; [reflexivity|].
  intros c' Hc'. apply H. cbn. now right.
Qed.

Context {R RA : Type}.

Lemma mapMessages_keeps (messages : list (Privacy.Msg R RA)) :
  forall (c : bool) (st st' : Privacy.Anonymizer)
         (out : list (Privacy.Msg R RA)),
    Privacy.mapMessages c messages st = (out, st') ->
    map Privacy.rest out = map Privacy.rest messages /\
    (c = false ->
     map Privacy.content out = map Privacy.content messages /\
     map Privacy.clean_content out = map Privacy.clean_content messages).
Proof.
  induction messages as [|m more IH]; intros c st st' out H.
  - injection H as <- _. now repeat split.
  - cbn [Privacy.mapMessages] in H.
    destruct (Privacy.anonymizeMessage c m st) as [m1 st1] eqn:Em.
    destruct (Privacy.mapMessages c more st1) as [ms st2] eqn:Ems.
    injection H as <- _.
    destruct (IH c st1 st2 ms Ems) as [Hrest Hcontent].
    unfold Privacy.anonymizeMessage in Em.
    destruct (match Privacy.author m with
              | Some a => let '(a1, s) := Privacy.anonymizeAuthor a st in
                          (Some a1, s)
              | None => (None, st)
              end) as [author1 sa].
    destruct (Privacy.anonymizeField c (Privacy.content m) sa)
      as [content1 sb] eqn:Ec.
    destruct (Privacy.anonymizeField c (Privacy.clean_content m) sb)
      as [clean1 sc] eqn:Ecc.
    injection Em as <- _. cbn [map Privacy.rest Privacy.content
                                 Privacy.clean_content].
    split; [now rewrite Hrest|].
    intros ->. destruct (Hcontent eq_refl) as [H1 H2].
    unfold Privacy.anonymizeField in Ec, Ecc. cbn [andb] in Ec, Ecc.
    destruct (Privacy.content m); injection Ec as <- _;
      destruct (Privacy.clean_content m); injection Ecc as <- _;
      now rewrite H1, H2.
Qed.

End MentionFacts.

(** X9.  [anonymizeMentions] returns a text without [@] as it is and
    hands no name to the anonymizer. *)
Theorem anonymizeMentions_without_at :
  forall (content : string) (st : Privacy.Anonymizer),
    (forall c, In c (list_ascii_of_string content) ->
               Privacy.isAt c = false) ->
    Privacy.anonymizeMentions content st = (content, st).
Proof.
  intros content st H. unfold Privacy.anonymizeMentions.
  destruct (negb (truthy_str content)); [reflexivity|].
  now apply scanMentions_without_at.
Qed.

Lemma anonymizeMentions_without_at_witness :
  Privacy.anonymizeMentions "hello, world" Privacy.createAnonymizer =
  ("hello, world", Privacy.createAnonymizer).
Proof.
  apply (anonymizeMentions_without_at "hello, world" Privacy.createAnonymizer).
  intros c Hc. cbn in Hc.
  repeat (destruct Hc as [<-|Hc]; [reflexivity|]). destruct Hc.
Defined.

(** X10.  [anonymizeMessages] returns one message per input message, in
    order, with every property it does not rewrite as it was; unless
    [anonymizeContent] is set, [content] and [clean_content] are among
    them, so that the text of a message is passed on verbatim. *)
Theorem anonymizeMessages_keeps_text :
  forall (R RA : Type) (messages : list (Privacy.Msg R RA))
         (anonymizeContent : bool),
    let out := fst (Privacy.anonymizeMessages messages anonymizeContent) in
    length out = length messages /\
    map Privacy.rest out = map Privacy.rest messages /\
    (anonymizeContent = false ->
     map Privacy.content out = map Privacy.content messages /\
     map Privacy.clean_content out = map Privacy.clean_content messages).
Proof.
  intros R RA messages c. unfold Privacy.anonymizeMessages.
  destruct (Privacy.mapMessages c messages Privacy.createAnonymizer)
    as [ms st] eqn:E.
  cbn [fst]. destruct (mapMessages_keeps messages c _ _ _ E) as [Hrest Hc].
  split; [|split; assumption].
  rewrite <- (length_map Privacy.rest ms), Hrest. apply length_map.
Qed.

(** ** Sorting *)

Section SortFacts.

Context {A : Type}.
Variable leb : A -> A -> bool.
Variable R : A -> A -> Prop.
Hypothesis leb_R : forall x y, leb x y = true -> R x y.
Hypothesis leb_total : forall x y, leb x y = false -> R y x.
Hypothesis R_trans : forall x y z, R x y -> R y z -> R x z.

Lemma insertSorted_Forall (P : A -> Prop) (x : A) (l : list A) :
  P x -> Forall P l -> Forall P (insertSorted leb x l).
Proof.
  intros Hx. induction 1 as [|y l Hy Hl IH]; cbn [insertSorted].
  - now constructor.
  - destruct (leb x y); repeat constructor; assumption.
Qed.

Lemma insertSorted_sorted (x : A) (l : list A) :
  StronglySorted R l -> StronglySorted R (insertSorted leb x l).
Proof.
  induction 1 as [|y l Hl IH Hy]; cbn [insertSorted].
  - repeat constructor.
  - destruct (leb x y) eqn:E.
    + constructor; [now constructor|].
      constructor; [now apply leb_R|].
      eapply List.Forall_impl; [|exact Hy].
      intros z Hz. eapply R_trans; [apply leb_R; exact E|exact Hz].
    + constructor; [exact IH|].
      apply insertSorted_Forall; [now apply leb_total|exact Hy].
Qed.

Lemma stableSort_sorted (l : list A) : StronglySorted R (stableSort leb l).
Proof.
  induction l as [|x l IH]; [constructor|].
  cbn [stableSort fold_right]. now apply insertSorted_sorted.
Qed.

Lemma firstn_sorted (n : nat) (l : list A) :
  StronglySorted R l -> StronglySorted R (firstn n l).
Proof.
  intros H. revert n. induction H as [|y l Hl IH Hy]; intros [|n];
    cbn [firstn]; try constructor.
  - apply IH.
  - apply List.Forall_forall. intros z Hz.
    rewrite List.Forall_forall in Hy. apply Hy. now apply firstn_In in Hz.
Qed.

Lemma skipn_sorted (n : nat) (l : list A) :
  StronglySorted R l -> StronglySorted R (skipn n l).
Proof.
  intros H. revert n. induction H as [|y l Hl IH Hy]; intros [|n];
    cbn [skipn]; try constructor; try assumption. apply IH.
Qed.

End SortFacts.

Section SortContents.

Context {A : Type}.
Variable leb : A -> A -> bool.

Lemma insertSorted_perm (x : A) (l : list A) :
  Permutation (insertSorted leb x l) (x :: l).
Proof.
  induction l as [|y l IH]; cbn [insertSorted]; [reflexivity|].
  destruct (leb x y); [reflexivity|].
  rewrite IH. apply perm_swap.
Qed.

Lemma stableSort_perm (l : list A) : Permutation (stableSort leb l) l.
Proof.
  induction l as [|x l IH]; [reflexivity|].
  cbn [stableSort fold_right]. rewrite insertSorted_perm.
  now constructor.
Qed.

End SortContents.

Section TimestampOrder.

Lemma str_le_trans (a b c : string) : str_le a b -> str_le b c -> str_le a c.
Proof.
  unfold str_le. intros Hab Hbc Hac.
  destruct (String.compare b c) eqn:Ebc; [| |congruence].
  - apply String.compare_eq_iff in Ebc. subst. contradiction.
  - assert (String.compare c b = Gt) as Hcb
        by (rewrite String.compare_antisym, Ebc; reflexivity).
    apply Hab. eapply string_compare_gt_trans; eassumption.
Qed.

Lemma str_gtb_true_le (a b : string) : str_gtb a b = true -> str_le b a.
Proof.
  unfold str_gtb, str_le. destruct (String.compare a b) eqn:E;
    try discriminate.
  intros _. rewrite String.compare_antisym, E. discriminate.
Qed.

Lemma sorted_byTimestamp (rows : list Store.Message.row) :
  byTimestampAscending (stableSort Store.byTimestamp rows).
Proof.
  apply stableSort_sorted.
  - intros x y H. unfold Store.byTimestamp in H.
    apply str_gtb_false_le. now apply negb_true_iff.
  - intros x y H. unfold Store.byTimestamp in H.
    apply str_gtb_true_le. now apply negb_false_iff.
  - intros x y z. apply str_le_trans.
Qed.

End TimestampOrder.

(** ** The store: round trips and invariants *)

Section StoreRoundTrips.

Lemma has_key_insert_ne {K V} `{Countable K} (m : gmap K V) (k k' : K)
    (v : V) :
  k <> k' -> Store.has_key (<[k := v]> m) k' = Store.has_key m k'.
Proof.
  intros Hne. unfold Store.has_key. now rewrite lookup_insert_ne.
Qed.

Lemma getMessage_absent (db : Store.DB) (i : string) :
  Store.getMessage db i = None ->
  forall r, In r (Store.messages db) -> String.eqb (Store.messageId r) i = false.
Proof.
  intros H r Hr. unfold Store.getMessage in H.
  exact (find_none _ _ H r Hr).
Qed.

Lemma map_unchanged {A} (f : A -> A) (l : list A) :
  (forall x, In x l -> f x = x) -> map f l = l.
Proof.
  induction l as [|x l IH]; intros H; [reflexivity|].
  cbn [map]. rewrite H by now left. rewrite IH; [reflexivity|].
  intros y Hy. apply H. now right.
Qed.

Lemma filter_map_length {A} (p : A -> bool) (f : A -> A) (l : list A) :
  (forall x, p (f x) = p x) ->
  length (List.filter p (map f l)) = length (List.filter p l).
Proof.
  intros H. induction l as [|x l IH]; [reflexivity|].
  cbn [map List.filter]. rewrite H.
  destruct (p x); cbn [length]; now rewrite IH.
Qed.

Lemma conflictUpdate_twice (r : Store.Message.row) (m : Store.Message.data) :
  Store.conflictUpdate (Store.conflictUpdate r m) m = Store.conflictUpdate r m.
Proof. reflexivity. Qed.

Lemma conflictUpdate_fresh (m : Store.Message.data) (t : string) :
  Store.conflictUpdate
    {| Store.Message.fields := m; Store.Message.created_at := t |} m =
  {| Store.Message.fields := m; Store.Message.created_at := t |}.
Proof. destruct m. reflexivity. Qed.

Lemma with_messages_same (db : Store.DB) :
  Store.with_messages db (Store.messages db) = db.
Proof. destruct db. reflexivity. Qed.

Lemma upsertMessage_ids (db db' : Store.DB) (m : Store.Message.data) :
  Store.upsertMessage db m = Ok db' ->
  map Store.messageId (Store.messages db') =
  if Store.hasMessage db (Store.Message.id m)
  then map Store.messageId (Store.messages db)
  else map Store.messageId (Store.messages db) ++ [Store.Message.id m].
Proof.
  unfold Store.upsertMessage, Store.hasMessage.
  destruct (Store.getMessage db (Store.Message.id m)) as [old|] eqn:E.
  - intros [= <-]. cbn [Store.messages Store.with_messages].
    rewrite map_map. apply map_ext. intros r.
    destruct (String.eqb _ _); [apply conflictUpdate_id|reflexivity].
  - destruct (_ && _); [|discriminate]. intros [= <-].
    cbn [Store.messages Store.with_messages]. now rewrite map_app.
Qed.

End StoreRoundTrips.

(** X11.  After [upsertUser], [getUser] on that id gives a row with the
    names and flags just written and the current time as [updated_at];
    [created_at] is the time of the first insert; no other user and no
    other table changes: the messages, channels, processing rows, guilds,
    embeds, attachments, reactions and sync rows (with their next id) and
    the store's clock are as before. *)
Theorem upsertUser_getUser :
  forall (db : Store.DB) (user : Store.User.data),
    let db' := Store.upsertUser db user in
    (exists row,
        Store.getUser db' (Store.User.id user) = Some row /\
        Store.User.username (Store.User.fields row) =
          Store.User.username user /\
        Store.User.global_name (Store.User.fields row) =
          Store.User.global_name user /\
        Store.User.discriminator (Store.User.fields row) =
          Store.User.discriminator user /\
        Store.User.avatar_url (Store.User.fields row) =
          Store.User.avatar_url user /\
        Store.User.is_bot (Store.User.fields row) = Store.User.is_bot user /\
        Store.User.updated_at row = Store.clock db /\
        Store.User.created_at row =
          match Store.getUser db (Store.User.id user) with
          | Some old => Store.User.created_at old
          | None => Store.clock db
          end) /\
    (forall other, other <> Store.User.id user ->
                   Store.getUser db' other = Store.getUser db other) /\
    Store.messages db' = Store.messages db /\
    Store.channels db' = Store.channels db /\
    Store.ai_processing db' = Store.ai_processing db /\
    Store.guilds db' = Store.guilds db /\
    Store.embeds db' = Store.embeds db /\
    Store.attachments db' = Store.attachments db /\
    Store.reactions db' = Store.reactions db /\
    Store.sync_state db' = Store.sync_state db /\
    Store.sync_seq db' = Store.sync_seq db /\
    Store.clock db' = Store.clock db.
Proof.
  intros db user db'. subst db'. unfold Store.upsertUser, Store.getUser.
  cbn [Store.users Store.with_users Store.messages Store.channels
         Store.ai_processing Store.guilds Store.embeds Store.attachments
         Store.reactions Store.sync_state Store.sync_seq Store.clock].
  split; [|split; [|now repeat split]].
  - rewrite lookup_insert_eq. eexists. split; [reflexivity|].
    destruct (Store.users db !! Store.User.id user); now repeat split.
  - intros other Hne. now rewrite lookup_insert_ne.
Qed.

(** X12.  [upsertMessage] on an id that is not stored inserts the row as
    given, stamped with the current time, after the rows already there,
    provided the channel and the author have rows; otherwise it fails
    with the foreign-key error.  No other message changes. *)
Theorem upsertMessage_new :
  forall (db : Store.DB) (message : Store.Message.data),
    Store.getMessage db (Store.Message.id message) = None ->
    (Store.has_key (Store.channels db) (Store.Message.channel_id message)
     && Store.has_key (Store.users db) (Store.Message.author_id message)
     = true ->
     exists db',
       Store.upsertMessage db message = Ok db' /\
       Store.messages db' =
         Store.messages db ++
         [{| Store.Message.fields := message;
             Store.Message.created_at := Store.clock db |}] /\
       Store.getMessage db' (Store.Message.id message) =
         Some {| Store.Message.fields := message;
                 Store.Message.created_at := Store.clock db |} /\
       forall other, other <> Store.Message.id message ->
                     Store.getMessage db' other = Store.getMessage db other) /\
    (Store.has_key (Store.channels db) (Store.Message.channel_id message)
     && Store.has_key (Store.users db) (Store.Message.author_id message)
     = false ->
     Store.upsertMessage db message = Throw Store.fkError).
Proof.
  intros db message Hnew. unfold Store.upsertMessage. rewrite Hnew.
  split; intros ->; [|reflexivity].
  eexists. split; [reflexivity|].
  cbn [Store.messages Store.with_messages]. split; [reflexivity|].
  unfold Store.getMessage in *. cbn [Store.messages Store.with_messages].
  split.
  - rewrite find_app_l, Hnew. cbn [List.find Store.messageId Store.Message.fields].
    now rewrite String.eqb_refl.
  - intros other Hne. rewrite find_app_l.
    destruct (List.find (fun r => String.eqb (Store.messageId r) other)
                (Store.messages db)); [reflexivity|].
    cbn [List.find]. unfold Store.messageId. cbn [Store.Message.fields].
    destruct (String.eqb_spec (Store.Message.id message) other);
      [congruence|reflexivity].
Qed.

Lemma upsertMessage_new_witness :
  Store.upsertMessage Pipeline.db Rows.reply <> Throw Store.fkError /\
  Store.upsertMessage StoreFixtures.emptyDB Rows.reply = Throw Store.fkError.
Proof.
  split.
  - destruct (upsertMessage_new Pipeline.db Rows.reply eq_refl) as [H _].
    destruct (H eq_refl) as (db' & -> & _). discriminate.
  - now apply (upsertMessage_new StoreFixtures.emptyDB Rows.reply eq_refl).
Defined.

(** X13.  [upsertMessage] is idempotent: writing the same message a
    second time leaves the store exactly as the first write left it. *)
Theorem upsertMessage_idempotent :
  forall (db db1 : Store.DB) (message : Store.Message.data),
    Store.upsertMessage db message = Ok db1 ->
    Store.upsertMessage db1 message = Ok db1.
Proof.
  intros db db1 message H.
  pose proof (upsertMessage_stores db message db1 H) as Hhas.
  unfold Store.hasMessage in Hhas.
  unfold Store.upsertMessage in *.
  destruct (Store.getMessage db1 (Store.Message.id message)) as [row|];
    [clear Hhas|discriminate].
  f_equal.
  destruct (Store.getMessage db (Store.Message.id message)) as [old|] eqn:E.
  - injection H as <-. cbn [Store.messages Store.with_messages].
    rewrite map_map. unfold Store.with_messages. cbn. f_equal.
    apply map_ext. intros r.
    destruct (String.eqb (Store.messageId r) (Store.Message.id message)) eqn:Er.
    + now rewrite conflictUpdate_id, Er.
    + now rewrite Er.
  - destruct (_ && _); [|discriminate]. injection H as <-.
    cbn [Store.messages Store.with_messages].
    rewrite map_app. cbn [map Store.messageId Store.Message.fields].
    rewrite String.eqb_refl, conflictUpdate_fresh.
    rewrite map_unchanged; [reflexivity|].
    intros r Hr. now rewrite (getMessage_absent db _ E r Hr).
Qed.

Lemma upsertMessage_idempotent_witness :
  exists db1,
    Store.upsertMessage Seeded.db Seeded.helloEdited = Ok db1 /\
    Store.upsertMessage db1 Seeded.helloEdited = Ok db1.
Proof.
  destruct (Store.upsertMessage Seeded.db Seeded.helloEdited) as [e|db1] eqn:E;
    [vm_compute in E; discriminate|].
  exists db1. split; [reflexivity|].
  exact (upsertMessage_idempotent Seeded.db db1 Seeded.helloEdited E).
Defined.

(** X14.  [upsertMessage] keeps message ids unique: a store in which no
    two messages share an id stays so. *)
Theorem upsertMessage_unique_ids :
  forall (db db' : Store.DB) (message : Store.Message.data),
    List.NoDup (map Store.messageId (Store.messages db)) ->
    Store.upsertMessage db message = Ok db' ->
    List.NoDup (map Store.messageId (Store.messages db')).
Proof.
  intros db db' message Hnd H.
  rewrite (upsertMessage_ids db db' message H).
  unfold Store.hasMessage.
  destruct (Store.getMessage db (Store.Message.id message)) eqn:E;
    [exact Hnd|].
  apply NoDup_snoc; [exact Hnd|].
  intros Hin. apply in_map_iff in Hin. destruct Hin as (r & Hid & Hr).
  pose proof (getMessage_absent db _ E r Hr) as Hne.
  rewrite Hid, String.eqb_refl in Hne. discriminate.
Qed.

Lemma upsertMessage_unique_ids_witness :
  exists db',
    Store.upsertMessage Pipeline.db Rows.reply = Ok db' /\
    List.NoDup (map Store.messageId (Store.messages db')).
Proof.
  destruct (Store.upsertMessage Pipeline.db Rows.reply) as [e|db'] eqn:E;
    [vm_compute in E; discriminate|].
  exists db'. split; [reflexivity|].
  apply (upsertMessage_unique_ids Pipeline.db db' Rows.reply); [|exact E].
  vm_compute. repeat constructor; cbn; intuition discriminate.
Defined.

(** X15.  [countMessages] grows by one when [upsertMessage] stores a new
    id and stays as it is when the id was stored already; the count of a
    channel grows only when the new message is of that channel. *)
Theorem countMessages_upsertMessage :
  forall (db db' : Store.DB) (message : Store.Message.data)
         (channelId : string),
    Store.upsertMessage db message = Ok db' ->
    truthy_str channelId = true ->
    Store.countMessages db' None =
      Store.countMessages db None
      + (if Store.hasMessage db (Store.Message.id message) then 0 else 1) /\
    Store.countMessages db' (Some channelId) =
      Store.countMessages db (Some channelId)
      + (if Store.hasMessage db (Store.Message.id message) then 0
         else if String.eqb (Store.Message.channel_id message) channelId
              then 1 else 0).
Proof.
  intros db db' message channelId H Hc.
  unfold Store.countMessages. cbn [truthy_ostr]. rewrite Hc.
  change (default "" (Some channelId)) with channelId.
  unfold Store.upsertMessage, Store.hasMessage in *.
  destruct (Store.getMessage db (Store.Message.id message)) as [old|] eqn:E.
  - injection H as <-. cbn [Store.messages Store.with_messages].
    rewrite length_map, !Z.add_0_r. split; [reflexivity|]. f_equal.
    apply filter_map_length. intros r.
    destruct (String.eqb (Store.messageId r) (Store.Message.id message));
      reflexivity.
  - destruct (_ && _); [|discriminate]. injection H as <-.
    cbn [Store.messages Store.with_messages].
    rewrite List.filter_app, !length_app. cbn [List.filter Store.Message.fields].
    destruct (String.eqb (Store.Message.channel_id message) channelId);
      cbn [length]; lia.
Qed.

Lemma countMessages_upsertMessage_witness :
  exists db',
    Store.upsertMessage Pipeline.db Rows.reply = Ok db' /\
    Store.countMessages db' None = 4 /\
    Store.countMessages db' (Some "c2") = 0.
Proof.
  destruct (Store.upsertMessage Pipeline.db Rows.reply) as [e|db'] eqn:E;
    [vm_compute in E; discriminate|].
  exists db'. split; [reflexivity|].
  exact (countMessages_upsertMessage Pipeline.db db' Rows.reply "c2" E eq_refl).
Defined.

(** X16.  Once [upsertAIProcessing] has recorded a result for a message
    at a stage, [getUnprocessedMessages] no longer returns that message
    for that stage, and what it returns for every other stage is as
    before. *)
Theorem upsertAIProcessing_marks_processed :
  forall (db : Store.DB) (data : Store.AIProcessing.data)
         (options : Store.QueryOptions),
    Store.AIProcessing.entity_type data = "message" ->
    let db' := Store.upsertAIProcessing db data in
    (forall r,
        In r (Store.getUnprocessedMessages db'
                (Store.AIProcessing.stage data) options) ->
        Store.messageId r <> Store.AIProcessing.entity_id data) /\
    (forall stage,
        stage <> Store.AIProcessing.stage data ->
        Store.getUnprocessedMessages db' stage options =
        Store.getUnprocessedMessages db stage options).
Proof.
  intros db data options Htype db'. subst db'. split.
  - intros r Hr Hid.
    apply getUnprocessedMessages_unprocessed in Hr. destruct Hr as [_ Hnone].
    unfold Store.upsertAIProcessing in Hnone.
    cbn [Store.ai_processing Store.with_ai] in Hnone.
    unfold Store.AIProcessing.key in Hnone.
    rewrite Htype, <- Hid, lookup_insert_eq in Hnone. discriminate.
  - intros stage Hne. unfold Store.getUnprocessedMessages.
    cbn [Store.messages Store.upsertAIProcessing Store.with_ai].
    replace (List.filter
               (Store.unprocessedWhere (Store.upsertAIProcessing db data)
                  stage options) (Store.messages db))
      with (List.filter (Store.unprocessedWhere db stage options)
              (Store.messages db)); [reflexivity|].
    apply filter_ext. intros r. unfold Store.unprocessedWhere.
    cbn [Store.ai_processing Store.upsertAIProcessing Store.with_ai].
    rewrite has_key_insert_ne; [reflexivity|].
    unfold Store.AIProcessing.key. congruence.
Qed.

Lemma upsertAIProcessing_marks_processed_witness :
  map Store.messageId
    (Store.getUnprocessedMessages
       (Store.upsertAIProcessing Pipeline.db Rows.verdict) "categorize"
       Rows.noFilter) = ["1"; "2"; "3"].
Proof.
  destruct (upsertAIProcessing_marks_processed Pipeline.db Rows.verdict
              Rows.noFilter eq_refl) as [_ H].
  rewrite (H "categorize") by discriminate. vm_compute. reflexivity.
Defined.

(** X17.  [getUnprocessedMessages] returns rows in ascending order of
    timestamp, at most [limit] of them for a positive [limit], and,
    without a limit, every stored message that passes its filters,
    once. *)
Theorem getUnprocessedMessages_ordered :
  forall (db : Store.DB) (stage : string) (options : Store.QueryOptions),
    let rows := Store.getUnprocessedMessages db stage options in
    byTimestampAscending rows /\
    (forall n, Store.limit options = Some n -> 0 < n ->
               Z.of_nat (length rows) <= n) /\
    (truthy_oZ (Store.limit options) = false ->
     Permutation rows
       (List.filter (Store.unprocessedWhere db stage options)
          (Store.messages db))).
Proof.
  intros db stage options rows. subst rows.
  unfold Store.getUnprocessedMessages.
  set (sorted := stableSort Store.byTimestamp _).
  assert (byTimestampAscending sorted) as Hs by apply sorted_byTimestamp.
  split; [|split].
  - destruct (Store.limit options) as [n|]; [|exact Hs].
    destruct (truthy_Z n); [|exact Hs].
    unfold Store.sqlLimit. destruct (n <? 0); [exact Hs|].
    apply firstn_sorted. exact Hs.
  - intros n -> Hn. unfold truthy_Z.
    replace (n =? 0) with false by (symmetry; apply Z.eqb_neq; lia).
    cbn [negb]. unfold Store.sqlLimit.
    replace (n <? 0) with false by (symmetry; apply Z.ltb_ge; lia).
    pose proof (firstn_le_length (Z.to_nat n) sorted). lia.
  - intros Hl. unfold truthy_oZ in Hl.
    destruct (Store.limit options) as [n|]; [rewrite Hl|];
      apply stableSort_perm.
Qed.

(** X18.  Without a limit, [getAllMessages] returns every stored message
    that passes its filters, once, in ascending order of timestamp; with
    no filter at all that is every stored message. *)
Theorem getAllMessages_complete :
  forall (db : Store.DB) (options : Store.ExportQuery.options),
    truthy_oZ (Store.ExportQuery.limit options) = false ->
    let rows := Store.getAllMessages db options in
    byTimestampAscending rows /\
    Permutation rows
      (List.filter (Store.allWhere options) (Store.messages db)) /\
    (truthy_ostr (Store.ExportQuery.channelId options) = false ->
     truthy_ostr (Store.ExportQuery.startDate options) = false ->
     truthy_ostr (Store.ExportQuery.endDate options) = false ->
     Permutation rows (Store.messages db)).
Proof.
  intros db options Hl rows. subst rows. unfold Store.getAllMessages.
  assert (match Store.ExportQuery.limit options with
          | Some n =>
              if truthy_Z n
              then Store.sqlLimit n
                     (Store.sqlOffset
                        (default 0 (Store.ExportQuery.offset options))
                        (stableSort Store.byTimestamp
                           (List.filter (Store.allWhere options)
                              (Store.messages db))))
              else stableSort Store.byTimestamp
                     (List.filter (Store.allWhere options) (Store.messages db))
          | None =>
              stableSort Store.byTimestamp
                (List.filter (Store.allWhere options) (Store.messages db))
          end =
          stableSort Store.byTimestamp
            (List.filter (Store.allWhere options) (Store.messages db))) as ->.
  { unfold truthy_oZ in Hl.
    destruct (Store.ExportQuery.limit options); [now rewrite Hl|reflexivity]. }
  split; [apply sorted_byTimestamp|]. split; [apply stableSort_perm|].
  intros Hc Hs He. rewrite stableSort_perm.
  rewrite (filter_ext (Store.allWhere options) (fun _ => true)).
  - clear. induction (Store.messages db) as [|r l IH]; [reflexivity|].
    cbn [List.filter]. now constructor.
  - intros r. unfold Store.allWhere.
    unfold truthy_ostr in Hc, Hs, He.
    destruct (Store.ExportQuery.channelId options); [rewrite Hc|];
      destruct (Store.ExportQuery.startDate options); [rewrite Hs| |rewrite Hs|];
      destruct (Store.ExportQuery.endDate options); try rewrite He;
      reflexivity.
Qed.

Lemma getAllMessages_complete_witness :
  Permutation (Store.getAllMessages Pipeline.db Rows.everything)
    (Store.messages Pipeline.db).
Proof.
  apply (getAllMessages_complete Pipeline.db Rows.everything eq_refl);
    reflexivity.
Defined.

(** [upsertChannel] never moves a resume cursor: after it every channel,
    the one written included, has the [last_scraped_message_id] it had
    before. *)
Lemma upsertChannel_keeps_cursors :
  forall (db db1 : Store.DB) (channel : Store.Channel.data),
    Store.upsertChannel db channel = Ok db1 ->
    forall channelId,
      Store.getChannelLastScrapedId db1 channelId =
      Store.getChannelLastScrapedId db channelId.
Proof.
  intros db db1 channel H channelId.
  destruct (String.eqb_spec channelId (Store.Channel.id channel)) as [->|Hne].
  - now apply upsertChannel_cursor.
  - unfold Store.getChannelLastScrapedId.
    replace (Store.channels db1 !! channelId)
      with (Store.channels db !! channelId); [reflexivity|].
    unfold Store.upsertChannel in H.
    destruct (Store.channels db !! Store.Channel.id channel);
      [|destruct (Store.has_key _ _); [|discriminate]];
      injection H as <-; cbn [Store.channels Store.with_channels];
      now rewrite lookup_insert_ne.
Qed.

(** ** The message generator on arbitrary services *)

Section GeneratorFacts.

Lemma yielded_app (a b : list Messages.Event) :
  Messages.yielded (a ++ b) = Messages.yielded a ++ Messages.yielded b.
Proof. apply flat_map_app. Qed.

Lemma yielded_yields (bs : list Messages.Bundle) :
  Messages.yielded (map Messages.Yield bs) = bs.
Proof.
  induction bs as [|b bs IH]; [reflexivity|].
  cbn [map]. change (Messages.yielded (Messages.Yield b :: map Messages.Yield bs))
    with (b :: Messages.yielded (map Messages.Yield bs)).
  now rewrite IH.
Qed.

Lemma yielded_turn (r : Discord.FetchOptions) (ys : list Messages.Bundle)
    (d : Z) (evs : list Messages.Event) :
  Messages.yielded
    ((Messages.Fetch r :: map Messages.Yield ys)
     ++ (if 0 <? d then [Messages.Sleep d] else []) ++ evs) =
  ys ++ Messages.yielded evs.
Proof.
  rewrite !yielded_app.
  change (Messages.yielded (Messages.Fetch r :: map Messages.Yield ys))
    with (Messages.yielded (map Messages.Yield ys)).
  rewrite yielded_yields. destruct (0 <? d); reflexivity.
Qed.

Lemma requested_turn (r : Discord.FetchOptions) (ys : list Messages.Bundle)
    (d : Z) (evs : list Messages.Event) :
  Messages.requested
    ((Messages.Fetch r :: map Messages.Yield ys)
     ++ (if 0 <? d then [Messages.Sleep d] else []) ++ evs) =
  r :: Messages.requested evs.
Proof.
  rewrite !requested_app.
  change (Messages.requested (Messages.Fetch r :: map Messages.Yield ys))
    with (r :: Messages.requested (map Messages.Yield ys)).
  rewrite requested_yields. destruct (0 <? d); reflexivity.
Qed.

Lemma yieldLoop_limit (l : Z) (messageArray : list Discord.Message) :
  0 < l ->
  forall (count : Z) (ys : list Messages.Bundle) (n : Z) (broke : bool),
    Messages.yieldLoop (Some l) messageArray count = (ys, n, broke) ->
    count <= l ->
    n = count + Z.of_nat (length ys) /\ n <= l.
Proof.
  intros Hl. induction messageArray as [|m rest IH];
    intros count ys n broke H Hc.
  - injection H as <- <- _. cbn [length]. lia.
  - cbn [Messages.yieldLoop] in H.
    destruct (Messages.limitReached (Some l) count) eqn:E.
    + injection H as <- <- _. cbn [length]. lia.
    + destruct (Messages.yieldLoop (Some l) rest (count + 1))
        as [[ys' n'] broke'] eqn:E'.
      injection H as <- <- _.
      unfold Messages.limitReached, truthy_Z in E.
      replace (l =? 0) with false in E by (symmetry; apply Z.eqb_neq; lia).
      cbn [negb andb] in E. rewrite Z.geb_leb in E. apply Z.leb_gt in E.
      destruct (IH _ _ _ _ E' ltac:(lia)) as [-> Hn].
      cbn [length]. lia.
Qed.

Variable fetch : nat -> Discord.FetchOptions -> Result (list Discord.Message).
Variable options : Messages.Options.

Lemma fetchLoop_limit (l : Z) (fuel : nat) :
  Messages.limit options = Some l -> 0 < l ->
  forall (k : nat) (count : Z) (lastId : option string),
    count <= l ->
    count
    + Z.of_nat
        (length
           (Messages.yielded
              (fst (Messages.fetchLoop fetch options fuel k count lastId))))
    <= l.
Proof.
  intros Hlim Hl. induction fuel as [|fuel IH]; intros k count lastId Hc.
  - cbn. lia.
  - cbn [Messages.fetchLoop].
    destruct (Messages.limitReached _ count); [cbn; lia|].
    destruct (fetch k _) as [e|messages]; [cbn; lia|].
    destruct (length messages =? 0)%nat; [cbn; lia|].
    rewrite Hlim.
    destruct (Messages.yieldLoop (Some l) _ count) as [[ys n] broke] eqn:Ey.
    destruct (yieldLoop_limit l _ Hl _ _ _ _ Ey Hc) as [-> Hn].
    destruct (negb broke && _).
    + specialize (IH (S k) (count + Z.of_nat (length ys))
                    (Messages.lastIdOf
                       (stableSort Messages.newestFirst messages)) Hn).
      destruct (Messages.fetchLoop fetch options fuel (S k) _ _)
        as [evs ending].
      cbn [fst] in *. rewrite yielded_turn, length_app. lia.
    + cbn [fst].
      change (Messages.yielded (Messages.Fetch _ :: map Messages.Yield ys))
        with (Messages.yielded (map Messages.Yield ys)).
      rewrite yielded_yields. lia.
Qed.

(** The first request of a run of the loop, and every later one. *)
Lemma fetchLoop_requests (fuel : nat) :
  forall (k0 : nat) (count : Z) (lastId : option string),
    let reqs :=
      Messages.requested
        (fst (Messages.fetchLoop fetch options fuel k0 count lastId)) in
    (forall r, nth_error reqs 0 = Some r ->
               r = Messages.buildFetchOptions lastId (Messages.after options)) /\
    (forall j r,
        nth_error reqs (S j) = Some r ->
        exists r0 page,
          nth_error reqs j = Some r0 /\
          fetch (k0 + j)%nat r0 = Ok page /\
          r = Messages.buildFetchOptions
                (Messages.lastIdOf (stableSort Messages.newestFirst page))
                (Messages.after options)).
Proof.
  induction fuel as [|fuel IH]; intros k0 count lastId reqs; subst reqs.
  - cbn. split; [discriminate|]. intros j r H. destruct j; discriminate.
  - cbn [Messages.fetchLoop].
    destruct (Messages.limitReached _ count).
    { cbn. split; [discriminate|]. intros j r H. destruct j; discriminate. }
    set (first := Messages.buildFetchOptions lastId (Messages.after options)).
    destruct (fetch k0 first) as [e|messages] eqn:Ef.
    { cbn. split; [now intros r [= <-]|]. intros j r H.
      destruct j; discriminate. }
    destruct (length messages =? 0)%nat.
    { cbn. split; [now intros r [= <-]|]. intros j r H.
      destruct j; discriminate. }
    destruct (Messages.yieldLoop _ _ count) as [[ys n] broke].
    destruct (negb broke && _).
    + specialize (IH (S k0) n
                    (Messages.lastIdOf
                       (stableSort Messages.newestFirst messages))).
      destruct (Messages.fetchLoop fetch options fuel (S k0) _ _)
        as [evs ending].
      cbn [fst] in *. rewrite requested_turn.
      destruct IH as [IH0 IHS].
      split; [now intros r [= <-]|].
      intros [|j] r H; cbn [nth_error] in H.
      * exists first, messages. rewrite Nat.add_0_r.
        repeat split; [exact Ef|]. now apply IH0.
      * destruct (IHS j r H) as (r0 & page & Hr0 & Hpage & Hr).
        exists r0, page. cbn [nth_error].
        replace (k0 + S j)%nat with (S k0 + j)%nat by lia.
        now repeat split.
    + cbn [fst].
      change (Messages.requested
                (Messages.Fetch first :: map Messages.Yield ys))
        with (first :: Messages.requested (map Messages.Yield ys)).
      rewrite requested_yields.
      split; [now intros r [= <-]|]. intros j r H. destruct j; discriminate.
Qed.

Lemma sorted_newestFirst (page : list Discord.Message) :
  newestFirstSorted (stableSort Messages.newestFirst page).
Proof.
  apply stableSort_sorted; unfold Messages.newestFirst.
  - intros x y H. now apply Z.leb_le.
  - intros x y H. apply Z.leb_gt in H. lia.
  - intros x y z; cbn. lia.
Qed.

End GeneratorFacts.

(** X19.  With a positive [limit], [fetchMessages] yields at most
    [limit] messages, whatever the service answers and however long it
    runs. *)
Theorem fetchMessages_respects_limit :
  forall (fetch : nat -> Discord.FetchOptions -> Result (list Discord.Message))
         (options : Messages.Options) (fuel : nat) (l : Z),
    Messages.limit options = Some l -> 0 < l ->
    Z.of_nat
      (length
         (Messages.yielded (fst (Messages.fetchMessages fetch options fuel))))
    <= l.
Proof.
  intros fetch options fuel l Hlim Hl. unfold Messages.fetchMessages.
  pose proof (fetchLoop_limit fetch options l fuel Hlim Hl 0%nat 0
                (Messages.before options) ltac:(lia)).
  lia.
Qed.

Lemma fetchMessages_respects_limit_witness :
  Z.of_nat
    (length
       (Messages.yielded
          (fst (Messages.fetchMessages
                  (Service.fetch "c1" [100; 200; 300]%nat) Cold.firstTwo 10))))
  <= 2.
Proof.
  apply (fetchMessages_respects_limit
           (Service.fetch "c1" [100; 200; 300]%nat) Cold.firstTwo 10 2).
  - reflexivity.
  - reflexivity.
Defined.

(** X20.  Without a limit, when the first page has fewer than 100
    messages, [fetchMessages] makes that one request, yields the
    messages of the page once each, newest first, and returns. *)
Theorem fetchMessages_last_page :
  forall (fetch : nat -> Discord.FetchOptions -> Result (list Discord.Message))
         (options : Messages.Options) (fuel : nat)
         (page : list Discord.Message),
    let first :=
      Messages.buildFetchOptions (Messages.before options)
        (Messages.after options) in
    let sorted := stableSort Messages.newestFirst page in
    Messages.limit options = None ->
    fetch 0%nat first = Ok page ->
    (length page < 100)%nat ->
    Messages.fetchMessages fetch options (S fuel) =
      (Messages.Fetch first
       :: map Messages.Yield (map Messages.bundleOf sorted),
       Messages.Done) /\
    Permutation sorted page /\
    newestFirstSorted sorted.
Proof.
  intros fetch options fuel page first sorted Hlim Hfetch Hlen.
  split; [|split; [apply stableSort_perm|apply sorted_newestFirst]].
  unfold Messages.fetchMessages. cbn [Messages.fetchLoop].
  rewrite Hlim. cbn [Messages.limitReached]. fold first. rewrite Hfetch.
  destruct page as [|m page]; [reflexivity|].
  cbn [length Nat.eqb]. fold sorted. rewrite yieldLoop_no_limit.
  replace (Z.of_nat (S (length page)) <? Messages.FETCH_LIMIT) with true
    by (symmetry; apply Z.ltb_lt; unfold Messages.FETCH_LIMIT;
        cbn [length] in Hlen; lia).
  reflexivity.
Qed.

Lemma fetchMessages_last_page_witness :
  yieldedIds
    (fst (Messages.fetchMessages (Service.fetch "c1" [100; 200; 300]%nat)
            Cold.whole 1)) = ["300"; "200"; "100"].
Proof.
  destruct (fetchMessages_last_page (Service.fetch "c1" [100; 200; 300]%nat)
              Cold.whole 0
              (map (Service.messageAt "c1") [300; 200; 100]%nat)
              eq_refl eq_refl) as [H _].
  - vm_compute. lia.
  - rewrite H. vm_compute. reflexivity.
Defined.

(** X21.  The first request of [fetchMessages] carries the [before] and
    [after] it was given; every later request is built from the page the
    previous request returned: it asks for the messages before the
    oldest message of that page and carries no [after]. *)
Theorem fetchMessages_pages_backwards :
  forall (fetch : nat -> Discord.FetchOptions -> Result (list Discord.Message))
         (options : Messages.Options) (fuel : nat),
    let reqs :=
      Messages.requested (fst (Messages.fetchMessages fetch options fuel)) in
    (forall r, nth_error reqs 0 = Some r ->
               r = Messages.buildFetchOptions (Messages.before options)
                     (Messages.after options)) /\
    (forall k r,
        nth_error reqs (S k) = Some r ->
        exists r0 page,
          nth_error reqs k = Some r0 /\
          fetch k r0 = Ok page /\
          r = Messages.buildFetchOptions
                (Messages.lastIdOf (stableSort Messages.newestFirst page))
                (Messages.after options) /\
          forall oldest,
            Messages.lastIdOf (stableSort Messages.newestFirst page) =
              Some oldest ->
            truthy_str oldest = true ->
            r = {| Discord.limit := 100; Discord.before := Some oldest;
                   Discord.after := None |}).
Proof.
  intros fetch options fuel reqs. subst reqs. unfold Messages.fetchMessages.
  destruct (fetchLoop_requests fetch options fuel 0 0 (Messages.before options))
    as [H0 HS].
  split; [exact H0|].
  intros k r H. destruct (HS k r H) as (r0 & page & Hr0 & Hpage & Hr).
  exists r0, page. repeat split; try assumption.
  intros oldest Ho Ht. rewrite Hr, Ho.
  unfold Messages.buildFetchOptions. cbn [truthy_ostr]. now rewrite Ht.
Qed.

(** ** The scrape pass: what it leaves alone *)

Section ScrapeFrames.

(** Nothing stored is lost and no AI result changes. *)
Let kept (a b : Store.DB) : Prop :=
  keeps_messages a b /\ Store.ai_processing b = Store.ai_processing a.

Lemma kept_refl (db : Store.DB) : kept db db.
Proof. split; [now intros i H|reflexivity]. Qed.

Lemma kept_trans (a b c : Store.DB) : kept a b -> kept b c -> kept a c.
Proof.
  intros [H1 A1] [H2 A2]. split; [|congruence].
  intros i H. apply H2, H1, H.
Qed.

Lemma kept_same_messages (a b : Store.DB) :
  Store.messages b = Store.messages a ->
  Store.ai_processing b = Store.ai_processing a ->
  kept a b.
Proof.
  intros Hm Ha. split; [|exact Ha].
  intros i H. now rewrite (hasMessage_messages a b i Hm).
Qed.

Lemma kept_upsertMessage db m db' :
  Store.upsertMessage db m = Ok db' -> kept db db'.
Proof.
  intros H. split; [exact (upsertMessage_keeps db m db' H)|].
  unfold Store.upsertMessage in H.
  destruct (Store.getMessage db (Store.Message.id m));
    [|destruct (_ && _); [|discriminate]]; now injection H as <-.
Qed.

Lemma kept_upsertEmbed db e db' :
  Store.upsertEmbed db e = Ok db' -> kept db db'.
Proof.
  unfold Store.upsertEmbed. destruct (Store.hasMessage _ _); [|discriminate].
  intros [= <-]. now apply kept_same_messages.
Qed.

Lemma kept_upsertAttachment db a db' :
  Store.upsertAttachment db a = Ok db' -> kept db db'.
Proof.
  unfold Store.upsertAttachment.
  destruct (Store.attachments db !! _);
    [|destruct (Store.hasMessage _ _); [|discriminate]];
    intros [= <-]; now apply kept_same_messages.
Qed.

Lemma kept_upsertReaction db r db' :
  Store.upsertReaction db r = Ok db' -> kept db db'.
Proof.
  unfold Store.upsertReaction.
  destruct (Store.reactions db !! _);
    [|destruct (Store.hasMessage _ _); [|discriminate]];
    intros [= <-]; now apply kept_same_messages.
Qed.

Lemma kept_upsertChannel db c db' :
  Store.upsertChannel db c = Ok db' -> kept db db'.
Proof.
  unfold Store.upsertChannel.
  destruct (Store.channels db !! _);
    [|destruct (Store.has_key _ _); [|discriminate]];
    intros [= <-]; now apply kept_same_messages.
Qed.

Lemma kept_updateChannelLastScraped db c i :
  kept db (Store.updateChannelLastScraped db c i).
Proof.
  unfold Store.updateChannelLastScraped.
  destruct (Store.channels db !! c); [now apply kept_same_messages|].
  apply kept_refl.
Qed.

Lemma kept_consume bundles db n latest db' r :
  Scrape.consume bundles db n latest = (db', r) -> kept db db'.
Proof.
  apply (consume_frame kept kept_refl kept_trans).
  - intros d u. now apply kept_same_messages.
  - exact kept_upsertMessage.
  - exact kept_upsertEmbed.
  - exact kept_upsertAttachment.
  - exact kept_upsertReaction.
Qed.

Variable world : Scrape.World.
Variable options : Scrape.Options.
Variable fuel : nat.

Lemma kept_scrapeChannel db channel db' out :
  Scrape.scrapeChannel world options fuel db channel = (db', out) ->
  kept db db'.
Proof.
  unfold Scrape.scrapeChannel.
  destruct (Store.upsertChannel db _) as [e|db1] eqn:Ec.
  - intros [= <- _]. apply kept_refl.
  - pose proof (kept_upsertChannel _ _ _ Ec) as H1.
    destruct (Scrape.channelFeed world options fuel db1 channel)
      as [evs ending].
    destruct (Scrape.consume (Messages.yielded evs) db1 0 None)
      as [db2 [e|[n latest]]] eqn:Econ;
      pose proof (kept_consume _ _ _ _ _ _ Econ) as H2.
    + intros [= <- _]. now apply (kept_trans db db1 db2).
    + destruct ending.
      * intros [= <- _]. apply (kept_trans db db2); [now apply (kept_trans db db1)|].
        destruct latest as [l|]; [|apply kept_refl].
        destruct (truthy_str l); [|apply kept_refl].
        apply kept_updateChannelLastScraped.
      * intros [= <- _]. now apply (kept_trans db db1 db2).
      * intros [= <- _]. now apply (kept_trans db db1 db2).
Qed.

Lemma kept_channelLoop channels :
  forall db tm tc db' out,
    Scrape.channelLoop world options fuel channels db tm tc = (db', out) ->
    kept db db'.
Proof.
  induction channels as [|ch rest IH]; intros db tm tc db' out H.
  - injection H as <- _. apply kept_refl.
  - cbn [Scrape.channelLoop] in H.
    destruct (Scrape.scrapeChannel world options fuel db ch)
      as [db1 o] eqn:E.
    pose proof (kept_scrapeChannel _ _ _ _ E) as H1.
    destruct o.
    + apply (kept_trans db db1); [exact H1|]. eapply IH. exact H.
    + apply (kept_trans db db1); [exact H1|]. eapply IH. exact H.
    + now injection H as <- _.
    + now injection H as <- _.
Qed.

Lemma kept_scrapeCommand db0 :
  kept db0 (fst (fst (Scrape.scrapeCommand world options fuel db0))).
Proof.
  unfold Scrape.scrapeCommand.
  destruct (negb (truthy_ostr _)); [apply kept_refl|].
  destruct (Scrape.DISCORD_GUILD_ID world) as [guildId|]; [|apply kept_refl].
  destruct (negb (truthy_str guildId)); [apply kept_refl|].
  destruct (Scrape.createClient world); [apply kept_refl|].
  destruct (Scrape.getGuild world) as [e|guild]; [apply kept_refl|].
  set (db1 := if negb (Scrape.dryRun options) then _ else db0).
  assert (kept db0 db1) as H1.
  { subst db1. destruct (negb _); [|apply kept_refl].
    now apply kept_same_messages. }
  destruct (negb (Scrape.dryRun options)) eqn:Edry.
  - destruct (Store.createSyncState db1 _ guildId None) as [e|[i db2]] eqn:Es;
      [exact H1|].
    assert (kept db0 db2) as H2.
    { apply (kept_trans db0 db1); [exact H1|].
      unfold Store.createSyncState in Es.
      destruct (_ && _); [|discriminate]. injection Es as _ <-.
      now apply kept_same_messages. }
    destruct (Scrape.channelsFetch world) as [e|fetched]; [exact H2|].
    apply negb_true_iff in Edry. rewrite Edry.
    destruct (Scrape.channelLoop world options fuel _ db2 0 0)
      as [db3 o] eqn:El.
    pose proof (kept_channelLoop _ _ _ _ _ _ El) as H3.
    destruct o; cbn [fst]; try now apply (kept_trans db0 db2).
    apply (kept_trans db0 db3); [now apply (kept_trans db0 db2)|].
    unfold Store.completeSyncState.
    destruct (Store.sync_state db3 !! i); [now apply kept_same_messages|].
    apply kept_refl.
  - destruct (Scrape.channelsFetch world) as [e|fetched]; [exact H1|].
    apply negb_false_iff in Edry. rewrite Edry. exact H1.
Qed.

Lemma scrapeChannel_channels db channel db' out :
  Scrape.scrapeChannel world options fuel db channel = (db', out) ->
  (forall i, i <> Discord.chan_id channel ->
             Store.getChannelLastScrapedId db' i =
             Store.getChannelLastScrapedId db i) /\
  ((forall n, out <> Scrape.Scraped n) ->
   forall i, Store.getChannelLastScrapedId db' i =
             Store.getChannelLastScrapedId db i).
Proof.
  unfold Scrape.scrapeChannel.
  destruct (Store.upsertChannel db _) as [e|db1] eqn:Ec.
  - intros [= <- _]. now split.
  - pose proof (upsertChannel_keeps_cursors _ _ _ Ec) as H1.
    destruct (Scrape.channelFeed world options fuel db1 channel)
      as [evs ending].
    destruct (Scrape.consume (Messages.yielded evs) db1 0 None)
      as [db2 r] eqn:Econ.
    pose proof (consume_channels _ _ _ _ _ _ Econ) as H2.
    assert (forall i, Store.getChannelLastScrapedId db2 i =
                      Store.getChannelLastScrapedId db i) as H12.
    { intros i. rewrite <- H1. unfold Store.getChannelLastScrapedId.
      now rewrite H2. }
    destruct r as [e|[n latest]]; [intros [= <- _]; now split|].
    destruct ending; try (intros [= <- _]; now split).
    intros [= <- <-]. split; [|intros Hno; now destruct (Hno n)].
    intros i Hne. rewrite <- H12.
    destruct latest as [l|]; [|reflexivity].
    destruct (truthy_str l); [|reflexivity].
    unfold Store.updateChannelLastScraped, Store.getChannelLastScrapedId.
    destruct (Store.channels db2 !! Discord.chan_id channel); [|reflexivity].
    cbn [Store.channels Store.with_channels].
    now rewrite lookup_insert_ne.
Qed.

End ScrapeFrames.

(** X22.  A dry run of the scrape command leaves the database as it
    found it and opens no sync row; it ends as a dry run or with the
    error that stopped it. *)
Theorem scrapeCommand_dry_run :
  forall (world : Scrape.World) (options : Scrape.Options) (fuel : nat)
         (db0 : Store.DB),
    Scrape.dryRun options = true ->
    let '(db, syncId, out) := Scrape.scrapeCommand world options fuel db0 in
    db = db0 /\ syncId = None /\
    (out = Scrape.DryRun \/ exists e, out = Scrape.Exit1 e).
Proof.
  intros world options fuel db0 Hdry. unfold Scrape.scrapeCommand.
  rewrite Hdry. cbn [negb].
  destruct (negb (truthy_ostr _)); [repeat split; eauto|].
  destruct (Scrape.DISCORD_GUILD_ID world) as [guildId|];
    [|repeat split; eauto].
  destruct (negb (truthy_str guildId)); [repeat split; eauto|].
  destruct (Scrape.createClient world); [repeat split; eauto|].
  destruct (Scrape.getGuild world); [repeat split; eauto|].
  destruct (Scrape.channelsFetch world); repeat split; eauto.
Qed.

Lemma scrapeCommand_dry_run_witness :
  Scrape.scrapeCommand Service.small Cold.dryRun 10 StoreFixtures.emptyDB =
  (StoreFixtures.emptyDB, None, Scrape.DryRun).
Proof.
  pose proof (scrapeCommand_dry_run Service.small Cold.dryRun 10
                StoreFixtures.emptyDB eq_refl) as H.
  destruct (Scrape.scrapeCommand Service.small Cold.dryRun 10
              StoreFixtures.emptyDB) as [[db syncId] out] eqn:E.
  destruct H as (-> & -> & _). f_equal.
  vm_compute in E. now injection E as <-.
Defined.

(** X23.  Whatever the service answers, the scrape command never loses
    a stored message and never changes an AI result: every message id
    found in the database before the pass is found after it, and the
    [ai_processing] table is untouched. *)
Theorem scrapeCommand_keeps_messages :
  forall (world : Scrape.World) (options : Scrape.Options) (fuel : nat)
         (db0 : Store.DB),
    let db := fst (fst (Scrape.scrapeCommand world options fuel db0)) in
    keeps_messages db0 db /\
    Store.ai_processing db = Store.ai_processing db0.
Proof.
  intros world options fuel db0. apply kept_scrapeCommand.
Qed.

(** X24.  The work on one channel never moves the resume cursor of
    another channel, and moves its own only when the channel was scraped
    to the end: after an error, or while still paging, every cursor is
    where it was. *)
Theorem scrapeChannel_cursors :
  forall (world : Scrape.World) (options : Scrape.Options) (fuel : nat)
         (db : Store.DB) (channel : Discord.Channel),
    let '(db', out) := Scrape.scrapeChannel world options fuel db channel in
    (forall i, i <> Discord.chan_id channel ->
               Store.getChannelLastScrapedId db' i =
               Store.getChannelLastScrapedId db i) /\
    ((forall n, out <> Scrape.Scraped n) ->
     forall i, Store.getChannelLastScrapedId db' i =
               Store.getChannelLastScrapedId db i).
Proof.
  intros world options fuel db channel.
  destruct (Scrape.scrapeChannel world options fuel db channel)
    as [db' out] eqn:E.
  exact (scrapeChannel_channels world options fuel db channel db' out E).
Qed.
(** ** The channels the scrape pass writes *)

Section ChannelRows.

(** Every channel row of [b] was in [a] or is the row of one of [chs]. *)
Let among (chs : list Discord.Channel) (a b : Store.DB) : Prop :=
  forall i, is_Some (Store.channels b !! i) ->
            is_Some (Store.channels a !! i) \/
            exists ch, In ch chs /\ Discord.chan_id ch = i.

Lemma among_same (chs : list Discord.Channel) (a b : Store.DB) :
  Store.channels b = Store.channels a -> among chs a b.
Proof. intros H i Hi. left. now rewrite <- H. Qed.

Lemma among_trans (chs : list Discord.Channel) (a b c : Store.DB) :
  among chs a b -> among chs b c -> among chs a c.
Proof.
  intros Hab Hbc i Hi. destruct (Hbc i Hi) as [H|H]; [now apply Hab|now right].
Qed.

Lemma among_more (chs : list Discord.Channel) (ch : Discord.Channel)
    (a b : Store.DB) :
  among chs a b -> among (ch :: chs) a b.
Proof.
  intros H i Hi. destruct (H i Hi) as [H'|(c & Hc & Hid)]; [now left|].
  right. exists c. split; [now right|exact Hid].
Qed.

Lemma among_upsertChannel (ch : Discord.Channel) (db db1 : Store.DB) :
  Store.upsertChannel db (Client.formatChannelData ch) = Ok db1 ->
  among [ch] db db1.
Proof.
  intros H i Hi.
  destruct (String.eqb_spec (Discord.chan_id ch) i) as [<-|Hne].
  - right. exists ch. split; [now left|reflexivity].
  - left. unfold Store.upsertChannel in H.
    cbn [Client.formatChannelData Store.Channel.id] in H.
    destruct (Store.channels db !! Discord.chan_id ch);
      [|destruct (Store.has_key _ _); [|discriminate]];
      injection H as <-; cbn [Store.channels Store.with_channels] in Hi;
      now rewrite lookup_insert_ne in Hi.
Qed.

Lemma among_updateChannelLastScraped (chs : list Discord.Channel)
    (db : Store.DB) (c i : string) :
  among chs db (Store.updateChannelLastScraped db c i).
Proof.
  intros k Hk. left. unfold Store.updateChannelLastScraped in Hk.
  destruct (Store.channels db !! c) as [row|] eqn:E; [|exact Hk].
  cbn [Store.channels Store.with_channels] in Hk.
  destruct (String.eqb_spec c k) as [<-|Hne].
  - rewrite E. eauto.
  - now rewrite lookup_insert_ne in Hk.
Qed.

Variable world : Scrape.World.
Variable options : Scrape.Options.
Variable fuel : nat.

Lemma among_scrapeChannel db channel db' out :
  Scrape.scrapeChannel world options fuel db channel = (db', out) ->
  among [channel] db db'.
Proof.
  unfold Scrape.scrapeChannel.
  destruct (Store.upsertChannel db _) as [e|db1] eqn:Ec.
  - intros [= <- _]. now apply among_same.
  - pose proof (among_upsertChannel _ _ _ Ec) as H1.
    destruct (Scrape.channelFeed world options fuel db1 channel)
      as [evs ending].
    destruct (Scrape.consume (Messages.yielded evs) db1 0 None)
      as [db2 r] eqn:Econ.
    pose proof (among_same [channel] db1 db2
                  (consume_channels _ _ _ _ _ _ Econ)) as H2.
    pose proof (among_trans _ _ _ _ H1 H2) as H12.
    destruct r as [e|[n latest]]; [now intros [= <- _]|].
    destruct ending; try now intros [= <- _].
    intros [= <- _]. apply (among_trans _ db db2); [exact H12|].
    destruct latest as [l|]; [|now apply among_same].
    destruct (truthy_str l); [|now apply among_same].
    apply among_updateChannelLastScraped.
Qed.

Lemma among_channelLoop channels :
  forall db tm tc db' out,
    Scrape.channelLoop world options fuel channels db tm tc = (db', out) ->
    among channels db db'.
Proof.
  induction channels as [|ch rest IH]; intros db tm tc db' out H.
  - injection H as <- _. now apply among_same.
  - cbn [Scrape.channelLoop] in H.
    destruct (Scrape.scrapeChannel world options fuel db ch)
      as [db1 o] eqn:E.
    assert (among (ch :: rest) db db1) as H1.
    { intros i Hi.
      destruct (among_scrapeChannel _ _ _ _ E i Hi)
        as [H'|(c & [<-|[]] & Hid)]; [now left|].
      right. exists ch. split; [now left|exact Hid]. }
    destruct o.
    + apply (among_trans _ db db1); [exact H1|].
      apply among_more. eapply IH. exact H.
    + apply (among_trans _ db db1); [exact H1|].
      apply among_more. eapply IH. exact H.
    + now injection H as <- _.
    + now injection H as <- _.
Qed.

Lemma among_scrapeCommand db0 :
  among
    match Scrape.channelsFetch world with
    | Ok fetched =>
        List.filter Client.canReadChannel
          (List.filter (Scrape.requested world options)
             (List.filter Client.isTextChannel fetched))
    | Throw _ => []
    end
    db0 (fst (fst (Scrape.scrapeCommand world options fuel db0))).
Proof.
  unfold Scrape.scrapeCommand.
  destruct (negb (truthy_ostr _)); [now apply among_same|].
  destruct (Scrape.DISCORD_GUILD_ID world) as [guildId|];
    [|now apply among_same].
  destruct (negb (truthy_str guildId)); [now apply among_same|].
  destruct (Scrape.createClient world); [now apply among_same|].
  destruct (Scrape.getGuild world) as [e|guild]; [now apply among_same|].
  set (db1 := if negb (Scrape.dryRun options) then _ else db0).
  assert (Store.channels db1 = Store.channels db0) as H1
      by (subst db1; now destruct (negb _)).
  destruct (negb (Scrape.dryRun options)) eqn:Edry.
  - destruct (Store.createSyncState db1 _ guildId None) as [e|[i db2]] eqn:Es;
      [now apply among_same|].
    assert (Store.channels db2 = Store.channels db0) as H2.
    { rewrite <- H1. unfold Store.createSyncState in Es.
      destruct (_ && _); [|discriminate]. now injection Es as _ <-. }
    destruct (Scrape.channelsFetch world) as [e|fetched];
      [now apply among_same|].
    apply negb_true_iff in Edry. rewrite Edry.
    destruct (Scrape.channelLoop world options fuel _ db2 0 0)
      as [db3 o] eqn:El.
    pose proof (among_channelLoop _ _ _ _ _ _ El) as H3.
    assert (among
              (List.filter Client.canReadChannel
                 (List.filter (Scrape.requested world options)
                    (List.filter Client.isTextChannel fetched))) db0 db3)
      as H03.
    { apply (among_trans _ db0 db2); [now apply among_same|exact H3]. }
    destruct o; cbn [fst]; try exact H03.
    apply (among_trans _ db0 db3); [exact H03|]. apply among_same.
    unfold Store.completeSyncState.
    destruct (Store.sync_state db3 !! i); reflexivity.
  - destruct (Scrape.channelsFetch world) as [e|fetched];
      [now apply among_same|].
    apply negb_false_iff in Edry. rewrite Edry. now apply among_same.
Qed.

End ChannelRows.

(** X25.  Every channel row in the database after the scrape command was
    there before it, or is the row of a channel the service listed that
    is text-based and not voice-based, not of an excluded type (voice,
    category, stage, directory, media), that the bot may view and read
    the history of, and, when channel names were given, whose name in
    lower case ([toLowerCase], taken as given) is the lower case of one
    of the given names. *)
Theorem scrapeCommand_channels :
  forall (world : Scrape.World) (options : Scrape.Options) (fuel : nat)
         (db0 : Store.DB) (channelId : string),
    is_Some
      (Store.channels (fst (fst (Scrape.scrapeCommand world options fuel db0)))
         !! channelId) ->
    is_Some (Store.channels db0 !! channelId) \/
    exists fetched ch,
      Scrape.channelsFetch world = Ok fetched /\
      In ch fetched /\
      Discord.chan_id ch = channelId /\
      Discord.isTextBased ch = true /\
      Discord.isVoiceBased ch = false /\
      ~ In (Discord.chan_type ch) [2; 4; 13; 14; 16] /\
      match Scrape.channel options with
      | Some names =>
          exists name,
            In name names /\
            Scrape.toLowerCase world (Discord.chan_name ch) =
            Scrape.toLowerCase world name
      | None => True
      end /\
      Discord.permissions ch = Some (true, true).
Proof.
  intros world options fuel db0 channelId H.
  destruct (among_scrapeCommand world options fuel db0 channelId H)
    as [H0|(ch & Hin & Hid)]; [now left|right].
  destruct (Scrape.channelsFetch world) as [e|fetched]; [destruct Hin|].
  apply filter_In in Hin. destruct Hin as [Hin Hread].
  apply filter_In in Hin. destruct Hin as [Hin Hreq].
  apply filter_In in Hin. destruct Hin as [Hin Htext].
  exists fetched, ch. split; [reflexivity|]. split; [exact Hin|].
  split; [exact Hid|].
  unfold Client.isTextChannel in Htext.
  destruct (existsb _ Client.defaultExcludeTypes) eqn:Ex; [discriminate|].
  apply andb_true_iff in Htext. destruct Htext as [Ht Hv].
  apply negb_true_iff in Hv.
  split; [exact Ht|]. split; [exact Hv|]. split; [|split].
  - intros Hbad.
    assert (existsb (Z.eqb (Discord.chan_type ch)) Client.defaultExcludeTypes
            = true) as Hex; [|congruence].
    apply existsb_exists. exists (Discord.chan_type ch).
    split; [exact Hbad|apply Z.eqb_refl].
  - unfold Scrape.requested in Hreq.
    destruct (Scrape.channel options) as [names|]; [|exact I].
    apply existsb_exists in Hreq. destruct Hreq as (lowered & Hl & Heq).
    apply String.eqb_eq in Heq. apply in_map_iff in Hl.
    destruct Hl as (name & <- & Hname). exists name. now split.
  - unfold Client.canReadChannel in Hread.
    destruct (Discord.permissions ch) as [[view history]|]; [|discriminate].
    apply andb_true_iff in Hread. destruct Hread as [-> ->]. reflexivity.
Qed.

Lemma scrapeCommand_channels_witness :
  exists fetched ch,
    Scrape.channelsFetch Service.small = Ok fetched /\
    In ch fetched /\
    Discord.chan_id ch = "c1" /\
    (exists name,
        In name ["GENERAL"; "Announcements"] /\
        Scrape.toLowerCase Service.small (Discord.chan_name ch) =
        Scrape.toLowerCase Service.small name) /\
    Discord.permissions ch = Some (true, true).
Proof.
  destruct (scrapeCommand_channels Service.small Service.namedRun 10
              StoreFixtures.emptyDB "c1")
    as [[row Hrow]|(fetched & ch & Hf & Hin & Hid & _ & _ & _ & Hn & Hp)].
  - vm_compute. eauto.
  - vm_compute in Hrow. discriminate.
  - exists fetched, ch. now repeat split.
Defined.

(** ** The filter stage on arbitrary models *)

Section RetryRequests.

(** The requests of one [processWithRetry] stay within the attempts the
    configuration allows. *)
Lemma processWithRetry_requests {A} (config : Config.t)
    (fn : nat -> Result A) (random : nat -> Q) :
  1 <= Config.ai_retryAttempts config ->
  (1 <= Retry.requests
          (snd (Retry.processWithRetry config fn random Retry.noOptions))
   <= Z.to_nat (Config.ai_retryAttempts config))%nat.
Proof.
  intros H. unfold Retry.processWithRetry, Retry.attemptRange.
  cbn [Retry.noOptions Retry.maxRetries Retry.baseDelay
         Retry.backoffMultiplier Retry.maxDelay default].
  destruct (Z.to_nat (Config.ai_retryAttempts config)) as [|n] eqn:En; [lia|].
  match goal with
  | |- context [Retry.attemptLoop fn random ?r ?b ?m ?d _ _] =>
      pose proof (attemptLoop_budget fn random r b m d n 1 0) as Hb
  end.
  destruct (Retry.attemptLoop _ _ _ _ _ _ _ _) as [out evs].
  cbn [snd]. apply Hb. lia.
Qed.

End RetryRequests.

Section StageRuns.

Variable config : Config.t.
Variable llm : nat -> string -> Result Filter.LlmResponse.
Variable random : nat -> Q.
Variable JSON_parse : string -> option json.
Variable stringifyMessage : Filter.Enriched -> string.
Variable stringifyBatch : list Filter.Enriched -> string.
Variable stringifyPretty : list Filter.Enriched -> string.
Variable stringifyJson : json -> string.
Variable buildPrompt : string -> string.

Let processBatch :=
  Filter.processBatch config llm random JSON_parse stringifyPretty
    stringifyJson buildPrompt.
Let batchLoop :=
  Filter.batchLoop config llm random JSON_parse stringifyPretty
    stringifyJson buildPrompt.
Let storeDecision := Filter.storeDecision config stringifyJson.

(** The counters add up. *)
Let balanced (res : Filter.Results) : Prop :=
  Filter.processed res = Filter.kept res + Filter.discarded res /\
  0 <= Filter.kept res /\ 0 <= Filter.discarded res.

(** [b] is [a] with rows added to [ai_processing] under the filter keys
    of [ids], and nothing else changed. *)
Let grows (ids : list string) (a b : Store.DB) : Prop :=
  b = Store.with_ai a (Store.ai_processing b) /\
  forall k,
    Store.ai_processing b !! k = Store.ai_processing a !! k \/
    exists i, In i ids /\ k = ("message", i, "filter").

Lemma grows_refl (ids : list string) (a : Store.DB) : grows ids a a.
Proof. split; [now destruct a|]. intros k. now left. Qed.

Lemma grows_trans (ids : list string) (a b c : Store.DB) :
  grows ids a b -> grows ids b c -> grows ids a c.
Proof.
  intros [Hb Hab] [Hc Hbc]. split.
  - rewrite Hc at 1. rewrite Hb at 1. reflexivity.
  - intros k. destruct (Hbc k) as [->|H]; [apply Hab|now right].
Qed.

(** What one decision does. *)
Lemma storeDecision_cases (batch_ : list Filter.Enriched) (db : Store.DB)
    (res : Filter.Results) (decision : json) :
  storeDecision batch_ (db, res) decision = (db, res) \/
  exists (m : Filter.Enriched) (data : Store.AIProcessing.data)
         (keep : bool),
    In m batch_ /\
    Store.AIProcessing.key data = ("message", Filter.idOf m, "filter") /\
    storeDecision batch_ (db, res) decision =
      (Store.upsertAIProcessing db data,
       {| Filter.processed := Filter.processed res + 1;
          Filter.kept :=
            if keep then Filter.kept res + 1 else Filter.kept res;
          Filter.discarded :=
            if keep then Filter.discarded res
            else Filter.discarded res + 1;
          Filter.errors := Filter.errors res |}).
Proof.
  unfold storeDecision, Filter.storeDecision.
  destruct decision as [| | | | |fields]; try now left.
  destruct (jget "id" fields) as [[| | |decisionId| |]|]; try now left.
  destruct (List.find _ batch_) as [m|] eqn:E; [|now left].
  right. apply find_some in E. destruct E as [Hin _].
  eexists m, _, _. split; [exact Hin|]. split; [|reflexivity]. reflexivity.
Qed.

Lemma storeDecision_keeps (ids : list string) (batch_ : list Filter.Enriched)
    (decisions : list json) :
  (forall m, In m batch_ -> In (Filter.idOf m) ids) ->
  forall (db db' : Store.DB) (res res' : Filter.Results),
    fold_left (storeDecision batch_) decisions (db, res) = (db', res') ->
    grows ids db db' /\
    (balanced res -> balanced res') /\
    Filter.errors res' = Filter.errors res.
Proof.
  intros Hids. induction decisions as [|d ds IH]; intros db db' res res' H.
  - injection H as <- <-. split; [apply grows_refl|now split].
  - cbn [fold_left] in H.
    destruct (storeDecision_cases batch_ db res d)
      as [E|(m & data & keep & Hm & Hkey & E)]; rewrite E in H.
    + now apply IH.
    + destruct (IH _ _ _ _ H) as (Hg & Hb & He).
      split; [|split].
      * apply (grows_trans ids db (Store.upsertAIProcessing db data));
          [|exact Hg].
        split; [reflexivity|]. intros k.
        unfold Store.upsertAIProcessing.
        cbn [Store.ai_processing Store.with_ai].
        destruct (decide (Store.AIProcessing.key data = k)) as [<-|Hne].
        -- right. exists (Filter.idOf m). split; [now apply Hids|exact Hkey].
        -- left. now rewrite lookup_insert_ne.
      * intros (Hp & Hk & Hd). apply Hb. unfold balanced.
        cbn [Filter.processed Filter.kept Filter.discarded].
        destruct keep; lia.
      * rewrite He. reflexivity.
Qed.

(** What one turn of the batch loop does to the loop variables. *)
Lemma processBatch_step (ids : list string) (st : Filter.State) (i : Z)
    (b : list Filter.Enriched) :
  (forall m, In m b -> In (Filter.idOf m) ids) ->
  let st' := processBatch st i b in
  grows ids (Filter.db st) (Filter.db st') /\
  (balanced (Filter.results st) -> balanced (Filter.results st')) /\
  (length (Filter.errors (Filter.results st'))
   <= S (length (Filter.errors (Filter.results st))))%nat /\
  Filter.calls (Filter.usage st) <= Filter.calls (Filter.usage st')
    <= Filter.calls (Filter.usage st) + 1 /\
  exists p,
    Filter.prompted st' = Filter.prompted st ++ [p] /\
    (1 <= Config.ai_retryAttempts config ->
     (1 <= Filter.requestCount p
      <= Z.to_nat (Config.ai_retryAttempts config))%nat).
Proof.
  intros Hids st'. subst st'. unfold processBatch, Filter.processBatch.
  set (processedBatch :=
         if Config.privacy_anonymizeInPrompts config
         then fst (Privacy.anonymizeMessages b false) else b).
  set (prompt_ := buildPrompt (stringifyPretty processedBatch)).
  pose proof (fun H =>
                processWithRetry_requests config
                  (Filter.request llm JSON_parse (Filter.requestsMade st)
                     prompt_)
                  (fun k => random (Filter.requestsMade st + k)%nat) H)
    as Hreq.
  fold (Filter.processWithAI config llm random JSON_parse
          (Filter.requestsMade st) prompt_) in Hreq.
  destruct (Filter.processWithAI config llm random JSON_parse
              (Filter.requestsMade st) prompt_) as [out evs].
  cbn [snd] in Hreq.
  set (response :=
         match out with
         | Retry.Returned value => Validation.validateFilterResponse value
         | Retry.Thrown e => Throw e
         | Retry.FellThrough =>
             Throw (mkError "Invalid AI response for filter stage")
         end).
  assert (Filter.calls (Filter.usage st)
          <= Filter.calls
               (Filter.trackLast llm (Filter.requestsMade st)
                  (Retry.requests evs) prompt_ (Filter.usage st))
          <= Filter.calls (Filter.usage st) + 1) as Hcalls.
  { unfold Filter.trackLast. destruct (Retry.requests evs); [lia|].
    destruct (llm _ prompt_); cbn [Filter.track Filter.calls]; lia. }
  destruct response as [e|validated].
  - cbn [Filter.db Filter.results Filter.usage Filter.prompted
           Filter.requestsMade].
    split; [apply grows_refl|]. split; [now intros H|].
    split; [cbn [Filter.pushError Filter.errors];
            rewrite length_app; cbn [length]; lia|].
    split; [exact Hcalls|].
    eexists. split; [reflexivity|exact Hreq].
  - destruct (fold_left _ (Filter.decisionsOf validated) _)
      as [db1 res1] eqn:E.
    cbn [Filter.db Filter.results Filter.usage Filter.prompted
           Filter.requestsMade].
    destruct (storeDecision_keeps ids b _ Hids _ _ _ _ E) as (Hg & Hb & He).
    split; [exact Hg|]. split; [exact Hb|].
    split; [rewrite He; lia|]. split; [exact Hcalls|].
    eexists. split; [reflexivity|exact Hreq].
Qed.

Lemma batchLoop_steps (ids : list string) (bs : list (list Filter.Enriched)) :
  (forall b m, In b bs -> In m b -> In (Filter.idOf m) ids) ->
  forall (st : Filter.State) (i : Z),
    let st' := batchLoop st i bs in
    grows ids (Filter.db st) (Filter.db st') /\
    (balanced (Filter.results st) -> balanced (Filter.results st')) /\
    (length (Filter.errors (Filter.results st'))
     <= length (Filter.errors (Filter.results st)) + length bs)%nat /\
    Filter.calls (Filter.usage st) <= Filter.calls (Filter.usage st')
      <= Filter.calls (Filter.usage st) + Z.of_nat (length bs) /\
    exists ps,
      Filter.prompted st' = Filter.prompted st ++ ps /\
      length ps = length bs /\
      (1 <= Config.ai_retryAttempts config ->
       Forall (fun p =>
                 (1 <= Filter.requestCount p
                  <= Z.to_nat (Config.ai_retryAttempts config))%nat) ps).
Proof.
  induction bs as [|b bs IH]; intros Hids st i st'; subst st'.
  - cbn [batchLoop Filter.batchLoop length]. split; [apply grows_refl|].
    split; [now intros H|]. split; [lia|]. split; [lia|].
    exists []. rewrite app_nil_r. repeat split. intros _. constructor.
  - unfold batchLoop. cbn [Filter.batchLoop]. fold batchLoop.
    fold processBatch.
    destruct (processBatch_step ids st i b)
      as (Hg1 & Hb1 & He1 & Hc1 & p & Hp1 & Hn1).
    { intros m Hm. apply (Hids b m); [now left|exact Hm]. }
    destruct (IH (fun b' m Hb' => Hids b' m (or_intror Hb'))
                (processBatch st i b) (i + 1))
      as (Hg2 & Hb2 & He2 & Hc2 & ps & Hp2 & Hl2 & Hn2).
    split; [now apply (grows_trans ids _ (Filter.db (processBatch st i b)))|].
    split; [intros H; now apply Hb2, Hb1|].
    cbn [length]. split; [lia|]. split; [lia|].
    exists (p :: ps). rewrite Hp2, Hp1, <- app_assoc. cbn [app length].
    split; [reflexivity|]. split; [now rewrite Hl2|].
    intros H. constructor; [now apply Hn1|now apply Hn2].
Qed.

(** Every message of a batch is the enriched form of a candidate. *)
Lemma batchesFor_candidates (db : Store.DB) (options : Filter.Options)
    (b : list Filter.Enriched) (m : Filter.Enriched) :
  In b (Filter.batchesFor config stringifyMessage db options) ->
  In m b ->
  In (Filter.idOf m)
    (map Store.messageId (Filter.candidates db options)).
Proof.
  intros Hb Hm.
  assert (In m (map (Filter.enrich db) (Filter.candidates db options)))
    as Hsrc.
  { rewrite <- (createBatchesWith_concat stringifyMessage
                  (Config.ai_maxTokensPerBatch config)
                  (Config.ai_batchSize config)).
    apply in_concat. exists b. split; [exact Hb|exact Hm]. }
  apply in_map_iff in Hsrc. destruct Hsrc as (r & <- & Hr).
  apply in_map_iff. exists r. split; [reflexivity|exact Hr].
Qed.

(** The run of the stage, with what the loop keeps. *)
Lemma runFilterStage_run (db : Store.DB) (options : Filter.Options) :
  let ids := map Store.messageId (Filter.candidates db options) in
  let '(result, db', prompts) :=
    Filter.runFilterStage config llm random JSON_parse stringifyMessage
      stringifyBatch stringifyPretty stringifyJson buildPrompt db options in
  grows ids db db' /\
  match result with
  | Filter.Ran res usage =>
      default false (Filter.dryRun options) = false /\
      balanced res /\
      (length (Filter.errors res) <= length prompts)%nat /\
      0 <= Filter.calls usage <= Z.of_nat (length prompts) /\
      length prompts =
        length (Filter.batchesFor config stringifyMessage db options) /\
      (1 <= Config.ai_retryAttempts config ->
       Forall (fun p =>
                 (1 <= Filter.requestCount p
                  <= Z.to_nat (Config.ai_retryAttempts config))%nat)
         prompts)
  | _ => db' = db /\ prompts = []
  end.
Proof.
  intros ids. unfold Filter.runFilterStage.
  destruct (length (Filter.candidates db options) =? 0)%nat;
    [split; [apply grows_refl|now split]|].
  destruct (default false (Filter.dryRun options));
    [split; [apply grows_refl|now split]|].
  set (bs := Filter.batchesFor config stringifyMessage db options).
  destruct (batchLoop_steps ids bs
              (fun b m Hb Hm => batchesFor_candidates db options b m Hb Hm)
              {| Filter.db := db; Filter.results := Filter.results0;
                 Filter.usage := Filter.usage0; Filter.requestsMade := 0;
                 Filter.prompted := [] |} 0)
    as (Hg & Hb & He & Hc & ps & Hp & Hl & Hn).
  fold batchLoop.
  cbn [Filter.db Filter.results Filter.usage Filter.prompted
         Filter.results0 Filter.errors Filter.usage0 Filter.calls
         length app] in *.
  rewrite Hp. split; [exact Hg|]. split; [reflexivity|].
  split; [apply Hb; unfold balanced; cbn; lia|].
  split; [lia|]. split; [lia|]. split; [exact Hl|exact Hn].
Qed.

End StageRuns.

(** X26.  In the result of a filter run the counters add up: [processed]
    is [kept] plus [discarded], neither of them negative; and whatever
    the model answers there is at most one error entry and at most one
    counted call per batch. *)
Theorem runFilterStage_counters :
  forall (config : Config.t)
         (llm : nat -> string -> Result Filter.LlmResponse)
         (random : nat -> Q) (JSON_parse : string -> option json)
         (stringifyMessage : Filter.Enriched -> string)
         (stringifyBatch stringifyPretty : list Filter.Enriched -> string)
         (stringifyJson : json -> string) (buildPrompt : string -> string)
         (db : Store.DB) (options : Filter.Options),
    let batches := Filter.batchesFor config stringifyMessage db options in
    match
      fst (fst (Filter.runFilterStage config llm random JSON_parse
                  stringifyMessage stringifyBatch stringifyPretty
                  stringifyJson buildPrompt db options))
    with
    | Filter.Ran res usage =>
        Filter.processed res = Filter.kept res + Filter.discarded res /\
        0 <= Filter.kept res /\ 0 <= Filter.discarded res /\
        (length (Filter.errors res) <= length batches)%nat /\
        0 <= Filter.calls usage <= Z.of_nat (length batches)
    | Filter.NothingToDo usage => usage = Filter.usage0
    | Filter.DryRunEstimate messageCount batchCount _ =>
        messageCount = Z.of_nat (length (Filter.candidates db options)) /\
        batchCount = Z.of_nat (length batches)
    end.
Proof.
  intros config llm random JSON_parse stringifyMessage stringifyBatch
         stringifyPretty stringifyJson buildPrompt db options batches.
  pose proof (runFilterStage_run config llm random JSON_parse
                stringifyMessage stringifyBatch stringifyPretty
                stringifyJson buildPrompt db options) as H.
  cbv zeta in H.
  destruct (Filter.runFilterStage _ _ _ _ _ _ _ _ _ _ _)
    as [[result db'] prompts] eqn:E.
  cbn [fst]. destruct H as [_ H]. destruct result.
  - unfold Filter.runFilterStage in E.
    destruct (length (Filter.candidates db options) =? 0)%nat;
      [now injection E as <- _ _|].
    destruct (default false (Filter.dryRun options)); discriminate.
  - unfold Filter.runFilterStage in E.
    destruct (length (Filter.candidates db options) =? 0)%nat;
      [discriminate|].
    destruct (default false (Filter.dryRun options)); [|discriminate].
    injection E as <- <- _ _ _. now split.
  - destruct H as (_ & (H1 & H2 & H3) & H4 & H5 & H6 & _).
    subst batches. rewrite <- H6. now repeat split.
Qed.

(** X27.  A filter run changes nothing in the database but
    [ai_processing]; there it leaves every row that was present as it
    was, and every row it adds is the filter row of one of the candidate
    messages.  A dry run changes nothing and hands nothing to the
    model. *)
Theorem runFilterStage_writes :
  forall (config : Config.t)
         (llm : nat -> string -> Result Filter.LlmResponse)
         (random : nat -> Q) (JSON_parse : string -> option json)
         (stringifyMessage : Filter.Enriched -> string)
         (stringifyBatch stringifyPretty : list Filter.Enriched -> string)
         (stringifyJson : json -> string) (buildPrompt : string -> string)
         (db : Store.DB) (options : Filter.Options),
    let '(result, db', prompts) :=
      Filter.runFilterStage config llm random JSON_parse stringifyMessage
        stringifyBatch stringifyPretty stringifyJson buildPrompt db options in
    db' = Store.with_ai db (Store.ai_processing db') /\
    (forall k row,
        Store.ai_processing db !! k = Some row ->
        Store.ai_processing db' !! k = Some row) /\
    (forall k,
        Store.ai_processing db !! k = None ->
        is_Some (Store.ai_processing db' !! k) ->
        exists r, In r (Filter.candidates db options) /\
                  k = ("message", Store.messageId r, "filter")) /\
    (default false (Filter.dryRun options) = true ->
     db' = db /\ prompts = []).
Proof.
  intros config llm random JSON_parse stringifyMessage stringifyBatch
         stringifyPretty stringifyJson buildPrompt db options.
  pose proof (runFilterStage_run config llm random JSON_parse
                stringifyMessage stringifyBatch stringifyPretty
                stringifyJson buildPrompt db options) as H.
  cbv zeta in H.
  destruct (Filter.runFilterStage _ _ _ _ _ _ _ _ _ _ _)
    as [[result db'] prompts].
  destruct H as [[Hsame Hrows] Hres].
  assert (forall k,
             Store.ai_processing db' !! k = Store.ai_processing db !! k \/
             exists r, In r (Filter.candidates db options) /\
                       k = ("message", Store.messageId r, "filter")) as Hk.
  { intros k. destruct (Hrows k) as [E|(i & Hi & ->)]; [now left|right].
    apply in_map_iff in Hi. destruct Hi as (r & <- & Hr). eauto. }
  split; [exact Hsame|]. split; [|split].
  - intros k row Hrow. destruct (Hk k) as [->|(r & Hr & ->)]; [exact Hrow|].
    apply getUnprocessedMessages_unprocessed in Hr. destruct Hr as [_ Hnone].
    congruence.
  - intros k Hnone [row Hrow]. destruct (Hk k) as [E|H]; [congruence|exact H].
  - intros Hdry. destruct result; try exact Hres.
    destruct Hres as [Hno _]. congruence.
Qed.

(** X28.  With at least one attempt configured, a filter run makes at
    least one and at most [retryAttempts] requests for every batch it
    hands to the model, whatever the model answers. *)
Theorem runFilterStage_request_budget :
  forall (config : Config.t)
         (llm : nat -> string -> Result Filter.LlmResponse)
         (random : nat -> Q) (JSON_parse : string -> option json)
         (stringifyMessage : Filter.Enriched -> string)
         (stringifyBatch stringifyPretty : list Filter.Enriched -> string)
         (stringifyJson : json -> string) (buildPrompt : string -> string)
         (db : Store.DB) (options : Filter.Options),
    1 <= Config.ai_retryAttempts config ->
    Forall (fun p =>
              (1 <= Filter.requestCount p
               <= Z.to_nat (Config.ai_retryAttempts config))%nat)
      (snd (Filter.runFilterStage config llm random JSON_parse
              stringifyMessage stringifyBatch stringifyPretty stringifyJson
              buildPrompt db options)).
Proof.
  intros config llm random JSON_parse stringifyMessage stringifyBatch
         stringifyPretty stringifyJson buildPrompt db options Hattempts.
  pose proof (runFilterStage_run config llm random JSON_parse
                stringifyMessage stringifyBatch stringifyPretty
                stringifyJson buildPrompt db options) as H.
  cbv zeta in H.
  destruct (Filter.runFilterStage _ _ _ _ _ _ _ _ _ _ _)
    as [[result db'] prompts].
  cbn [snd]. destruct H as [_ H].
  destruct result; try (destruct H as [_ ->]; constructor).
  destruct H as (_ & _ & _ & _ & _ & H). now apply H.
Qed.

Lemma runFilterStage_request_budget_witness :
  Forall (fun p => (1 <= Filter.requestCount p <= 3)%nat)
    (snd Pipeline.throttled).
Proof.
  apply (runFilterStage_request_budget Fixtures.config
           (fun k _ => Fixtures.always429 k) (fun _ => 1 # 2) Pipeline.parse
           Pipeline.showMessage Pipeline.showBatch Pipeline.showBatch
           Pipeline.showJson (fun text => text) Pipeline.db Pipeline.options).
  vm_compute. discriminate.
Defined.

(** ** Storing what the generator yields *)

Section BundleFacts.

Lemma forEach_succeeds {X} (op : Store.DB -> X -> Result Store.DB)
    (P : Store.DB -> Prop) (xs : list X) :
  (forall db x, In x xs -> P db -> exists db', op db x = Ok db' /\ P db') ->
  forall db, P db ->
             exists db', Scrape.forEach op xs db = (db', None) /\ P db'.
Proof.
  induction xs as [|x xs IH]; intros Hop db HP.
  - exists db. now split.
  - cbn [Scrape.forEach].
    destruct (Hop db x (or_introl eq_refl) HP) as (db1 & -> & HP1).
    apply IH; [|exact HP1].
    intros d y Hy. apply Hop. now right.
Qed.

(** The three tables of a bundle only ask for the message to be there. *)
Lemma upsertEmbed_succeeds db e :
  Store.hasMessage db (Store.Embed.message_id e) = true ->
  exists db', Store.upsertEmbed db e = Ok db' /\
              Store.messages db' = Store.messages db /\
              Store.channels db' = Store.channels db.
Proof.
  intros H. unfold Store.upsertEmbed. rewrite H. eexists. now repeat split.
Qed.

Lemma upsertAttachment_succeeds db a :
  Store.hasMessage db (Store.Attachment.message_id a) = true ->
  exists db', Store.upsertAttachment db a = Ok db' /\
              Store.messages db' = Store.messages db /\
              Store.channels db' = Store.channels db.
Proof.
  intros H. unfold Store.upsertAttachment. rewrite H.
  destruct (Store.attachments db !! _); eexists; now repeat split.
Qed.

Lemma upsertReaction_succeeds db r :
  Store.hasMessage db (Store.Reaction.message_id r) = true ->
  exists db', Store.upsertReaction db r = Ok db' /\
              Store.messages db' = Store.messages db /\
              Store.channels db' = Store.channels db.
Proof.
  intros H. unfold Store.upsertReaction. rewrite H.
  destruct (Store.reactions db !! _); eexists; now repeat split.
Qed.

Lemma upsertMessage_succeeds db (m : Discord.Message) :
  Store.has_key (Store.channels db) (Discord.channel_id m) = true ->
  exists db',
    Store.upsertMessage
      (Store.upsertUser db (Client.formatUserData (Discord.author m)))
      (Messages.formatMessageData m) = Ok db' /\
    Store.channels db' = Store.channels db.
Proof.
  intros Hc. unfold Store.upsertMessage.
  destruct (Store.getMessage _ _); [eexists; now split|].
  cbn [Messages.formatMessageData Store.Message.channel_id
         Store.Message.author_id Store.upsertUser Store.channels
         Store.users Store.with_users Client.formatUserData Store.User.id].
  rewrite Hc. unfold Store.has_key at 1. rewrite lookup_insert_eq.
  cbn [andb]. eexists. now split.
Qed.

Lemma storeBundle_succeeds db (m : Discord.Message) :
  Store.has_key (Store.channels db) (Discord.channel_id m) = true ->
  exists db',
    Scrape.storeBundle db (Messages.bundleOf m) = (db', None) /\
    Store.channels db' = Store.channels db.
Proof.
  intros Hc. unfold Scrape.storeBundle.
  cbn [Messages.bundleOf Messages.user Messages.message Messages.embeds
         Messages.attachments Messages.reactions].
  destruct (upsertMessage_succeeds db m Hc) as (db2 & E2 & Hc2).
  rewrite E2.
  pose proof (upsertMessage_stores _ _ _ E2) as Hm2.
  cbn [Messages.formatMessageData Store.Message.id] in Hm2.
  set (P := fun d : Store.DB =>
              Store.hasMessage d (Discord.id m) = true /\
              Store.channels d = Store.channels db).
  assert (P db2) as HP2 by now split.
  destruct (forEach_succeeds Store.upsertEmbed P
              (map (fun e => Messages.formatEmbedData e (Discord.id m))
                 (Discord.embeds m))) with (db := db2)
    as (db3 & -> & HP3); [|exact HP2|].
  { intros d x Hx [Hd1 Hd2]. apply in_map_iff in Hx.
    destruct Hx as (e & <- & _).
    destruct (upsertEmbed_succeeds d (Messages.formatEmbedData e (Discord.id m)))
      as (d' & Hd' & Hmsg & Hch); [exact Hd1|].
    exists d'. split; [exact Hd'|]. split; [|congruence].
    now rewrite (hasMessage_messages d d' _ Hmsg). }
  destruct (forEach_succeeds Store.upsertAttachment P
              (map (fun a => Messages.formatAttachmentData a (Discord.id m))
                 (Discord.attachments m))) with (db := db3)
    as (db4 & -> & HP4); [|exact HP3|].
  { intros d x Hx [Hd1 Hd2]. apply in_map_iff in Hx.
    destruct Hx as (a & <- & _).
    destruct (upsertAttachment_succeeds d
                (Messages.formatAttachmentData a (Discord.id m)))
      as (d' & Hd' & Hmsg & Hch); [exact Hd1|].
    exists d'. split; [exact Hd'|]. split; [|congruence].
    now rewrite (hasMessage_messages d d' _ Hmsg). }
  destruct (forEach_succeeds Store.upsertReaction P
              (map (fun r => Messages.formatReactionData r (Discord.id m))
                 (Discord.reactions m))) with (db := db4)
    as (db5 & -> & HP5); [|exact HP4|].
  { intros d x Hx [Hd1 Hd2]. apply in_map_iff in Hx.
    destruct Hx as (r & <- & _).
    destruct (upsertReaction_succeeds d
                (Messages.formatReactionData r (Discord.id m)))
      as (d' & Hd' & Hmsg & Hch); [exact Hd1|].
    exists d'. split; [exact Hd'|]. split; [|congruence].
    now rewrite (hasMessage_messages d d' _ Hmsg). }
  exists db5. split; [reflexivity|]. apply HP5.
Qed.

End BundleFacts.

(** X29.  When the channel of every message of a page has a row, storing
    the page never fails: [consume] writes the user, the message, the
    embeds, the attachments and the reactions of each message, counts
    each message once, and every message of the page is stored
    afterwards. *)
Theorem consume_succeeds :
  forall (db : Store.DB) (page : list Discord.Message) (count : Z)
         (latest : option string),
    (forall m, In m page ->
               Store.has_key (Store.channels db) (Discord.channel_id m)
               = true) ->
    exists db' latest',
      Scrape.consume (map Messages.bundleOf page) db count latest =
        (db', Ok (count + Z.of_nat (length page), latest')) /\
      forall m, In m page -> Store.hasMessage db' (Discord.id m) = true.
Proof.
  intros db page count latest Hch.
  assert (exists db' r,
             Scrape.consume (map Messages.bundleOf page) db count latest =
               (db', Ok r)) as (db' & [n latest'] & E).
  { revert db count latest Hch.
    induction page as [|m page IH]; intros db count latest Hch.
    - eexists _, _. reflexivity.
    - cbn [map Scrape.consume].
      destruct (storeBundle_succeeds db m (Hch m (or_introl eq_refl)))
        as (db1 & -> & Hc1).
      apply IH. intros m' Hm'. rewrite Hc1. apply Hch. now right. }
  destruct (consume_ok _ _ _ _ _ _ _ E) as (Hn & _ & Hall).
  exists db', latest'. rewrite E, Hn, length_map. split; [reflexivity|].
  intros m Hm. apply (Hall (Messages.bundleOf m)). now apply in_map.
Qed.

Lemma consume_succeeds_witness :
  exists db' latest',
    Scrape.consume (map Messages.bundleOf Stored.page) Fresh.withChannel 0
      None = (db', Ok (2, latest')) /\
    Store.hasMessage db' "200" = true.
Proof.
  destruct (consume_succeeds Fresh.withChannel Stored.page 0 None)
    as (db' & latest' & E & Hall).
  - intros m Hm. cbn in Hm. destruct Hm as [<-|[<-|[]]]; reflexivity.
  - exists db', latest'. split; [exact E|].
    apply (Hall (Service.messageAt "c1" 200)). cbn. tauto.
Defined.

(** ** The reset command *)

Section ResetFacts.

Lemma countStage_zero (db : Store.DB) (stage : string) :
  Process.countStage db stage = 0 ->
  forall entityType entityId,
    Store.ai_processing db !! (entityType, entityId, stage) = None.
Proof.
  unfold Process.countStage. intros H entityType entityId.
  assert (filter (fun kv => snd (fst kv) = stage) (Store.ai_processing db)
          = ∅) as He by (apply map_size_empty_iff; lia).
  destruct (Store.ai_processing db !! (entityType, entityId, stage))
    as [row|] eqn:E; [|reflexivity].
  assert (filter (fun kv => snd (fst kv) = stage) (Store.ai_processing db)
          !! (entityType, entityId, stage) = Some row) as Hin
      by (apply map_lookup_filter_Some; now split).
  rewrite He, lookup_empty in Hin. discriminate.
Qed.

Lemma reset_rows (db : Store.DB) (stage : string) :
  existsb (String.eqb stage) Process.stageOrder = true ->
  let db' := fst (Process.reset db stage true) in
  db' = Store.with_ai db (Store.ai_processing db') /\
  (forall entityType entityId,
      Store.ai_processing db' !! (entityType, entityId, stage) = None) /\
  (forall entityType entityId other,
      other <> stage ->
      Store.ai_processing db' !! (entityType, entityId, other) =
      Store.ai_processing db !! (entityType, entityId, other)).
Proof.
  intros Hknown db'. subst db'. unfold Process.reset. rewrite Hknown.
  cbn [negb].
  destruct (Process.countStage db stage =? 0) eqn:Ez.
  - cbn [fst]. split; [now destruct db|]. split; [|reflexivity].
    apply countStage_zero. now apply Z.eqb_eq.
  - cbn [fst Store.ai_processing Store.with_ai].
    split; [reflexivity|]. split.
    + intros entityType entityId. apply map_lookup_filter_None. right.
      intros row _. cbn. tauto.
    + intros entityType entityId other Hne.
      destruct (Store.ai_processing db !! (entityType, entityId, other))
        as [row|] eqn:E.
      * apply map_lookup_filter_Some. now split.
      * apply map_lookup_filter_None. now left.
Qed.

End ResetFacts.

(** X30.  [process reset] with [--confirm] on a stage of [stageOrder]
    leaves no row of that stage in [ai_processing], keeps the rows of
    every other stage and every other table, and makes every stored
    message unprocessed for that stage again.  Without [--confirm]
    nothing is deleted. *)
Theorem reset_clears_stage :
  forall (db : Store.DB) (stage : string),
    In stage Process.stageOrder ->
    let db' := fst (Process.reset db stage true) in
    db' = Store.with_ai db (Store.ai_processing db') /\
    (forall entityType entityId,
        Store.ai_processing db' !! (entityType, entityId, stage) = None) /\
    (forall entityType entityId other,
        other <> stage ->
        Store.ai_processing db' !! (entityType, entityId, other) =
        Store.ai_processing db !! (entityType, entityId, other)) /\
    Permutation
      (Store.getUnprocessedMessages db' stage
         {| Store.channelId := None; Store.limit := None;
            Store.startDate := None; Store.endDate := None |})
      (Store.messages db) /\
    fst (Process.reset db stage false) = db.
Proof.
  intros db stage Hin db'.
  assert (existsb (String.eqb stage) Process.stageOrder = true) as Hknown
      by now apply existsb_eqb_In.
  destruct (reset_rows db stage Hknown) as (Hsame & Hnone & Hother).
  fold db' in Hsame, Hnone, Hother.
  split; [exact Hsame|]. split; [exact Hnone|]. split; [exact Hother|].
  split.
  - unfold Store.getUnprocessedMessages. cbn [Store.limit].
    rewrite stableSort_perm.
    replace (Store.messages db) with (Store.messages db')
      by (rewrite Hsame; reflexivity).
    rewrite (filter_ext _ (fun _ => true)).
    + induction (Store.messages db') as [|r l IH]; [reflexivity|].
      cbn [List.filter]. now constructor.
    + intros r. unfold Store.unprocessedWhere, Store.has_key.
      cbn [Store.channelId Store.startDate Store.endDate].
      now rewrite Hnone.
  - unfold Process.reset. rewrite Hknown. cbn [negb].
    destruct (_ =? 0); reflexivity.
Qed.

Lemma reset_clears_stage_witness :
  Store.ai_processing (fst (Process.reset Stored.filtered "filter" true))
    !! ("message", "1", "filter") = None /\
  Store.has_key (Store.ai_processing Stored.filtered)
    ("message", "1", "filter") = true.
Proof.
  split; [|vm_compute; reflexivity].
  apply (reset_clears_stage Stored.filtered "filter").
  cbn. tauto.
Defined.
